(** * fcheck: a consistency checker for xv6 file-system images

    A shallow embedding of [Project4.c].  The image is the byte buffer that
    [main] maps read-only, the bytes of the file and the zero bytes that
    fill its last page; every pointer of the C program is an offset into
    that buffer, every dereference is a bounds-checked load, and [exit(1)]
    after a diagnostic is the [Exit] outcome.  An access outside a buffer or
    an array has no defined behaviour in C and is the [Fault] outcome: the
    embedding marks the access and follows the run no further.  A theorem
    can so say where such an access happens, or that none does; what a
    compiled program does after one is not a matter of the source. *)

From Stdlib Require Import String ZArith List Lia Bool Relations.
From Stdlib Require Import Strings.Byte.
Import ListNotations.
Local Open Scope Z_scope.

(** ** Outcomes *)

(** The [type] argument of [blk_usage_chk]: "direct" or "indirect". *)
Inductive akind : Type := Kdirect | Kindirect.

(** One constructor per diagnostic the program prints before [exit(1)]. *)
Inductive error : Type :=
| BadInodeType
| BadDirectAddress
| BadIndirectAddress
| MissingRoot
| MalformedDirectory
| AddressNotInBitmap
| BitmapMarksUnused
| DuplicateBlockUse (k : akind)
| InodeNotInAnyDirectory
| DanglingDirectoryReference
| BadLinkCount
| DirectoryHardLinked.

Definition akind_name (k : akind) : string :=
  match k with Kdirect => "direct" | Kindirect => "indirect" end.

(** The line written to standard error. *)
Definition message (e : error) : string :=
  match e with
  | BadInodeType => "ERROR: bad inode."
  | BadDirectAddress => "ERROR: bad direct address in inode."
  | BadIndirectAddress => "ERROR: bad indirect address in inode."
  | MissingRoot => "ERROR: root directory does not exist."
  | MalformedDirectory => "ERROR: directory not properly formatted."
  | AddressNotInBitmap => "ERROR: address used by inode but marked free in bitmap."
  | BitmapMarksUnused => "ERROR: bitmap marks block in use but it is not in use."
  | DuplicateBlockUse k => "ERROR: " ++ akind_name k ++ " address used more than once."
  | InodeNotInAnyDirectory => "ERROR: inode marked use but not found in a directory."
  | DanglingDirectoryReference => "ERROR: inode referred to in directory but marked free."
  | BadLinkCount => "ERROR: bad reference count for file."
  | DirectoryHardLinked => "ERROR: directory appears more than once in file system."
  end.

(** [Ok a]: the function returned [a].  [Exit e]: it printed [message e] and
    called [exit(1)].  [Fault]: it read or wrote outside the mapped image or
    outside a local array, an access C leaves undefined.  [OutOfFuel]: the
    recursion of [traverse_dirs] went deeper than the fuel it was given. *)
Inductive result (A : Type) : Type :=
| Ok (a : A)
| Exit (e : error)
| Fault
| OutOfFuel.

Arguments Ok {A} a.
Arguments Exit {A} e.
Arguments Fault {A}.
Arguments OutOfFuel {A}.

Definition bind {A B : Type} (m : result A) (k : A -> result B) : result B :=
  match m with
  | Ok a => k a
  | Exit e => Exit e
  | Fault => Fault
  | OutOfFuel => OutOfFuel
  end.

Notation "x <- m ;; k" := (bind m (fun x => k))
  (at level 61, m at next level, right associativity).
Notation "m ;;; k" := (bind m (fun _ => k))
  (at level 61, right associativity).

(** ** Machine integers *)

(** [uint] arithmetic wraps modulo 2^32. *)
Definition u32 (z : Z) : Z := z mod 4294967296.

(** An [int] that is incremented past [INT_MAX]: two's complement wrap-around,
    as the compiled program does. *)
Definition wrap_int (z : Z) : Z := (z + 2147483648) mod 4294967296 - 2147483648.

(** A 16-bit pattern read as [short]. *)
Definition sext16 (z : Z) : Z := if z <? 32768 then z else z - 65536.

(** An 8-bit pattern read as [char] and promoted to [int]. *)
Definition sext8 (z : Z) : Z := if z <? 128 then z else z - 256.

(** ** Arrays and the mapped image *)

Fixpoint zth {A : Type} (l : list A) (i : Z) : option A :=
  match l with
  | [] => None
  | x :: r => if i =? 0 then Some x else zth r (i - 1)
  end.

Fixpoint zupd {A : Type} (l : list A) (i : Z) (v : A) : list A :=
  match l with
  | [] => []
  | x :: r => if i =? 0 then v :: r else x :: zupd r (i - 1) v
  end.

(** [a[i]] for a local array [a]. *)
Definition aget {A : Type} (a : list A) (i : Z) : result A :=
  if i <? 0 then Fault
  else match zth a i with Some x => Ok x | None => Fault end.

(** [a[i] = v]. *)
Definition aset {A : Type} (a : list A) (i : Z) (v : A) : result (list A) :=
  if i <? 0 then Fault
  else match zth a i with Some _ => Ok (zupd a i v) | None => Fault end.

(** A zero-filled array of [n] cells ([memset] after the declaration). *)
Definition zeros {A : Type} (z : A) (n : Z) : list A := repeat z (Z.to_nat n).

Definition byte_val (b : byte) : Z := Z.of_N (Byte.to_N b).

(** Little-endian loads at a byte offset of the mapped image. *)
Definition ld8 (m : list byte) (off : Z) : result Z :=
  if off <? 0 then Fault
  else match zth m off with Some b => Ok (byte_val b) | None => Fault end.

Definition ld16 (m : list byte) (off : Z) : result Z :=
  b0 <- ld8 m off ;; b1 <- ld8 m (off + 1) ;; Ok (b0 + 256 * b1).

Definition ld32 (m : list byte) (off : Z) : result Z :=
  b0 <- ld8 m off ;; b1 <- ld8 m (off + 1) ;;
  b2 <- ld8 m (off + 2) ;; b3 <- ld8 m (off + 3) ;;
  Ok (b0 + 256 * b1 + 65536 * b2 + 16777216 * b3).

(** [strcmp(s, lit) == 0] for a string literal [lit] (given without its
    terminating NUL) and the bytes at offset [off]: the comparison stops at
    the first byte that differs, so it reads at most [length lit + 1] bytes. *)
Fixpoint strcmp_eq (m : list byte) (off : Z) (lit : list Z) : result bool :=
  match lit with
  | [] => c <- ld8 m off ;; Ok (c =? 0)
  | x :: r => c <- ld8 m off ;; if c =? x then strcmp_eq m (off + 1) r else Ok false
  end.

Definition dot : list Z := [46].
Definition dotdot : list Z := [46; 46].

(** ** Loops *)

(** [for (i = lo; <n more iterations>; i++) body], threading the state the
    body updates; an [Exit] or a [Fault] in the body ends the loop. *)
Fixpoint for_loop {S : Type} (n : nat) (i : Z) (body : Z -> S -> result S) (s : S)
  : result S :=
  match n with
  | O => Ok s
  | Datatypes.S n' => s' <- body i s ;; for_loop n' (i + 1) body s'
  end.

Definition for_range {S : Type} (lo hi : Z) (body : Z -> S -> result S) (s : S)
  : result S :=
  for_loop (Z.to_nat (hi - lo)) lo body s.

(** The same loop with [break]: the body returns [true] to leave the loop. *)
Fixpoint for_break {S : Type} (n : nat) (i : Z) (body : Z -> S -> result (bool * S)) (s : S)
  : result S :=
  match n with
  | O => Ok s
  | Datatypes.S n' =>
      r <- body i s ;;
      if fst r then Ok (snd r) else for_break n' (i + 1) body (snd r)
  end.

(** ** On-disk layout *)

(** Modelled from the spec: [fs.h] and [types.h] are not among the sources.
    The spec (sections 3 and 6) fixes the format as the xv6 one: fixed block
    size, block 1 the superblock (block count, data block count, inode
    count), inode records (type tag, link count, size, direct addresses and
    one indirect address), directory entries (inode number and fixed-width
    name), bitmap bits packed LSB-first.  The numbers are those of the xv6
    header the checker is compiled against. *)
Definition BSIZE : Z := 512.
Definition BLK_SZ : Z := BSIZE.
Definition NDIRECT : Z := 12.
Definition UINT_SZ : Z := 4.
Definition NINDIRECT : Z := BSIZE / UINT_SZ.
Definition DINODE_SZ : Z := 64.
Definition DIRENT_SZ : Z := 16.
Definition IPB : Z := BSIZE / DINODE_SZ.
Definition BPB : Z := BSIZE * 8.
Definition DPB : Z := BSIZE / DIRENT_SZ.
Definition T_DIR : Z := 1.
Definition T_FILE : Z := 2.
Definition T_DEV : Z := 3.

(** [struct superblock { uint size; uint nblocks; uint ninodes; ... }]. *)
Record superblock : Type := mk_sb {
  sb_size : Z;
  sb_nblocks : Z;
  sb_ninodes : Z
}.

(** [img_t].  Pointers are byte offsets from the start of the mapping.  The
    superblock lives in the read-only mapping and [init_img] dereferences it,
    so every later [img->sb->field] yields the value read there: the record
    holds the three values. *)
Record img_t : Type := mk_img {
  img_ninodeblks : Z;
  img_nbitmapblks : Z;
  img_firstblk : Z;
  img_sb : superblock;
  img_inodeblks : Z;
  img_bitmapblks : Z;
  img_data : Z;
  img_map : list byte
}.

(** [struct dinode { short type; short major; short minor; short nlink;
    uint size; uint addrs[NDIRECT+1]; }], read through a pointer [ip]. *)
Definition in_type (img : img_t) (ip : Z) : result Z :=
  v <- ld16 (img_map img) ip ;; Ok (sext16 v).

Definition in_nlink (img : img_t) (ip : Z) : result Z :=
  v <- ld16 (img_map img) (ip + 6) ;; Ok (sext16 v).

Definition in_addr (img : img_t) (ip : Z) (i : Z) : result Z :=
  ld32 (img_map img) (ip + 12 + UINT_SZ * i).

(** [struct dirent { ushort inum; char name[DIRSIZ]; }], read through [de]. *)
Definition de_inum (img : img_t) (de : Z) : result Z := ld16 (img_map img) de.
Definition de_name (de : Z) : Z := de + 2.

(** [img->map + addr * BLK_SZ]: the product is computed in [uint]. *)
Definition blk_ptr (addr : Z) : Z := u32 (addr * BLK_SZ).

(** [((struct dirent * )(img->map + addr * BLK_SZ)) + j]. *)
Definition dirent_at (addr j : Z) : Z := blk_ptr addr + j * DIRENT_SZ.

(** [((uint * )(img->map + addr * BLK_SZ))[j]]. *)
Definition ind_slot (img : img_t) (addr j : Z) : result Z :=
  ld32 (img_map img) (blk_ptr addr + UINT_SZ * j).

(** [((struct dinode * )img->inodeblks) + inum]. *)
Definition inode_at (img : img_t) (inum : Z) : Z := img_inodeblks img + inum * DINODE_SZ.

(** ** The checker *)

(** [init_img]. *)
Definition init_img (m : list byte) : result img_t :=
  let sbp := 1 * BLK_SZ in
  size <- ld32 m sbp ;;
  nblocks <- ld32 m (sbp + 4) ;;
  ninodes <- ld32 m (sbp + 8) ;;
  let ninodeblks := u32 (ninodes / IPB + 1) in
  let nbitmapblks := u32 (size / BPB + 1) in
  let inodeblks := 2 * BLK_SZ in
  let bitmapblks := inodeblks + u32 (ninodeblks * BLK_SZ) in
  let data := bitmapblks + u32 (nbitmapblks * BLK_SZ) in
  Ok {| img_ninodeblks := ninodeblks;
        img_nbitmapblks := nbitmapblks;
        img_firstblk := u32 (u32 (ninodeblks + nbitmapblks) + 2);
        img_sb := mk_sb size nblocks ninodes;
        img_inodeblks := inodeblks;
        img_bitmapblks := bitmapblks;
        img_data := data;
        img_map := m |}.

(** [validate_type]. *)
Definition validate_type (img : img_t) (ip : Z) : result unit :=
  t <- in_type img ip ;;
  if (t =? T_FILE) || (t =? T_DIR) || (t =? T_DEV) then Ok tt else Exit BadInodeType.

(** [valid_addr]. *)
Definition valid_addr (img : img_t) (addr : Z) : bool :=
  (0 <? addr) && (addr <? sb_size (img_sb img)).

(** [check_direct]. *)
Definition check_direct (img : img_t) (ip : Z) : result unit :=
  for_range 0 NDIRECT (fun i _ =>
    addr <- in_addr img ip i ;;
    if addr =? 0 then Ok tt
    else if negb (valid_addr img addr) then Exit BadDirectAddress
    else Ok tt) tt.

(** [memcpy(indirect_addrs, img->map + addr * BLK_SZ, NINDIRECT * sizeof(uint))]:
    the whole block is read before any slot is looked at. *)
Fixpoint ld32s (m : list byte) (off : Z) (n : nat) : result (list Z) :=
  match n with
  | O => Ok []
  | S n' => v <- ld32 m off ;; r <- ld32s m (off + UINT_SZ) n' ;; Ok (v :: r)
  end.

(** [check_indirect]. *)
Definition check_indirect (img : img_t) (ip : Z) : result unit :=
  addr <- in_addr img ip NDIRECT ;;
  if addr =? 0 then Ok tt
  else if negb (valid_addr img addr) then Exit BadIndirectAddress
  else
    indirect_addrs <- ld32s (img_map img) (blk_ptr addr) (Z.to_nat NINDIRECT) ;;
    for_range 0 NINDIRECT (fun i _ =>
      a <- aget indirect_addrs i ;;
      if a =? 0 then Ok tt
      else if negb (valid_addr img a) then Exit BadIndirectAddress
      else Ok tt) tt.

(** [process_entries]: one block of directory entries; the state is the pair
    of flags behind [dot] and [ddot]. *)
Definition process_entries (img : img_t) (addr inum : Z) (fl : bool * bool)
  : result (bool * bool) :=
  for_range 0 DPB (fun j fl =>
    let de := dirent_at addr j in
    is_dot <- strcmp_eq (img_map img) (de_name de) dot ;;
    if is_dot then
      n <- de_inum img de ;;
      if negb (n =? inum) then Exit MalformedDirectory else Ok (true, snd fl)
    else
      is_ddot <- strcmp_eq (img_map img) (de_name de) dotdot ;;
      if is_ddot then
        n <- de_inum img de ;;
        if (negb (inum =? 1) && (n =? inum)) || ((inum =? 1) && negb (n =? inum))
        then Exit MissingRoot
        else Ok (fst fl, true)
      else Ok fl) fl.

(** [validate_dir]. *)
Definition validate_dir (img : img_t) (ip inum : Z) : result unit :=
  fl <- for_break (Z.to_nat NDIRECT) 0 (fun i fl =>
          addr <- in_addr img ip i ;;
          if addr =? 0 then Ok (false, fl)
          else fl' <- process_entries img addr inum fl ;;
               Ok (fst fl' && snd fl', fl')) (false, false) ;;
  if negb (fst fl) || negb (snd fl) then Exit MalformedDirectory else Ok tt.

(** [char bits[8]], as bit patterns. *)
Definition bits : list Z := [1; 2; 4; 8; 16; 32; 64; 128].

(** [CHK_BIT(bmp, addr)]: both operands are [char]s promoted to [int]. *)
Definition CHK_BIT (img : img_t) (bmp addr : Z) : result Z :=
  b <- ld8 (img_map img) (bmp + addr / 8) ;;
  m <- aget bits (addr mod 8) ;;
  Ok (Z.land (sext8 b) (sext8 m)).

(** [marked_in_bmp]: the [int] is converted to [bool]. *)
Definition marked_in_bmp (img : img_t) (bmp addr : Z) : result bool :=
  v <- CHK_BIT img bmp addr ;; Ok (negb (v =? 0)).

(** The body shared by the loops of [chk_bmp_addr] and [chk_indirect], up to
    [chkd[addr] = true]; [None] stands for [continue]. *)
Definition chk_one (img : img_t) (addr : Z) (chkd : list bool)
  : result (option (list bool)) :=
  if addr =? 0 then Ok None
  else
    seen <- aget chkd addr ;;
    if seen : bool then Ok None
    else
      mk <- marked_in_bmp img (img_bitmapblks img) addr ;;
      if negb mk then Exit AddressNotInBitmap
      else chkd' <- aset chkd addr true ;; Ok (Some chkd').

(** [chk_indirect]. *)
Definition chk_indirect (img : img_t) (ind : Z) (chkd : list bool) : result (list bool) :=
  for_range 0 NINDIRECT (fun j chkd =>
    addr <- ld32 (img_map img) (ind + UINT_SZ * j) ;;
    r <- chk_one img addr chkd ;;
    match r with None => Ok chkd | Some chkd' => Ok chkd' end) chkd.

(** [chk_bmp_addr]. *)
Definition chk_bmp_addr (img : img_t) (ip : Z) : result unit :=
  let chkd := zeros false (sb_size (img_sb img)) in
  for_range 0 (NDIRECT + 1) (fun i chkd =>
    addr <- in_addr img ip i ;;
    r <- chk_one img addr chkd ;;
    match r with
    | None => Ok chkd
    | Some chkd' =>
        if i =? NDIRECT then chk_indirect img (blk_ptr addr) chkd' else Ok chkd'
    end) chkd ;;;
  Ok tt.

(** [chk_mark_bmp]. *)
Definition chk_mark_bmp (img : img_t) (bmp addr : Z) (chklist : list bool)
  : result (list bool) :=
  v <- CHK_BIT img bmp addr ;;
  if v =? 0 then Exit BitmapMarksUnused else aset chklist addr true.

(** The first loop of [bmp_chk]: every address of every inode in use. *)
Definition bmp_chk_inodes (img : img_t) (chklist : list bool) : result (list bool) :=
  for_range 0 (sb_ninodes (img_sb img)) (fun i chklist =>
    let ip := inode_at img i in
    t <- in_type img ip ;;
    if t =? 0 then Ok chklist
    else
      chklist <- for_range 0 NDIRECT (fun j chklist =>
                   a <- in_addr img ip j ;;
                   if negb (a =? 0) then chk_mark_bmp img (img_bitmapblks img) a chklist
                   else Ok chklist) chklist ;;
      indaddr <- in_addr img ip NDIRECT ;;
      if negb (indaddr =? 0) then
        for_range 0 NINDIRECT (fun j chklist =>
          a <- ind_slot img indaddr j ;;
          if negb (a =? 0) then chk_mark_bmp img (img_bitmapblks img) a chklist
          else Ok chklist) chklist
      else Ok chklist) chklist.

(** The last loop of [bmp_chk] ("Final check for unused blocks marked as
    used"): the condition is evaluated, the body of the [if] is empty. *)
Definition bmp_chk_unused (img : img_t) (chklist : list bool) : result unit :=
  for_range 0 (sb_size (img_sb img)) (fun i _ =>
    v <- CHK_BIT img (img_bitmapblks img) i ;;
    if negb (v =? 0) then
      c <- aget chklist i ;;
      if negb c then Ok tt else Ok tt
    else Ok tt) tt.

(** [bmp_chk]. *)
Definition bmp_chk (img : img_t) : result unit :=
  chklist <- bmp_chk_inodes img (zeros false (sb_size (img_sb img))) ;;
  bmp_chk_unused img chklist.

(** [blk_usage_chk]. *)
Definition blk_usage_chk (usage_counts : list Z) (startblk : Z) (type : akind) (addr : Z)
  : result (list Z) :=
  if addr =? 0 then Ok usage_counts
  else
    let idx := u32 (addr - startblk) in
    c <- aget usage_counts idx ;;
    usage_counts <- aset usage_counts idx (u32 (c + 1)) ;;
    c' <- aget usage_counts idx ;;
    if 1 <? c' then Exit (DuplicateBlockUse type) else Ok usage_counts.

(** The body of the inode loop of [addrs_chk]. *)
Definition addrs_chk_inode (img : img_t) (i : Z) (usage_counts : list Z)
  : result (list Z) :=
  let ip := inode_at img i in
  t <- in_type img ip ;;
  if t =? 0 then Ok usage_counts
  else
    usage_counts <- for_range 0 NDIRECT (fun j uc =>
                      a <- in_addr img ip j ;;
                      blk_usage_chk uc (img_firstblk img) Kdirect a) usage_counts ;;
    indaddr <- in_addr img ip NDIRECT ;;
    if negb (indaddr =? 0) then
      for_range 0 NINDIRECT (fun j uc =>
        a <- ind_slot img indaddr j ;;
        blk_usage_chk uc (img_firstblk img) Kindirect a) usage_counts
    else Ok usage_counts.

(** [addrs_chk]. *)
Definition addrs_chk (img : img_t) : result unit :=
  for_range 0 (sb_ninodes (img_sb img)) (addrs_chk_inode img)
    (zeros 0 (sb_nblocks (img_sb img))) ;;;
  Ok tt.

(** [inodemap[i]++] on an array of [int]. *)
Definition incr (a : list Z) (i : Z) : result (list Z) :=
  c <- aget a i ;; aset a i (wrap_int (c + 1)).

(** The nested function [process_block] of [traverse_dirs]; [rec] is the
    recursive call [traverse_dirs(img, next_inode, inodemap)]. *)
Definition process_block (rec : Z -> list Z -> result (list Z)) (img : img_t)
  (addr : Z) (inodemap : list Z) : result (list Z) :=
  if addr =? 0 then Ok inodemap
  else
    for_range 0 DPB (fun j inodemap =>
      let de := dirent_at addr j in
      n <- de_inum img de ;;
      if n =? 0 then Ok inodemap
      else
        is_dot <- strcmp_eq (img_map img) (de_name de) dot ;;
        if is_dot then Ok inodemap
        else
          is_ddot <- strcmp_eq (img_map img) (de_name de) dotdot ;;
          if is_ddot then Ok inodemap
          else
            inodemap <- incr inodemap n ;;
            rec (inode_at img n) inodemap) inodemap.

(** [traverse_dirs].  The C function recurses with nothing that bounds the
    depth; [fuel] is the depth the model follows before giving [OutOfFuel]. *)
Fixpoint traverse_dirs (fuel : nat) (img : img_t) (dir_inode : Z) (inodemap : list Z)
  : result (list Z) :=
  match fuel with
  | O => OutOfFuel
  | S fuel' =>
      t <- in_type img dir_inode ;;
      if negb (t =? T_DIR) then Ok inodemap
      else
        inodemap <- for_range 0 NDIRECT (fun i inodemap =>
                      a <- in_addr img dir_inode i ;;
                      process_block (traverse_dirs fuel' img) img a inodemap) inodemap ;;
        addr <- in_addr img dir_inode NDIRECT ;;
        if negb (addr =? 0) then
          for_range 0 NINDIRECT (fun i inodemap =>
            a <- ind_slot img addr i ;;
            process_block (traverse_dirs fuel' img) img a inodemap) inodemap
        else Ok inodemap
  end.

(** [chk_in_use]. *)
Definition chk_in_use (img : img_t) (ip idx : Z) (inmap : list Z) : result unit :=
  t <- in_type img ip ;;
  if negb (t =? 0) then
    c <- aget inmap idx ;;
    if c =? 0 then Exit InodeNotInAnyDirectory else Ok tt
  else Ok tt.

(** [chk_in_free]. *)
Definition chk_in_free (img : img_t) (ip idx : Z) (inmap : list Z) : result unit :=
  c <- aget inmap idx ;;
  if 0 <? c then
    t <- in_type img ip ;;
    if t =? 0 then Exit DanglingDirectoryReference else Ok tt
  else Ok tt.

(** [chk_ref_cnt]. *)
Definition chk_ref_cnt (img : img_t) (ip idx : Z) (inmap : list Z) : result unit :=
  t <- in_type img ip ;;
  if t =? T_FILE then
    nl <- in_nlink img ip ;;
    c <- aget inmap idx ;;
    if negb (nl =? c) then Exit BadLinkCount else Ok tt
  else Ok tt.

(** [chk_dir_once]. *)
Definition chk_dir_once (img : img_t) (ip idx : Z) (inmap : list Z) : result unit :=
  t <- in_type img ip ;;
  if t =? T_DIR then
    c <- aget inmap idx ;;
    if 1 <? c then Exit DirectoryHardLinked else Ok tt
  else Ok tt.

(** The table [dir_chk] hands to [traverse_dirs]: [inmap] zeroed, then
    [inmap[0]++; inmap[1]++]. *)
Definition dir_chk_seed (img : img_t) : result (list Z) :=
  inmap <- incr (zeros 0 (sb_ninodes (img_sb img))) 0 ;;
  incr inmap 1.

(** The body of the last loop of [dir_chk]. *)
Definition dir_chk_inode (img : img_t) (inmap : list Z) (i : Z) : result unit :=
  let ip := inode_at img i in
  chk_in_use img ip i inmap ;;;
  chk_in_free img ip i inmap ;;;
  chk_ref_cnt img ip i inmap ;;;
  chk_dir_once img ip i inmap.

(** The last loop of [dir_chk]. *)
Definition dir_chk_sweep (img : img_t) (inmap : list Z) : result unit :=
  for_range 2 (sb_ninodes (img_sb img)) (fun i _ => dir_chk_inode img inmap i) tt.

(** [dir_chk]. *)
Definition dir_chk (fuel : nat) (img : img_t) : result unit :=
  inmap <- dir_chk_seed img ;;
  inmap <- traverse_dirs fuel img (inode_at img 1) inmap ;;
  dir_chk_sweep img inmap.

(** The body of the inode loop of [main]. *)
Definition main_inode (img : img_t) (i : Z) : result unit :=
  let ip := inode_at img i in
  t <- in_type img ip ;;
  if t =? 0 then Ok tt
  else
    validate_type img ip ;;;
    check_direct img ip ;;;
    check_indirect img ip ;;;
    (if i =? 1 then
       t <- in_type img ip ;;
       if negb (t =? T_DIR) then Exit MissingRoot else validate_dir img ip 1
     else
       t <- in_type img ip ;;
       if t =? T_DIR then validate_dir img ip i else Ok tt) ;;;
    chk_bmp_addr img ip.

(** The inode loop of [main]. *)
Definition main_sweep (img : img_t) : result unit :=
  for_range 0 (sb_ninodes (img_sb img)) (fun i _ => main_inode img i) tt.

(** [main], from the point where the image is mapped; [Ok tt] is [exit(0)].
    The buffer [chk_blks] is allocated and freed without being used. *)
Definition main (fuel : nat) (m : list byte) : result unit :=
  img <- init_img m ;;
  main_sweep img ;;;
  bmp_chk img ;;;
  addrs_chk img ;;;
  dir_chk fuel img.

(** ** Building images

    What [mkfs] does, as far as the examples below need it: stores into a
    zero-filled buffer. *)

Definition byte_of (z : Z) : byte :=
  match Byte.of_N (Z.to_N (z mod 256)) with Some b => b | None => x00 end.

Definition st8 (m : list byte) (off v : Z) : list byte := zupd m off (byte_of v).

Definition st16 (m : list byte) (off v : Z) : list byte :=
  st8 (st8 m off v) (off + 1) (v / 256).

Definition st32 (m : list byte) (off v : Z) : list byte :=
  st16 (st16 m off v) (off + 2) (v / 65536).

Fixpoint st32s (m : list byte) (off : Z) (vs : list Z) : list byte :=
  match vs with
  | [] => m
  | v :: r => st32s (st32 m off v) (off + UINT_SZ) r
  end.

Fixpoint st8s (m : list byte) (off : Z) (vs : list Z) : list byte :=
  match vs with
  | [] => m
  | v :: r => st8s (st8 m off v) (off + 1) r
  end.

Definition blank (nblk : Z) : list byte := repeat x00 (Z.to_nat (nblk * BSIZE)).

Definition set_sb (size nblocks ninodes : Z) (m : list byte) : list byte :=
  st32 (st32 (st32 m BSIZE size) (BSIZE + 4) nblocks) (BSIZE + 8) ninodes.

(** Inode [inum] of the table that starts at block 2. *)
Definition set_inode (inum type nlink : Z) (addrs : list Z) (m : list byte) : list byte :=
  let ip := 2 * BSIZE + inum * DINODE_SZ in
  st32s (st16 (st16 m ip type) (ip + 6) nlink) (ip + 12) addrs.

(** Entry [j] of the directory block [blk]. *)
Definition set_dirent (blk j inum : Z) (name : list Z) (m : list byte) : list byte :=
  let de := blk * BSIZE + j * DIRENT_SZ in
  st8s (st16 m de inum) (de + 2) name.

(** Slot [j] of the indirect block [blk]. *)
Definition set_slot (blk j v : Z) (m : list byte) : list byte :=
  st32 m (blk * BSIZE + UINT_SZ * j) v.

(** The bitmap bytes at offset [bmp], one value per byte. *)
Definition set_bitmap (bmp : Z) (bytes : list Z) (m : list byte) : list byte :=
  st8s m bmp bytes.

(** The geometry of the examples: 16 blocks, 8 inodes (two inode blocks at
    blocks 2 and 3), the bitmap in block 4, data from block 5 on. *)
Definition ex_bmp : Z := 4 * BSIZE.

Definition ex_base : list byte := set_sb 16 11 8 (blank 16).

(** Root directory in block 5 with "." and ".." pointing at inode 1. *)
Definition ex_root (m : list byte) : list byte :=
  set_dirent 5 1 1 dotdot (set_dirent 5 0 1 dot (set_inode 1 T_DIR 1 [5] m)).

(** A consistent image: the root directory alone; blocks 0 to 5 marked. *)
Definition img_minimal : list byte := set_bitmap ex_bmp [63] (ex_root ex_base).

(** ** Vocabulary of the statements *)

(** An outcome other than a normal return. *)
Definition abnormal {A : Type} (r : result A) : Prop := forall a, r <> Ok a.

(** A load returns a value or faults: it never exits and never runs out of
    fuel. *)
Definition plain {A : Type} (r : result A) : Prop := (exists a, r = Ok a) \/ r = Fault.

(** [ceil(n / d)] for a positive [d]. *)
Definition ceil_div (n d : Z) : Z := (n + d - 1) / d.

(** The superblock of the spec's scenario A (size 1024, 941 data blocks,
    200 inodes) in an otherwise empty two-block buffer. *)
Definition sb_scenario_A : list byte := set_sb 1024 941 200 (blank 2).

(** The integers [lo], [lo + 1], ..., [lo + n - 1]. *)
Fixpoint zrange (lo : Z) (n : nat) : list Z :=
  match n with
  | O => []
  | S n' => lo :: zrange (lo + 1) n'
  end.

(** [r] is a normal return. *)
Definition is_Ok {A : Type} (r : result A) : bool :=
  match r with Ok _ => true | _ => false end.

(** The value of a normal return, [d] otherwise. *)
Definition val {A : Type} (d : A) (r : result A) : A :=
  match r with Ok a => a | _ => d end.

(** The example geometry as [init_img] resolves it. *)
Definition ex_img (m : list byte) : img_t :=
  mk_img 2 1 5 (mk_sb 16 11 8) 1024 2048 2560 m.

(** A file (inode 2) whose first direct address is the block count itself. *)
Definition img_bad_direct : list byte := set_inode 2 T_FILE 1 [16] img_minimal.

(** Scenario D of the spec: a file (inode 2, data in block 6) entered once
    in the root directory as "a" and recorded with a link count of 2. *)
Definition img_bad_nlink : list byte :=
  set_bitmap ex_bmp [127]
    (set_dirent 5 2 2 [97] (set_inode 2 T_FILE 2 [6] (ex_root ex_base))).

(** The places of an inode that hold a block address: a direct slot, the
    indirect pointer, a slot of the indirect block. *)
Inductive slot : Type :=
| Sdirect (j : Z)
| Sindptr
| Sindirect (j : Z).

(** Inode [i] is in use and its slot [s] holds the non-zero address [a]. *)
Definition refers (img : img_t) (i : Z) (s : slot) (a : Z) : Prop :=
  0 <= i < sb_ninodes (img_sb img) /\
  (exists t, in_type img (inode_at img i) = Ok t /\ t <> 0) /\
  a <> 0 /\
  match s with
  | Sdirect j => 0 <= j < NDIRECT /\ in_addr img (inode_at img i) j = Ok a
  | Sindptr => in_addr img (inode_at img i) NDIRECT = Ok a
  | Sindirect j =>
      0 <= j < NINDIRECT /\
      exists ind, in_addr img (inode_at img i) NDIRECT = Ok ind /\ ind <> 0 /\
                  ind_slot img ind j = Ok a
  end.

(** The bitmap bytes of the blocks [0 .. size - 1] lie inside the mapping. *)
Definition bitmap_mapped (img : img_t) : Prop :=
  forall a, 0 <= a < sb_size (img_sb img) ->
  exists b, ld8 (img_map img) (img_bitmapblks img + a / 8) = Ok b.

(** The consistent image with block 6 marked in the bitmap although no inode
    uses it. *)
Definition img_stray_bit : list byte := set_bitmap ex_bmp [127] (ex_root ex_base).

(** What the first loop of [bmp_chk] leaves in [chklist]: only addresses
    that some inode in use holds in a direct slot or in its indirect block. *)
Definition chklist_inv (img : img_t) (chklist : list bool) : Prop :=
  Z.of_nat (length chklist) = sb_size (img_sb img) /\
  forall a, aget chklist a = Ok true -> exists i s, refers img i s a.

(** Executable counterparts of [refers], for the examples: some slot of
    inode [i] reads as [a]; inode [i] is in use; some inode in use holds [a]. *)
Definition holdsb (img : img_t) (i a : Z) : bool :=
  existsb (fun j => match in_addr img (inode_at img i) j with
                    | Ok v => v =? a
                    | _ => false
                    end) (zrange 0 (Z.to_nat (NDIRECT + 1)))
  || match in_addr img (inode_at img i) NDIRECT with
     | Ok ind =>
         negb (ind =? 0) &&
         existsb (fun j => match ind_slot img ind j with
                           | Ok v => v =? a
                           | _ => false
                           end) (zrange 0 (Z.to_nat NINDIRECT))
     | _ => false
     end.

Definition in_useb (img : img_t) (i : Z) : bool :=
  match in_type img (inode_at img i) with Ok t => negb (t =? 0) | _ => false end.

Definition referredb (img : img_t) (a : Z) : bool :=
  existsb (fun i => in_useb img i && holdsb img i a)
          (zrange 0 (Z.to_nat (sb_ninodes (img_sb img)))).

(** The outcome [r] is not [OutOfFuel], and if it is an [Exit] its
    diagnostic satisfies [P]. *)
Definition only {A : Type} (P : error -> Prop) (r : result A) : Prop :=
  match r with
  | Ok _ => True
  | Exit e => P e
  | Fault => True
  | OutOfFuel => False
  end.

(** The diagnostics of the inode loop of [main]. *)
Definition sweep_error (e : error) : Prop :=
  e = BadInodeType \/ e = BadDirectAddress \/ e = BadIndirectAddress \/
  e = MissingRoot \/ e = MalformedDirectory \/ e = AddressNotInBitmap.

(** What [main] checks on an inode in use before [chk_bmp_addr]. *)
Definition inode_checks (img : img_t) (i : Z) : result unit :=
  let ip := inode_at img i in
  validate_type img ip ;;;
  check_direct img ip ;;;
  check_indirect img ip ;;;
  (if i =? 1 then
     t <- in_type img ip ;;
     if negb (t =? T_DIR) then Exit MissingRoot else validate_dir img ip 1
   else
     t <- in_type img ip ;;
     if t =? T_DIR then validate_dir img ip i else Ok tt).

(** What [chk_bmp_addr] knows about [chkd]: it has one cell per block, and
    a cell is set only for an address whose bitmap bit was found set. *)
Definition chkd_inv (img : img_t) (chkd : list bool) : Prop :=
  Z.of_nat (length chkd) = sb_size (img_sb img) /\
  forall b, aget chkd b = Ok true -> marked_in_bmp img (img_bitmapblks img) b = Ok true.

(** A file (inode 2, entered in the root as "a") whose two first direct
    slots both hold block 6, which the bitmap does not mark. *)
Definition img_unmarked_dup : list byte :=
  set_bitmap ex_bmp [63]
    (set_dirent 5 2 2 [97] (set_inode 2 T_FILE 1 [6; 6] (ex_root ex_base))).


(** The rule [process_entries] applies to the inode number [n] of a ".."
    entry of directory [inum]: the root's points at the root, any other
    directory's points elsewhere. *)
Definition parent_ok (inum n : Z) : Prop :=
  (inum = 1 -> n = inum) /\ (inum <> 1 -> n <> inum).

(** The entries of block [b] whose name is ".", by index. *)
Definition dot_entries (img : img_t) (b : Z) : list Z :=
  filter (fun e => match strcmp_eq (img_map img) (de_name (dirent_at b e)) dot with
                   | Ok true => true
                   | _ => false
                   end) (zrange 0 (Z.to_nat DPB)).

(** A root directory with two entries named ".", both for inode 1. *)
Definition img_two_dots : list byte :=
  set_bitmap ex_bmp [63] (set_dirent 5 2 1 dot (ex_root ex_base)).

(** A root directory whose ".." entry is for inode 2. *)
Definition img_root_parent_2 : list byte :=
  set_bitmap ex_bmp [63]
    (set_dirent 5 1 2 dotdot (set_dirent 5 0 1 dot (set_inode 1 T_DIR 1 [5] ex_base))).

(** Scenario E of the spec: the root's "." entry is for inode 2. *)
Definition img_root_dot_2 : list byte :=
  set_bitmap ex_bmp [63]
    (set_dirent 5 1 1 dotdot (set_dirent 5 0 2 dot (set_inode 1 T_DIR 1 [5] ex_base))).

(** A reference that [addrs_chk] counts: a non-zero direct slot or a
    non-zero slot of the indirect block of an inode in use. *)
Definition cref (img : img_t) (i : Z) (s : slot) (a : Z) : Prop :=
  refers img i s a /\ s <> Sindptr.

(** Some address is counted for two different (inode, slot) pairs. *)
Definition dup_counted (img : img_t) : Prop :=
  exists i s i' s' a, (i <> i' \/ s <> s') /\ cref img i s a /\ cref img i' s' a.

(** Some address is held by two different (inode, slot) pairs, the
    indirect pointers included. *)
Definition dup_any (img : img_t) : Prop :=
  exists i s i' s' a, (i <> i' \/ s <> s') /\ refers img i s a /\ refers img i' s' a.

(** The inode table, the address slots of the inodes in use and their
    indirect blocks lie inside the mapping. *)
Definition addrs_mapped (img : img_t) : Prop :=
  forall i, 0 <= i < sb_ninodes (img_sb img) ->
  exists t, in_type img (inode_at img i) = Ok t /\
    (t <> 0 ->
     (forall j, 0 <= j <= NDIRECT -> exists a, in_addr img (inode_at img i) j = Ok a) /\
     (forall ind, in_addr img (inode_at img i) NDIRECT = Ok ind -> ind <> 0 ->
        forall j, 0 <= j < NINDIRECT -> exists a, ind_slot img ind j = Ok a)).

(** What [addrs_chk] knows about [usage_counts] once it has counted the
    (inode, slot) pairs in [S]: every count is 0 or 1, a count is 1 exactly
    for the addresses the pairs of [S] hold, and no two of them hold the
    same address. *)
Definition usage_inv (img : img_t) (S : Z -> slot -> Prop) (u : list Z) : Prop :=
  Z.of_nat (length u) = sb_nblocks (img_sb img) /\
  (forall idx, 0 <= idx < sb_nblocks (img_sb img) -> aget u idx = Ok 0 \/ aget u idx = Ok 1) /\
  (forall idx, aget u idx = Ok 1 ->
     exists i s, S i s /\ cref img i s (img_firstblk img + idx)) /\
  (forall i s a, S i s -> cref img i s a ->
     img_firstblk img <= a /\ aget u (a - img_firstblk img) = Ok 1) /\
  (forall i s i' s' a, S i s -> S i' s' -> cref img i s a -> cref img i' s' a ->
     i = i' /\ s = s').

(** Two files, inodes 2 and 3, entered in the root as "a" and "b": block 6
    is the first data block of the one and the (empty) indirect block of the
    other. *)
Definition img_shared_indirect : list byte :=
  set_bitmap ex_bmp [127]
    (set_dirent 5 3 3 [98]
       (set_dirent 5 2 2 [97]
          (set_inode 3 T_FILE 1 [0; 0; 0; 0; 0; 0; 0; 0; 0; 0; 0; 0; 6]
             (set_inode 2 T_FILE 1 [6] (ex_root ex_base))))).

(** Two files that both hold block 6 in their first direct slot. *)
Definition img_shared_direct : list byte :=
  set_bitmap ex_bmp [127]
    (set_dirent 5 3 3 [98]
       (set_dirent 5 2 2 [97]
          (set_inode 3 T_FILE 1 [6] (set_inode 2 T_FILE 1 [6] (ex_root ex_base))))).


(** Executable check, for the examples: every address slot of every inode
    in use can be read, and every counted non-zero address satisfies [P]. *)
Definition addrs_okb (img : img_t) (P : Z -> bool) : bool :=
  forallb (fun i =>
    match in_type img (inode_at img i) with
    | Ok t =>
        (t =? 0) ||
        (forallb (fun j =>
           match in_addr img (inode_at img i) j with
           | Ok a => (j =? NDIRECT) || (a =? 0) || P a
           | _ => false
           end) (zrange 0 (Z.to_nat (NDIRECT + 1)))
         && match in_addr img (inode_at img i) NDIRECT with
            | Ok ind =>
                (ind =? 0) ||
                forallb (fun j =>
                  match ind_slot img ind j with
                  | Ok a => (a =? 0) || P a
                  | _ => false
                  end) (zrange 0 (Z.to_nat NINDIRECT))
            | _ => false
            end)
    | _ => false
    end) (zrange 0 (Z.to_nat (sb_ninodes (img_sb img)))).

(** [b] is the non-zero address of a block of the directory inode behind
    [ip]: a direct slot, or a slot of its indirect block. *)
Definition dir_block (img : img_t) (ip b : Z) : Prop :=
  b <> 0 /\
  ((exists i, 0 <= i < NDIRECT /\ in_addr img ip i = Ok b) \/
   (exists ind i, in_addr img ip NDIRECT = Ok ind /\ ind <> 0 /\
                  0 <= i < NINDIRECT /\ ind_slot img ind i = Ok b)).

(** Block [b] holds an entry for inode [n] whose name is neither "." nor
    "..": an entry [traverse_dirs] follows. *)
Definition dir_entry (img : img_t) (b n : Z) : Prop :=
  exists j, 0 <= j < DPB /\
    de_inum img (dirent_at b j) = Ok n /\ n <> 0 /\
    strcmp_eq (img_map img) (de_name (dirent_at b j)) dot = Ok false /\
    strcmp_eq (img_map img) (de_name (dirent_at b j)) dotdot = Ok false.

(** Inode [a] is a directory with such an entry for inode [n]. *)
Definition dir_edge (img : img_t) (a n : Z) : Prop :=
  in_type img (inode_at img a) = Ok T_DIR /\
  exists b, dir_block img (inode_at img a) b /\ dir_entry img b n.

(** A chain of directory entries that starts at inode [a] and goes through
    the inodes of [l]. *)
Fixpoint chain (img : img_t) (a : Z) (l : list Z) : Prop :=
  match l with
  | [] => True
  | n :: r => dir_edge img a n /\ chain img n r
  end.

(** Some directory is reachable from itself through directory entries. *)
Definition dir_cycle (img : img_t) : Prop :=
  exists n, clos_trans Z (dir_edge img) n n.

(** [r'] is [r], or [r] ran out of fuel. *)
Definition le_res {A : Type} (r r' : result A) : Prop := r = OutOfFuel \/ r = r'.

(** A root directory with a third entry, "x", for the root itself. *)
Definition img_cycle : list byte :=
  set_bitmap ex_bmp [63] (set_dirent 5 2 1 [120] (ex_root ex_base)).

(** Entry [j] of block [b] is read and passed over by [process_block]: its
    inode number is 0 or its name is "." or "..". *)
Definition skippedb (img : img_t) (b j : Z) : bool :=
  let de := dirent_at b j in
  is_Ok (de_inum img de) &&
  ((val 1 (de_inum img de) =? 0) ||
   val false (strcmp_eq (img_map img) (de_name de) dot) ||
   (is_Ok (strcmp_eq (img_map img) (de_name de) dot) &&
    val false (strcmp_eq (img_map img) (de_name de) dotdot))).

(** Entry [j] of block [b] is one [traverse_dirs] follows. *)
Definition followedb (img : img_t) (b j : Z) : bool :=
  let de := dirent_at b j in
  is_Ok (de_inum img de) && negb (val 0 (de_inum img de) =? 0) &&
  negb (val true (strcmp_eq (img_map img) (de_name de) dot)) &&
  negb (val true (strcmp_eq (img_map img) (de_name de) dotdot)).

(** The address read by [r] is not 0 and is that of a block with an entry
    that is followed. *)
Definition block_followedb (img : img_t) (r : result Z) : bool :=
  is_Ok r && negb (val 0 r =? 0) &&
  existsb (followedb img (val 0 r)) (zrange 0 (Z.to_nat DPB)).

(** Inode [a] is a directory with an entry that is followed. *)
Definition has_entryb (img : img_t) (a : Z) : bool :=
  let ip := inode_at img a in
  is_Ok (in_type img ip) && (val 0 (in_type img ip) =? T_DIR) &&
  (existsb (fun i => block_followedb img (in_addr img ip i)) (zrange 0 (Z.to_nat NDIRECT)) ||
   (negb (val 0 (in_addr img ip NDIRECT) =? 0) &&
    existsb (fun i => block_followedb img (ind_slot img (val 0 (in_addr img ip NDIRECT)) i))
            (zrange 0 (Z.to_nat NINDIRECT)))).

(** ** Vocabulary of the further properties *)

(** The outcome [r] is not an access outside the image or an array. *)
Definition safe {A : Type} (r : result A) : Prop := r <> Fault.

(** The diagnostics of the last loop of [dir_chk]. *)
Definition dir_error (e : error) : Prop :=
  e = InodeNotInAnyDirectory \/ e = DanglingDirectoryReference \/
  e = BadLinkCount \/ e = DirectoryHardLinked.

(** A root directory with a subdirectory "d" (inode 2, block 6) that
    has an entry "r" for the root. *)
Definition img_cycle_2 : list byte :=
  set_bitmap ex_bmp [127]
    (set_dirent 6 2 1 [114]
       (set_dirent 6 1 1 dotdot
          (set_dirent 6 0 2 dot
             (set_inode 2 T_DIR 1 [6]
                (set_dirent 5 2 2 [100] (ex_root ex_base)))))).

(** The indirect pointer of inode [i] is not 0 and is also held by one of
    the direct slots of the inode. *)
Definition indptr_aliased (img : img_t) (i : Z) : Prop :=
  exists ind j, in_addr img (inode_at img i) NDIRECT = Ok ind /\ ind <> 0 /\
    0 <= j < NDIRECT /\ in_addr img (inode_at img i) j = Ok ind.

(** A file (inode 2, entered in the root as "a") whose first direct slot
    and indirect pointer both hold block 6; slot 0 of that block holds 7,
    and the bitmap marks blocks 0 to 6. *)
Definition img_aliased : list byte :=
  set_bitmap ex_bmp [127]
    (set_slot 6 0 7
       (set_dirent 5 2 2 [97]
          (set_inode 2 T_FILE 1 [6; 0; 0; 0; 0; 0; 0; 0; 0; 0; 0; 0; 6]
             (ex_root ex_base)))).

(** What [chkd] holds when the loop of [chk_bmp_addr] comes to slot [k] of
    the inode behind [ip]: cells set for marked addresses only and, up to
    the indirect pointer, only for addresses of the slots before [k]. *)
Definition chkd_seen (img : img_t) (ip k : Z) (chkd : list bool) : Prop :=
  chkd_inv img chkd /\
  (k <= NDIRECT ->
   forall b, aget chkd b = Ok true -> exists j, 0 <= j < k /\ in_addr img ip j = Ok b).

(** ** Functions that [main] does not call *)

(** [mark_used]: [used_blks[addr - startblk] = 1], the index computed in
    [uint]. *)
Definition mark_used (used_blks : list Z) (addr startblk : Z) : result (list Z) :=
  if negb (addr =? 0) then aset used_blks (u32 (addr - startblk)) 1
  else Ok used_blks.

(** [get_used]. *)
Definition get_used (img : img_t) (ip : Z) (used_blks : list Z) : result (list Z) :=
  used_blks <- for_range 0 NDIRECT (fun i ub =>
                 a <- in_addr img ip i ;;
                 mark_used ub a (img_firstblk img)) used_blks ;;
  indaddr <- in_addr img ip NDIRECT ;;
  if negb (indaddr =? 0) then
    for_range 0 NINDIRECT (fun j ub =>
      a <- ind_slot img indaddr j ;;
      mark_used ub a (img_firstblk img)) used_blks
  else Ok used_blks.

(** [mark_used_blks]. *)
Definition mark_used_blks (img : img_t) (used_blks : list Z) : result (list Z) :=
  for_range 0 (sb_ninodes (img_sb img)) (fun i ub =>
    let ip := inode_at img i in
    t <- in_type img ip ;;
    if negb (t =? 0) then get_used img ip ub else Ok ub) used_blks.

(** The two diagnostics of [fill_direct] and [fill_indirect], which no
    other function prints. *)
Inductive fill_error : Type :=
| DirectOutOfBounds
| IndirectOutOfBounds.

Definition fill_message (e : fill_error) : string :=
  match e with
  | DirectOutOfBounds => "ERROR: direct block address out of bounds."
  | IndirectOutOfBounds => "ERROR: indirect block address out of bounds."
  end.

(** The outcomes of these two functions: a return, [exit(1)] after one of
    the two diagnostics, or an access outside the image or the array. *)
Inductive fill_result (A : Type) : Type :=
| FOk (a : A)
| FExit (e : fill_error)
| FFault.

Arguments FOk {A} a.
Arguments FExit {A} e.
Arguments FFault {A}.

Definition fill_bind {A B : Type} (m : fill_result A) (k : A -> fill_result B)
  : fill_result B :=
  match m with
  | FOk a => k a
  | FExit e => FExit e
  | FFault => FFault
  end.

(** A load or an array access inside one of the two functions. *)
Definition fill_of {A : Type} (r : result A) : fill_result A :=
  match r with
  | Ok a => FOk a
  | _ => FFault
  end.

Fixpoint fill_loop {S : Type} (n : nat) (i : Z) (body : Z -> S -> fill_result S) (s : S)
  : fill_result S :=
  match n with
  | O => FOk s
  | Datatypes.S n' => fill_bind (body i s) (fun s' => fill_loop n' (i + 1) body s')
  end.

(** The body the two loops share: the range test, then [counts[addr -
    firstblk]++] on an array of [uint]. *)
Definition fill_one (img : img_t) (e : fill_error) (addr : Z) (counts : list Z)
  : fill_result (list Z) :=
  if addr =? 0 then FOk counts
  else if (addr <? img_firstblk img) || (sb_size (img_sb img) <=? addr) then FExit e
  else
    let idx := u32 (addr - img_firstblk img) in
    fill_bind (fill_of (aget counts idx)) (fun c =>
    fill_of (aset counts idx (u32 (c + 1)))).

(** [fill_direct]. *)
Definition fill_direct (img : img_t) (ip : Z) (dcounts : list Z) : fill_result (list Z) :=
  fill_loop (Z.to_nat NDIRECT) 0 (fun i dcounts =>
    fill_bind (fill_of (in_addr img ip i)) (fun addr =>
    fill_one img DirectOutOfBounds addr dcounts)) dcounts.

(** [fill_indirect]. *)
Definition fill_indirect (img : img_t) (ip : Z) (icounts : list Z)
  : fill_result (list Z) :=
  fill_bind (fill_of (in_addr img ip NDIRECT)) (fun indaddr =>
  if indaddr =? 0 then FOk icounts
  else if (indaddr <? img_firstblk img) || (sb_size (img_sb img) <=? indaddr)
  then FExit IndirectOutOfBounds
  else
    fill_loop (Z.to_nat NINDIRECT) 0 (fun i icounts =>
      fill_bind (fill_of (ind_slot img indaddr i)) (fun addr =>
      fill_one img IndirectOutOfBounds addr icounts)) icounts).

(** How many of the slots [lo .. lo + n - 1], whose values are [vs], hold
    the address [a]. *)
Definition occurrences (vs : Z -> Z) (a : Z) (lo : Z) (n : nat) : Z :=
  Z.of_nat (length (filter (fun j => vs j =? a) (zrange lo n))).

(** Every cell of an array of [uint] holds a 32-bit value. *)
Definition uint_cells (c : list Z) : Prop :=
  forall idx x, aget c idx = Ok x -> 0 <= x < 4294967296.

(** Executable check, for the examples: every entry that [traverse_dirs]
    would follow from one of the inodes [0 .. ninodes - 1] names an inode
    that satisfies [P]. *)
Definition entry_okb (img : img_t) (P : Z -> bool) (b j : Z) : bool :=
  negb (followedb img b j) || P (val 0 (de_inum img (dirent_at b j))).

Definition block_okb (img : img_t) (P : Z -> bool) (r : result Z) : bool :=
  negb (is_Ok r) || (val 0 r =? 0) ||
  forallb (entry_okb img P (val 0 r)) (zrange 0 (Z.to_nat DPB)).

Definition entries_okb (img : img_t) (P : Z -> bool) : bool :=
  forallb (fun a =>
    let ip := inode_at img a in
    negb (is_Ok (in_type img ip)) || negb (val 0 (in_type img ip) =? T_DIR) ||
    (forallb (fun i => block_okb img P (in_addr img ip i)) (zrange 0 (Z.to_nat NDIRECT)) &&
     ((val 0 (in_addr img ip NDIRECT) =? 0) ||
      forallb (fun i => block_okb img P (ind_slot img (val 0 (in_addr img ip NDIRECT)) i))
              (zrange 0 (Z.to_nat NINDIRECT)))))
    (zrange 0 (Z.to_nat (sb_ninodes (img_sb img)))).

(** ** What the traversal counts *)

(** The inode numbers of the entries of block [b] that [traverse_dirs]
    follows, in the order of the block. *)
Definition followed_in_block (img : img_t) (b : Z) : list Z :=
  if b =? 0 then []
  else flat_map (fun j => if followedb img b j
                          then [val 0 (de_inum img (dirent_at b j))]
                          else [])
                (zrange 0 (Z.to_nat DPB)).

(** Those of all the blocks of inode [a], direct blocks first; none if the
    inode is not a directory. *)
Definition followed_entries (img : img_t) (a : Z) : list Z :=
  let ip := inode_at img a in
  match in_type img ip with
  | Ok t =>
      if t =? T_DIR then
        flat_map (fun i => followed_in_block img (val 0 (in_addr img ip i)))
                 (zrange 0 (Z.to_nat NDIRECT)) ++
        (let ind := val 0 (in_addr img ip NDIRECT) in
         if ind =? 0 then []
         else flat_map (fun i => followed_in_block img (val 0 (ind_slot img ind i)))
                       (zrange 0 (Z.to_nat NINDIRECT)))
      else []
  | _ => []
  end.

(** The number of entries for inode [n] met on the walks of at most [depth]
    steps that start at inode [a]: every followed entry counts once for the
    inode it names, and once more for every entry met below that inode. *)
Fixpoint entries_met (depth : nat) (img : img_t) (a n : Z) : Z :=
  match depth with
  | O => 0
  | S d =>
      fold_right (fun y acc => (if y =? n then 1 else 0) + entries_met d img y n + acc)
                 0 (followed_entries img a)
  end.

(** Every cell of an array of [int] holds a 32-bit signed value. *)
Definition int_cells (c : list Z) : Prop :=
  forall idx x, aget c idx = Ok x -> - 2147483648 <= x < 2147483648.

(** * Properties *)

(** ** The outcome monad *)

Lemma bind_Ok_inv {A B} (m : result A) (k : A -> result B) (b : B) :
  bind m k = Ok b -> exists a, m = Ok a /\ k a = Ok b.
Proof. destruct m; simpl; intros H; try discriminate; eauto. Qed.

Lemma Ok_inj {A} (a b : A) : Ok a = Ok b -> a = b.
Proof. congruence. Qed.

Lemma bind_assoc {A B C} (m : result A) (k : A -> result B) (h : B -> result C) :
  bind (bind m k) h = bind m (fun a => bind (k a) h).
Proof. destruct m; reflexivity. Qed.

Lemma abnormal_bind {A B} (m : result A) (k : A -> result B) :
  abnormal m -> exists r : result B, bind m k = r /\ abnormal r /\
    (forall e, m = Exit e <-> r = Exit e) /\ (m = Fault <-> r = Fault) /\
    (m = OutOfFuel <-> r = OutOfFuel).
Proof.
  intros H. destruct m as [a| e | |]; simpl.
  - destruct (H a eq_refl).
  - exists (Exit e). repeat split; try discriminate; auto; try (intros; congruence).
  - exists Fault. repeat split; try discriminate; auto.
  - exists OutOfFuel. repeat split; try discriminate; auto.
Qed.

(** ** Arrays *)

Lemma zth_nth_error {A} (l : list A) : forall i, 0 <= i -> zth l i = nth_error l (Z.to_nat i).
Proof.
  induction l as [|x r IH]; intros i Hi; simpl.
  - destruct (Z.to_nat i); reflexivity.
  - destruct (Z.eqb_spec i 0) as [->|Hn]; [reflexivity|].
    rewrite IH by lia. replace (Z.to_nat i) with (S (Z.to_nat (i - 1))) by lia. reflexivity.
Qed.

Lemma zth_Some {A} (l : list A) i : 0 <= i < Z.of_nat (length l) -> exists x, zth l i = Some x.
Proof.
  intros H. rewrite zth_nth_error by lia.
  destruct (nth_error l (Z.to_nat i)) eqn:E; eauto.
  apply nth_error_None in E. lia.
Qed.

Lemma zth_None {A} (l : list A) i : Z.of_nat (length l) <= i -> zth l i = None.
Proof.
  intros H. rewrite zth_nth_error by lia. apply nth_error_None. lia.
Qed.

Lemma zth_range {A} (l : list A) i x : 0 <= i -> zth l i = Some x -> i < Z.of_nat (length l).
Proof.
  intros Hi H. destruct (Z.ltb_spec i (Z.of_nat (length l))); auto.
  rewrite zth_None in H by lia. discriminate.
Qed.

Lemma zupd_length {A} (l : list A) : forall i v, length (zupd l i v) = length l.
Proof.
  induction l as [|x r IH]; intros i v; simpl; auto.
  destruct (i =? 0); simpl; auto.
Qed.

Lemma zth_zupd_same {A} (l : list A) : forall i v,
  0 <= i < Z.of_nat (length l) -> zth (zupd l i v) i = Some v.
Proof.
  induction l as [|x r IH]; intros i v H; simpl in *; [lia|].
  destruct (Z.eqb_spec i 0) as [->|Hn]; simpl.
  - reflexivity.
  - destruct (Z.eqb_spec i 0); [lia|]. apply IH. lia.
Qed.

Lemma zth_zupd_other {A} (l : list A) : forall i j v,
  0 <= i -> 0 <= j -> i <> j -> zth (zupd l i v) j = zth l j.
Proof.
  induction l as [|x r IH]; intros i j v Hi Hj Hne; simpl; auto.
  destruct (Z.eqb_spec i 0) as [->|Hn]; simpl.
  - destruct (Z.eqb_spec j 0); [lia|reflexivity].
  - destruct (Z.eqb_spec j 0); [reflexivity|]. apply IH; lia.
Qed.

Lemma zth_repeat {A} (z : A) n i : 0 <= i < Z.of_nat n -> zth (repeat z n) i = Some z.
Proof.
  intros H. rewrite zth_nth_error by lia. apply nth_error_repeat. lia.
Qed.

Lemma zeros_length {A} (z : A) n : 0 <= n -> Z.of_nat (length (zeros z n)) = n.
Proof. intros H. unfold zeros. rewrite repeat_length. lia. Qed.

Lemma aget_Ok {A} (a : list A) i x :
  aget a i = Ok x <-> 0 <= i /\ zth a i = Some x.
Proof.
  unfold aget. destruct (Z.ltb_spec i 0).
  - split; [discriminate | lia].
  - destruct (zth a i); split; intros H'; try discriminate.
    + inversion H'; auto.
    + destruct H' as [_ H']; inversion H'; auto.
    + destruct H' as [_ H']; discriminate.
Qed.

Lemma aget_cases {A} (a : list A) i :
  (exists x, aget a i = Ok x /\ 0 <= i < Z.of_nat (length a)) \/
  (aget a i = Fault /\ ~ 0 <= i < Z.of_nat (length a)).
Proof.
  unfold aget. destruct (Z.ltb_spec i 0); [right; split; [auto|lia]|].
  destruct (zth a i) eqn:E.
  - left. eexists; split; eauto. split; [lia|]. eapply zth_range; eauto.
  - right. split; auto. intros Hr. destruct (zth_Some a i Hr). congruence.
Qed.

Lemma aget_in {A} (a : list A) i :
  0 <= i < Z.of_nat (length a) -> exists x, aget a i = Ok x.
Proof.
  intros H. destruct (aget_cases a i) as [(x & E & _)|[_ N]]; eauto. contradiction.
Qed.

Lemma aget_out {A} (a : list A) i :
  ~ 0 <= i < Z.of_nat (length a) -> aget a i = Fault.
Proof.
  intros H. destruct (aget_cases a i) as [(x & E & R)|[E _]]; auto. contradiction.
Qed.

Lemma aset_in {A} (a : list A) i v :
  0 <= i < Z.of_nat (length a) -> aset a i v = Ok (zupd a i v).
Proof.
  intros H. unfold aset. destruct (Z.ltb_spec i 0); [lia|].
  destruct (zth_Some a i H) as [x ->]. reflexivity.
Qed.

Lemma aset_out {A} (a : list A) i v :
  ~ 0 <= i < Z.of_nat (length a) -> aset a i v = Fault.
Proof.
  intros H. unfold aset. destruct (Z.ltb_spec i 0); auto.
  rewrite zth_None; auto. lia.
Qed.

Lemma aget_zupd_same {A} (a : list A) i v :
  0 <= i < Z.of_nat (length a) -> aget (zupd a i v) i = Ok v.
Proof.
  intros H. apply aget_Ok. split; [lia|]. apply zth_zupd_same; auto.
Qed.

Lemma aget_zupd_other {A} (a : list A) i j v :
  0 <= i -> i <> j -> aget (zupd a i v) j = aget a j.
Proof.
  intros Hi Hne. unfold aget. destruct (Z.ltb_spec j 0); auto.
  rewrite zth_zupd_other; auto.
Qed.

Lemma aget_zeros {A} (z : A) n i : 0 <= i < n -> aget (zeros z n) i = Ok z.
Proof.
  intros H. apply aget_Ok. split; [lia|]. apply zth_repeat. lia.
Qed.

(** ** Loads *)

Lemma byte_val_range b : 0 <= byte_val b < 256.
Proof.
  unfold byte_val. pose proof (Byte.to_N_bounded b) as H.
  generalize dependent (Byte.to_N b). intros n H. lia.
Qed.

Lemma ld8_range m off v : ld8 m off = Ok v -> 0 <= v < 256.
Proof.
  unfold ld8. destruct (off <? 0); [discriminate|].
  destruct (zth m off); [|discriminate]. intros H; inversion H. apply byte_val_range.
Qed.

Lemma ld16_range m off v : ld16 m off = Ok v -> 0 <= v < 65536.
Proof.
  unfold ld16. intros H.
  apply bind_Ok_inv in H as (b0 & H0 & H). apply bind_Ok_inv in H as (b1 & H1 & H).
  apply Ok_inj in H. subst v. apply ld8_range in H0. apply ld8_range in H1. lia.
Qed.

Lemma ld32_range m off v : ld32 m off = Ok v -> 0 <= v < 4294967296.
Proof.
  unfold ld32. intros H.
  apply bind_Ok_inv in H as (b0 & H0 & H). apply bind_Ok_inv in H as (b1 & H1 & H).
  apply bind_Ok_inv in H as (b2 & H2 & H). apply bind_Ok_inv in H as (b3 & H3 & H).
  apply Ok_inj in H. subst v.
  apply ld8_range in H0. apply ld8_range in H1. apply ld8_range in H2. apply ld8_range in H3. lia.
Qed.

Lemma plain_bind {A B} (m : result A) (k : A -> result B) :
  plain m -> (forall a, m = Ok a -> plain (k a)) -> plain (bind m k).
Proof.
  intros [[a ->]| ->] Hk; simpl; [apply Hk; auto | right; auto].
Qed.

Lemma plain_Ok {A} (a : A) : plain (Ok a).
Proof. left; eauto. Qed.

Lemma plain_aget {A} (a : list A) i : plain (aget a i).
Proof.
  destruct (aget_cases a i) as [(x & E & _)|[E _]]; rewrite E; [left; eauto | right; auto].
Qed.

Lemma plain_aset {A} (a : list A) i v : plain (aset a i v).
Proof.
  unfold aset. destruct (i <? 0); [right; auto|].
  destruct (zth a i); [left; eauto | right; auto].
Qed.

Lemma plain_ld8 m off : plain (ld8 m off).
Proof.
  unfold ld8. destruct (off <? 0); [right; auto|].
  destruct (zth m off); [left; eauto | right; auto].
Qed.

Lemma plain_ld16 m off : plain (ld16 m off).
Proof.
  unfold ld16. repeat (apply plain_bind; [apply plain_ld8|intros ? _]). apply plain_Ok.
Qed.

Lemma plain_ld32 m off : plain (ld32 m off).
Proof.
  unfold ld32. repeat (apply plain_bind; [apply plain_ld8|intros ? _]). apply plain_Ok.
Qed.

Lemma plain_strcmp_eq m lit : forall off, plain (strcmp_eq m off lit).
Proof.
  induction lit as [|x r IH]; intros off; simpl.
  - apply plain_bind; [apply plain_ld8|intros ? _; apply plain_Ok].
  - apply plain_bind; [apply plain_ld8|intros c _].
    destruct (c =? x); [apply IH | apply plain_Ok].
Qed.

Lemma plain_in_type img ip : plain (in_type img ip).
Proof. unfold in_type. apply plain_bind; [apply plain_ld16|intros; apply plain_Ok]. Qed.

Lemma plain_in_nlink img ip : plain (in_nlink img ip).
Proof. unfold in_nlink. apply plain_bind; [apply plain_ld16|intros; apply plain_Ok]. Qed.

Lemma plain_in_addr img ip i : plain (in_addr img ip i).
Proof. apply plain_ld32. Qed.

Lemma plain_ind_slot img a j : plain (ind_slot img a j).
Proof. apply plain_ld32. Qed.

Lemma plain_de_inum img de : plain (de_inum img de).
Proof. apply plain_ld16. Qed.

Lemma plain_not_Exit {A} (r : result A) e : plain r -> r <> Exit e.
Proof. intros [[a ->]| ->]; discriminate. Qed.

Lemma plain_not_OutOfFuel {A} (r : result A) : plain r -> r <> OutOfFuel.
Proof. intros [[a ->]| ->]; discriminate. Qed.

(** ** Loops over a unit state *)

Lemma for_loop_unit_inv (body : Z -> unit -> result unit) : forall n i r,
  for_loop n i body tt = r ->
  (r = Ok tt /\ forall k, i <= k < i + Z.of_nat n -> body k tt = Ok tt) \/
  (exists k, i <= k < i + Z.of_nat n /\
             (forall k', i <= k' < k -> body k' tt = Ok tt) /\
             body k tt = r /\ abnormal r).
Proof.
  induction n as [|n IH]; intros i r H; simpl in H.
  - left. split; [auto|]. intros k Hk. lia.
  - destruct (body i tt) as [[]| e | |] eqn:E; simpl in H.
    + destruct (IH (i + 1) r H) as [[-> Hall]|(k & Hk & Hpre & Hr & Hab)].
      * left. split; auto. intros k Hk.
        destruct (Z.eq_dec k i) as [->|]; auto. apply Hall. lia.
      * right. exists k. repeat split; auto; try lia.
        intros k' Hk'. destruct (Z.eq_dec k' i) as [->|]; auto. apply Hpre. lia.
    + right. exists i. subst r. repeat split; auto; try lia. intros a; discriminate.
    + right. exists i. subst r. repeat split; auto; try lia. intros a; discriminate.
    + right. exists i. subst r. repeat split; auto; try lia. intros a; discriminate.
Qed.

Lemma for_loop_unit_all (body : Z -> unit -> result unit) n i :
  (forall k, i <= k < i + Z.of_nat n -> body k tt = Ok tt) ->
  for_loop n i body tt = Ok tt.
Proof.
  intros Hall.
  destruct (for_loop_unit_inv body n i _ eq_refl) as [[E _]|(k & Hk & _ & Hr & Hab)]; auto.
  rewrite Hall in Hr by auto. destruct (Hab tt). auto.
Qed.

Lemma for_loop_unit_first (body : Z -> unit -> result unit) n i k :
  i <= k < i + Z.of_nat n ->
  (forall k', i <= k' < k -> body k' tt = Ok tt) ->
  abnormal (body k tt) ->
  for_loop n i body tt = body k tt.
Proof.
  intros Hk Hpre Hab.
  destruct (for_loop_unit_inv body n i _ eq_refl) as [[E Hall]|(k0 & Hk0 & Hpre0 & Hr & Hab0)].
  - rewrite Hall in Hab by auto. destruct (Hab tt); auto.
  - rewrite <- Hr.
    destruct (Z.lt_trichotomy k0 k) as [Hlt|[->|Hgt]]; auto.
    + rewrite Hpre in Hr by lia. rewrite <- Hr in Hab0. destruct (Hab0 tt); auto.
    + rewrite Hpre0 in Hab by lia. destruct (Hab tt); auto.
Qed.

(** A loop whose body either passes or exits with [e]. *)
Lemma for_loop_unit_two (body : Z -> unit -> result unit) n i e :
  (forall k, i <= k < i + Z.of_nat n -> body k tt = Ok tt \/ body k tt = Exit e) ->
  (for_loop n i body tt = Exit e <->
   exists k, i <= k < i + Z.of_nat n /\ body k tt = Exit e) /\
  (for_loop n i body tt = Ok tt <->
   forall k, i <= k < i + Z.of_nat n -> body k tt = Ok tt).
Proof.
  intros H2.
  destruct (for_loop_unit_inv body n i _ eq_refl) as [[E Hall]|(k & Hk & Hpre & Hr & Hab)].
  - rewrite E. split; split; auto; try discriminate.
    intros (k & Hk & Hx). rewrite Hall in Hx by auto. discriminate.
  - destruct (H2 k Hk) as [Hok|Hex].
    + rewrite Hok in Hr. destruct (Hab tt). auto.
    + rewrite <- Hr, Hex. split; split; auto; try discriminate.
      * intros _. exists k. auto.
      * intros Hall. rewrite Hall in Hex by auto. discriminate.
Qed.

(** ** Bounded quantification by evaluation *)

Lemma zrange_In k : forall n lo, lo <= k < lo + Z.of_nat n -> In k (zrange lo n).
Proof.
  induction n as [|n IH]; intros lo H; [lia|]. simpl.
  destruct (Z.eq_dec lo k); [left; auto | right; apply IH; lia].
Qed.

Lemma forallb_zrange (P : Z -> bool) lo n :
  forallb P (zrange lo n) = true ->
  forall k, lo <= k < lo + Z.of_nat n -> P k = true.
Proof.
  intros H k Hk. rewrite forallb_forall in H. apply H. apply zrange_In. auto.
Qed.

Lemma is_Ok_val {A} (d : A) (r : result A) : is_Ok r = true -> r = Ok (val d r).
Proof. destruct r; simpl; intros; congruence. Qed.

(** Every load [f k] with [lo <= k < hi] succeeds, by evaluation. *)
Lemma loads_Ok (f : Z -> result Z) lo hi :
  forallb (fun k => is_Ok (f k)) (zrange lo (Z.to_nat (hi - lo))) = true ->
  forall k, lo <= k < hi -> f k = Ok (val 0 (f k)).
Proof.
  intros H k Hk. apply is_Ok_val.
  apply (forallb_zrange (fun k => is_Ok (f k)) lo (Z.to_nat (hi - lo))); auto. lia.
Qed.

(** ** Loops with a state *)

Lemma for_loop_inv {S} (I : S -> Prop) (body : Z -> S -> result S) : forall n i s r,
  I s ->
  (forall k s s', i <= k < i + Z.of_nat n -> I s -> body k s = Ok s' -> I s') ->
  for_loop n i body s = Ok r -> I r.
Proof.
  induction n as [|n IH]; intros i s r Hs Hstep H; simpl in H.
  - apply Ok_inj in H. subst r. exact Hs.
  - apply bind_Ok_inv in H as (s' & Hb & H).
    apply (IH (i + 1) s' r); auto.
    + apply (Hstep i s s'); auto. lia.
    + intros k t t' Hk. apply Hstep. lia.
Qed.

(** The outcome of a loop whose body never yields [q] (for instance
    [OutOfFuel], or a given [Exit]) is not [q]. *)
Lemma for_loop_never {S} (body : Z -> S -> result S) (q : result S) :
  (forall a, q <> Ok a) ->
  forall n i s,
  (forall k s, i <= k < i + Z.of_nat n -> body k s <> q) ->
  for_loop n i body s <> q.
Proof.
  intros Hq. induction n as [|n IH]; intros i s Hb; simpl.
  - intros H. symmetry in H. apply (Hq s). exact H.
  - pose proof (Hb i s ltac:(lia)) as H0.
    destruct (body i s) as [s'| e | |] eqn:E; simpl; try exact H0.
    apply IH. intros k t Hk. apply Hb. lia.
Qed.

Lemma for_loop_ext {S} (b1 b2 : Z -> S -> result S) : forall n i s,
  (forall k s, i <= k < i + Z.of_nat n -> b1 k s = b2 k s) ->
  for_loop n i b1 s = for_loop n i b2 s.
Proof.
  induction n as [|n IH]; intros i s H; simpl; [reflexivity|].
  rewrite H by lia. destruct (b2 i s); simpl; auto. apply IH. intros; apply H; lia.
Qed.

Lemma abnormal_Exit {A} e : abnormal (@Exit A e).
Proof. intros a; discriminate. Qed.

Lemma abnormal_Fault {A} : abnormal (@Fault A).
Proof. intros a; discriminate. Qed.



Lemma bind_abnormal_same {A} (m : result A) (k : A -> result A) :
  abnormal m -> bind m k = m.
Proof. destruct m as [a| | |]; simpl; intros H; auto. destruct (H a eq_refl). Qed.




(** A loop whose invariant depends on the iteration: either every
    iteration re-establishes it, or the loop ends with the abnormal outcome
    of an iteration, about which [F] holds. *)
Lemma for_loop_inv_or {St} (I : Z -> St -> Prop) (F : result St -> Prop)
      (body : Z -> St -> result St) :
  forall n i s,
  I i s ->
  (forall k t, i <= k < i + Z.of_nat n -> I k t ->
     (exists t', body k t = Ok t' /\ I (k + 1) t') \/
     (abnormal (body k t) /\ F (body k t))) ->
  (exists s', for_loop n i body s = Ok s' /\ I (i + Z.of_nat n) s') \/
  (abnormal (for_loop n i body s) /\ F (for_loop n i body s)).
Proof.
  induction n as [|n IH]; intros i s Hs Hstep.
  - left. exists s. split; [reflexivity|]. replace (i + Z.of_nat 0) with i by lia. exact Hs.
  - cbn [for_loop].
    destruct (Hstep i s ltac:(lia) Hs) as [(t' & E & Ht')|[Ab Fb]].
    + rewrite E. cbn [bind].
      destruct (IH (i + 1) t' Ht') as [(s' & R & Hs')|R].
      * intros k t Hk. apply Hstep. lia.
      * left. exists s'. split; [exact R|].
        replace (i + Z.of_nat (S n)) with (i + 1 + Z.of_nat n) by lia. exact Hs'.
      * right. exact R.
    + right. rewrite (bind_abnormal_same _ _ Ab). split; assumption.
Qed.

(** A loop whose body changes the state at iteration [k0] only. *)
Lemma for_loop_except {St} (body : Z -> St -> result St) k0 s1 : forall n i s0,
  i <= k0 < i + Z.of_nat n ->
  (forall k s, i <= k < i + Z.of_nat n -> k <> k0 -> body k s = Ok s) ->
  body k0 s0 = Ok s1 ->
  for_loop n i body s0 = Ok s1.
Proof.
  induction n as [|n IH]; intros i s0 Hk Hid H0; [lia|]. cbn [for_loop].
  destruct (Z.eq_dec i k0) as [->|Hne].
  - rewrite H0. cbn [bind]. clear IH H0 Hk.
    assert (Rest : forall n i s, k0 < i ->
              (forall k s, i <= k < i + Z.of_nat n -> body k s = Ok s) ->
              for_loop n i body s = Ok s).
    { clear. induction n as [|n IH]; intros i s Hi H; [reflexivity|]. cbn [for_loop].
      rewrite H by lia. cbn [bind]. apply IH; [lia|]. intros; apply H; lia. }
    apply Rest; [lia|]. intros k s Hk'. apply Hid; lia.
  - rewrite Hid by lia. cbn [bind]. apply IH; [lia| |exact H0].
    intros k s Hk'. apply Hid. lia.
Qed.

(** ** Layout *)

Lemma init_img_fields m img :
  init_img m = Ok img ->
  0 <= sb_size (img_sb img) < 4294967296 /\
  0 <= sb_nblocks (img_sb img) < 4294967296 /\
  0 <= sb_ninodes (img_sb img) < 4294967296 /\
  img_ninodeblks img = u32 (sb_ninodes (img_sb img) / IPB + 1) /\
  img_nbitmapblks img = u32 (sb_size (img_sb img) / BPB + 1) /\
  img_firstblk img = u32 (u32 (img_ninodeblks img + img_nbitmapblks img) + 2) /\
  img_inodeblks img = 2 * BLK_SZ /\
  img_bitmapblks img = img_inodeblks img + u32 (img_ninodeblks img * BLK_SZ) /\
  img_data img = img_bitmapblks img + u32 (img_nbitmapblks img * BLK_SZ) /\
  img_map img = m.
Proof.
  unfold init_img. intros H.
  apply bind_Ok_inv in H as (size & Hs & H).
  apply bind_Ok_inv in H as (nblocks & Hb & H).
  apply bind_Ok_inv in H as (ninodes & Hn & H).
  apply Ok_inj in H. subst img. cbn [img_sb sb_size sb_nblocks sb_ninodes img_ninodeblks
    img_nbitmapblks img_firstblk img_inodeblks img_bitmapblks img_data img_map].
  apply ld32_range in Hs. apply ld32_range in Hb. apply ld32_range in Hn.
  repeat split; auto; lia.
Qed.

Lemma ceil_div_floor n d :
  0 < d -> 0 <= n -> (n / d + 1 = ceil_div n d <-> n mod d <> 0).
Proof.
  intros Hd Hn. unfold ceil_div.
  pose proof (Z.div_mod n d ltac:(lia)) as E.
  pose proof (Z.mod_pos_bound n d Hd) as B.
  destruct (Z.eq_dec (n mod d) 0) as [Z0|NZ].
  - assert (Hq : (n + d - 1) / d = n / d).
    { symmetry. apply (Z.div_unique _ _ _ (d - 1)); lia. }
    rewrite Hq. lia.
  - assert (Hq : (n + d - 1) / d = n / d + 1).
    { symmetry. apply (Z.div_unique _ _ _ (n mod d - 1)); lia. }
    rewrite Hq. tauto.
Qed.

(** C3 (as amended): for every superblock the layout resolver computes the
    inode-table block count as [ninodes / IPB + 1] and the bitmap block count
    as [size / BPB + 1] (integer division), and [firstblk] as 2 plus these two
    counts.  Each count is the ceiling of the spec exactly when the dividend
    is not a multiple of the divisor, and one block more otherwise. *)
Theorem init_img_block_counts : forall m img,
  init_img m = Ok img ->
  img_ninodeblks img = sb_ninodes (img_sb img) / IPB + 1 /\
  img_nbitmapblks img = sb_size (img_sb img) / BPB + 1 /\
  img_firstblk img = 2 + img_ninodeblks img + img_nbitmapblks img /\
  (img_ninodeblks img = ceil_div (sb_ninodes (img_sb img)) IPB <->
   sb_ninodes (img_sb img) mod IPB <> 0) /\
  (img_nbitmapblks img = ceil_div (sb_size (img_sb img)) BPB <->
   sb_size (img_sb img) mod BPB <> 0).
Proof.
  intros m img H.
  destruct (init_img_fields m img H) as (Hs & Hb & Hn & E1 & E2 & E3 & _).
  assert (HI : IPB = 8) by reflexivity. assert (HB : BPB = 4096) by reflexivity.
  assert (N1 : img_ninodeblks img = sb_ninodes (img_sb img) / IPB + 1).
  { rewrite E1. unfold u32. apply Z.mod_small. rewrite HI.
    pose proof (Z.div_pos (sb_ninodes (img_sb img)) 8 ltac:(lia) ltac:(lia)).
    pose proof (Z.div_le_upper_bound (sb_ninodes (img_sb img)) 8 536870912 ltac:(lia) ltac:(lia)).
    lia. }
  assert (N2 : img_nbitmapblks img = sb_size (img_sb img) / BPB + 1).
  { rewrite E2. unfold u32. apply Z.mod_small. rewrite HB.
    pose proof (Z.div_pos (sb_size (img_sb img)) 4096 ltac:(lia) ltac:(lia)).
    pose proof (Z.div_le_upper_bound (sb_size (img_sb img)) 4096 1048576 ltac:(lia) ltac:(lia)).
    lia. }
  assert (R1 : 1 <= img_ninodeblks img <= 536870913).
  { rewrite N1, HI.
    pose proof (Z.div_pos (sb_ninodes (img_sb img)) 8 ltac:(lia) ltac:(lia)).
    pose proof (Z.div_le_upper_bound (sb_ninodes (img_sb img)) 8 536870912 ltac:(lia) ltac:(lia)).
    lia. }
  assert (R2 : 1 <= img_nbitmapblks img <= 1048577).
  { rewrite N2, HB.
    pose proof (Z.div_pos (sb_size (img_sb img)) 4096 ltac:(lia) ltac:(lia)).
    pose proof (Z.div_le_upper_bound (sb_size (img_sb img)) 4096 1048576 ltac:(lia) ltac:(lia)).
    lia. }
  split; [exact N1|]. split; [exact N2|]. split.
  - rewrite E3. unfold u32. rewrite (Z.mod_small (img_ninodeblks img + img_nbitmapblks img)) by lia.
    rewrite Z.mod_small by lia. lia.
  - split.
    + rewrite N1. apply ceil_div_floor; [rewrite HI|]; lia.
    + rewrite N2. apply ceil_div_floor; [rewrite HB|]; lia.
Qed.

(** The block counts of the superblock of scenario A. *)
Lemma init_img_block_counts_witness :
  exists img, init_img sb_scenario_A = Ok img /\
    img_ninodeblks img = 26 /\ img_nbitmapblks img = 1 /\ img_firstblk img = 29.
Proof.
  destruct (init_img sb_scenario_A) as [img| | |] eqn:E; try (vm_compute in E; discriminate).
  exists img. split; [reflexivity|].
  destruct (init_img_block_counts sb_scenario_A img E) as (H1 & H2 & H3 & _).
  assert (S : img_sb img = mk_sb 1024 941 200).
  { vm_compute in E. apply Ok_inj in E. subst img. reflexivity. }
  rewrite S in H1, H2. cbn [sb_ninodes sb_size] in H1, H2.
  rewrite H3, H1, H2. repeat split.
Defined.

(** C3, counterexample: with 200 inodes (25 full inode blocks, and
    [ninodes > 0], [size > nblocks]) the inode table is given 26 blocks and
    [firstblk] is 29, where the ceiling gives 25 and 28. *)
Lemma init_img_not_ceiling :
  exists img, init_img sb_scenario_A = Ok img /\
    0 < sb_ninodes (img_sb img) /\ sb_nblocks (img_sb img) < sb_size (img_sb img) /\
    img_ninodeblks img <> ceil_div (sb_ninodes (img_sb img)) IPB /\
    img_firstblk img <>
      2 + ceil_div (sb_ninodes (img_sb img)) IPB + ceil_div (sb_size (img_sb img)) BPB.
Proof.
  eexists. split; [vm_compute; reflexivity|].
  vm_compute. repeat split; congruence.
Qed.

(** ** Address ranges *)

Lemma valid_addr_iff img a :
  valid_addr img a = true <-> 0 < a < sb_size (img_sb img).
Proof.
  unfold valid_addr. rewrite andb_true_iff, !Z.ltb_lt. tauto.
Qed.

Lemma valid_addr_false img a :
  valid_addr img a = false <-> ~ 0 < a < sb_size (img_sb img).
Proof.
  rewrite <- valid_addr_iff. destruct (valid_addr img a); split; intros; congruence.
Qed.

Lemma ld32s_spec m : forall n off (f : Z -> Z),
  (forall j, 0 <= j < Z.of_nat n -> ld32 m (off + UINT_SZ * j) = Ok (f j)) ->
  exists l, ld32s m off n = Ok l /\ Z.of_nat (length l) = Z.of_nat n /\
            forall j, 0 <= j < Z.of_nat n -> aget l j = Ok (f j).
Proof.
  assert (U : UINT_SZ = 4) by reflexivity.
  induction n as [|n IH]; intros off f H.
  - exists []. simpl. repeat split; auto. intros; lia.
  - destruct (IH (off + UINT_SZ) (fun j => f (j + 1))) as (l & E & L & G).
    { intros j Hj. rewrite <- H by lia. f_equal. lia. }
    exists (f 0 :: l). cbn [ld32s].
    replace off with (off + UINT_SZ * 0) at 1 by lia. rewrite H by lia.
    cbn [bind]. rewrite E. cbn [bind]. split; [reflexivity|]. split.
    + cbn [length]. lia.
    + intros j Hj. apply aget_Ok. split; [lia|]. cbn [zth].
      destruct (Z.eqb_spec j 0) as [->|Hn]; [reflexivity|].
      specialize (G (j - 1) ltac:(lia)). apply aget_Ok in G as [_ G].
      rewrite G. f_equal. f_equal. lia.
Qed.

Lemma ld32s_Ok_inv m : forall n off l,
  ld32s m off n = Ok l ->
  forall j, 0 <= j < Z.of_nat n -> exists v, ld32 m (off + UINT_SZ * j) = Ok v.
Proof.
  assert (U : UINT_SZ = 4) by reflexivity.
  induction n as [|n IH]; intros off l H j Hj; [lia|].
  cbn [ld32s] in H. apply bind_Ok_inv in H as (v & Hv & H).
  apply bind_Ok_inv in H as (r & Hr & H).
  destruct (Z.eq_dec j 0) as [->|Hn].
  - exists v. rewrite <- Hv. f_equal. lia.
  - destruct (IH _ _ Hr (j - 1) ltac:(lia)) as (w & Hw). exists w. rewrite <- Hw. f_equal. lia.
Qed.

Section AddressChecks.

Variables (img : img_t) (ip : Z).
Variables (das ias : Z -> Z) (ind : Z).
Hypothesis Hdirect : forall i, 0 <= i < NDIRECT -> in_addr img ip i = Ok (das i).
Hypothesis Hind : in_addr img ip NDIRECT = Ok ind.
Hypothesis Hblock : valid_addr img ind = true ->
  forall j, 0 <= j < NINDIRECT -> ind_slot img ind j = Ok (ias j).

Let size := sb_size (img_sb img).

Lemma check_direct_body i :
  0 <= i < NDIRECT ->
  (addr <- in_addr img ip i ;;
   if addr =? 0 then Ok tt
   else if negb (valid_addr img addr) then Exit BadDirectAddress
   else Ok tt) =
  if (das i =? 0) || valid_addr img (das i) then Ok tt else Exit BadDirectAddress.
Proof.
  intros Hi. rewrite Hdirect by auto. cbn [bind].
  destruct (das i =? 0); [reflexivity|]. destruct (valid_addr img (das i)); reflexivity.
Qed.

Lemma check_direct_spec :
  (check_direct img ip = Exit BadDirectAddress <->
   exists i, 0 <= i < NDIRECT /\ das i <> 0 /\ ~ 0 < das i < size) /\
  (check_direct img ip = Ok tt <->
   forall i, 0 <= i < NDIRECT -> das i = 0 \/ 0 < das i < size).
Proof.
  unfold check_direct, for_range.
  replace (Z.to_nat (NDIRECT - 0)) with (Z.to_nat NDIRECT) by reflexivity.
  match goal with |- context [for_loop _ _ ?b tt] => set (body := b) end.
  assert (B : forall k, 0 <= k < 0 + Z.of_nat (Z.to_nat NDIRECT) ->
            body k tt = if (das k =? 0) || valid_addr img (das k)
                        then Ok tt else Exit BadDirectAddress).
  { intros k Hk. apply check_direct_body. change (Z.of_nat (Z.to_nat NDIRECT)) with NDIRECT in Hk. lia. }
  destruct (for_loop_unit_two body (Z.to_nat NDIRECT) 0 BadDirectAddress) as [HE HO].
  { intros k Hk. rewrite B by auto. destruct (_ || _); auto. }
  change (Z.of_nat (Z.to_nat NDIRECT)) with NDIRECT in *.
  split.
  - rewrite HE. split.
    + intros (k & Hk & E). exists k. split; [lia|]. rewrite B in E by lia.
      destruct (Z.eqb_spec (das k) 0); [discriminate|].
      destruct (valid_addr img (das k)) eqn:V; [discriminate|].
      apply valid_addr_false in V. auto.
    + intros (k & Hk & Hnz & V). exists k. split; [lia|]. rewrite B by lia.
      apply valid_addr_false in V. rewrite V.
      destruct (Z.eqb_spec (das k) 0); [contradiction|reflexivity].
  - rewrite HO. split.
    + intros H k Hk. specialize (H k ltac:(lia)). rewrite B in H by lia.
      destruct (Z.eqb_spec (das k) 0); auto.
      destruct (valid_addr img (das k)) eqn:V; [|discriminate].
      apply valid_addr_iff in V. auto.
    + intros H k Hk. rewrite B by lia. destruct (H k ltac:(lia)) as [->|V]; auto.
      apply valid_addr_iff in V. rewrite V, orb_true_r. reflexivity.
Qed.

Lemma check_indirect_spec :
  (check_indirect img ip = Exit BadIndirectAddress <->
   ind <> 0 /\ (~ 0 < ind < size \/
                exists j, 0 <= j < NINDIRECT /\ ias j <> 0 /\ ~ 0 < ias j < size)) /\
  (check_indirect img ip = Ok tt <->
   ind = 0 \/ (0 < ind < size /\
               forall j, 0 <= j < NINDIRECT -> ias j = 0 \/ 0 < ias j < size)).
Proof.
  unfold check_indirect. rewrite Hind. cbn [bind].
  destruct (Z.eqb_spec ind 0) as [Z0|NZ].
  { split; split; auto; try discriminate. intros [? _]; contradiction. }
  destruct (valid_addr img ind) eqn:V; cbn [negb].
  2:{ apply valid_addr_false in V. split; split; auto; try discriminate.
      intros [?|[? _]]; contradiction. }
  destruct (ld32s_spec (img_map img) (Z.to_nat NINDIRECT) (blk_ptr ind) ias) as (l & E & _ & G).
  { intros j Hj. apply Hblock; auto. }
  rewrite E. cbn [bind]. unfold for_range.
  replace (Z.to_nat (NINDIRECT - 0)) with (Z.to_nat NINDIRECT) by reflexivity.
  match goal with |- context [for_loop _ _ ?b tt] => set (body := b) end.
  assert (B : forall k, 0 <= k < 0 + Z.of_nat (Z.to_nat NINDIRECT) ->
            body k tt = if (ias k =? 0) || valid_addr img (ias k)
                        then Ok tt else Exit BadIndirectAddress).
  { intros k Hk. unfold body. rewrite G by lia. cbn [bind].
    destruct (ias k =? 0); [reflexivity|]. destruct (valid_addr img (ias k)); reflexivity. }
  destruct (for_loop_unit_two body (Z.to_nat NINDIRECT) 0 BadIndirectAddress) as [HE HO].
  { intros k Hk. rewrite B by auto. destruct (_ || _); auto. }
  change (Z.of_nat (Z.to_nat NINDIRECT)) with NINDIRECT in *.
  apply valid_addr_iff in V. fold size in V.
  split.
  - rewrite HE. split.
    + intros (k & Hk & Ex). split; auto. right. exists k. split; [lia|]. rewrite B in Ex by lia.
      destruct (Z.eqb_spec (ias k) 0); [discriminate|].
      destruct (valid_addr img (ias k)) eqn:Vk; [discriminate|].
      apply valid_addr_false in Vk. auto.
    + intros [_ [Hbad|(k & Hk & Hnz & Vk)]]; [contradiction|].
      exists k. split; [lia|]. rewrite B by lia.
      apply valid_addr_false in Vk. rewrite Vk.
      destruct (Z.eqb_spec (ias k) 0); [contradiction|reflexivity].
  - rewrite HO. split.
    + intros H. right. split; auto. intros k Hk. specialize (H k ltac:(lia)).
      rewrite B in H by lia.
      destruct (Z.eqb_spec (ias k) 0); auto.
      destruct (valid_addr img (ias k)) eqn:Vk; [|discriminate].
      apply valid_addr_iff in Vk. auto.
    + intros [?|[_ H]]; [contradiction|]. intros k Hk. rewrite B by lia.
      destruct (H k ltac:(lia)) as [->|Vk]; auto.
      apply valid_addr_iff in Vk. rewrite Vk, orb_true_r. reflexivity.
Qed.

End AddressChecks.

(** C5: the address validity predicate is [0 < addr < size]; [check_direct]
    reports a bad direct address exactly when some non-zero direct slot
    fails it, [check_indirect] reports a bad indirect address exactly when
    the non-zero indirect pointer, or a non-zero slot of the block it points
    to, fails it; zero slots are skipped.  [main] runs neither check for a
    Free inode, and for an inode of a valid type the first of the two
    failures is what the run reports. *)
Theorem address_checks :
  forall (img : img_t) (i : Z) (das ias : Z -> Z) (ind t : Z),
  in_type img (inode_at img i) = Ok t ->
  (forall k, 0 <= k < NDIRECT -> in_addr img (inode_at img i) k = Ok (das k)) ->
  in_addr img (inode_at img i) NDIRECT = Ok ind ->
  (valid_addr img ind = true ->
   forall j, 0 <= j < NINDIRECT -> ind_slot img ind j = Ok (ias j)) ->
  (forall a, valid_addr img a = true <-> 0 < a < sb_size (img_sb img)) /\
  (check_direct img (inode_at img i) = Exit BadDirectAddress <->
   exists k, 0 <= k < NDIRECT /\ das k <> 0 /\ ~ 0 < das k < sb_size (img_sb img)) /\
  (check_direct img (inode_at img i) = Ok tt <->
   forall k, 0 <= k < NDIRECT -> das k = 0 \/ 0 < das k < sb_size (img_sb img)) /\
  (check_indirect img (inode_at img i) = Exit BadIndirectAddress <->
   ind <> 0 /\ (~ 0 < ind < sb_size (img_sb img) \/
                exists j, 0 <= j < NINDIRECT /\ ias j <> 0 /\
                          ~ 0 < ias j < sb_size (img_sb img))) /\
  (check_indirect img (inode_at img i) = Ok tt <->
   ind = 0 \/ (0 < ind < sb_size (img_sb img) /\
               forall j, 0 <= j < NINDIRECT ->
                         ias j = 0 \/ 0 < ias j < sb_size (img_sb img))) /\
  (t = 0 -> main_inode img i = Ok tt) /\
  (t = T_FILE \/ t = T_DIR \/ t = T_DEV ->
   (check_direct img (inode_at img i) = Exit BadDirectAddress ->
    main_inode img i = Exit BadDirectAddress) /\
   (check_direct img (inode_at img i) = Ok tt ->
    check_indirect img (inode_at img i) = Exit BadIndirectAddress ->
    main_inode img i = Exit BadIndirectAddress)).
Proof.
  intros img i das ias ind t Ht Hd Hi Hb.
  destruct (check_direct_spec img (inode_at img i) das Hd) as [D1 D2].
  destruct (check_indirect_spec img (inode_at img i) ias ind Hi Hb) as [I1 I2].
  split; [intros a; apply valid_addr_iff|].
  split; [exact D1|]. split; [exact D2|]. split; [exact I1|]. split; [exact I2|].
  split.
  - intros ->. unfold main_inode. rewrite Ht. reflexivity.
  - intros Hty.
    assert (VT : validate_type img (inode_at img i) = Ok tt).
    { unfold validate_type. rewrite Ht. cbn [bind].
      destruct Hty as [->|[->| ->]]; reflexivity. }
    assert (NZ : (t =? 0) = false).
    { destruct Hty as [->|[->| ->]]; reflexivity. }
    split.
    + intros E. unfold main_inode. rewrite Ht. cbn [bind]. rewrite NZ, VT. cbn [bind].
      rewrite E. reflexivity.
    + intros E1 E2. unfold main_inode. rewrite Ht. cbn [bind]. rewrite NZ, VT. cbn [bind].
      rewrite E1. cbn [bind]. rewrite E2. reflexivity.
Qed.

(** A file whose first direct address equals [size]: the predicate rejects
    it and the run reports a bad direct address. *)
Lemma address_checks_witness :
  valid_addr (ex_img img_bad_direct) 16 = false /\
  check_direct (ex_img img_bad_direct) (inode_at (ex_img img_bad_direct) 2)
    = Exit BadDirectAddress /\
  main_inode (ex_img img_bad_direct) 2 = Exit BadDirectAddress.
Proof.
  set (img := ex_img img_bad_direct).
  assert (Ht : in_type img (inode_at img 2) = Ok T_FILE) by (vm_compute; reflexivity).
  pose (das := fun k => val 0 (in_addr img (inode_at img 2) k)).
  assert (Hd : forall k, 0 <= k < NDIRECT -> in_addr img (inode_at img 2) k = Ok (das k)).
  { apply loads_Ok. vm_compute. reflexivity. }
  assert (Hi : in_addr img (inode_at img 2) NDIRECT = Ok 0) by (vm_compute; reflexivity).
  assert (Hv : valid_addr img 0 = false) by (vm_compute; reflexivity).
  assert (H16 : valid_addr img 16 = false) by (vm_compute; reflexivity).
  assert (D0 : das 0 = 16) by (vm_compute; reflexivity).
  assert (Sz : sb_size (img_sb img) = 16) by reflexivity.
  clearbody das. clearbody img.
  assert (Hb : valid_addr img 0 = true ->
            forall j, 0 <= j < NINDIRECT -> ind_slot img 0 j = Ok 0).
  { rewrite Hv. discriminate. }
  destruct (address_checks img 2 das (fun _ => 0) 0 T_FILE Ht Hd Hi Hb)
    as (V & D1 & _ & _ & _ & _ & M).
  assert (E : check_direct img (inode_at img 2) = Exit BadDirectAddress).
  { apply D1. exists 0. rewrite D0, Sz. unfold NDIRECT. repeat split; lia. }
  split; [exact H16|]. split; [exact E|].
  apply M; [left; reflexivity | exact E].
Defined.

(** ** The reference-count table *)

Lemma incr_in (a : list Z) i c :
  aget a i = Ok c -> incr a i = Ok (zupd a i (wrap_int (c + 1))).
Proof.
  intros H. unfold incr. rewrite H. cbn [bind].
  destruct (aget_cases a i) as [(x & E & R)|[E _]]; [|congruence].
  apply aset_in. auto.
Qed.

Lemma incr_out (a : list Z) i :
  ~ 0 <= i < Z.of_nat (length a) -> incr a i = Fault.
Proof. intros H. unfold incr. rewrite aget_out by auto. reflexivity. Qed.

Lemma plain_incr a i : plain (incr a i).
Proof.
  unfold incr. apply plain_bind; [apply plain_aget|]. intros; apply plain_aset.
Qed.

Lemma incr_length a i a' : incr a i = Ok a' -> length a' = length a.
Proof.
  unfold incr. intros H. apply bind_Ok_inv in H as (c & Hc & H).
  unfold aset in H. destruct (i <? 0); [discriminate|].
  destruct (zth a i); [|discriminate]. apply Ok_inj in H. subst a'. apply zupd_length.
Qed.

(** C8 (as amended): before the traversal begins the table is zeroed and
    the entries of inode 0 and of the root inode 1 are each incremented once:
    the root starts with a count of 1 (and so does inode 0), every other
    entry with 0; nothing of this is read from the root's entries.  [dir_chk]
    hands this table to [traverse_dirs]. *)
Theorem dir_chk_seed_spec : forall img,
  2 <= sb_ninodes (img_sb img) ->
  exists inmap,
    dir_chk_seed img = Ok inmap /\
    Z.of_nat (length inmap) = sb_ninodes (img_sb img) /\
    aget inmap 0 = Ok 1 /\
    aget inmap 1 = Ok 1 /\
    (forall i, 2 <= i < sb_ninodes (img_sb img) -> aget inmap i = Ok 0) /\
    forall fuel,
      dir_chk fuel img =
      bind (traverse_dirs fuel img (inode_at img 1) inmap) (dir_chk_sweep img).
Proof.
  intros img Hn. set (n := sb_ninodes (img_sb img)) in *.
  pose proof (zeros_length 0 n ltac:(lia)) as L.
  assert (E0 : incr (zeros 0 n) 0 = Ok (zupd (zeros 0 n) 0 1)).
  { apply (incr_in _ 0 0). apply aget_zeros. lia. }
  assert (E1 : incr (zupd (zeros 0 n) 0 1) 1 = Ok (zupd (zupd (zeros 0 n) 0 1) 1 1)).
  { apply (incr_in _ 1 0). rewrite aget_zupd_other by lia. apply aget_zeros. lia. }
  exists (zupd (zupd (zeros 0 n) 0 1) 1 1).
  assert (S : dir_chk_seed img = Ok (zupd (zupd (zeros 0 n) 0 1) 1 1)).
  { unfold dir_chk_seed. fold n. rewrite E0. cbn [bind]. exact E1. }
  split; [exact S|]. split; [rewrite !zupd_length; exact L|].
  split.
  { rewrite aget_zupd_other by lia. apply aget_zupd_same. lia. }
  split.
  { apply aget_zupd_same. rewrite zupd_length. lia. }
  split.
  { intros i Hi. rewrite !aget_zupd_other by lia. apply aget_zeros. lia. }
  intros fuel. unfold dir_chk. rewrite S. reflexivity.
Qed.

(** The seed of the example image, which has 8 inodes. *)
Lemma dir_chk_seed_witness :
  exists inmap, dir_chk_seed (ex_img img_minimal) = Ok inmap /\
    aget inmap 0 = Ok 1 /\ aget inmap 1 = Ok 1.
Proof.
  destruct (dir_chk_seed_spec (ex_img img_minimal)) as (inmap & S & _ & A0 & A1 & _).
  - vm_compute. discriminate.
  - exists inmap. auto.
Defined.

(** C8, counterexample: the seed credits the root with 1, not 2. *)
Lemma dir_chk_seed_root_is_one :
  exists inmap, dir_chk_seed (ex_img img_minimal) = Ok inmap /\
    aget inmap 1 = Ok 1 /\ aget inmap 1 <> Ok 2.
Proof.
  eexists. split; [vm_compute; reflexivity|].
  split; [vm_compute; reflexivity|]. vm_compute. discriminate.
Qed.

(** ** The reference reconciler *)

Section Reconciler.

Variables (img : img_t) (inmap : list Z).
Variables (ty nlk cnt : Z -> Z).
Let ninodes := sb_ninodes (img_sb img).
Hypothesis Hread : forall n, 2 <= n < ninodes ->
  in_type img (inode_at img n) = Ok (ty n) /\
  in_nlink img (inode_at img n) = Ok (nlk n) /\
  aget inmap n = Ok (cnt n).

Lemma chk_in_use_spec n : 2 <= n < ninodes ->
  chk_in_use img (inode_at img n) n inmap =
  if negb (ty n =? 0) && (cnt n =? 0) then Exit InodeNotInAnyDirectory else Ok tt.
Proof.
  intros Hn. destruct (Hread n Hn) as (Ht & _ & Hc).
  unfold chk_in_use. rewrite Ht. cbn [bind].
  destruct (ty n =? 0); cbn [negb andb]; [reflexivity|].
  rewrite Hc. reflexivity.
Qed.

Lemma chk_in_free_spec n : 2 <= n < ninodes ->
  chk_in_free img (inode_at img n) n inmap =
  if (0 <? cnt n) && (ty n =? 0) then Exit DanglingDirectoryReference else Ok tt.
Proof.
  intros Hn. destruct (Hread n Hn) as (Ht & _ & Hc).
  unfold chk_in_free. rewrite Hc. cbn [bind].
  destruct (0 <? cnt n); cbn [andb]; [|reflexivity].
  rewrite Ht. reflexivity.
Qed.

Lemma chk_ref_cnt_spec n : 2 <= n < ninodes ->
  chk_ref_cnt img (inode_at img n) n inmap =
  if (ty n =? T_FILE) && negb (nlk n =? cnt n) then Exit BadLinkCount else Ok tt.
Proof.
  intros Hn. destruct (Hread n Hn) as (Ht & Hl & Hc).
  unfold chk_ref_cnt. rewrite Ht. cbn [bind].
  destruct (ty n =? T_FILE); cbn [andb]; [|reflexivity].
  rewrite Hl. cbn [bind]. rewrite Hc. reflexivity.
Qed.

Lemma chk_dir_once_spec n : 2 <= n < ninodes ->
  chk_dir_once img (inode_at img n) n inmap =
  if (ty n =? T_DIR) && (1 <? cnt n) then Exit DirectoryHardLinked else Ok tt.
Proof.
  intros Hn. destruct (Hread n Hn) as (Ht & _ & Hc).
  unfold chk_dir_once. rewrite Ht. cbn [bind].
  destruct (ty n =? T_DIR); cbn [andb]; [|reflexivity].
  rewrite Hc. reflexivity.
Qed.

(** The four rules at inode [n], as propositions. *)
Let not_in_dir n := ty n <> 0 /\ cnt n = 0.
Let dangling n := 0 < cnt n /\ ty n = 0.
Let bad_nlink n := ty n = T_FILE /\ nlk n <> cnt n.
Let hard_linked n := ty n = T_DIR /\ 1 < cnt n.

Lemma dir_chk_inode_spec n : 2 <= n < ninodes ->
  (dir_chk_inode img inmap n = Ok tt <->
   ~ not_in_dir n /\ ~ dangling n /\ ~ bad_nlink n /\ ~ hard_linked n) /\
  (not_in_dir n -> dir_chk_inode img inmap n = Exit InodeNotInAnyDirectory) /\
  (dangling n -> dir_chk_inode img inmap n = Exit DanglingDirectoryReference) /\
  (bad_nlink n -> cnt n <> 0 -> dir_chk_inode img inmap n = Exit BadLinkCount) /\
  (hard_linked n -> dir_chk_inode img inmap n = Exit DirectoryHardLinked) /\
  (forall e, dir_chk_inode img inmap n = Exit e ->
     (e = InodeNotInAnyDirectory /\ not_in_dir n) \/
     (e = DanglingDirectoryReference /\ dangling n) \/
     (e = BadLinkCount /\ bad_nlink n) \/
     (e = DirectoryHardLinked /\ hard_linked n)) /\
  dir_chk_inode img inmap n <> Fault /\ dir_chk_inode img inmap n <> OutOfFuel.
Proof.
  intros Hn. unfold dir_chk_inode.
  rewrite chk_in_use_spec, chk_in_free_spec, chk_ref_cnt_spec, chk_dir_once_spec by auto.
  unfold not_in_dir, dangling, bad_nlink, hard_linked, T_FILE, T_DIR.
  destruct (Z.eqb_spec (ty n) 0) as [T0|T0]; destruct (Z.eqb_spec (cnt n) 0) as [C0|C0];
  destruct (Z.ltb_spec 0 (cnt n)) as [C1|C1]; destruct (Z.ltb_spec 1 (cnt n)) as [C2|C2];
  destruct (Z.eqb_spec (ty n) 2) as [T2|T2]; destruct (Z.eqb_spec (ty n) 1) as [T1|T1];
  destruct (Z.eqb_spec (nlk n) (cnt n)) as [NL|NL];
  cbn [negb andb bind]; try lia;
  (split; [split; [intros H; try discriminate H; repeat split; intros [? ?]; lia
                  | intros (H1 & H2 & H3 & H4); try reflexivity;
                    try (exfalso; apply H1; split; lia);
                    try (exfalso; apply H2; split; lia);
                    try (exfalso; apply H3; split; lia);
                    try (exfalso; apply H4; split; lia)] |]);
  (split; [intros [? ?]; try lia; reflexivity|]);
  (split; [intros [? ?]; try lia; reflexivity|]);
  (split; [intros [? ?] ?; try lia; reflexivity|]);
  (split; [intros [? ?]; try lia; reflexivity|]);
  (split; [intros e H; try discriminate H; apply (f_equal (fun r => match r with Exit x => x | _ => e end)) in H;
           subst e; first [ left; split; [reflexivity|split; lia]
                          | right; left; split; [reflexivity|split; lia]
                          | right; right; left; split; [reflexivity|split; lia]
                          | right; right; right; split; [reflexivity|split; lia] ] |]);
  split; discriminate.
Qed.

End Reconciler.

Lemma if_Exit_iff (b : bool) (e : error) (P : Prop) :
  (b = true <-> P) ->
  ((if b then Exit e else Ok tt) = Exit e <-> P) /\
  ((if b then Exit e else Ok tt) = Exit e \/ (if b then Exit e else Ok tt) = Ok tt).
Proof.
  intros H. destruct b.
  - split; [split; [intros _; apply H; reflexivity | reflexivity] | left; reflexivity].
  - split; [split; [discriminate | intros HP; apply H in HP; discriminate] | right; reflexivity].
Qed.

(** C6: for every inode number [n] from 2 up to [ninodes - 1] the reconciler
    applies four checks, in this order: [chk_in_use] reports an inode in use
    that no directory refers to (type not Free, count 0), [chk_in_free] a
    reference to a free inode (count positive, type Free), [chk_ref_cnt] a
    file whose [nlink] differs from its count, [chk_dir_once] a directory
    whose count exceeds 1; a Device inode passes the link-count check
    whatever its [nlink].  The sweep ends normally exactly when no rule
    fires for any such [n]; otherwise it reports the first rule that fires
    at the first such inode.  Inodes 0 and 1 are not looked at. *)
Theorem reference_reconciler :
  forall (img : img_t) (inmap : list Z) (ty nlk cnt : Z -> Z),
  (forall n, 2 <= n < sb_ninodes (img_sb img) ->
     in_type img (inode_at img n) = Ok (ty n) /\
     in_nlink img (inode_at img n) = Ok (nlk n) /\
     aget inmap n = Ok (cnt n)) ->
  (forall n, 2 <= n < sb_ninodes (img_sb img) ->
     (chk_in_use img (inode_at img n) n inmap = Exit InodeNotInAnyDirectory <->
      ty n <> 0 /\ cnt n = 0) /\
     (chk_in_free img (inode_at img n) n inmap = Exit DanglingDirectoryReference <->
      0 < cnt n /\ ty n = 0) /\
     (chk_ref_cnt img (inode_at img n) n inmap = Exit BadLinkCount <->
      ty n = T_FILE /\ nlk n <> cnt n) /\
     (chk_dir_once img (inode_at img n) n inmap = Exit DirectoryHardLinked <->
      ty n = T_DIR /\ 1 < cnt n) /\
     (ty n = T_DEV -> chk_ref_cnt img (inode_at img n) n inmap = Ok tt) /\
     (chk_in_use img (inode_at img n) n inmap = Exit InodeNotInAnyDirectory \/
      chk_in_use img (inode_at img n) n inmap = Ok tt) /\
     (chk_in_free img (inode_at img n) n inmap = Exit DanglingDirectoryReference \/
      chk_in_free img (inode_at img n) n inmap = Ok tt) /\
     (chk_ref_cnt img (inode_at img n) n inmap = Exit BadLinkCount \/
      chk_ref_cnt img (inode_at img n) n inmap = Ok tt) /\
     (chk_dir_once img (inode_at img n) n inmap = Exit DirectoryHardLinked \/
      chk_dir_once img (inode_at img n) n inmap = Ok tt)) /\
  (dir_chk_sweep img inmap = Ok tt <->
   forall n, 2 <= n < sb_ninodes (img_sb img) ->
     ~ (ty n <> 0 /\ cnt n = 0) /\ ~ (0 < cnt n /\ ty n = 0) /\
     ~ (ty n = T_FILE /\ nlk n <> cnt n) /\ ~ (ty n = T_DIR /\ 1 < cnt n)) /\
  (forall e, dir_chk_sweep img inmap = Exit e ->
     exists n, 2 <= n < sb_ninodes (img_sb img) /\
       ((e = InodeNotInAnyDirectory /\ ty n <> 0 /\ cnt n = 0) \/
        (e = DanglingDirectoryReference /\ 0 < cnt n /\ ty n = 0) \/
        (e = BadLinkCount /\ ty n = T_FILE /\ nlk n <> cnt n) \/
        (e = DirectoryHardLinked /\ ty n = T_DIR /\ 1 < cnt n))) /\
  (forall n, 2 <= n < sb_ninodes (img_sb img) ->
     (forall k, 2 <= k < n ->
        ~ (ty k <> 0 /\ cnt k = 0) /\ ~ (0 < cnt k /\ ty k = 0) /\
        ~ (ty k = T_FILE /\ nlk k <> cnt k) /\ ~ (ty k = T_DIR /\ 1 < cnt k)) ->
     (ty n <> 0 /\ cnt n = 0 -> dir_chk_sweep img inmap = Exit InodeNotInAnyDirectory) /\
     (0 < cnt n /\ ty n = 0 -> dir_chk_sweep img inmap = Exit DanglingDirectoryReference) /\
     (ty n = T_FILE /\ nlk n <> cnt n -> cnt n <> 0 ->
      dir_chk_sweep img inmap = Exit BadLinkCount) /\
     (ty n = T_DIR /\ 1 < cnt n -> dir_chk_sweep img inmap = Exit DirectoryHardLinked)).
Proof.
  intros img inmap ty nlk cnt Hread.
  set (ninodes := sb_ninodes (img_sb img)) in *.
  assert (Rg : forall k, 2 <= k < 2 + Z.of_nat (Z.to_nat (ninodes - 2)) <-> 2 <= k < ninodes)
    by (intros; lia).
  split; [|split; [|split]].
  - intros n Hn.
    rewrite (chk_in_use_spec img inmap ty nlk cnt Hread n Hn).
    rewrite (chk_in_free_spec img inmap ty nlk cnt Hread n Hn).
    rewrite (chk_ref_cnt_spec img inmap ty nlk cnt Hread n Hn).
    rewrite (chk_dir_once_spec img inmap ty nlk cnt Hread n Hn).
    destruct (if_Exit_iff (negb (ty n =? 0) && (cnt n =? 0)) InodeNotInAnyDirectory
                (ty n <> 0 /\ cnt n = 0)) as [A1 A2].
    { rewrite andb_true_iff, negb_true_iff, Z.eqb_neq, Z.eqb_eq. tauto. }
    destruct (if_Exit_iff ((0 <? cnt n) && (ty n =? 0)) DanglingDirectoryReference
                (0 < cnt n /\ ty n = 0)) as [B1 B2].
    { rewrite andb_true_iff, Z.ltb_lt, Z.eqb_eq. tauto. }
    destruct (if_Exit_iff ((ty n =? T_FILE) && negb (nlk n =? cnt n)) BadLinkCount
                (ty n = T_FILE /\ nlk n <> cnt n)) as [C1 C2].
    { rewrite andb_true_iff, negb_true_iff, Z.eqb_neq, Z.eqb_eq. tauto. }
    destruct (if_Exit_iff ((ty n =? T_DIR) && (1 <? cnt n)) DirectoryHardLinked
                (ty n = T_DIR /\ 1 < cnt n)) as [D1 D2].
    { rewrite andb_true_iff, Z.ltb_lt, Z.eqb_eq. tauto. }
    repeat (split; [assumption|]). split; [|repeat (split; [assumption|]); assumption].
    intros ->. reflexivity.
  - unfold dir_chk_sweep, for_range. fold ninodes. split.
    + intros H n Hn.
      apply for_loop_unit_inv in H as [[_ Hall]|(k & _ & _ & Hr & Hab)];
        [|destruct (Hab tt); reflexivity].
      specialize (Hall n (proj2 (Rg n) Hn)). cbv beta in Hall.
      apply (dir_chk_inode_spec img inmap ty nlk cnt Hread n Hn) in Hall. exact Hall.
    + intros H. apply for_loop_unit_all. intros k Hk. apply Rg in Hk.
      apply (dir_chk_inode_spec img inmap ty nlk cnt Hread k Hk). apply H. exact Hk.
  - intros e H. unfold dir_chk_sweep, for_range in H. fold ninodes in H.
    apply for_loop_unit_inv in H as [[H _]|(k & Hk & _ & Hr & _)]; [discriminate|].
    apply Rg in Hk. exists k. split; [exact Hk|]. cbv beta in Hr.
    destruct (dir_chk_inode_spec img inmap ty nlk cnt Hread k Hk) as (_ & _ & _ & _ & _ & HE & _).
    apply HE. exact Hr.
  - intros n Hn Hpre.
    assert (First : abnormal (dir_chk_inode img inmap n) ->
                    dir_chk_sweep img inmap = dir_chk_inode img inmap n).
    { intros Hab. unfold dir_chk_sweep, for_range. fold ninodes.
      apply (for_loop_unit_first (fun i _ => dir_chk_inode img inmap i) _ 2 n).
      - apply Rg. exact Hn.
      - intros k Hk. cbv beta.
        apply (dir_chk_inode_spec img inmap ty nlk cnt Hread k ltac:(lia)).
        apply Hpre. exact Hk.
      - exact Hab. }
    destruct (dir_chk_inode_spec img inmap ty nlk cnt Hread n Hn)
      as (_ & H1 & H2 & H3 & H4 & _).
    repeat split.
    + intros V. rewrite First; rewrite (H1 V); [reflexivity|intros a; discriminate].
    + intros V. rewrite First; rewrite (H2 V); [reflexivity|intros a; discriminate].
    + intros V C. rewrite First; rewrite (H3 V C); [reflexivity|intros a; discriminate].
    + intros V. rewrite First; rewrite (H4 V); [reflexivity|intros a; discriminate].
Qed.

(** Scenario D: the file of inode 2 has [nlink = 2] and is entered once;
    the sweep over the table the traversal leaves reports the link count. *)
Lemma reference_reconciler_witness :
  bind (dir_chk_seed (ex_img img_bad_nlink))
       (traverse_dirs 2 (ex_img img_bad_nlink) (inode_at (ex_img img_bad_nlink) 1))
    = Ok [1; 1; 1; 0; 0; 0; 0; 0] /\
  dir_chk_sweep (ex_img img_bad_nlink) [1; 1; 1; 0; 0; 0; 0; 0] = Exit BadLinkCount.
Proof.
  split; [vm_compute; reflexivity|].
  set (img := ex_img img_bad_nlink). set (inmap := [1; 1; 1; 0; 0; 0; 0; 0]).
  pose (ty := fun n => val 0 (in_type img (inode_at img n))).
  pose (nlk := fun n => val 0 (in_nlink img (inode_at img n))).
  pose (cnt := fun n => val 0 (aget inmap n)).
  assert (N : sb_ninodes (img_sb img) = 8) by reflexivity.
  assert (H1 : forall n, 2 <= n < 8 -> in_type img (inode_at img n) = Ok (ty n)).
  { apply loads_Ok. vm_compute. reflexivity. }
  assert (H2 : forall n, 2 <= n < 8 -> in_nlink img (inode_at img n) = Ok (nlk n)).
  { apply loads_Ok. vm_compute. reflexivity. }
  assert (H3 : forall n, 2 <= n < 8 -> aget inmap n = Ok (cnt n)).
  { apply loads_Ok. vm_compute. reflexivity. }
  assert (T2 : ty 2 = T_FILE) by (vm_compute; reflexivity).
  assert (L2 : nlk 2 = 2) by (vm_compute; reflexivity).
  assert (C2 : cnt 2 = 1) by (vm_compute; reflexivity).
  clearbody ty nlk cnt. clearbody img.
  destruct (reference_reconciler img inmap ty nlk cnt) as (_ & _ & _ & F).
  { rewrite N. intros n Hn. auto. }
  destruct (F 2) as (_ & _ & B & _).
  - rewrite N. lia.
  - intros k Hk. lia.
  - apply B; [split; [exact T2|]|]; lia.
Defined.

(** ** The bitmap *)

(** [CHK_BIT] tests bit [k] of the byte, least significant bit first, also
    for the sign-extended operands of bit 7. *)
Lemma CHK_BIT_testbit_byte : forall b k,
  0 <= b < 256 -> 0 <= k < 8 ->
  negb (Z.land (sext8 b) (sext8 (val 0 (aget bits k))) =? 0) = Z.testbit b k.
Proof.
  intros b k Hb Hk.
  apply Bool.eqb_prop.
  apply (forallb_zrange
           (fun k => Bool.eqb (negb (Z.land (sext8 b) (sext8 (val 0 (aget bits k))) =? 0))
                              (Z.testbit b k)) 0 8); [|lia].
  apply (forallb_zrange
           (fun b => forallb
              (fun k => Bool.eqb (negb (Z.land (sext8 b) (sext8 (val 0 (aget bits k))) =? 0))
                                 (Z.testbit b k)) (zrange 0 8)) 0 256); [|lia].
  vm_compute. reflexivity.
Qed.

Lemma aget_bits k : 0 <= k < 8 -> aget bits k = Ok (val 0 (aget bits k)).
Proof.
  intros Hk. apply is_Ok_val.
  apply (forallb_zrange (fun k => is_Ok (aget bits k)) 0 8); [reflexivity|lia].
Qed.

Lemma marked_in_bmp_testbit img bmp a b :
  ld8 (img_map img) (bmp + a / 8) = Ok b ->
  marked_in_bmp img bmp a = Ok (Z.testbit b (a mod 8)).
Proof.
  intros H. unfold marked_in_bmp, CHK_BIT. rewrite H. cbn [bind].
  pose proof (Z.mod_pos_bound a 8 ltac:(lia)) as Hk.
  rewrite (aget_bits _ Hk). cbn [bind]. f_equal.
  apply CHK_BIT_testbit_byte; auto. eapply ld8_range; eauto.
Qed.

Lemma plain_CHK_BIT img bmp a : plain (CHK_BIT img bmp a).
Proof.
  unfold CHK_BIT. apply plain_bind; [apply plain_ld8|intros b _].
  apply plain_bind; [apply plain_aget|intros; apply plain_Ok].
Qed.

Lemma CHK_BIT_mapped img a :
  bitmap_mapped img -> 0 <= a < sb_size (img_sb img) ->
  exists v, CHK_BIT img (img_bitmapblks img) a = Ok v.
Proof.
  intros Hm Ha. destruct (Hm a Ha) as (b & Hb). unfold CHK_BIT. rewrite Hb. cbn [bind].
  rewrite (aget_bits (a mod 8)) by (apply Z.mod_pos_bound; lia). cbn [bind]. eauto.
Qed.

Lemma bmp_chk_unused_Ok img chklist :
  bitmap_mapped img ->
  Z.of_nat (length chklist) = sb_size (img_sb img) ->
  bmp_chk_unused img chklist = Ok tt.
Proof.
  intros Hm Hl. unfold bmp_chk_unused, for_range. apply for_loop_unit_all.
  intros k Hk. assert (Hk' : 0 <= k < sb_size (img_sb img)) by lia.
  destruct (CHK_BIT_mapped img k Hm Hk') as (v & ->). cbn [bind].
  destruct (negb (v =? 0)); [|reflexivity].
  destruct (aget_in chklist k ltac:(lia)) as (c & ->). cbn [bind].
  destruct (negb c); reflexivity.
Qed.

Lemma chk_mark_bmp_Ok img bmp a chklist chklist' :
  chk_mark_bmp img bmp a chklist = Ok chklist' ->
  0 <= a < Z.of_nat (length chklist) /\ chklist' = zupd chklist a true.
Proof.
  unfold chk_mark_bmp. intros H. apply bind_Ok_inv in H as (v & _ & H).
  destruct (v =? 0); [discriminate|].
  destruct (Z_lt_dec a 0) as [Hn|Hn]; [rewrite aset_out in H by lia; discriminate|].
  destruct (Z_lt_dec a (Z.of_nat (length chklist))) as [Hl|Hl];
    [|rewrite aset_out in H by lia; discriminate].
  rewrite aset_in in H by lia. apply Ok_inj in H. split; [lia|congruence].
Qed.

Lemma chklist_inv_mark img chklist a i s :
  chklist_inv img chklist -> refers img i s a ->
  0 <= a < Z.of_nat (length chklist) ->
  chklist_inv img (zupd chklist a true).
Proof.
  intros [Hl Hs] Hr Ha. split; [rewrite zupd_length; exact Hl|].
  intros b Hb. destruct (Z.eq_dec a b) as [<-|Hne]; [eauto|].
  rewrite aget_zupd_other in Hb by lia. auto.
Qed.

Lemma bmp_chk_inodes_inv img chklist0 chklist :
  chklist_inv img chklist0 ->
  bmp_chk_inodes img chklist0 = Ok chklist ->
  chklist_inv img chklist.
Proof.
  intros H0 H. unfold bmp_chk_inodes, for_range in H.
  revert H. apply for_loop_inv; [exact H0|].
  intros i c c' Hi Ic Hb. rewrite Z.sub_0_r in Hi.
  assert (Hi' : 0 <= i < sb_ninodes (img_sb img)) by lia. clear Hi.
  apply bind_Ok_inv in Hb as (t & Ht & Hb).
  destruct (Z.eqb_spec t 0) as [T0|T0]; [apply Ok_inj in Hb; subst c'; exact Ic|].
  apply bind_Ok_inv in Hb as (c1 & H1 & Hb).
  assert (I1 : chklist_inv img c1).
  { revert H1. unfold for_range. apply for_loop_inv; [exact Ic|].
    intros j d d' Hj Id Hd. change (Z.of_nat (Z.to_nat (NDIRECT - 0))) with NDIRECT in Hj.
    apply bind_Ok_inv in Hd as (a & Ha & Hd).
    destruct (Z.eqb_spec a 0) as [A0|A0]; cbn [negb] in Hd;
      [apply Ok_inj in Hd; subst d'; exact Id|].
    apply chk_mark_bmp_Ok in Hd as [Hr ->].
    apply (chklist_inv_mark img d a i (Sdirect j)); auto.
    unfold refers. repeat split; eauto; try lia. }
  apply bind_Ok_inv in Hb as (ind & Hind & Hb).
  destruct (Z.eqb_spec ind 0) as [N0|N0]; cbn [negb] in Hb;
    [apply Ok_inj in Hb; subst c'; exact I1|].
  revert Hb. unfold for_range. apply for_loop_inv; [exact I1|].
  intros j d d' Hj Id Hd. change (Z.of_nat (Z.to_nat (NINDIRECT - 0))) with NINDIRECT in Hj.
  apply bind_Ok_inv in Hd as (a & Ha & Hd).
  destruct (Z.eqb_spec a 0) as [A0|A0]; cbn [negb] in Hd;
    [apply Ok_inj in Hd; subst d'; exact Id|].
  apply chk_mark_bmp_Ok in Hd as [Hr ->].
  apply (chklist_inv_mark img d a i (Sindirect j)); auto.
  unfold refers. repeat split; eauto; try lia.
Qed.

Lemma chklist_inv_zeros img :
  0 <= sb_size (img_sb img) -> chklist_inv img (zeros false (sb_size (img_sb img))).
Proof.
  intros Hs. split; [apply zeros_length; auto|].
  intros a Ha. destruct (aget_cases (zeros false (sb_size (img_sb img))) a)
    as [(x & E & R)|[E _]]; [|congruence].
  rewrite zeros_length in R by auto. rewrite aget_zeros in Ha by auto. discriminate.
Qed.

(** C4: when the bitmap marks a block that no inode in use refers to, the
    last loop of [bmp_chk] meets the discrepancy (the bit is set and the
    block is not in the list of referenced blocks) and does nothing: it
    never reports, [bmp_chk] gives the outcome of its first loop alone, and
    [main] goes on to [addrs_chk] and [dir_chk] as if the loop were absent. *)
Theorem bmp_chk_backward_silent :
  forall (img : img_t) (a : Z),
  bitmap_mapped img ->
  0 <= a < sb_size (img_sb img) ->
  marked_in_bmp img (img_bitmapblks img) a = Ok true ->
  (forall i s, ~ refers img i s a) ->
  (forall chklist, Z.of_nat (length chklist) = sb_size (img_sb img) ->
     bmp_chk_unused img chklist = Ok tt) /\
  bmp_chk img = (bmp_chk_inodes img (zeros false (sb_size (img_sb img))) ;;; Ok tt) /\
  (forall fuel m, init_img m = Ok img ->
     main fuel m =
     (main_sweep img ;;;
      (bmp_chk_inodes img (zeros false (sb_size (img_sb img))) ;;; Ok tt) ;;;
      addrs_chk img ;;; dir_chk fuel img)) /\
  (forall chklist,
     bmp_chk_inodes img (zeros false (sb_size (img_sb img))) = Ok chklist ->
     aget chklist a = Ok false /\
     (exists v, CHK_BIT img (img_bitmapblks img) a = Ok v /\ v <> 0) /\
     bmp_chk img = Ok tt).
Proof.
  intros img a Hm Ha Hbit Hno.
  assert (U : forall chklist, Z.of_nat (length chklist) = sb_size (img_sb img) ->
            bmp_chk_unused img chklist = Ok tt).
  { intros c Hc. apply bmp_chk_unused_Ok; auto. }
  assert (B : bmp_chk img =
              (bmp_chk_inodes img (zeros false (sb_size (img_sb img))) ;;; Ok tt)).
  { unfold bmp_chk.
    destruct (bmp_chk_inodes img (zeros false (sb_size (img_sb img)))) as [c| | |] eqn:E;
      cbn [bind]; auto.
    apply U. eapply bmp_chk_inodes_inv in E; [apply E|]. apply chklist_inv_zeros. lia. }
  split; [exact U|]. split; [exact B|]. split.
  - intros fuel m Hi. unfold main. rewrite Hi. cbn [bind]. rewrite B. reflexivity.
  - intros c Hc. pose proof Hc as Hinv.
    apply bmp_chk_inodes_inv in Hinv; [|apply chklist_inv_zeros; lia].
    destruct Hinv as [Hl Hs]. split; [|split].
    + destruct (aget_in c a ltac:(lia)) as ([|] & Hx); [|exact Hx].
      destruct (Hs a Hx) as (i & s & Hr). destruct (Hno i s Hr).
    + unfold marked_in_bmp in Hbit. apply bind_Ok_inv in Hbit as (v & Hv & Hbit).
      exists v. split; [exact Hv|]. apply Ok_inj in Hbit.
      destruct (Z.eqb_spec v 0); [discriminate|auto].
    + rewrite B, Hc. reflexivity.
Qed.

Lemma existsb_zrange (P : Z -> bool) lo n k :
  lo <= k < lo + Z.of_nat n -> P k = true -> existsb P (zrange lo n) = true.
Proof.
  intros Hk HP. apply existsb_exists. exists k. split; [apply zrange_In; auto|auto].
Qed.

Lemma refers_referredb img i s a : refers img i s a -> referredb img a = true.
Proof.
  intros (Hi & (t & Ht & Tn) & Ha & Hs). unfold referredb.
  apply (existsb_zrange _ 0 _ i); [lia|].
  apply andb_true_iff. split.
  { unfold in_useb. rewrite Ht. destruct (Z.eqb_spec t 0); [contradiction|reflexivity]. }
  unfold holdsb. apply orb_true_iff. destruct s as [j| |j].
  - destruct Hs as [Hj Hs]. left. apply (existsb_zrange _ 0 _ j).
    + change (Z.of_nat (Z.to_nat (NDIRECT + 1))) with (NDIRECT + 1). lia.
    + rewrite Hs. apply Z.eqb_refl.
  - left. apply (existsb_zrange _ 0 _ NDIRECT).
    + change (Z.of_nat (Z.to_nat (NDIRECT + 1))) with (NDIRECT + 1). unfold NDIRECT. lia.
    + rewrite Hs. apply Z.eqb_refl.
  - destruct Hs as (Hj & ind & Hind & Hnz & Hs). right. rewrite Hind.
    apply andb_true_iff. split.
    + destruct (Z.eqb_spec ind 0); [contradiction|reflexivity].
    + apply (existsb_zrange _ 0 _ j).
      * change (Z.of_nat (Z.to_nat NINDIRECT)) with NINDIRECT. lia.
      * rewrite Hs. apply Z.eqb_refl.
Qed.

Lemma bitmap_mapped_by_eval img :
  forallb (fun a => is_Ok (ld8 (img_map img) (img_bitmapblks img + a / 8)))
          (zrange 0 (Z.to_nat (sb_size (img_sb img)))) = true ->
  bitmap_mapped img.
Proof.
  intros H a Ha.
  pose proof (forallb_zrange _ _ _ H a ltac:(lia)) as Hk. cbv beta in Hk.
  destruct (ld8 (img_map img) (img_bitmapblks img + a / 8)); try discriminate. eauto.
Qed.

(** The consistent image with block 6 marked and unused: the bit is seen
    by the last loop and the run ends with [exit(0)]. *)
Lemma bmp_chk_backward_silent_witness :
  marked_in_bmp (ex_img img_stray_bit) (img_bitmapblks (ex_img img_stray_bit)) 6 = Ok true /\
  referredb (ex_img img_stray_bit) 6 = false /\
  bmp_chk (ex_img img_stray_bit) = Ok tt /\
  main 2 img_stray_bit = Ok tt.
Proof.
  set (img := ex_img img_stray_bit).
  assert (Hm : bitmap_mapped img) by (apply bitmap_mapped_by_eval; vm_compute; reflexivity).
  assert (Hbit : marked_in_bmp img (img_bitmapblks img) 6 = Ok true) by (vm_compute; reflexivity).
  assert (Hr : referredb img 6 = false) by (vm_compute; reflexivity).
  assert (Hc : bmp_chk_inodes img (zeros false (sb_size (img_sb img)))
               = Ok (val [] (bmp_chk_inodes img (zeros false (sb_size (img_sb img))))))
    by (apply is_Ok_val; vm_compute; reflexivity).
  assert (Hs : sb_size (img_sb img) = 16) by reflexivity.
  assert (Hmain : main 2 img_stray_bit = Ok tt) by (vm_compute; reflexivity).
  clearbody img.
  destruct (bmp_chk_backward_silent img 6 Hm) as (_ & _ & _ & F).
  - rewrite Hs. lia.
  - exact Hbit.
  - intros i s R. apply refers_referredb in R. congruence.
  - destruct (F _ Hc) as (_ & _ & B). auto.
Defined.

(** ** Which diagnostics a component can print *)

Lemma only_plain {A} (P : error -> Prop) (r : result A) : plain r -> only P r.
Proof. intros [[a ->]| ->]; exact I. Qed.

Lemma only_bind {A B} (P : error -> Prop) (m : result A) (k : A -> result B) :
  only P m -> (forall a, m = Ok a -> only P (k a)) -> only P (bind m k).
Proof. destruct m; simpl; intros H Hk; auto. Qed.

Lemma only_weaken {A} (P Q : error -> Prop) (r : result A) :
  (forall e, P e -> Q e) -> only P r -> only Q r.
Proof. destruct r; simpl; auto. Qed.

Lemma only_for_loop {S} (P : error -> Prop) (body : Z -> S -> result S) : forall n i s,
  (forall k s, i <= k < i + Z.of_nat n -> only P (body k s)) ->
  only P (for_loop n i body s).
Proof.
  induction n as [|n IH]; intros i s H; simpl; [exact I|].
  apply only_bind; [apply H; lia|]. intros s' _. apply IH. intros; apply H; lia.
Qed.

Lemma only_for_break {S} (P : error -> Prop) (body : Z -> S -> result (bool * S)) :
  forall n i s,
  (forall k s, i <= k < i + Z.of_nat n -> only P (body k s)) ->
  only P (for_break n i body s).
Proof.
  induction n as [|n IH]; intros i s H; simpl; [exact I|].
  apply only_bind; [apply H; lia|]. intros [b s'] _. simpl.
  destruct b; [exact I|]. apply IH. intros; apply H; lia.
Qed.



Ltac only_step :=
  lazymatch goal with
  | |- only _ (Ok _) => exact I
  | |- only _ (for_loop _ _ _ _) => apply only_for_loop; intros ? ? _
  | |- only _ (for_break _ _ _ _) => apply only_for_break; intros ? ? _
  | |- only _ (bind _ _) => apply only_bind; [|intros ? _]
  | |- only _ _ =>
      apply only_plain;
      first [ apply plain_in_type | apply plain_in_nlink | apply plain_in_addr
            | apply plain_ind_slot | apply plain_de_inum | apply plain_strcmp_eq
            | apply plain_ld32 | apply plain_ld16 | apply plain_ld8
            | apply plain_aget | apply plain_aset | apply plain_CHK_BIT
            | apply plain_incr | apply plain_Ok ]
  end.

Lemma only_validate_type img ip : only (eq BadInodeType) (validate_type img ip).
Proof.
  unfold validate_type. repeat only_step. destruct (_ || _); simpl; auto.
Qed.

Lemma only_check_direct img ip : only (eq BadDirectAddress) (check_direct img ip).
Proof.
  unfold check_direct, for_range. repeat only_step.
  destruct (_ =? 0); [exact I|]. destruct (negb _); simpl; auto.
Qed.

Lemma plain_ld32s m : forall n off, plain (ld32s m off n).
Proof.
  induction n as [|n IH]; intros off; simpl; [apply plain_Ok|].
  apply plain_bind; [apply plain_ld32|intros v _].
  apply plain_bind; [apply IH|intros; apply plain_Ok].
Qed.

Lemma only_check_indirect img ip : only (eq BadIndirectAddress) (check_indirect img ip).
Proof.
  unfold check_indirect, for_range. only_step; [only_step|].
  destruct (_ =? 0); [exact I|]. destruct (negb _); [reflexivity|].
  only_step; [apply only_plain, plain_ld32s|].
  repeat only_step. destruct (_ =? 0); [exact I|]. destruct (negb _); simpl; auto.
Qed.

Lemma only_process_entries img addr inum fl :
  only (fun e => e = MalformedDirectory \/ e = MissingRoot)
       (process_entries img addr inum fl).
Proof.
  unfold process_entries, for_range. repeat only_step.
  match goal with |- only _ (if ?b then _ else _) => destruct b end.
  - repeat only_step. destruct (negb _); simpl; auto.
  - repeat only_step.
    match goal with |- only _ (if ?b then _ else _) => destruct b end; [|exact I].
    repeat only_step. destruct (_ || _); simpl; auto.
Qed.

Lemma only_validate_dir img ip inum :
  only (fun e => e = MalformedDirectory \/ e = MissingRoot) (validate_dir img ip inum).
Proof.
  unfold validate_dir. only_step.
  - only_step. only_step; [only_step|]. destruct (_ =? 0); [exact I|].
    only_step; [apply only_process_entries|exact I].
  - destruct (_ || _); simpl; auto.
Qed.

Lemma plain_marked_in_bmp img bmp a : plain (marked_in_bmp img bmp a).
Proof.
  unfold marked_in_bmp. apply plain_bind; [apply plain_CHK_BIT|intros; apply plain_Ok].
Qed.

Lemma only_chk_one img a chkd : only (eq AddressNotInBitmap) (chk_one img a chkd).
Proof.
  unfold chk_one. destruct (_ =? 0); [exact I|]. only_step; [only_step|].
  destruct a0; [exact I|]. only_step; [apply only_plain, plain_marked_in_bmp|].
  destruct (negb _); [reflexivity|]. repeat only_step.
Qed.

Lemma only_chk_indirect img ind chkd : only (eq AddressNotInBitmap) (chk_indirect img ind chkd).
Proof.
  unfold chk_indirect, for_range. only_step. only_step; [only_step|].
  only_step; [apply only_chk_one|]. destruct a0; exact I.
Qed.

Lemma only_chk_bmp_addr img ip : only (eq AddressNotInBitmap) (chk_bmp_addr img ip).
Proof.
  unfold chk_bmp_addr, for_range. only_step; [|exact I]. only_step.
  only_step; [only_step|]. only_step; [apply only_chk_one|].
  destruct a0; [|exact I]. destruct (_ =? NDIRECT); [apply only_chk_indirect|exact I].
Qed.

Lemma only_main_inode img i : only sweep_error (main_inode img i).
Proof.
  unfold main_inode. only_step; [only_step|]. destruct (_ =? 0); [exact I|].
  only_step; [eapply only_weaken; [|apply only_validate_type]; unfold sweep_error; intros ? <-; tauto|].
  only_step; [eapply only_weaken; [|apply only_check_direct]; unfold sweep_error; intros ? <-; tauto|].
  only_step; [eapply only_weaken; [|apply only_check_indirect]; unfold sweep_error; intros ? <-; tauto|].
  only_step; [|eapply only_weaken; [|apply only_chk_bmp_addr]; unfold sweep_error; intros ? <-; tauto].
  destruct (i =? 1).
  - only_step; [only_step|]. destruct (negb _); [unfold sweep_error; simpl; tauto|].
    eapply only_weaken; [|apply only_validate_dir]. unfold sweep_error. intros e [->| ->]; tauto.
  - only_step; [only_step|]. destruct (_ =? T_DIR); [|exact I].
    eapply only_weaken; [|apply only_validate_dir]. unfold sweep_error. intros e [->| ->]; tauto.
Qed.

Lemma only_main_sweep img : only sweep_error (main_sweep img).
Proof.
  unfold main_sweep, for_range. apply only_for_loop. intros k s _. apply only_main_inode.
Qed.

Lemma only_chk_mark_bmp img bmp a c : only (eq BitmapMarksUnused) (chk_mark_bmp img bmp a c).
Proof.
  unfold chk_mark_bmp. only_step; [only_step|]. destruct (_ =? 0); [reflexivity|only_step].
Qed.

Lemma only_bmp_chk_inodes img c : only (eq BitmapMarksUnused) (bmp_chk_inodes img c).
Proof.
  unfold bmp_chk_inodes, for_range. only_step. only_step; [only_step|].
  destruct (_ =? 0); [exact I|]. only_step.
  - only_step. only_step; [only_step|]. destruct (negb _); [apply only_chk_mark_bmp|exact I].
  - only_step; [only_step|]. destruct (negb _); [|exact I].
    only_step. only_step; [only_step|]. destruct (negb _); [apply only_chk_mark_bmp|exact I].
Qed.

Lemma only_bmp_chk_unused img c : only (fun _ => False) (bmp_chk_unused img c).
Proof.
  unfold bmp_chk_unused, for_range. only_step. only_step; [only_step|].
  destruct (negb _); [|exact I]. only_step; [only_step|]. destruct (negb _); exact I.
Qed.

Lemma only_bmp_chk img : only (eq BitmapMarksUnused) (bmp_chk img).
Proof.
  unfold bmp_chk. only_step; [apply only_bmp_chk_inodes|].
  eapply only_weaken; [|apply only_bmp_chk_unused]. intros e [].
Qed.

(** ** Bitmap membership of an inode's addresses *)

Lemma chkd_inv_zeros img :
  0 <= sb_size (img_sb img) -> chkd_inv img (zeros false (sb_size (img_sb img))).
Proof.
  intros Hs. split; [apply zeros_length; auto|].
  intros b Hb. destruct (aget_cases (zeros false (sb_size (img_sb img))) b)
    as [(x & E & R)|[E _]]; [|congruence].
  rewrite zeros_length in R by auto. rewrite aget_zeros in Hb by auto. discriminate.
Qed.

(** The cases of [chk_one] on a non-zero address. *)
Lemma chk_one_cases img a chkd :
  a <> 0 ->
  (chk_one img a chkd = Fault) \/
  (aget chkd a = Ok true /\ chk_one img a chkd = Ok None) \/
  (aget chkd a = Ok false /\
   marked_in_bmp img (img_bitmapblks img) a = Ok false /\
   chk_one img a chkd = Exit AddressNotInBitmap) \/
  (aget chkd a = Ok false /\
   marked_in_bmp img (img_bitmapblks img) a = Ok true /\
   0 <= a < Z.of_nat (length chkd) /\
   chk_one img a chkd = Ok (Some (zupd chkd a true))).
Proof.
  intros Ha. unfold chk_one. destruct (Z.eqb_spec a 0); [contradiction|].
  destruct (aget_cases chkd a) as [(x & E & R)|[E _]]; rewrite E; cbn [bind]; [|auto].
  destruct x; [right; left; auto|].
  destruct (plain_marked_in_bmp img (img_bitmapblks img) a) as [[mk Hm]|Hm];
    rewrite Hm; cbn [bind]; [|auto].
  destruct mk; cbn [negb].
  - rewrite aset_in by auto. cbn [bind]. right. right. right. auto.
  - right. right. left. auto.
Qed.

Lemma chk_one_inv img a chkd c' :
  chkd_inv img chkd -> chk_one img a chkd = Ok (Some c') -> chkd_inv img c'.
Proof.
  intros [Hl Hs] H. destruct (Z.eq_dec a 0) as [->|Ha]; [discriminate|].
  destruct (chk_one_cases img a chkd Ha) as [E|[[_ E]|[(_ & _ & E)|(Hf & Hm & Hr & E)]]];
    rewrite E in H; try discriminate.
  apply Ok_inj in H. injection H as <-. split; [rewrite zupd_length; exact Hl|].
  intros b Hb. destruct (Z.eq_dec a b) as [<-|Hne]; [exact Hm|].
  rewrite aget_zupd_other in Hb by lia. auto.
Qed.

Lemma chk_indirect_inv img ind chkd c' :
  chkd_inv img chkd -> chk_indirect img ind chkd = Ok c' -> chkd_inv img c'.
Proof.
  intros H0. unfold chk_indirect, for_range. apply for_loop_inv; [exact H0|].
  intros j d d' _ Id Hd. apply bind_Ok_inv in Hd as (a & _ & Hd).
  apply bind_Ok_inv in Hd as (r & Hr & Hd). destruct r as [c|].
  - apply Ok_inj in Hd. subst d'. eapply chk_one_inv; eauto.
  - apply Ok_inj in Hd. subst d'. exact Id.
Qed.

(** The body of the loop of [chk_bmp_addr]. *)
Lemma chk_bmp_addr_body_inv img ip i chkd c' :
  chkd_inv img chkd ->
  (addr <- in_addr img ip i ;;
   r <- chk_one img addr chkd ;;
   match r with
   | None => Ok chkd
   | Some chkd' =>
       if i =? NDIRECT then chk_indirect img (blk_ptr addr) chkd' else Ok chkd'
   end) = Ok c' ->
  chkd_inv img c'.
Proof.
  intros Id H. apply bind_Ok_inv in H as (a & _ & H).
  apply bind_Ok_inv in H as (r & Hr & H). destruct r as [c|].
  - apply chk_one_inv in Hr; auto. destruct (i =? NDIRECT).
    + eapply chk_indirect_inv; eauto.
    + apply Ok_inj in H. subst c'. exact Hr.
  - apply Ok_inj in H. subst c'. exact Id.
Qed.



Lemma check_direct_Ok_inv img ip :
  check_direct img ip = Ok tt ->
  forall j, 0 <= j < NDIRECT ->
  exists v, in_addr img ip j = Ok v /\ (v = 0 \/ 0 < v < sb_size (img_sb img)).
Proof.
  unfold check_direct, for_range. intros H j Hj.
  apply for_loop_unit_inv in H as [[_ Hall]|(k & _ & _ & _ & Hab)];
    [|destruct (Hab tt); reflexivity].
  specialize (Hall j). cbv beta in Hall.
  change (Z.of_nat (Z.to_nat (NDIRECT - 0))) with NDIRECT in Hall.
  specialize (Hall ltac:(lia)). apply bind_Ok_inv in Hall as (v & Hv & Hb).
  exists v. split; [exact Hv|].
  destruct (Z.eqb_spec v 0); [auto|].
  destruct (valid_addr img v) eqn:V; [|discriminate].
  apply valid_addr_iff in V. auto.
Qed.

Lemma check_indirect_Ok_inv img ip :
  check_indirect img ip = Ok tt ->
  exists ind, in_addr img ip NDIRECT = Ok ind /\
              (ind = 0 \/ 0 < ind < sb_size (img_sb img)).
Proof.
  unfold check_indirect. intros H. apply bind_Ok_inv in H as (ind & Hi & H).
  exists ind. split; [exact Hi|].
  destruct (Z.eqb_spec ind 0); [auto|].
  destruct (valid_addr img ind) eqn:V; [|discriminate].
  apply valid_addr_iff in V. auto.
Qed.

Lemma main_inode_eq img i t :
  in_type img (inode_at img i) = Ok t -> t <> 0 ->
  main_inode img i = (inode_checks img i ;;; chk_bmp_addr img (inode_at img i)).
Proof.
  intros Ht Hnz. unfold main_inode, inode_checks. rewrite Ht. cbn [bind].
  destruct (Z.eqb_spec t 0); [contradiction|].
  rewrite !bind_assoc. f_equal.
Qed.

Lemma main_eq fuel m img :
  init_img m = Ok img ->
  main fuel m = (main_sweep img ;;; bmp_chk img ;;; addrs_chk img ;;; dir_chk fuel img).
Proof. intros H. unfold main. rewrite H. reflexivity. Qed.




Lemma refers_direct img i j a t :
  0 <= i < sb_ninodes (img_sb img) -> 0 <= j < NDIRECT ->
  in_type img (inode_at img i) = Ok t -> t <> 0 ->
  in_addr img (inode_at img i) j = Ok a -> a <> 0 ->
  refers img i (Sdirect j) a.
Proof. intros. unfold refers. repeat split; eauto; lia. Qed.



(** ** Directory format *)

Lemma parent_ok_iff inum n :
  (negb (inum =? 1) && (n =? inum)) || ((inum =? 1) && negb (n =? inum)) = false <->
  parent_ok inum n.
Proof.
  unfold parent_ok.
  destruct (Z.eqb_spec inum 1); destruct (Z.eqb_spec n inum); cbn; intuition congruence.
Qed.

Section ValidateDir.

Variables (img : img_t) (ip inum : Z).
Variable das : Z -> Z.
Variables isdot isddot : Z -> Z -> bool.
Variable num : Z -> Z -> Z.

Hypothesis Hdas : forall j, 0 <= j < NDIRECT -> in_addr img ip j = Ok (das j).
Hypothesis Hent : forall j e, 0 <= j < NDIRECT -> das j <> 0 -> 0 <= e < DPB ->
  strcmp_eq (img_map img) (de_name (dirent_at (das j) e)) dot = Ok (isdot j e) /\
  strcmp_eq (img_map img) (de_name (dirent_at (das j) e)) dotdot = Ok (isddot j e) /\
  de_inum img (dirent_at (das j) e) = Ok (num j e).

(** Entry [e] of the block of slot [j] is named ".", is named "..". *)
Let Pdot j e := isdot j e = true.
Let Pddot j e := isdot j e = false /\ isddot j e = true.

(** The entry passes the test [process_entries] applies to it. *)
Let entry_ok j e :=
  (Pdot j e -> num j e = inum) /\ (Pddot j e -> parent_ok inum (num j e)).

Let entry_body (j : Z) := fun e (fl : bool * bool) =>
  let de := dirent_at (das j) e in
  is_dot <- strcmp_eq (img_map img) (de_name de) dot ;;
  if is_dot then
    n <- de_inum img de ;;
    if negb (n =? inum) then Exit MalformedDirectory else Ok (true, snd fl)
  else
    is_ddot <- strcmp_eq (img_map img) (de_name de) dotdot ;;
    if is_ddot then
      n <- de_inum img de ;;
      if (negb (inum =? 1) && (n =? inum)) || ((inum =? 1) && negb (n =? inum))
      then Exit MissingRoot
      else Ok (fst fl, true)
    else Ok fl.

Lemma entry_step j e fl :
  0 <= j < NDIRECT -> das j <> 0 -> 0 <= e < DPB ->
  (entry_ok j e /\
   entry_body j e fl = Ok (fst fl || isdot j e, snd fl || (negb (isdot j e) && isddot j e))) \/
  (Pdot j e /\ num j e <> inum /\ entry_body j e fl = Exit MalformedDirectory) \/
  (Pddot j e /\ ~ parent_ok inum (num j e) /\ entry_body j e fl = Exit MissingRoot).
Proof.
  intros Hj Hnz He. destruct (Hent j e Hj Hnz He) as (H1 & H2 & H3).
  unfold entry_body, entry_ok, Pdot, Pddot. cbv zeta. rewrite H1. cbn [bind].
  destruct (isdot j e) eqn:D.
  - rewrite H3. cbn [bind]. destruct (Z.eqb_spec (num j e) inum) as [E|E]; cbn [negb].
    + left. split.
      * split; [auto|]. intros [? _]; discriminate.
      * rewrite orb_true_r. destruct fl; cbn. rewrite orb_false_r. reflexivity.
    + right. left. auto.
  - rewrite H2. cbn [bind]. destruct (isddot j e) eqn:DD.
    + rewrite H3. cbn [bind].
      destruct ((negb (inum =? 1) && (num j e =? inum))
                || ((inum =? 1) && negb (num j e =? inum))) eqn:B.
      * right. right. split; [auto|]. split; [|reflexivity].
        intros P. apply parent_ok_iff in P. congruence.
      * left. apply parent_ok_iff in B. split.
        { split; [discriminate|auto]. }
        destruct fl; cbn. rewrite orb_false_r, orb_true_r. reflexivity.
    + left. split.
      * split; [discriminate|]. intros [_ ?]; discriminate.
      * destruct fl; cbn. rewrite !orb_false_r. reflexivity.
Qed.

(** One block: the flags gain what the block holds when every entry
    passes; the first entry that fails gives the diagnostic. *)
Lemma block_scan j :
  0 <= j < NDIRECT -> das j <> 0 ->
  forall n e0 fl, 0 <= e0 -> e0 + Z.of_nat n <= DPB ->
  (exists fl',
     for_loop n e0 (entry_body j) fl = Ok fl' /\
     (forall e, e0 <= e < e0 + Z.of_nat n -> entry_ok j e) /\
     (fst fl' = true <-> fst fl = true \/ exists e, e0 <= e < e0 + Z.of_nat n /\ Pdot j e) /\
     (snd fl' = true <-> snd fl = true \/ exists e, e0 <= e < e0 + Z.of_nat n /\ Pddot j e)) \/
  (for_loop n e0 (entry_body j) fl = Exit MalformedDirectory /\
   exists e, e0 <= e < e0 + Z.of_nat n /\ Pdot j e /\ num j e <> inum) \/
  (for_loop n e0 (entry_body j) fl = Exit MissingRoot /\
   exists e, e0 <= e < e0 + Z.of_nat n /\ Pddot j e /\ ~ parent_ok inum (num j e)).
Proof.
  intros Hj Hnz. induction n as [|n IH]; intros e0 fl He0 Hn.
  - left. exists fl. cbn [for_loop]. split; [reflexivity|]. split; [intros; lia|].
    split; (split; [auto|intros [?|(e & ? & _)]; [auto|lia]]).
  - cbn [for_loop].
    destruct (entry_step j e0 fl Hj Hnz ltac:(lia)) as [[Hok E]|[(P & N & E)|(P & N & E)]];
      rewrite E; cbn [bind].
    + destruct (IH (e0 + 1) (fst fl || isdot j e0, snd fl || (negb (isdot j e0) && isddot j e0))
                  ltac:(lia) ltac:(lia))
        as [(fl' & R & G & F1 & F2)|[(R & e & He & B)|(R & e & He & B)]].
      * left. exists fl'. split; [exact R|]. split.
        { intros e He. destruct (Z.eq_dec e e0) as [->|]; [exact Hok|apply G; lia]. }
        cbn [fst snd] in F1, F2. split.
        { rewrite F1, orb_true_iff. split.
          - intros [[?|D]|(e & He & D)]; auto.
            + right. exists e0. split; [lia|exact D].
            + right. exists e. split; [lia|exact D].
          - intros [?|(e & He & D)]; auto.
            destruct (Z.eq_dec e e0) as [->|]; [left; right; exact D|].
            right. exists e. split; [lia|exact D]. }
        { rewrite F2, orb_true_iff, andb_true_iff, negb_true_iff. split.
          - intros [[?|D]|(e & He & D)]; auto.
            + right. exists e0. split; [lia|exact D].
            + right. exists e. split; [lia|exact D].
          - intros [?|(e & He & D)]; auto.
            destruct (Z.eq_dec e e0) as [->|]; [left; right; exact D|].
            right. exists e. split; [lia|exact D]. }
      * right. left. split; [exact R|]. exists e. split; [lia|exact B].
      * right. right. split; [exact R|]. exists e. split; [lia|exact B].
    + right. left. split; [reflexivity|]. exists e0. split; [lia|auto].
    + right. right. split; [reflexivity|]. exists e0. split; [lia|auto].
Qed.

(** Some entry with property [P] in the blocks of the slots [lo .. hi - 1]. *)
Let Has (P : Z -> Z -> Prop) lo hi :=
  exists j e, lo <= j < hi /\ das j <> 0 /\ 0 <= e < DPB /\ P j e.

(** Every entry in the blocks of the slots [lo .. hi - 1] passes. *)
Let Good lo hi :=
  forall j e, lo <= j < hi -> das j <> 0 -> 0 <= e < DPB -> entry_ok j e.

Lemma Has_empty P lo : ~ Has P lo lo.
Proof. intros (j & e & Hj & _). lia. Qed.

Lemma Has_zero P lo hi : das lo = 0 -> (Has P lo hi <-> Has P (lo + 1) hi).
Proof.
  intros Hz. split; intros (j & e & Hj & Hnz & He & Hp); exists j, e; repeat split; auto; try lia.
  destruct (Z.eq_dec j lo) as [->|]; [contradiction|lia].
Qed.

Lemma Has_split P lo hi :
  das lo <> 0 -> lo < hi ->
  (Has P lo hi <-> (exists e, 0 <= e < DPB /\ P lo e) \/ Has P (lo + 1) hi).
Proof.
  intros Hnz Hlt. split.
  - intros (j & e & Hj & Hn & He & Hp). destruct (Z.eq_dec j lo) as [->|].
    + left. eauto.
    + right. exists j, e. repeat split; auto; lia.
  - intros [(e & He & Hp)|(j & e & Hj & Hn & He & Hp)].
    + exists lo, e. repeat split; auto; lia.
    + exists j, e. repeat split; auto; lia.
Qed.

Lemma Good_empty lo : Good lo lo.
Proof. intros j e Hj. lia. Qed.

Lemma Good_zero lo hi : das lo = 0 -> Good (lo + 1) hi -> Good lo hi.
Proof.
  intros Hz G j e Hj Hnz He. destruct (Z.eq_dec j lo) as [->|]; [contradiction|].
  apply G; auto. lia.
Qed.

Lemma Good_cons lo hi :
  (forall e, 0 <= e < DPB -> entry_ok lo e) -> Good (lo + 1) hi -> Good lo hi.
Proof.
  intros G0 G j e Hj Hnz He. destruct (Z.eq_dec j lo) as [->|]; [auto|].
  apply G; auto. lia.
Qed.

Let slot_body := fun i (fl : bool * bool) =>
  addr <- in_addr img ip i ;;
  if addr =? 0 then Ok (false, fl)
  else fl' <- process_entries img addr inum fl ;;
       Ok (fst fl' && snd fl', fl').

(** The scan of the direct slots from [j0] on, entered with the flags
    [(d, dd)] not both set: either it ends normally having scanned the
    slots up to [h], all of whose entries pass, or it stops at an entry of
    slot [h] that fails. *)
Lemma slot_scan : forall n j0 d dd,
  0 <= j0 -> j0 + Z.of_nat n <= NDIRECT -> ~ (d = true /\ dd = true) ->
  (exists d' dd' h,
     for_break n j0 slot_body (d, dd) = Ok (d', dd') /\
     j0 <= h <= j0 + Z.of_nat n /\ Good j0 h /\
     (d' = true <-> d = true \/ Has Pdot j0 h) /\
     (dd' = true <-> dd = true \/ Has Pddot j0 h) /\
     (h < j0 + Z.of_nat n -> d' = true /\ dd' = true)) \/
  (exists h e,
     j0 <= h < j0 + Z.of_nat n /\ das h <> 0 /\ 0 <= e < DPB /\ Good j0 h /\
     ~ ((d = true \/ Has Pdot j0 h) /\ (dd = true \/ Has Pddot j0 h)) /\
     ((for_break n j0 slot_body (d, dd) = Exit MalformedDirectory /\
       Pdot h e /\ num h e <> inum) \/
      (for_break n j0 slot_body (d, dd) = Exit MissingRoot /\
       Pddot h e /\ ~ parent_ok inum (num h e)))).
Proof.
  induction n as [|n IH]; intros j0 d dd Hj0 Hn Hnb.
  - left. exists d, dd, j0. cbn [for_break]. split; [reflexivity|]. split; [lia|].
    split; [apply Good_empty|].
    split; [|split]; [| |intros; lia];
      (split; [auto|intros [?|H]; [auto|destruct (Has_empty _ _ H)]]).
  - set (R0 := for_break (S n) j0 slot_body (d, dd)).
    assert (ER : R0 = (r <- slot_body j0 (d, dd) ;;
                       if fst r then Ok (snd r) else for_break n (j0 + 1) slot_body (snd r)))
      by reflexivity.
    clearbody R0. unfold slot_body at 1 in ER. rewrite Hdas in ER by lia. cbn [bind] in ER.
    destruct (Z.eqb_spec (das j0) 0) as [Hz|Hnz].
    + cbn [bind fst snd] in ER. rewrite ER.
      destruct (IH (j0 + 1) d dd ltac:(lia) ltac:(lia) Hnb)
        as [(d' & dd' & h & R & Hh & G & F1 & F2 & Hb)|(h & e & Hh & Hnzh & He & G & Hno & B)].
      * left. exists d', dd', h. split; [exact R|]. split; [lia|].
        split; [apply Good_zero; auto|].
        rewrite (Has_zero Pdot j0 h Hz), (Has_zero Pddot j0 h Hz).
        split; [exact F1|]. split; [exact F2|]. intros; apply Hb; lia.
      * right. exists h, e. split; [lia|]. split; [exact Hnzh|]. split; [exact He|].
        split; [apply Good_zero; auto|].
        rewrite (Has_zero Pdot j0 h Hz), (Has_zero Pddot j0 h Hz).
        split; [exact Hno|exact B].
    + change (process_entries img (das j0) inum (d, dd))
        with (for_loop (Z.to_nat DPB) 0 (entry_body j0) (d, dd)) in ER.
      destruct (block_scan j0 ltac:(lia) Hnz (Z.to_nat DPB) 0 (d, dd) ltac:(lia))
        as [(fl' & R & G0 & F1 & F2)|[(R & e & He & B)|(R & e & He & B)]].
      { change (0 + Z.of_nat (Z.to_nat DPB)) with DPB. lia. }
      * change (0 + Z.of_nat (Z.to_nat DPB)) with DPB in G0, F1, F2.
        rewrite R in ER. cbn [bind fst snd] in ER. destruct fl' as [d1 dd1].
        cbn [fst snd] in *.
        assert (S1 : forall h, j0 < h ->
                  (d1 = true \/ Has Pdot (j0 + 1) h <-> d = true \/ Has Pdot j0 h)).
        { intros h Hh. rewrite (Has_split Pdot j0 h Hnz Hh), F1. tauto. }
        assert (S2 : forall h, j0 < h ->
                  (dd1 = true \/ Has Pddot (j0 + 1) h <-> dd = true \/ Has Pddot j0 h)).
        { intros h Hh. rewrite (Has_split Pddot j0 h Hnz Hh), F2. tauto. }
        destruct (d1 && dd1) eqn:Both.
        { left. exists d1, dd1, (j0 + 1). split; [exact ER|]. split; [lia|].
          split; [apply Good_cons; [exact G0|apply Good_empty]|].
          apply andb_true_iff in Both.
          split; [|split]; [| |intros; exact Both].
          - rewrite <- (S1 (j0 + 1)) by lia. split; [auto|].
            intros [?|H]; [auto|destruct (Has_empty _ _ H)].
          - rewrite <- (S2 (j0 + 1)) by lia. split; [auto|].
            intros [?|H]; [auto|destruct (Has_empty _ _ H)]. }
        assert (Hnb1 : ~ (d1 = true /\ dd1 = true)).
        { intros [-> ->]. discriminate. }
        rewrite ER.
        destruct (IH (j0 + 1) d1 dd1 ltac:(lia) ltac:(lia) Hnb1)
          as [(d' & dd' & h & R' & Hh & G & F1' & F2' & Hb)|(h & e & Hh & Hnzh & He & G & Hno & B)].
        { left. exists d', dd', h. split; [exact R'|]. split; [lia|].
          split; [apply Good_cons; auto|].
          rewrite <- (S1 h) by lia. rewrite <- (S2 h) by lia.
          split; [exact F1'|]. split; [exact F2'|]. intros; apply Hb; lia. }
        { right. exists h, e. split; [lia|]. split; [exact Hnzh|]. split; [exact He|].
          split; [apply Good_cons; auto|].
          rewrite <- (S1 h) by lia. rewrite <- (S2 h) by lia.
          split; [exact Hno|exact B]. }
      * change (0 + Z.of_nat (Z.to_nat DPB)) with DPB in He.
        rewrite R in ER. cbn [bind] in ER. right. exists j0, e. split; [lia|].
        split; [exact Hnz|]. split; [exact He|]. split; [apply Good_empty|].
        split; [|left; split; [exact ER|exact B]].
        intros [[?|H1] [?|H2]]; try (destruct (Has_empty _ _ H1));
          try (destruct (Has_empty _ _ H2)). auto.
      * change (0 + Z.of_nat (Z.to_nat DPB)) with DPB in He.
        rewrite R in ER. cbn [bind] in ER. right. exists j0, e. split; [lia|].
        split; [exact Hnz|]. split; [exact He|]. split; [apply Good_empty|].
        split; [|right; split; [exact ER|exact B]].
        intros [[?|H1] [?|H2]]; try (destruct (Has_empty _ _ H1));
          try (destruct (Has_empty _ _ H2)). auto.
Qed.

(** C1 (as amended): [validate_dir] scans the blocks of the non-zero direct
    slots in slot order and stops after the first block at whose end an
    entry named "." and an entry named ".." have both been seen.  It accepts
    exactly when such a point is reached with every "." entry scanned
    holding the inode's own number and every ".." entry scanned holding the
    root's number for the root, another number for any other directory;
    more than one "." or ".." entry is accepted.  Otherwise it reports the
    directory as not properly formatted (a "." entry with another number,
    or "." or ".." missing from the direct blocks) or, for a ".." entry that
    breaks the rule, that the root directory does not exist. *)
Theorem validate_dir_spec :
  (validate_dir img ip inum = Ok tt <->
   exists n, 0 <= n <= NDIRECT /\
     (exists j e, 0 <= j < n /\ das j <> 0 /\ 0 <= e < DPB /\ isdot j e = true) /\
     (exists j e, 0 <= j < n /\ das j <> 0 /\ 0 <= e < DPB /\
                  (isdot j e = false /\ isddot j e = true)) /\
     (forall j e, 0 <= j < n -> das j <> 0 -> 0 <= e < DPB ->
        (isdot j e = true -> num j e = inum) /\
        (isdot j e = false /\ isddot j e = true -> parent_ok inum (num j e)))) /\
  (validate_dir img ip inum = Ok tt \/
   validate_dir img ip inum = Exit MalformedDirectory \/
   validate_dir img ip inum = Exit MissingRoot) /\
  (validate_dir img ip inum = Exit MissingRoot ->
   exists j e, 0 <= j < NDIRECT /\ das j <> 0 /\ 0 <= e < DPB /\
     (isdot j e = false /\ isddot j e = true) /\ ~ parent_ok inum (num j e)) /\
  (validate_dir img ip inum = Exit MalformedDirectory ->
   (exists j e, 0 <= j < NDIRECT /\ das j <> 0 /\ 0 <= e < DPB /\
      isdot j e = true /\ num j e <> inum) \/
   ~ ((exists j e, 0 <= j < NDIRECT /\ das j <> 0 /\ 0 <= e < DPB /\ isdot j e = true) /\
      (exists j e, 0 <= j < NDIRECT /\ das j <> 0 /\ 0 <= e < DPB /\
                   (isdot j e = false /\ isddot j e = true)))).
Proof.
  assert (Mono : forall P n, n <= NDIRECT -> Has P 0 n -> Has P 0 NDIRECT).
  { intros P n Hn (j & e & Hj & R). exists j, e. split; [lia|exact R]. }
  assert (Mono2 : forall P n h, n <= h -> Has P 0 n -> Has P 0 h).
  { intros P n h Hn (j & e & Hj & R). exists j, e. split; [lia|exact R]. }
  assert (EV : validate_dir img ip inum =
               (fl <- for_break (Z.to_nat NDIRECT) 0 slot_body (false, false) ;;
                if negb (fst fl) || negb (snd fl) then Exit MalformedDirectory else Ok tt))
    by reflexivity.
  assert (Hnb : ~ (false = true /\ false = true)) by (intros [? _]; discriminate).
  destruct (slot_scan (Z.to_nat NDIRECT) 0 false false ltac:(lia)
              ltac:(change (0 + Z.of_nat (Z.to_nat NDIRECT)) with NDIRECT; lia) Hnb)
    as [(d' & dd' & h & R & Hh & G & F1 & F2 & Hb)|(h & e & Hh & Hnzh & He & G & Hno & B)].
  - change (0 + Z.of_nat (Z.to_nat NDIRECT)) with NDIRECT in Hh, Hb.
    rewrite R in EV. cbn [bind fst snd] in EV.
    assert (D1 : d' = true <-> Has Pdot 0 h).
    { rewrite F1. split; [intros [?|?]; [discriminate|auto]|auto]. }
    assert (D2 : dd' = true <-> Has Pddot 0 h).
    { rewrite F2. split; [intros [?|?]; [discriminate|auto]|auto]. }
    destruct d' eqn:Ed; destruct dd' eqn:Edd; cbn [negb orb] in EV; rewrite EV.
    + split; [|split; [left; reflexivity|split; discriminate]].
      split; [intros _|reflexivity].
      exists h. split; [lia|]. split; [apply D1; reflexivity|].
      split; [apply D2; reflexivity|exact G].
    + assert (h = NDIRECT).
      { destruct (Z.eq_dec h NDIRECT); [auto|]. destruct Hb as [_ ?]; [lia|discriminate]. }
      subst h. split; [|split; [right; left; reflexivity|split; [discriminate|]]].
      * split; [discriminate|]. intros (n & Hn & H1 & H2 & _).
        apply (Mono _ n) in H2; [|lia]. apply D2 in H2. discriminate.
      * intros _. right. intros [_ H2]. apply D2 in H2. discriminate.
    + assert (h = NDIRECT).
      { destruct (Z.eq_dec h NDIRECT); [auto|]. destruct Hb as [? _]; [lia|discriminate]. }
      subst h. split; [|split; [right; left; reflexivity|split; [discriminate|]]].
      * split; [discriminate|]. intros (n & Hn & H1 & H2 & _).
        apply (Mono _ n) in H1; [|lia]. apply D1 in H1. discriminate.
      * intros _. right. intros [H1 _]. apply D1 in H1. discriminate.
    + assert (h = NDIRECT).
      { destruct (Z.eq_dec h NDIRECT); [auto|]. destruct Hb as [? _]; [lia|discriminate]. }
      subst h. split; [|split; [right; left; reflexivity|split; [discriminate|]]].
      * split; [discriminate|]. intros (n & Hn & H1 & H2 & _).
        apply (Mono _ n) in H1; [|lia]. apply D1 in H1. discriminate.
      * intros _. right. intros [H1 _]. apply D1 in H1. discriminate.
  - change (0 + Z.of_nat (Z.to_nat NDIRECT)) with NDIRECT in Hh.
    assert (NotAcc : ~ exists n, 0 <= n <= NDIRECT /\ Has Pdot 0 n /\ Has Pddot 0 n /\ Good 0 n).
    { intros (n & Hn & H1 & H2 & Gn).
      destruct (Z_lt_dec h n) as [Hlt|Hge].
      - specialize (Gn h e ltac:(lia) Hnzh He). destruct Gn as [G1 G2].
        destruct B as [(_ & P & N)|(_ & P & N)]; [apply N, G1, P|apply N, G2, P].
      - apply Hno. split; right; [apply (Mono2 _ n)|apply (Mono2 _ n)]; auto; lia. }
    destruct B as [(R & P & N)|(R & P & N)]; rewrite R in EV; cbn [bind] in EV; rewrite EV.
    + split; [split; [discriminate|intros H; destruct (NotAcc H)]|].
      split; [right; left; reflexivity|]. split; [discriminate|].
      intros _. left. exists h, e. repeat split; auto; lia.
    + split; [split; [discriminate|intros H; destruct (NotAcc H)]|].
      split; [right; right; reflexivity|]. split; [|discriminate].
      intros _. exists h, e. destruct P as [P1 P2]. repeat split; auto; lia.
Qed.

End ValidateDir.

(** The root directory of the minimal image is accepted; the root of
    scenario E, whose "." entry is for inode 2, is reported as not properly
    formatted. *)
Lemma validate_dir_spec_witness :
  validate_dir (ex_img img_minimal) (inode_at (ex_img img_minimal) 1) 1 = Ok tt /\
  main 2 img_root_dot_2 = Exit MalformedDirectory.
Proof.
  split; [|vm_compute; reflexivity].
  set (img := ex_img img_minimal). set (ip := inode_at img 1).
  pose (das := fun j => val 0 (in_addr img ip j)).
  pose (isdot := fun j e =>
          val false (strcmp_eq (img_map img) (de_name (dirent_at (das j) e)) dot)).
  pose (isddot := fun j e =>
          val false (strcmp_eq (img_map img) (de_name (dirent_at (das j) e)) dotdot)).
  pose (num := fun j e => val 0 (de_inum img (dirent_at (das j) e))).
  assert (Hdas : forall j, 0 <= j < NDIRECT -> in_addr img ip j = Ok (das j)).
  { apply loads_Ok. vm_compute. reflexivity. }
  assert (Hblk : forall j, 0 <= j < NDIRECT -> das j <> 0 -> j = 0).
  { intros j Hj Hnz.
    pose proof (forallb_zrange (fun j => (das j =? 0) || (j =? 0)) 0 (Z.to_nat NDIRECT)
                  ltac:(vm_compute; reflexivity) j
                  ltac:(change (0 + Z.of_nat (Z.to_nat NDIRECT)) with NDIRECT; lia)) as H.
    cbv beta in H. apply orb_true_iff in H as [H|H]; [apply Z.eqb_eq in H; contradiction|].
    apply Z.eqb_eq in H. exact H. }
  assert (Hent0 : forall e, 0 <= e < DPB ->
    strcmp_eq (img_map img) (de_name (dirent_at (das 0) e)) dot = Ok (isdot 0 e) /\
    strcmp_eq (img_map img) (de_name (dirent_at (das 0) e)) dotdot = Ok (isddot 0 e) /\
    de_inum img (dirent_at (das 0) e) = Ok (num 0 e)).
  { intros e He.
    pose proof (forallb_zrange
      (fun e => is_Ok (strcmp_eq (img_map img) (de_name (dirent_at (das 0) e)) dot)
                && is_Ok (strcmp_eq (img_map img) (de_name (dirent_at (das 0) e)) dotdot)
                && is_Ok (de_inum img (dirent_at (das 0) e))) 0 (Z.to_nat DPB)
      ltac:(vm_compute; reflexivity) e
      ltac:(change (0 + Z.of_nat (Z.to_nat DPB)) with DPB; lia)) as H.
    cbv beta in H. apply andb_true_iff in H as [H H3]. apply andb_true_iff in H as [H1 H2].
    repeat split; apply is_Ok_val; assumption. }
  assert (Hgood : forall e, 0 <= e < DPB ->
    (isdot 0 e = true -> num 0 e = 1) /\
    (isdot 0 e = false /\ isddot 0 e = true -> num 0 e = 1)).
  { intros e He.
    pose proof (forallb_zrange
      (fun e => implb (isdot 0 e) (num 0 e =? 1)
                && implb (negb (isdot 0 e) && isddot 0 e) (num 0 e =? 1)) 0 (Z.to_nat DPB)
      ltac:(vm_compute; reflexivity) e
      ltac:(change (0 + Z.of_nat (Z.to_nat DPB)) with DPB; lia)) as H.
    cbv beta in H. apply andb_true_iff in H as [H1 H2]. split.
    - intros D. rewrite D in H1. apply Z.eqb_eq. exact H1.
    - intros [D DD]. rewrite D, DD in H2. apply Z.eqb_eq. exact H2. }
  assert (D0 : das 0 <> 0) by (vm_compute; discriminate).
  assert (I0 : isdot 0 0 = true) by (vm_compute; reflexivity).
  assert (I1 : isdot 0 1 = false /\ isddot 0 1 = true) by (vm_compute; split; reflexivity).
  clearbody isdot isddot num. clearbody das. clearbody ip. clearbody img.
  assert (Hent : forall j e, 0 <= j < NDIRECT -> das j <> 0 -> 0 <= e < DPB ->
    strcmp_eq (img_map img) (de_name (dirent_at (das j) e)) dot = Ok (isdot j e) /\
    strcmp_eq (img_map img) (de_name (dirent_at (das j) e)) dotdot = Ok (isddot j e) /\
    de_inum img (dirent_at (das j) e) = Ok (num j e)).
  { intros j e Hj Hnz He. rewrite (Hblk j Hj Hnz). apply Hent0. exact He. }
  destruct (validate_dir_spec img ip 1 das isdot isddot num Hdas Hent) as [Acc _].
  apply Acc. exists 1. split; [unfold NDIRECT; lia|].
  split; [exists 0, 0; unfold DPB; cbn; repeat split; auto; lia|].
  split; [exists 0, 1; unfold DPB; cbn; repeat split; try apply I1; auto; lia|].
  intros j e Hj Hnz He. assert (j = 0) by lia. subst j.
  destruct (Hgood e He) as [G1 G2]. split; [exact G1|].
  intros P. unfold parent_ok. rewrite (G2 P). split; [auto|congruence].
Defined.

(** C1, counterexample: a root directory with two entries named ".", both
    for inode 1, is accepted; and a root whose ".." entry is for inode 2 is
    reported with the diagnostic of the missing root directory, not as a
    directory that is not properly formatted. *)
Lemma validate_dir_not_exactly_one :
  in_type (ex_img img_two_dots) (inode_at (ex_img img_two_dots) 1) = Ok T_DIR /\
  in_addr (ex_img img_two_dots) (inode_at (ex_img img_two_dots) 1) 0 = Ok 5 /\
  dot_entries (ex_img img_two_dots) 5 = [0; 2] /\
  de_inum (ex_img img_two_dots) (dirent_at 5 0) = Ok 1 /\
  de_inum (ex_img img_two_dots) (dirent_at 5 2) = Ok 1 /\
  validate_dir (ex_img img_two_dots) (inode_at (ex_img img_two_dots) 1) 1 = Ok tt /\
  main 2 img_two_dots = Ok tt /\
  validate_dir (ex_img img_root_parent_2) (inode_at (ex_img img_root_parent_2) 1) 1
    = Exit MissingRoot /\
  main 2 img_root_parent_2 = Exit MissingRoot.
Proof.
  repeat split; vm_compute; reflexivity.
Qed.

(** ** Use counts *)

Lemma u32_small z : 0 <= z < 4294967296 -> u32 z = z.
Proof. intros H. unfold u32. apply Z.mod_small. exact H. Qed.

Lemma u32_wrap_neg z : - 4294967296 <= z < 0 -> u32 z = z + 4294967296.
Proof.
  intros H. unfold u32. symmetry. apply (Z.mod_unique _ _ (-1)); lia.
Qed.

(** The cases of [blk_usage_chk]. *)
Lemma blk_usage_chk_zero u fb k : blk_usage_chk u fb k 0 = Ok u.
Proof. reflexivity. Qed.

Lemma blk_usage_chk_fresh u fb k a :
  a <> 0 -> 0 <= a - fb < 4294967296 -> aget u (a - fb) = Ok 0 ->
  blk_usage_chk u fb k a = Ok (zupd u (a - fb) 1).
Proof.
  intros Ha Hr Hg. unfold blk_usage_chk. destruct (Z.eqb_spec a 0); [contradiction|].
  cbv zeta. rewrite (u32_small _ Hr), Hg. cbn [bind].
  destruct (aget_cases u (a - fb)) as [(x & E & R)|[E _]]; [|congruence].
  rewrite aset_in by exact R. cbn [bind]. rewrite aget_zupd_same by exact R. reflexivity.
Qed.

Lemma blk_usage_chk_again u fb k a :
  a <> 0 -> 0 <= a - fb < 4294967296 -> aget u (a - fb) = Ok 1 ->
  blk_usage_chk u fb k a = Exit (DuplicateBlockUse k).
Proof.
  intros Ha Hr Hg. unfold blk_usage_chk. destruct (Z.eqb_spec a 0); [contradiction|].
  cbv zeta. rewrite (u32_small _ Hr), Hg. cbn [bind].
  destruct (aget_cases u (a - fb)) as [(x & E & R)|[E _]]; [|congruence].
  rewrite aset_in by exact R. cbn [bind]. rewrite aget_zupd_same by exact R. reflexivity.
Qed.

(** An address below [startblk]: the index wraps around and, unless the
    array is large enough to reach it, lies outside the array. *)
Lemma blk_usage_chk_below u fb k a :
  0 < a < fb -> fb <= 4294967296 ->
  Z.of_nat (length u) + fb <= 4294967296 + a ->
  blk_usage_chk u fb k a = Fault.
Proof.
  intros Ha Hfb Hl. unfold blk_usage_chk. destruct (Z.eqb_spec a 0); [lia|].
  cbv zeta. rewrite u32_wrap_neg by lia. rewrite aget_out by lia. reflexivity.
Qed.


Lemma only_blk_usage_chk u fb k a :
  only (fun e => exists k, e = DuplicateBlockUse k) (blk_usage_chk u fb k a).
Proof.
  unfold blk_usage_chk. destruct (a =? 0); [exact I|]. cbv zeta.
  repeat only_step. destruct (1 <? _); [simpl; eauto|exact I].
Qed.

Lemma only_addrs_chk img : only (fun e => exists k, e = DuplicateBlockUse k) (addrs_chk img).
Proof.
  unfold addrs_chk, for_range. only_step; [|exact I]. only_step. unfold addrs_chk_inode.
  only_step; [only_step|]. destruct (_ =? 0); [exact I|]. unfold for_range. only_step.
  - only_step. only_step; [only_step|]. apply only_blk_usage_chk.
  - only_step; [only_step|]. destruct (negb _); [|exact I].
    only_step. only_step; [only_step|]. apply only_blk_usage_chk.
Qed.

Lemma usage_inv_ext img (S S' : Z -> slot -> Prop) u :
  (forall i s a, cref img i s a -> (S i s <-> S' i s)) ->
  usage_inv img S u -> usage_inv img S' u.
Proof.
  intros HS (L & V & M & C & N). split; [exact L|]. split; [exact V|]. split; [|split].
  - intros idx Hx. destruct (M idx Hx) as (i & s & Hs & Hc). exists i, s.
    split; [apply (HS i s _ Hc); exact Hs|exact Hc].
  - intros i s a Hs Hc. apply (C i s a); [apply (HS i s a Hc); exact Hs|exact Hc].
  - intros i s i' s' a Hs Hs' Hc Hc'.
    apply (N i s i' s' a); auto; [apply (HS i s a Hc)|apply (HS i' s' a Hc')]; assumption.
Qed.

Lemma usage_inv_zeros img :
  0 <= sb_nblocks (img_sb img) ->
  usage_inv img (fun _ _ => False) (zeros 0 (sb_nblocks (img_sb img))).
Proof.
  intros Hn. split; [apply zeros_length; exact Hn|]. split; [|split; [|split]].
  - intros idx Hi. left. apply aget_zeros. exact Hi.
  - intros idx Hx.
    destruct (aget_cases (zeros 0 (sb_nblocks (img_sb img))) idx) as [(x & E & R)|[E _]];
      [|congruence].
    rewrite zeros_length in R by exact Hn. rewrite aget_zeros in Hx by exact R. discriminate.
  - intros i s a [].
  - intros i s i' s' a [].
Qed.

(** Counting one more pair, whose slot reads as [a]. *)
Lemma usage_step img (S S' : Z -> slot -> Prop) u i s a k :
  usage_inv img S u ->
  (forall i' s' b, cref img i' s' b -> (S' i' s' <-> S i' s' \/ (i' = i /\ s' = s))) ->
  ~ S i s ->
  (forall b, cref img i s b <-> b = a /\ a <> 0) ->
  0 <= a < 4294967296 ->
  0 <= img_firstblk img <= 4294967296 ->
  (a <> 0 -> a < img_firstblk img + sb_nblocks (img_sb img)) ->
  (0 < a < img_firstblk img ->
   sb_nblocks (img_sb img) + img_firstblk img <= 4294967296 + a) ->
  (exists u', blk_usage_chk u (img_firstblk img) k a = Ok u' /\ usage_inv img S' u') \/
  (blk_usage_chk u (img_firstblk img) k a = Exit (DuplicateBlockUse k) /\ dup_counted img) \/
  (blk_usage_chk u (img_firstblk img) k a = Fault /\ 0 < a < img_firstblk img).
Proof.
  intros Inv HS' Hnew Hval Ha Hfb Hup Hlow.
  pose proof Inv as (L & V & M & C & N).
  set (fb := img_firstblk img) in *. set (nb := sb_nblocks (img_sb img)) in *.
  destruct (Z.eq_dec a 0) as [Hz|Hnz].
  { left. exists u. subst a. split; [reflexivity|].
    apply (usage_inv_ext img S S'); [|exact Inv].
    intros i' s' b Hc. rewrite (HS' i' s' b Hc). split; [auto|].
    intros [?|[-> ->]]; [auto|]. apply Hval in Hc. lia. }
  destruct (Z_lt_dec a fb) as [Hlt|Hge].
  { right. right. split; [|lia].
    apply blk_usage_chk_below; [lia|lia|rewrite L; apply Hlow; lia]. }
  assert (Hr : 0 <= a - fb < nb) by (specialize (Hup Hnz); lia).
  assert (Hc0 : cref img i s a) by (apply Hval; auto).
  destruct (V (a - fb) Hr) as [G0|G1].
  - left. exists (zupd u (a - fb) 1).
    split; [apply blk_usage_chk_fresh; auto; lia|].
    assert (NoOld : forall i' s', S i' s' -> ~ cref img i' s' a).
    { intros i' s' Hs Hc. destruct (C i' s' a Hs Hc) as [_ G]. congruence. }
    unfold usage_inv. fold fb nb.
    split; [rewrite zupd_length; exact L|]. split; [|split; [|split]].
    + intros idx Hi. destruct (Z.eq_dec (a - fb) idx) as [<-|Hne].
      * right. apply aget_zupd_same. lia.
      * rewrite aget_zupd_other by lia. apply V. exact Hi.
    + intros idx Hx. destruct (Z.eq_dec (a - fb) idx) as [<-|Hne].
      * exists i, s. split; [apply (HS' i s a Hc0); right; auto|].
        replace (fb + (a - fb)) with a by lia. exact Hc0.
      * rewrite aget_zupd_other in Hx by lia.
        destruct (M idx Hx) as (i' & s' & Hs & Hc). exists i', s'.
        split; [apply (HS' i' s' _ Hc); left; exact Hs|exact Hc].
    + intros i' s' b Hs Hc. apply (HS' i' s' b Hc) in Hs. destruct Hs as [Hs|[-> ->]].
      * destruct (C i' s' b Hs Hc) as [Hb G]. split; [exact Hb|].
        destruct (Z.eq_dec (a - fb) (b - fb)) as [E|Hne].
        { rewrite <- E. apply aget_zupd_same. lia. }
        rewrite aget_zupd_other by lia. exact G.
      * apply Hval in Hc as [-> _]. split; [lia|]. apply aget_zupd_same. lia.
    + intros i1 s1 i2 s2 b H1 H2 Hc1 Hc2.
      apply (HS' i1 s1 b Hc1) in H1. apply (HS' i2 s2 b Hc2) in H2.
      destruct H1 as [H1|[-> ->]]; destruct H2 as [H2|[-> ->]].
      * apply (N i1 s1 i2 s2 b); auto.
      * apply Hval in Hc2 as [-> _]. destruct (NoOld i1 s1 H1 Hc1).
      * apply Hval in Hc1 as [-> _]. destruct (NoOld i2 s2 H2 Hc2).
      * split; reflexivity.
  - right. left. split; [apply blk_usage_chk_again; auto; lia|].
    destruct (M (a - fb) G1) as (i' & s' & Hs & Hc).
    replace (fb + (a - fb)) with a in Hc by lia.
    exists i', s', i, s, a. split; [|split; assumption].
    destruct (Z.eq_dec i' i) as [->|]; [|left; assumption].
    right. intros ->. contradiction.
Qed.

Section AddrsChk.

Variable img : img_t.
Hypothesis Hmap : addrs_mapped img.
Hypothesis Hfb : 0 <= img_firstblk img <= 4294967296.
Hypothesis Hnb : 0 <= sb_nblocks (img_sb img).
Hypothesis Hup : forall i s a, cref img i s a ->
  a < img_firstblk img + sb_nblocks (img_sb img).
Hypothesis Hlow : forall i s a, cref img i s a -> a < img_firstblk img ->
  sb_nblocks (img_sb img) + img_firstblk img <= 4294967296 + a.

(** How the count can fail: a second reference to a counted address, or
    an address below [firstblk]. *)
Let F (r : result (list Z)) : Prop :=
  (exists k, r = Exit (DuplicateBlockUse k) /\ dup_counted img) \/
  (r = Fault /\ exists i s a, cref img i s a /\ a < img_firstblk img).

(** The pairs counted before inode [i0]; before direct slot [j0] of inode
    [i0]; before slot [j0] of the indirect block of inode [i0]. *)
Let So (i0 : Z) := fun (i : Z) (s : slot) => i < i0.
Let Sd (i0 j0 : Z) := fun (i : Z) (s : slot) =>
  i < i0 \/ (i = i0 /\ exists j, s = Sdirect j /\ j < j0).
Let Si (i0 j0 : Z) := fun (i : Z) (s : slot) =>
  i < i0 \/ (i = i0 /\ ((exists j, s = Sdirect j) \/ exists j, s = Sindirect j /\ j < j0)).

Lemma cref_direct_val i t j a :
  0 <= i < sb_ninodes (img_sb img) -> in_type img (inode_at img i) = Ok t -> t <> 0 ->
  0 <= j < NDIRECT -> in_addr img (inode_at img i) j = Ok a ->
  forall b, cref img i (Sdirect j) b <-> b = a /\ a <> 0.
Proof.
  intros Hi Ht Tn Hj Ha b. unfold cref, refers. split.
  - intros [(_ & _ & Hb & _ & E) _]. rewrite Ha in E. apply Ok_inj in E. subst b. auto.
  - intros [-> Hnz]. split; [|discriminate]. repeat split; eauto; lia.
Qed.

Lemma cref_indirect_val i t ind j a :
  0 <= i < sb_ninodes (img_sb img) -> in_type img (inode_at img i) = Ok t -> t <> 0 ->
  in_addr img (inode_at img i) NDIRECT = Ok ind -> ind <> 0 ->
  0 <= j < NINDIRECT -> ind_slot img ind j = Ok a ->
  forall b, cref img i (Sindirect j) b <-> b = a /\ a <> 0.
Proof.
  intros Hi Ht Tn Hind Inz Hj Ha b. unfold cref, refers. split.
  - intros [(_ & _ & Hb & _ & ind' & E1 & _ & E2) _]. rewrite Hind in E1. apply Ok_inj in E1.
    subst ind'. rewrite Ha in E2. apply Ok_inj in E2. subst b. auto.
  - intros [-> Hnz]. split; [|discriminate]. repeat split; eauto; try lia.
Qed.

Lemma usage_direct_loop i t u :
  0 <= i < sb_ninodes (img_sb img) -> in_type img (inode_at img i) = Ok t -> t <> 0 ->
  usage_inv img (So i) u ->
  (exists u',
     for_range 0 NDIRECT (fun j uc =>
       a <- in_addr img (inode_at img i) j ;;
       blk_usage_chk uc (img_firstblk img) Kdirect a) u = Ok u' /\
     usage_inv img (Sd i NDIRECT) u') \/
  (abnormal (for_range 0 NDIRECT (fun j uc =>
       a <- in_addr img (inode_at img i) j ;;
       blk_usage_chk uc (img_firstblk img) Kdirect a) u) /\
   F (for_range 0 NDIRECT (fun j uc =>
       a <- in_addr img (inode_at img i) j ;;
       blk_usage_chk uc (img_firstblk img) Kdirect a) u)).
Proof.
  intros Hi Ht Tn Inv. unfold for_range.
  destruct (Hmap i Hi) as (t' & Ht' & Hrd). rewrite Ht in Ht'. apply Ok_inj in Ht'. subst t'.
  destruct (Hrd Tn) as [Hda _].
  change NDIRECT with (0 + Z.of_nat (Z.to_nat (NDIRECT - 0))) at 2.
  apply (for_loop_inv_or (fun k v => usage_inv img (Sd i k) v) F).
  - apply (usage_inv_ext img (So i)); [|exact Inv].
    intros i' s' b [(_ & _ & _ & Hs) _]. unfold So, Sd. split; [auto|].
    intros [?|[-> (j & -> & Hj)]]; [auto|]. destruct Hs as [Hs _]. lia.
  - intros k v Hk Iv. change (0 + Z.of_nat (Z.to_nat (NDIRECT - 0))) with NDIRECT in Hk.
    destruct (Hda k ltac:(lia)) as (a & Ha). rewrite Ha. cbn [bind].
    pose proof (cref_direct_val i t k a Hi Ht Tn Hk Ha) as Hval.
    destruct (usage_step img (Sd i k) (Sd i (k + 1)) v i (Sdirect k) a Kdirect Iv)
      as [(u' & E & Iu)|[[E D]|[E L]]].
    + intros i' s' b _. unfold Sd. split.
      * intros [?|[-> (j & -> & Hj)]]; [auto|].
        destruct (Z.eq_dec j k) as [->|]; [right; auto|].
        left. right. split; [auto|]. exists j. split; [auto|lia].
      * intros [[?|[-> (j & -> & Hj)]]|[-> ->]]; [auto| |].
        { right. split; [auto|]. exists j. split; [auto|lia]. }
        { right. split; [auto|]. exists k. split; [auto|lia]. }
    + unfold Sd. intros [?|[_ (j & E & Hj)]]; [lia|]. injection E as <-. lia.
    + exact Hval.
    + apply (ld32_range _ _ _ Ha).
    + exact Hfb.
    + intros Hnz. apply (Hup i (Sdirect k)). apply Hval. auto.
    + intros Hl. apply (Hlow i (Sdirect k)); [apply Hval; split; [auto|lia]|lia].
    + left. exists u'. auto.
    + right. rewrite E. split; [apply abnormal_Exit|]. left. exists Kdirect. auto.
    + right. rewrite E. split; [apply abnormal_Fault|]. right. split; [reflexivity|].
      exists i, (Sdirect k), a. split; [apply Hval; split; [auto|lia]|lia].
Qed.

Lemma usage_indirect_loop i t ind u :
  0 <= i < sb_ninodes (img_sb img) -> in_type img (inode_at img i) = Ok t -> t <> 0 ->
  in_addr img (inode_at img i) NDIRECT = Ok ind -> ind <> 0 ->
  usage_inv img (Sd i NDIRECT) u ->
  (exists u',
     for_range 0 NINDIRECT (fun j uc =>
       a <- ind_slot img ind j ;;
       blk_usage_chk uc (img_firstblk img) Kindirect a) u = Ok u' /\
     usage_inv img (Si i NINDIRECT) u') \/
  (abnormal (for_range 0 NINDIRECT (fun j uc =>
       a <- ind_slot img ind j ;;
       blk_usage_chk uc (img_firstblk img) Kindirect a) u) /\
   F (for_range 0 NINDIRECT (fun j uc =>
       a <- ind_slot img ind j ;;
       blk_usage_chk uc (img_firstblk img) Kindirect a) u)).
Proof.
  intros Hi Ht Tn Hind Inz Inv. unfold for_range.
  destruct (Hmap i Hi) as (t' & Ht' & Hrd). rewrite Ht in Ht'. apply Ok_inj in Ht'. subst t'.
  destruct (Hrd Tn) as [_ Hia]. specialize (Hia ind Hind Inz).
  change NINDIRECT with (0 + Z.of_nat (Z.to_nat (NINDIRECT - 0))) at 2.
  apply (for_loop_inv_or (fun k v => usage_inv img (Si i k) v) F).
  - apply (usage_inv_ext img (Sd i NDIRECT)); [|exact Inv].
    intros i' s' b [(_ & _ & _ & Hs) _]. unfold Si, Sd. split.
    + intros [?|[-> (j & -> & Hj)]]; [auto|]. right. split; [auto|]. left. eauto.
    + intros [?|[-> [(j & ->)|(j & -> & Hj)]]]; [auto| |].
      * right. split; [auto|]. exists j. split; [auto|]. destruct Hs as [Hs _]. lia.
      * destruct Hs as [Hs _]. lia.
  - intros k v Hk Iv. change (0 + Z.of_nat (Z.to_nat (NINDIRECT - 0))) with NINDIRECT in Hk.
    destruct (Hia k ltac:(lia)) as (a & Ha). rewrite Ha. cbn [bind].
    pose proof (cref_indirect_val i t ind k a Hi Ht Tn Hind Inz Hk Ha) as Hval.
    destruct (usage_step img (Si i k) (Si i (k + 1)) v i (Sindirect k) a Kindirect Iv)
      as [(u' & E & Iu)|[[E D]|[E L]]].
    + intros i' s' b _. unfold Si. split.
      * intros [?|[-> [(j & ->)|(j & -> & Hj)]]]; [auto| |].
        { left. right. split; [auto|]. left. eauto. }
        destruct (Z.eq_dec j k) as [->|]; [right; auto|].
        left. right. split; [auto|]. right. exists j. split; [auto|lia].
      * intros [[?|[-> [(j & ->)|(j & -> & Hj)]]]|[-> ->]]; [auto| | |].
        { right. split; [auto|]. left. eauto. }
        { right. split; [auto|]. right. exists j. split; [auto|lia]. }
        { right. split; [auto|]. right. exists k. split; [auto|lia]. }
    + unfold Si. intros [?|[_ [(j & E)|(j & E & Hj)]]]; [lia|discriminate|].
      injection E as <-. lia.
    + exact Hval.
    + apply (ld32_range _ _ _ Ha).
    + exact Hfb.
    + intros Hnz. apply (Hup i (Sindirect k)). apply Hval. auto.
    + intros Hl. apply (Hlow i (Sindirect k)); [apply Hval; split; [auto|lia]|lia].
    + left. exists u'. auto.
    + right. rewrite E. split; [apply abnormal_Exit|]. left. exists Kindirect. auto.
    + right. rewrite E. split; [apply abnormal_Fault|]. right. split; [reflexivity|].
      exists i, (Sindirect k), a. split; [apply Hval; split; [auto|lia]|lia].
Qed.

Lemma usage_inode i u :
  0 <= i < sb_ninodes (img_sb img) ->
  usage_inv img (So i) u ->
  (exists u', addrs_chk_inode img i u = Ok u' /\ usage_inv img (So (i + 1)) u') \/
  (abnormal (addrs_chk_inode img i u) /\ F (addrs_chk_inode img i u)).
Proof.
  intros Hi Inv. unfold addrs_chk_inode. cbv zeta.
  destruct (Hmap i Hi) as (t & Ht & Hrd). rewrite Ht. cbn [bind].
  destruct (Z.eqb_spec t 0) as [T0|Tn].
  { left. exists u. split; [reflexivity|]. apply (usage_inv_ext img (So i)); [|exact Inv].
    intros i' s' b [(_ & (t' & Ht' & Tn') & _) _]. unfold So. split; [lia|].
    intros Hlt. destruct (Z.eq_dec i' i) as [->|]; [|lia].
    rewrite Ht in Ht'. apply Ok_inj in Ht'. congruence. }
  destruct (usage_direct_loop i t u Hi Ht Tn Inv) as [(u1 & E1 & I1)|[Ab Fb]].
  2:{ right. rewrite (bind_abnormal_same _ _ Ab). auto. }
  rewrite E1. cbn [bind].
  destruct (Hrd Tn) as [Hda _]. destruct (Hda NDIRECT ltac:(unfold NDIRECT; lia)) as (ind & Hind).
  rewrite Hind. cbn [bind].
  destruct (Z.eqb_spec ind 0) as [I0|Inz]; cbn [negb].
  { left. exists u1. split; [reflexivity|].
    apply (usage_inv_ext img (Sd i NDIRECT)); [|exact I1].
    intros i' s' b [(_ & _ & _ & Hs) Hnp]. unfold So, Sd. split.
    - intros [?|[-> _]]; lia.
    - intros Hlt. destruct (Z.eq_dec i' i) as [->|]; [|left; lia]. right. split; [auto|].
      destruct s' as [j| |j]; [exists j; split; [auto|lia]|contradiction|].
      destruct Hs as (_ & ind' & Hi' & Hn' & _). rewrite Hind in Hi'. apply Ok_inj in Hi'.
      congruence. }
  destruct (usage_indirect_loop i t ind u1 Hi Ht Tn Hind Inz I1) as [(u2 & E2 & I2)|[Ab Fb]].
  2:{ right. auto. }
  left. exists u2. split; [exact E2|].
  apply (usage_inv_ext img (Si i NINDIRECT)); [|exact I2].
  intros i' s' b [(_ & _ & _ & Hs) Hnp]. unfold So, Si. split.
  - intros [?|[-> _]]; lia.
  - intros Hlt. destruct (Z.eq_dec i' i) as [->|]; [|left; lia]. right. split; [auto|].
    destruct s' as [j| |j]; [left; eauto|contradiction|].
    right. exists j. split; [auto|]. destruct Hs as [Hs _]. lia.
Qed.

(** The three outcomes of [addrs_chk]. *)
Lemma addrs_chk_cases :
  (addrs_chk img = Ok tt /\ ~ dup_counted img /\
   forall i s a, cref img i s a -> img_firstblk img <= a) \/
  (exists k, addrs_chk img = Exit (DuplicateBlockUse k) /\ dup_counted img) \/
  (addrs_chk img = Fault /\ exists i s a, cref img i s a /\ a < img_firstblk img).
Proof.
  unfold addrs_chk, for_range.
  destruct (for_loop_inv_or (fun k v => usage_inv img (So k) v) F (addrs_chk_inode img)
              (Z.to_nat (sb_ninodes (img_sb img) - 0)) 0 (zeros 0 (sb_nblocks (img_sb img))))
    as [(u' & E & Iu)|[Ab Fb]].
  - apply (usage_inv_ext img (fun _ _ => False)); [|apply usage_inv_zeros; exact Hnb].
    intros i s a [(Hi & _) _]. unfold So. split; [intros []|lia].
  - intros k v Hk Iv. apply usage_inode; [lia|exact Iv].
  - rewrite E. cbn [bind]. left. split; [reflexivity|].
    destruct Iu as (_ & _ & _ & C & N).
    assert (All : forall i s a, cref img i s a ->
                  So (0 + Z.of_nat (Z.to_nat (sb_ninodes (img_sb img) - 0))) i s).
    { intros i s a [(Hi & _) _]. unfold So. lia. }
    split.
    + intros (i & s & i' & s' & a & Hne & H1 & H2).
      destruct (N i s i' s' a (All _ _ _ H1) (All _ _ _ H2) H1 H2) as [-> ->].
      destruct Hne as [H|H]; apply H; reflexivity.
    + intros i s a H. apply (C i s a (All _ _ _ H) H).
  - destruct Fb as [(k & E & D)|[E L]]; rewrite E; cbn [bind].
    + right. left. exists k. auto.
    + right. right. auto.
Qed.

End AddrsChk.

(** The three counts of [init_img] do not wrap. *)
Lemma init_img_counts_exact m img :
  init_img m = Ok img ->
  img_ninodeblks img = sb_ninodes (img_sb img) / IPB + 1 /\
  img_nbitmapblks img = sb_size (img_sb img) / BPB + 1 /\
  img_firstblk img = 2 + img_ninodeblks img + img_nbitmapblks img.
Proof.
  intros H.
  destruct (init_img_fields m img H) as (Hs & Hb & Hn & E1 & E2 & E3 & _).
  assert (HI : IPB = 8) by reflexivity. assert (HB : BPB = 4096) by reflexivity.
  pose proof (Z.div_pos (sb_ninodes (img_sb img)) 8 ltac:(lia) ltac:(lia)) as P1.
  pose proof (Z.div_le_upper_bound (sb_ninodes (img_sb img)) 8 536870912
                ltac:(lia) ltac:(lia)) as P2.
  pose proof (Z.div_pos (sb_size (img_sb img)) 4096 ltac:(lia) ltac:(lia)) as P3.
  pose proof (Z.div_le_upper_bound (sb_size (img_sb img)) 4096 1048576
                ltac:(lia) ltac:(lia)) as P4.
  assert (N1 : img_ninodeblks img = sb_ninodes (img_sb img) / IPB + 1).
  { rewrite E1. unfold u32. apply Z.mod_small. rewrite HI. lia. }
  assert (N2 : img_nbitmapblks img = sb_size (img_sb img) / BPB + 1).
  { rewrite E2. unfold u32. apply Z.mod_small. rewrite HB. lia. }
  split; [exact N1|]. split; [exact N2|].
  rewrite E3. unfold u32. rewrite HI in N1. rewrite HB in N2.
  rewrite (Z.mod_small (img_ninodeblks img + img_nbitmapblks img)) by lia.
  rewrite Z.mod_small by lia. lia.
Qed.

Lemma init_img_firstblk_range m img :
  init_img m = Ok img -> 4 <= img_firstblk img <= 537919492.
Proof.
  intros H. destruct (init_img_counts_exact m img H) as (N1 & N2 & N3).
  destruct (init_img_fields m img H) as (Hs & _ & Hn & _).
  assert (HI : IPB = 8) by reflexivity. assert (HB : BPB = 4096) by reflexivity.
  rewrite N3, N1, N2, HI, HB.
  pose proof (Z.div_pos (sb_ninodes (img_sb img)) 8 ltac:(lia) ltac:(lia)).
  pose proof (Z.div_le_upper_bound (sb_ninodes (img_sb img)) 8 536870912 ltac:(lia) ltac:(lia)).
  pose proof (Z.div_pos (sb_size (img_sb img)) 4096 ltac:(lia) ltac:(lia)).
  pose proof (Z.div_le_upper_bound (sb_size (img_sb img)) 4096 1048576 ltac:(lia) ltac:(lia)).
  lia.
Qed.

(** C2 (as amended): when every counted address lies in
    [firstblk, firstblk + nblocks), the duplicate-use check reports a block
    used more than once exactly when some address is held by two different
    (inode, slot) pairs among the non-zero direct slots and the non-zero
    slots of the indirect blocks of the inodes in use, and passes otherwise.
    The indirect pointer of an inode is not counted. *)
Theorem addrs_chk_duplicates :
  forall (m : list byte) (img : img_t),
  init_img m = Ok img ->
  addrs_mapped img ->
  (forall i s a, cref img i s a ->
     img_firstblk img <= a < img_firstblk img + sb_nblocks (img_sb img)) ->
  ((exists k, addrs_chk img = Exit (DuplicateBlockUse k)) <-> dup_counted img) /\
  (addrs_chk img = Ok tt <-> ~ dup_counted img) /\
  (forall e, addrs_chk img = Exit e -> exists k, e = DuplicateBlockUse k).
Proof.
  intros m img Hinit Hmap Hrange.
  pose proof (init_img_firstblk_range m img Hinit) as Hfb.
  destruct (init_img_fields m img Hinit) as (_ & Hnb & _).
  destruct (addrs_chk_cases img Hmap ltac:(lia) ltac:(lia))
    as [(E & ND & _)|[(k & E & D)|(E & i & s & a & Hc & Hl)]].
  - intros i s a Hc. apply Hrange in Hc. lia.
  - intros i s a Hc Hl. apply Hrange in Hc. lia.
  - rewrite E. split; [|split].
    + split; [intros (k & ?); discriminate|intros D; destruct (ND D)].
    + split; auto.
    + intros e; discriminate.
  - rewrite E. split; [|split].
    + split; eauto.
    + split; [discriminate|intros ND; destruct (ND D)].
    + intros e He. exists k. congruence.
  - apply Hrange in Hc. lia.
Qed.

Lemma addrs_okb_spec img P :
  addrs_okb img P = true ->
  addrs_mapped img /\ forall i s a, cref img i s a -> P a = true.
Proof.
  intros H. unfold addrs_okb in H.
  assert (Hi : forall i, 0 <= i < sb_ninodes (img_sb img) ->
    match in_type img (inode_at img i) with
    | Ok t =>
        (t =? 0) ||
        (forallb (fun j =>
           match in_addr img (inode_at img i) j with
           | Ok a => (j =? NDIRECT) || (a =? 0) || P a
           | _ => false
           end) (zrange 0 (Z.to_nat (NDIRECT + 1)))
         && match in_addr img (inode_at img i) NDIRECT with
            | Ok ind =>
                (ind =? 0) ||
                forallb (fun j =>
                  match ind_slot img ind j with
                  | Ok a => (a =? 0) || P a
                  | _ => false
                  end) (zrange 0 (Z.to_nat NINDIRECT))
            | _ => false
            end)
    | _ => false
    end = true).
  { intros i Hi. apply (forallb_zrange _ _ _ H i). lia. }
  clear H.
  assert (Slots : forall i t, 0 <= i < sb_ninodes (img_sb img) ->
    in_type img (inode_at img i) = Ok t -> t <> 0 ->
    (forall j, 0 <= j <= NDIRECT ->
       exists a, in_addr img (inode_at img i) j = Ok a /\
                 (j < NDIRECT -> a <> 0 -> P a = true)) /\
    (forall ind, in_addr img (inode_at img i) NDIRECT = Ok ind -> ind <> 0 ->
       forall j, 0 <= j < NINDIRECT ->
       exists a, ind_slot img ind j = Ok a /\ (a <> 0 -> P a = true))).
  { intros i t Hr Ht Tn. specialize (Hi i Hr). rewrite Ht in Hi.
    destruct (Z.eqb_spec t 0); [contradiction|]. cbn [orb] in Hi.
    apply andb_true_iff in Hi as [Hd Hind]. split.
    - intros j Hj.
      pose proof (forallb_zrange _ _ _ Hd j
        ltac:(change (Z.of_nat (Z.to_nat (NDIRECT + 1))) with (NDIRECT + 1); lia)) as Hx.
      cbv beta in Hx. destruct (in_addr img (inode_at img i) j) as [a| | |]; try discriminate.
      exists a. split; [reflexivity|]. intros Hlt Hnz.
      destruct (Z.eqb_spec j NDIRECT); [lia|]. destruct (Z.eqb_spec a 0); [contradiction|].
      exact Hx.
    - intros ind Hi' Inz j Hj. rewrite Hi' in Hind.
      destruct (Z.eqb_spec ind 0); [contradiction|]. cbn [orb] in Hind.
      pose proof (forallb_zrange _ _ _ Hind j
        ltac:(change (Z.of_nat (Z.to_nat NINDIRECT)) with NINDIRECT; lia)) as Hx.
      cbv beta in Hx. destruct (ind_slot img ind j) as [a| | |]; try discriminate.
      exists a. split; [reflexivity|]. intros Hnz.
      destruct (Z.eqb_spec a 0); [contradiction|]. exact Hx. }
  split.
  - intros i Hr. specialize (Hi i Hr).
    destruct (in_type img (inode_at img i)) as [t| | |] eqn:Ht; try discriminate.
    exists t. split; [reflexivity|]. intros Tn.
    destruct (Slots i t Hr Ht Tn) as [S1 S2]. split.
    + intros j Hj. destruct (S1 j Hj) as (a & Ha & _). eauto.
    + intros ind Hi' Inz j Hj. destruct (S2 ind Hi' Inz j Hj) as (a & Ha & _). eauto.
  - intros i s a [(Hr & (t & Ht & Tn) & Hnz & Hs) Hnp].
    destruct (Slots i t Hr Ht Tn) as [S1 S2].
    destruct s as [j| |j]; [| contradiction |].
    + destruct Hs as [Hj Hs]. destruct (S1 j ltac:(lia)) as (a' & Ha & Hp).
      rewrite Hs in Ha. apply Ok_inj in Ha. subst a'. apply Hp; [lia|exact Hnz].
    + destruct Hs as (Hj & ind & Hi' & Inz & Hs).
      destruct (S2 ind Hi' Inz j Hj) as (a' & Ha & Hp).
      rewrite Hs in Ha. apply Ok_inj in Ha. subst a'. apply Hp. exact Hnz.
Qed.

(** Two files that hold block 6 in their first direct slot: the check
    reports the direct address used more than once. *)
Lemma addrs_chk_duplicates_witness :
  cref (ex_img img_shared_direct) 2 (Sdirect 0) 6 /\
  cref (ex_img img_shared_direct) 3 (Sdirect 0) 6 /\
  exists k, addrs_chk (ex_img img_shared_direct) = Exit (DuplicateBlockUse k).
Proof.
  assert (Hinit : init_img img_shared_direct = Ok (ex_img img_shared_direct))
    by (vm_compute; reflexivity).
  set (img := ex_img img_shared_direct) in *.
  assert (Hok : addrs_okb img (fun a => (img_firstblk img <=? a)
                  && (a <? img_firstblk img + sb_nblocks (img_sb img))) = true)
    by (vm_compute; reflexivity).
  assert (Hn : sb_ninodes (img_sb img) = 8) by reflexivity.
  assert (T2 : in_type img (inode_at img 2) = Ok T_FILE) by (vm_compute; reflexivity).
  assert (T3 : in_type img (inode_at img 3) = Ok T_FILE) by (vm_compute; reflexivity).
  assert (A2 : in_addr img (inode_at img 2) 0 = Ok 6) by (vm_compute; reflexivity).
  assert (A3 : in_addr img (inode_at img 3) 0 = Ok 6) by (vm_compute; reflexivity).
  clearbody img.
  assert (C2 : cref img 2 (Sdirect 0) 6).
  { split; [|discriminate].
    apply (refers_direct img 2 0 6 T_FILE); auto; unfold NDIRECT, T_FILE; lia. }
  assert (C3 : cref img 3 (Sdirect 0) 6).
  { split; [|discriminate].
    apply (refers_direct img 3 0 6 T_FILE); auto; unfold NDIRECT, T_FILE; lia. }
  destruct (addrs_okb_spec img _ Hok) as [Hmap Hrange].
  destruct (addrs_chk_duplicates img_shared_direct img Hinit Hmap) as [D _].
  { intros i s a Hc. apply Hrange in Hc. apply andb_true_iff in Hc as [H1 H2].
    apply Z.leb_le in H1. apply Z.ltb_lt in H2. lia. }
  split; [exact C2|]. split; [exact C3|]. apply D.
  exists 2, (Sdirect 0), 3, (Sdirect 0), 6. split; [left; lia|]. split; assumption.
Defined.

(** C2, counterexample: block 6 is the first data block of inode 2 and the
    indirect block of inode 3; the pointer of inode 3 is not counted, the
    check passes and the whole run ends with [exit(0)]. *)
Lemma addrs_chk_misses_indirect_pointer :
  init_img img_shared_indirect = Ok (ex_img img_shared_indirect) /\
  refers (ex_img img_shared_indirect) 2 (Sdirect 0) 6 /\
  refers (ex_img img_shared_indirect) 3 Sindptr 6 /\
  dup_any (ex_img img_shared_indirect) /\
  addrs_chk (ex_img img_shared_indirect) = Ok tt /\
  main 2 img_shared_indirect = Ok tt.
Proof.
  assert (Hinit : init_img img_shared_indirect = Ok (ex_img img_shared_indirect))
    by (vm_compute; reflexivity).
  assert (Hmain : main 2 img_shared_indirect = Ok tt) by (vm_compute; reflexivity).
  set (img := ex_img img_shared_indirect) in *.
  assert (Hchk : addrs_chk img = Ok tt) by (vm_compute; reflexivity).
  assert (Hn : sb_ninodes (img_sb img) = 8) by reflexivity.
  assert (T2 : in_type img (inode_at img 2) = Ok T_FILE) by (vm_compute; reflexivity).
  assert (T3 : in_type img (inode_at img 3) = Ok T_FILE) by (vm_compute; reflexivity).
  assert (A2 : in_addr img (inode_at img 2) 0 = Ok 6) by (vm_compute; reflexivity).
  assert (A3 : in_addr img (inode_at img 3) NDIRECT = Ok 6) by (vm_compute; reflexivity).
  clearbody img.
  assert (R2 : refers img 2 (Sdirect 0) 6).
  { apply (refers_direct img 2 0 6 T_FILE); auto; unfold NDIRECT, T_FILE; lia. }
  assert (R3 : refers img 3 Sindptr 6).
  { unfold refers. rewrite Hn. repeat split; try lia; auto.
    exists T_FILE. split; [exact T3|discriminate]. }
  repeat (split; [assumption|]). split; [|split; assumption].
  exists 2, (Sdirect 0), 3, Sindptr, 6. split; [left; lia|]. split; assumption.
Qed.




Lemma refers_range img i s a : refers img i s a -> 0 < a < 4294967296.
Proof.
  intros (_ & _ & Hnz & Hs).
  assert (R : 0 <= a < 4294967296).
  { destruct s as [j| |j].
    - destruct Hs as [_ Hs]. apply (ld32_range _ _ _ Hs).
    - apply (ld32_range _ _ _ Hs).
    - destruct Hs as (_ & ind & _ & _ & Hs). apply (ld32_range _ _ _ Hs). }
  lia.
Qed.



(** ** The directory traversal *)

Lemma for_loop_OutOfFuel_inv {St} (body : Z -> St -> result St) : forall n i s,
  for_loop n i body s = OutOfFuel ->
  exists k t, i <= k < i + Z.of_nat n /\ body k t = OutOfFuel.
Proof.
  induction n as [|n IH]; intros i s H; [discriminate|]. cbn [for_loop] in H.
  destruct (body i s) as [s'| | |] eqn:E; cbn [bind] in H; try discriminate.
  - destruct (IH _ _ H) as (k & t & Hk & Hb). exists k, t. split; [lia|exact Hb].
  - exists i, s. split; [lia|exact E].
Qed.

Lemma bind_OutOfFuel_inv {A B} (m : result A) (k : A -> result B) :
  bind m k = OutOfFuel -> m = OutOfFuel \/ exists a, m = Ok a /\ k a = OutOfFuel.
Proof. destruct m; cbn; intros H; try discriminate; eauto. Qed.

Lemma bind_plain_OutOfFuel {A B} (m : result A) (k : A -> result B) :
  plain m -> bind m k = OutOfFuel -> exists a, m = Ok a /\ k a = OutOfFuel.
Proof.
  intros Hp H. apply bind_OutOfFuel_inv in H as [H|H]; [|exact H].
  destruct (plain_not_OutOfFuel _ Hp H).
Qed.

(** [process_block] runs out of fuel only inside a recursive call, made
    for an entry that is followed. *)
Lemma process_block_OutOfFuel rec img addr im :
  process_block rec img addr im = OutOfFuel ->
  addr <> 0 /\ exists n im', dir_entry img addr n /\ rec (inode_at img n) im' = OutOfFuel.
Proof.
  unfold process_block. destruct (Z.eqb_spec addr 0) as [|Ha0]; [discriminate|]. intros H.
  split; [assumption|]. unfold for_range in H.
  apply for_loop_OutOfFuel_inv in H as (j & t & Hj & H).
  change (Z.of_nat (Z.to_nat (DPB - 0))) with DPB in Hj. cbv zeta in H.
  apply bind_plain_OutOfFuel in H as (num & Hn & H); [|apply plain_de_inum].
  destruct (Z.eqb_spec num 0) as [|Hn0]; [discriminate|].
  apply bind_plain_OutOfFuel in H as (d & Hd & H); [|apply plain_strcmp_eq].
  destruct d; [discriminate|].
  apply bind_plain_OutOfFuel in H as (dd & Hdd & H); [|apply plain_strcmp_eq].
  destruct dd; [discriminate|].
  apply bind_plain_OutOfFuel in H as (im' & _ & H); [|apply plain_incr].
  exists num, im'. split; [|exact H]. exists j. repeat split; auto; lia.
Qed.

(** One level of the recursion. *)
Lemma traverse_dirs_OutOfFuel fuel img a im :
  traverse_dirs (S fuel) img (inode_at img a) im = OutOfFuel ->
  exists n im', dir_edge img a n /\ traverse_dirs fuel img (inode_at img n) im' = OutOfFuel.
Proof.
  cbn [traverse_dirs]. intros H.
  apply bind_plain_OutOfFuel in H as (t & Ht & H); [|apply plain_in_type].
  destruct (Z.eqb_spec t T_DIR) as [->|]; cbn [negb] in H; [|discriminate].
  apply bind_OutOfFuel_inv in H as [H|(im1 & _ & H)].
  - unfold for_range in H. apply for_loop_OutOfFuel_inv in H as (i & u & Hi & H).
    change (Z.of_nat (Z.to_nat (NDIRECT - 0))) with NDIRECT in Hi.
    apply bind_plain_OutOfFuel in H as (b & Hb & H); [|apply plain_in_addr].
    apply process_block_OutOfFuel in H as (Hnz & n & im' & He & H).
    exists n, im'. split; [|exact H]. split; [exact Ht|]. exists b. split; [|exact He].
    split; [exact Hnz|]. left. exists i. split; [lia|exact Hb].
  - apply bind_plain_OutOfFuel in H as (ind & Hind & H); [|apply plain_in_addr].
    destruct (Z.eqb_spec ind 0) as [|Hind0]; cbn [negb] in H; [discriminate|].
    unfold for_range in H. apply for_loop_OutOfFuel_inv in H as (i & u & Hi & H).
    change (Z.of_nat (Z.to_nat (NINDIRECT - 0))) with NINDIRECT in Hi.
    apply bind_plain_OutOfFuel in H as (b & Hb & H); [|apply plain_ind_slot].
    apply process_block_OutOfFuel in H as (Hnz & n & im' & He & H).
    exists n, im'. split; [|exact H]. split; [exact Ht|]. exists b. split; [|exact He].
    split; [exact Hnz|]. right. exists ind, i. repeat split; auto; lia.
Qed.

(** Running out of fuel means that a chain of directory entries as long as
    the fuel starts at the inode. *)
Lemma traverse_dirs_chain img : forall fuel a im,
  traverse_dirs fuel img (inode_at img a) im = OutOfFuel ->
  exists l, length l = fuel /\ chain img a l.
Proof.
  induction fuel as [|f IH]; intros a im H.
  - exists []. split; [reflexivity|exact I].
  - apply traverse_dirs_OutOfFuel in H as (n & im' & He & H).
    destruct (IH n im' H) as (l & Hl & Hc). exists (n :: l). split; [cbn; congruence|].
    split; assumption.
Qed.

Lemma dir_edge_range img a n : dir_edge img a n -> 0 < n < 65536.
Proof.
  intros (_ & b & _ & j & _ & Hn & Hnz & _). apply ld16_range in Hn. lia.
Qed.

Lemma chain_range img : forall l a, chain img a l -> forall n, In n l -> 0 < n < 65536.
Proof.
  induction l as [|x r IH]; intros a Hc n Hin; [destruct Hin|].
  destruct Hc as [He Hc]. destruct Hin as [<-|Hin].
  - eapply dir_edge_range; eauto.
  - eapply IH; eauto.
Qed.

Lemma chain_app img : forall l1 a x l2,
  chain img a (l1 ++ x :: l2) -> chain img a (l1 ++ [x]) /\ chain img x l2.
Proof.
  induction l1 as [|y r IH]; intros a x l2 H; cbn in *.
  - destruct H as [He Hc]. split; [split; [exact He|exact I]|exact Hc].
  - destruct H as [He Hc]. destruct (IH _ _ _ Hc) as [H1 H2].
    split; [split; [exact He|exact H1]|exact H2].
Qed.

Lemma chain_reaches img : forall l a x,
  chain img a (l ++ [x]) -> clos_trans Z (dir_edge img) a x.
Proof.
  induction l as [|y r IH]; intros a x H; cbn in H.
  - destruct H as [He _]. apply t_step. exact He.
  - destruct H as [He Hc]. eapply t_trans; [apply t_step; exact He|]. apply IH. exact Hc.
Qed.

(** A list with a repeated element splits around two occurrences of it. *)
Lemma repeated_split : forall l : list Z,
  ~ NoDup l -> exists x l1 l2 l3, l = l1 ++ x :: l2 ++ x :: l3.
Proof.
  induction l as [|a r IH]; intros H.
  - destruct H. constructor.
  - destruct (In_dec Z.eq_dec a r) as [Hin|Hnin].
    + apply in_split in Hin as (l2 & l3 & ->). exists a, [], l2, l3. reflexivity.
    + destruct IH as (x & l1 & l2 & l3 & ->).
      * intros Hnd. apply H. constructor; assumption.
      * exists x, (a :: l1), l2, l3. reflexivity.
Qed.

Lemma zrange_length : forall n lo, length (zrange lo n) = n.
Proof. induction n as [|n IH]; intros lo; cbn; [reflexivity|]. rewrite IH. reflexivity. Qed.

(** More than 65535 inode numbers taken from directory entries cannot be
    pairwise different. *)
Lemma long_chain_repeats (l : list Z) :
  (forall n, In n l -> 0 < n < 65536) -> 65535 < Z.of_nat (length l) -> ~ NoDup l.
Proof.
  intros Hr Hl Hnd.
  assert (Hi : incl l (zrange 1 (Z.to_nat 65535))).
  { intros n Hn. apply zrange_In. specialize (Hr n Hn). lia. }
  pose proof (NoDup_incl_length Hnd Hi) as Hle. rewrite zrange_length in Hle. lia.
Qed.

(** Without a cycle, the recursion is at most 65535 calls deep. *)
Lemma traverse_dirs_enough_fuel img fuel a im :
  ~ dir_cycle img -> 65535 < Z.of_nat fuel ->
  traverse_dirs fuel img (inode_at img a) im <> OutOfFuel.
Proof.
  intros Hac Hf H. apply traverse_dirs_chain in H as (l & Hl & Hc).
  destruct (repeated_split l) as (x & l1 & l2 & l3 & ->).
  { apply long_chain_repeats; [eapply chain_range; eauto|lia]. }
  apply chain_app in Hc as [_ Hc].
  apply (chain_app img l2 x x l3) in Hc as [Hc _].
  apply Hac. exists x. eapply chain_reaches; eauto.
Qed.

(** *** More fuel does not change an outcome *)

Lemma le_res_refl {A} (r : result A) : le_res r r.
Proof. right. reflexivity. Qed.

Lemma le_res_bind {A B} (m m' : result A) (k k' : A -> result B) :
  le_res m m' -> (forall a, le_res (k a) (k' a)) -> le_res (bind m k) (bind m' k').
Proof.
  intros [->| ->] Hk; [left; reflexivity|]. destruct m'; cbn; auto; apply le_res_refl.
Qed.

Lemma le_res_for_loop {St} (b b' : Z -> St -> result St) : forall n i s,
  (forall k t, le_res (b k t) (b' k t)) ->
  le_res (for_loop n i b s) (for_loop n i b' s).
Proof.
  induction n as [|n IH]; intros i s H; cbn [for_loop]; [apply le_res_refl|].
  apply le_res_bind; [apply H|]. intros s'. apply IH. exact H.
Qed.

Lemma le_res_process_block rec rec' img addr im :
  (forall p t, le_res (rec p t) (rec' p t)) ->
  le_res (process_block rec img addr im) (process_block rec' img addr im).
Proof.
  intros H. unfold process_block. destruct (addr =? 0); [apply le_res_refl|].
  unfold for_range. apply le_res_for_loop. intros j t. cbv zeta.
  apply le_res_bind; [apply le_res_refl|]. intros n. destruct (n =? 0); [apply le_res_refl|].
  apply le_res_bind; [apply le_res_refl|]. intros d. destruct d; [apply le_res_refl|].
  apply le_res_bind; [apply le_res_refl|]. intros dd. destruct dd; [apply le_res_refl|].
  apply le_res_bind; [apply le_res_refl|]. intros t'. apply H.
Qed.

Lemma traverse_dirs_step img : forall fuel p im,
  le_res (traverse_dirs fuel img p im) (traverse_dirs (S fuel) img p im).
Proof.
  induction fuel as [|f IH]; intros p im; [left; reflexivity|].
  change (traverse_dirs (S (S f)) img p im) with
    (t <- in_type img p ;;
     if negb (t =? T_DIR) then Ok im
     else
       inodemap <- for_range 0 NDIRECT (fun i inodemap =>
                     a <- in_addr img p i ;;
                     process_block (traverse_dirs (S f) img) img a inodemap) im ;;
       addr <- in_addr img p NDIRECT ;;
       if negb (addr =? 0) then
         for_range 0 NINDIRECT (fun i inodemap =>
           a <- ind_slot img addr i ;;
           process_block (traverse_dirs (S f) img) img a inodemap) inodemap
       else Ok inodemap).
  cbn [traverse_dirs].
  apply le_res_bind; [apply le_res_refl|]. intros t.
  destruct (negb (t =? T_DIR)); [apply le_res_refl|].
  apply le_res_bind.
  - unfold for_range. apply le_res_for_loop. intros i u.
    apply le_res_bind; [apply le_res_refl|]. intros a.
    apply le_res_process_block. exact IH.
  - intros im1. apply le_res_bind; [apply le_res_refl|]. intros addr.
    destruct (negb (addr =? 0)); [|apply le_res_refl].
    unfold for_range. apply le_res_for_loop. intros i u.
    apply le_res_bind; [apply le_res_refl|]. intros a.
    apply le_res_process_block. exact IH.
Qed.

Lemma traverse_dirs_more_fuel img p im r : forall fuel fuel',
  (fuel <= fuel')%nat ->
  traverse_dirs fuel img p im = r -> r <> OutOfFuel ->
  traverse_dirs fuel' img p im = r.
Proof.
  intros fuel fuel' Hle. induction Hle as [|f' Hle IH]; intros H Hr; [exact H|].
  specialize (IH H Hr). destruct (traverse_dirs_step img f' p im) as [E|E]; congruence.
Qed.

(** *** Images without a followed entry *)

Lemma ld8_Ok_off m off v : ld8 m off = Ok v -> 0 <= off < Z.of_nat (length m).
Proof.
  unfold ld8. destruct (Z.ltb_spec off 0); [discriminate|].
  destruct (zth m off) eqn:E; [|discriminate]. intros _.
  split; [lia|]. eapply zth_range; eauto.
Qed.

Lemma in_type_Ok_off img ip t :
  in_type img ip = Ok t -> 0 <= ip < Z.of_nat (length (img_map img)).
Proof.
  unfold in_type, ld16. intros H.
  apply bind_Ok_inv in H as (v & H & _). apply bind_Ok_inv in H as (b0 & H & _).
  eapply ld8_Ok_off; eauto.
Qed.

Lemma dir_entry_followedb img b n : dir_entry img b n ->
  existsb (followedb img b) (zrange 0 (Z.to_nat DPB)) = true.
Proof.
  intros (j & Hj & Hn & Hnz & Hd & Hdd).
  apply (existsb_zrange _ 0 (Z.to_nat DPB) j); [unfold DPB in *; lia|].
  unfold followedb. cbv zeta. rewrite Hn, Hd, Hdd. cbn [is_Ok val negb andb].
  destruct (Z.eqb_spec n 0); [contradiction|reflexivity].
Qed.

Lemma dir_edge_has_entryb img a n : dir_edge img a n -> has_entryb img a = true.
Proof.
  intros (Ht & b & (Hb0 & Hb) & He). apply dir_entry_followedb in He.
  assert (Hbf : forall r, r = Ok b -> block_followedb img r = true).
  { intros r ->. unfold block_followedb. cbn [is_Ok val]. rewrite He.
    destruct (Z.eqb_spec b 0); [contradiction|reflexivity]. }
  unfold has_entryb. cbv zeta. rewrite Ht. cbn [is_Ok val]. rewrite Z.eqb_refl.
  cbn [andb]. apply orb_true_iff. destruct Hb as [(i & Hi & Hb)|(ind & i & Hind & Hnz & Hi & Hb)].
  - left. apply (existsb_zrange _ 0 (Z.to_nat NDIRECT) i); [unfold NDIRECT in *; lia|].
    apply Hbf. exact Hb.
  - right. rewrite Hind. cbn [val]. destruct (Z.eqb_spec ind 0); [contradiction|].
    cbn [negb andb].
    apply (existsb_zrange _ 0 (Z.to_nat NINDIRECT) i); [unfold NINDIRECT in *; lia|].
    apply Hbf. exact Hb.
Qed.

Lemma clos_trans_first {A} (R : A -> A -> Prop) x y :
  clos_trans A R x y -> exists z, R x z.
Proof. induction 1 as [x y H|x y z _ IH _ _]; [exists y; exact H|exact IH]. Qed.

(** An image none of whose inodes has a followed entry has no cycle. *)
Lemma no_entry_no_cycle img :
  (forall a, has_entryb img a = false) -> ~ dir_cycle img.
Proof.
  intros H (n & Hc). apply clos_trans_first in Hc as (z & He).
  apply dir_edge_has_entryb in He. rewrite H in He. discriminate.
Qed.

(** The root directory of [img_minimal] holds "." and ".." alone. *)
Lemma img_minimal_acyclic : ~ dir_cycle (ex_img img_minimal).
Proof.
  apply no_entry_no_cycle. intros a.
  set (img := ex_img img_minimal).
  assert (Q : forallb (fun a => negb (has_entryb img a)) (zrange (-16) 128) = true)
    by (lazy; reflexivity).
  assert (L : Z.of_nat (length (img_map img)) = 8192) by (vm_compute; reflexivity).
  assert (B : img_inodeblks img = 1024) by reflexivity.
  clearbody img.
  destruct (in_type img (inode_at img a)) as [t| | |] eqn:E.
  - apply in_type_Ok_off in E. unfold inode_at, DINODE_SZ in E. rewrite B, L in E.
    apply negb_true_iff.
    apply (forallb_zrange (fun a => negb (has_entryb img a)) (-16) 128 Q). lia.
  - unfold has_entryb. cbv zeta. rewrite E. reflexivity.
  - unfold has_entryb. cbv zeta. rewrite E. reflexivity.
  - unfold has_entryb. cbv zeta. rewrite E. reflexivity.
Qed.

(** *** A directory entered in itself *)

Lemma for_loop_OutOfFuel_at {St} (I : St -> Prop) (body : Z -> St -> result St) k :
  forall n i s,
  I s ->
  (forall j t, i <= j < k -> I t -> exists t', body j t = Ok t' /\ I t') ->
  i <= k < i + Z.of_nat n ->
  (forall t, I t -> body k t = OutOfFuel) ->
  for_loop n i body s = OutOfFuel.
Proof.
  induction n as [|n IH]; intros i s Hs Hpre Hk Hat; [lia|]. cbn [for_loop].
  destruct (Z.eq_dec i k) as [->|Hne].
  - rewrite Hat by auto. reflexivity.
  - destruct (Hpre i s ltac:(lia) Hs) as (s' & E & Hs'). rewrite E. cbn [bind].
    apply IH; auto; try lia. intros j t Hj. apply Hpre. lia.
Qed.

Lemma skippedb_spec img b k : skippedb img b k = true ->
  exists n, de_inum img (dirent_at b k) = Ok n /\
    (n = 0 \/
     strcmp_eq (img_map img) (de_name (dirent_at b k)) dot = Ok true \/
     (strcmp_eq (img_map img) (de_name (dirent_at b k)) dot = Ok false /\
      strcmp_eq (img_map img) (de_name (dirent_at b k)) dotdot = Ok true)).
Proof.
  unfold skippedb. cbv zeta.
  destruct (de_inum img (dirent_at b k)) as [n| | |]; cbn [is_Ok andb]; try discriminate.
  intros H. exists n. split; [reflexivity|]. cbn [val] in H.
  destruct (Z.eqb_spec n 0) as [|Hnz]; [left; assumption|]. right. cbn [orb] in H.
  destruct (strcmp_eq (img_map img) (de_name (dirent_at b k)) dot) as [[|]|e| |];
    cbn [val is_Ok orb andb] in H; try discriminate H.
  - left. reflexivity.
  - right. split; [reflexivity|].
    destruct (strcmp_eq (img_map img) (de_name (dirent_at b k)) dotdot) as [[|]|e| |];
      cbn [val] in H; try discriminate H. reflexivity.
Qed.

Section SelfEntry.

Variables (img : img_t) (a b j : Z).

(** Inode [a] is a directory whose first block [b] has, after entries
    that are passed over, an entry for [a] itself. *)
Hypothesis Ht : in_type img (inode_at img a) = Ok T_DIR.
Hypothesis Hb : in_addr img (inode_at img a) 0 = Ok b.
Hypothesis Hb0 : b <> 0.
Hypothesis Hj : 0 <= j < DPB.
Hypothesis Hskip : forall k, 0 <= k < j -> skippedb img b k = true.
Hypothesis Hn : de_inum img (dirent_at b j) = Ok a.
Hypothesis Ha0 : a <> 0.
Hypothesis Hd : strcmp_eq (img_map img) (de_name (dirent_at b j)) dot = Ok false.
Hypothesis Hdd : strcmp_eq (img_map img) (de_name (dirent_at b j)) dotdot = Ok false.

Lemma self_entry_edge : dir_edge img a a.
Proof.
  split; [exact Ht|]. exists b. split.
  - split; [exact Hb0|]. left. exists 0. split; [unfold NDIRECT; lia|exact Hb].
  - exists j. repeat split; auto; lia.
Qed.

Lemma self_entry_diverges : forall fuel im,
  0 <= a < Z.of_nat (length im) ->
  traverse_dirs fuel img (inode_at img a) im = OutOfFuel.
Proof.
  induction fuel as [|f IH]; intros im Hl; [reflexivity|].
  cbn [traverse_dirs]. rewrite Ht. cbn [bind]. rewrite Z.eqb_refl. cbn [negb].
  match goal with |- bind ?m _ = _ => assert (E : m = OutOfFuel) end; [|rewrite E; reflexivity].
  unfold for_range.
  apply (for_loop_OutOfFuel_at (fun t => 0 <= a < Z.of_nat (length t)) _ 0);
    [exact Hl|intros; lia|unfold NDIRECT; lia|].
  intros t Hlt. rewrite Hb. cbn [bind]. unfold process_block.
  destruct (Z.eqb_spec b 0) as [|_]; [contradiction|]. unfold for_range.
  apply (for_loop_OutOfFuel_at (fun t => 0 <= a < Z.of_nat (length t)) _ j);
    [exact Hlt| |unfold DPB in *; lia|].
  - intros k u Hk Hu. exists u. split; [|exact Hu]. cbv zeta.
    destruct (skippedb_spec img b k (Hskip k ltac:(lia))) as (n & En & Hc).
    rewrite En. cbn [bind]. destruct (Z.eqb_spec n 0) as [|Hnz]; [reflexivity|].
    destruct Hc as [Hc|[Hc|[Hc1 Hc2]]]; [contradiction| |].
    + rewrite Hc. reflexivity.
    + rewrite Hc1. cbn [bind]. rewrite Hc2. reflexivity.
  - intros u Hu. cbv zeta. rewrite Hn. cbn [bind].
    destruct (Z.eqb_spec a 0) as [|_]; [contradiction|].
    rewrite Hd. cbn [bind]. rewrite Hdd. cbn [bind].
    destruct (aget_in u a Hu) as (c & Ec). rewrite (incr_in u a c Ec). cbn [bind].
    apply IH. rewrite zupd_length. exact Hu.
Qed.

End SelfEntry.

Lemma main_diverges m img im :
  init_img m = Ok img -> main_sweep img = Ok tt -> bmp_chk img = Ok tt ->
  addrs_chk img = Ok tt -> dir_chk_seed img = Ok im ->
  (forall fuel, traverse_dirs fuel img (inode_at img 1) im = OutOfFuel) ->
  forall fuel, main fuel m = OutOfFuel.
Proof.
  intros E1 E2 E3 E4 E5 H fuel. unfold main. rewrite E1. cbn [bind].
  rewrite E2. cbn [bind]. rewrite E3. cbn [bind]. rewrite E4. cbn [bind].
  unfold dir_chk. rewrite E5. cbn [bind]. rewrite H. reflexivity.
Qed.

(** The root of [img_cycle] has the entry "x" for inode 1. *)
Lemma img_cycle_diverges :
  init_img img_cycle = Ok (ex_img img_cycle) /\
  dir_edge (ex_img img_cycle) 1 1 /\
  (forall fuel im, 1 < Z.of_nat (length im) ->
     traverse_dirs fuel (ex_img img_cycle) (inode_at (ex_img img_cycle) 1) im = OutOfFuel) /\
  (forall fuel, main fuel img_cycle = OutOfFuel).
Proof.
  assert (E1 : init_img img_cycle = Ok (ex_img img_cycle)) by (vm_compute; reflexivity).
  set (img := ex_img img_cycle) in *.
  assert (E2 : main_sweep img = Ok tt) by (vm_compute; reflexivity).
  assert (E3 : bmp_chk img = Ok tt) by (vm_compute; reflexivity).
  assert (E4 : addrs_chk img = Ok tt) by (vm_compute; reflexivity).
  assert (E5 : dir_chk_seed img = Ok [1; 1; 0; 0; 0; 0; 0; 0]) by (vm_compute; reflexivity).
  assert (Ht : in_type img (inode_at img 1) = Ok T_DIR) by (vm_compute; reflexivity).
  assert (Hb : in_addr img (inode_at img 1) 0 = Ok 5) by (vm_compute; reflexivity).
  assert (Hs : forallb (skippedb img 5) (zrange 0 2) = true) by (vm_compute; reflexivity).
  assert (Hn : de_inum img (dirent_at 5 2) = Ok 1) by (vm_compute; reflexivity).
  assert (Hd : strcmp_eq (img_map img) (de_name (dirent_at 5 2)) dot = Ok false)
    by (vm_compute; reflexivity).
  assert (Hdd : strcmp_eq (img_map img) (de_name (dirent_at 5 2)) dotdot = Ok false)
    by (vm_compute; reflexivity).
  clearbody img.
  assert (Hskip : forall k, 0 <= k < 2 -> skippedb img 5 k = true).
  { intros k Hk. apply (forallb_zrange (skippedb img 5) 0 2 Hs). lia. }
  assert (Hj : 0 <= 2 < DPB) by (change DPB with 32; lia).
  assert (H50 : 5 <> 0) by lia. assert (H10 : 1 <> 0) by lia.
  pose proof (self_entry_diverges img 1 5 2 Ht Hb H50 Hj Hskip Hn H10 Hd Hdd) as D.
  split; [exact E1|]. split; [|split].
  - exact (self_entry_edge img 1 5 2 Ht Hb H50 Hj Hn H10 Hd Hdd).
  - intros fuel im Hl. apply D. lia.
  - apply (main_diverges _ img _ E1 E2 E3 E4 E5). intros fuel. apply D. cbn. lia.
Qed.

(** C9: [traverse_dirs] keeps no record of the directories it has entered;
    the inode table of reference counts is the only state it carries.  For
    every image in which no directory is reachable from itself through
    directory entries (the entries "." and ".." apart, which the traversal
    passes over), the traversal from inode 1 terminates: a recursion depth
    of 65536 is never exceeded, and the outcome is the same at every larger
    depth.  For some image with a directory cycle, here a root directory
    with an entry for itself, the recursion exceeds every depth: the
    traversal, and with it the whole run, does not terminate. *)
Theorem traverse_dirs_termination :
  (forall img im, ~ dir_cycle img ->
     exists r, r <> OutOfFuel /\
       forall fuel, 65535 < Z.of_nat fuel ->
         traverse_dirs fuel img (inode_at img 1) im = r) /\
  (exists m img, init_img m = Ok img /\ dir_cycle img /\
     (forall fuel im, 1 < Z.of_nat (length im) ->
        traverse_dirs fuel img (inode_at img 1) im = OutOfFuel) /\
     (forall fuel, main fuel m = OutOfFuel)).
Proof.
  split.
  - intros img im Hac.
    exists (traverse_dirs (Z.to_nat 65536) img (inode_at img 1) im). split.
    + apply traverse_dirs_enough_fuel; [exact Hac|lia].
    + intros fuel Hf. apply (traverse_dirs_more_fuel img _ im _ (Z.to_nat 65536)).
      * lia.
      * reflexivity.
      * apply traverse_dirs_enough_fuel; [exact Hac|lia].
  - destruct img_cycle_diverges as (E & He & Ht & Hm).
    exists img_cycle, (ex_img img_cycle). split; [exact E|]. split; [|split].
    + exists 1. apply t_step. exact He.
    + exact Ht.
    + exact Hm.
Qed.

Lemma traverse_dirs_termination_witness :
  ~ dir_cycle (ex_img img_minimal) /\
  exists r, r <> OutOfFuel /\
    forall fuel, 65535 < Z.of_nat fuel ->
      traverse_dirs fuel (ex_img img_minimal) (inode_at (ex_img img_minimal) 1)
        [1; 1; 0; 0; 0; 0; 0; 0] = r.
Proof.
  split; [exact img_minimal_acyclic|].
  exact (proj1 traverse_dirs_termination (ex_img img_minimal) _ img_minimal_acyclic).
Defined.

(** * Further properties of the checker *)

(** ** Loads inside the mapping *)

Lemma ld8_cases m off :
  (0 <= off < Z.of_nat (length m) /\ exists v, ld8 m off = Ok v) \/
  (~ 0 <= off < Z.of_nat (length m) /\ ld8 m off = Fault).
Proof.
  unfold ld8. destruct (Z.ltb_spec off 0); [right; split; [lia|reflexivity]|].
  destruct (zth m off) eqn:E.
  - left. split; [split; [lia|eapply zth_range; eauto]|eauto].
  - right. split; [|reflexivity]. intros [_ Hlt].
    destruct (zth_Some m off ltac:(lia)) as (x & Hx). congruence.
Qed.

Lemma ld8_in m off : 0 <= off < Z.of_nat (length m) -> exists v, ld8 m off = Ok v.
Proof. intros H. destruct (ld8_cases m off) as [[_ E]|[N _]]; [exact E|contradiction]. Qed.

Lemma ld8_out m off : ~ 0 <= off < Z.of_nat (length m) -> ld8 m off = Fault.
Proof. intros H. destruct (ld8_cases m off) as [[N _]|[_ E]]; [contradiction|exact E]. Qed.

Lemma ld16_in m off :
  0 <= off -> off + 1 < Z.of_nat (length m) -> exists v, ld16 m off = Ok v.
Proof.
  intros H0 H1. unfold ld16.
  destruct (ld8_in m off ltac:(lia)) as (b0 & ->).
  destruct (ld8_in m (off + 1) ltac:(lia)) as (b1 & ->). cbn [bind]. eauto.
Qed.

Lemma ld32_in m off :
  0 <= off -> off + 3 < Z.of_nat (length m) -> exists v, ld32 m off = Ok v.
Proof.
  intros H0 H1. unfold ld32.
  destruct (ld8_in m off ltac:(lia)) as (b0 & ->).
  destruct (ld8_in m (off + 1) ltac:(lia)) as (b1 & ->).
  destruct (ld8_in m (off + 2) ltac:(lia)) as (b2 & ->).
  destruct (ld8_in m (off + 3) ltac:(lia)) as (b3 & ->). cbn [bind]. eauto.
Qed.

(** X1: [init_img] checks nothing.  A mapping of 524 bytes or more, which
    holds the three first words of the superblock, gets a layout whatever
    those words are: [init_img] never ends the run with a diagnostic, the
    layout keeps the three words as they stand and points into the same
    mapping, and the inode table starts at block 2. *)
Theorem init_img_checks_nothing : forall m : list byte,
  524 <= Z.of_nat (length m) ->
  exists size nblocks ninodes img,
    ld32 m 512 = Ok size /\ ld32 m 516 = Ok nblocks /\ ld32 m 520 = Ok ninodes /\
    init_img m = Ok img /\ img_sb img = mk_sb size nblocks ninodes /\
    img_map img = m /\ img_inodeblks img = 1024.
Proof.
  intros m H.
  destruct (ld32_in m 512 ltac:(lia) ltac:(lia)) as (size & E1).
  destruct (ld32_in m 516 ltac:(lia) ltac:(lia)) as (nblocks & E2).
  destruct (ld32_in m 520 ltac:(lia) ltac:(lia)) as (ninodes & E3).
  exists size, nblocks, ninodes. unfold init_img. cbv zeta.
  change (1 * BLK_SZ) with 512. change (512 + 4) with 516. change (512 + 8) with 520.
  rewrite E1, E2, E3. cbn [bind]. eexists. repeat split; reflexivity.
Qed.

(** A page of zero bytes: the superblock reads as three zero words, and
    [init_img] resolves a layout for it. *)
Lemma init_img_checks_nothing_witness :
  exists img, init_img (blank 8) = Ok img /\ img_sb img = mk_sb 0 0 0.
Proof.
  destruct (init_img_checks_nothing (blank 8))
    as (s & b & n & img & E1 & E2 & E3 & Hi & Hs & _).
  - vm_compute. discriminate.
  - exists img. split; [exact Hi|]. rewrite Hs.
    assert (Z1 : ld32 (blank 8) 512 = Ok 0) by (vm_compute; reflexivity).
    assert (Z2 : ld32 (blank 8) 516 = Ok 0) by (vm_compute; reflexivity).
    assert (Z3 : ld32 (blank 8) 520 = Ok 0) by (vm_compute; reflexivity).
    congruence.
Defined.

(** ** The bitmap test *)

(** X2: [marked_in_bmp] tests bit [addr mod 8], counted from the least
    significant one, of the byte at [bmp + addr / 8], and nothing else of the
    image; both operands of the [&] of [CHK_BIT] are signed [char]s, and the
    test is right for bit 7 all the same.  Outside the mapping the byte
    cannot be read. *)
Theorem marked_in_bmp_bit : forall (img : img_t) (bmp a : Z),
  match ld8 (img_map img) (bmp + a / 8) with
  | Ok b => marked_in_bmp img bmp a = Ok (Z.testbit b (a mod 8))
  | _ => marked_in_bmp img bmp a = Fault
  end.
Proof.
  intros img bmp a. destruct (ld8 (img_map img) (bmp + a / 8)) as [b| | |] eqn:E.
  - apply marked_in_bmp_testbit. exact E.
  - pose proof (plain_ld8 (img_map img) (bmp + a / 8)) as [(x & Hx)|Hx]; congruence.
  - unfold marked_in_bmp, CHK_BIT. rewrite E. reflexivity.
  - pose proof (plain_ld8 (img_map img) (bmp + a / 8)) as [(x & Hx)|Hx]; congruence.
Qed.

(** ** The reference-count table *)

Lemma zeros_nonpos {A} (z : A) n : n <= 0 -> zeros z n = [].
Proof. intros H. unfold zeros. destruct n; try lia; reflexivity. Qed.

Lemma dir_chk_seed_small img : sb_ninodes (img_sb img) < 2 -> dir_chk_seed img = Fault.
Proof.
  intros H. unfold dir_chk_seed.
  destruct (Z.ltb_spec (sb_ninodes (img_sb img)) 1) as [H0|H1].
  - rewrite zeros_nonpos by lia. reflexivity.
  - replace (sb_ninodes (img_sb img)) with 1 by lia. reflexivity.
Qed.

Lemma bind_Ok_tt_inv {A} (m : result A) (k : A -> result unit) :
  bind m k = Ok tt -> exists a, m = Ok a /\ k a = Ok tt.
Proof. destruct m; cbn; intros H; try discriminate; eauto. Qed.


(** ** An image without a root directory *)

Section AllFree.

Variable img : img_t.
Hypothesis Hfree : forall i, 0 <= i < sb_ninodes (img_sb img) ->
  in_type img (inode_at img i) = Ok 0.

Lemma for_loop_skip {St} (body : Z -> St -> result St) : forall n i s,
  (forall k, i <= k < i + Z.of_nat n -> body k s = Ok s) ->
  for_loop n i body s = Ok s.
Proof.
  induction n as [|n IH]; intros i s H; [reflexivity|]. cbn [for_loop].
  rewrite H by lia. cbn [bind]. apply IH. intros k Hk. apply H. lia.
Qed.

Lemma main_sweep_all_free : 0 <= sb_ninodes (img_sb img) -> main_sweep img = Ok tt.
Proof.
  intros Hn. unfold main_sweep, for_range. apply for_loop_skip. intros k Hk.
  unfold main_inode. cbv zeta. rewrite Hfree by lia. reflexivity.
Qed.

Lemma bmp_chk_inodes_all_free c :
  0 <= sb_ninodes (img_sb img) -> bmp_chk_inodes img c = Ok c.
Proof.
  intros Hn. unfold bmp_chk_inodes, for_range. apply for_loop_skip. intros k Hk.
  cbv zeta. rewrite Hfree by lia. reflexivity.
Qed.

Lemma addrs_chk_all_free : 0 <= sb_ninodes (img_sb img) -> addrs_chk img = Ok tt.
Proof.
  intros Hn. unfold addrs_chk, for_range. rewrite for_loop_skip; [reflexivity|].
  intros k Hk. unfold addrs_chk_inode. cbv zeta. rewrite Hfree by lia. reflexivity.
Qed.

Lemma dir_chk_all_free fuel :
  2 <= sb_ninodes (img_sb img) -> dir_chk (S fuel) img = Ok tt.
Proof.
  intros Hn. unfold dir_chk, dir_chk_seed.
  destruct (aget_in (zeros 0 (sb_ninodes (img_sb img))) 0) as (c0 & E0);
    [rewrite zeros_length by lia; lia|].
  rewrite (incr_in _ _ _ E0). cbn [bind].
  rewrite aget_zeros in E0 by lia. apply Ok_inj in E0. subst c0.
  set (im1 := zupd (zeros 0 (sb_ninodes (img_sb img))) 0 (wrap_int (0 + 1))).
  assert (L1 : Z.of_nat (length im1) = sb_ninodes (img_sb img)).
  { unfold im1. rewrite zupd_length. apply zeros_length. lia. }
  destruct (aget_in im1 1) as (c1 & E1); [lia|].
  rewrite (incr_in _ _ _ E1). cbn [bind].
  set (im2 := zupd im1 1 (wrap_int (c1 + 1))).
  assert (Z2 : forall i, 2 <= i < sb_ninodes (img_sb img) -> aget im2 i = Ok 0).
  { intros i Hi. unfold im2, im1. rewrite !aget_zupd_other by lia.
    apply aget_zeros. lia. }
  cbn [traverse_dirs]. rewrite Hfree by lia. cbn [bind].
  change (negb (0 =? T_DIR)) with true. cbv iota.
  unfold dir_chk_sweep, for_range. apply for_loop_unit_all. intros k Hk.
  unfold dir_chk_inode, chk_in_use, chk_in_free, chk_ref_cnt, chk_dir_once. cbv zeta.
  rewrite Hfree by lia. rewrite Z2 by lia. reflexivity.
Qed.

End AllFree.

(** X4: an inode whose type is 0 is skipped by every check, inode 1
    included: the run looks for the root directory only when inode 1 is in
    use.  An image all of whose inodes are free, on which the bitmap can be
    read, is accepted, although it has no root directory. *)
Theorem main_accepts_all_free : forall (fuel : nat) (m : list byte) (img : img_t),
  init_img m = Ok img ->
  2 <= sb_ninodes (img_sb img) ->
  (forall i, 0 <= i < sb_ninodes (img_sb img) -> in_type img (inode_at img i) = Ok 0) ->
  bitmap_mapped img ->
  main (S fuel) m = Ok tt.
Proof.
  intros fuel m img Hi Hn Hfree Hbm.
  assert (Hs : 0 <= sb_size (img_sb img)).
  { unfold init_img in Hi. cbv zeta in Hi.
    apply bind_Ok_inv in Hi as (size & E1 & Hi). apply bind_Ok_inv in Hi as (nb & E2 & Hi).
    apply bind_Ok_inv in Hi as (ni & E3 & Hi). apply Ok_inj in Hi. subst img. cbn.
    apply ld32_range in E1. lia. }
  rewrite (main_eq (S fuel) m img Hi).
  rewrite (main_sweep_all_free img Hfree) by lia. cbn [bind].
  unfold bmp_chk. rewrite (bmp_chk_inodes_all_free img Hfree) by lia. cbn [bind].
  rewrite (bmp_chk_unused_Ok img _ Hbm) by (apply zeros_length; exact Hs). cbn [bind].
  rewrite (addrs_chk_all_free img Hfree) by lia. cbn [bind].
  apply (dir_chk_all_free img Hfree). exact Hn.
Qed.

Lemma main_accepts_all_free_witness :
  init_img ex_base = Ok (ex_img ex_base) /\
  in_type (ex_img ex_base) (inode_at (ex_img ex_base) 1) = Ok 0 /\
  main 1 ex_base = Ok tt.
Proof.
  assert (Hi : init_img ex_base = Ok (ex_img ex_base)) by (vm_compute; reflexivity).
  split; [exact Hi|]. split; [vm_compute; reflexivity|].
  set (img := ex_img ex_base) in *.
  assert (Qt : forallb (fun i => match in_type img (inode_at img i) with
                                 | Ok t => t =? 0
                                 | _ => false
                                 end) (zrange 0 8) = true) by (vm_compute; reflexivity).
  assert (Qb : forallb (fun a => is_Ok (ld8 (img_map img) (img_bitmapblks img + a / 8)))
                 (zrange 0 (Z.to_nat (sb_size (img_sb img)))) = true)
    by (vm_compute; reflexivity).
  assert (N : sb_ninodes (img_sb img) = 8) by reflexivity.
  clearbody img.
  apply (main_accepts_all_free 0 ex_base img Hi).
  - rewrite N. lia.
  - intros i Hr. rewrite N in Hr.
    pose proof (forallb_zrange _ 0 8 Qt i ltac:(lia)) as Q. cbv beta in Q.
    destruct (in_type img (inode_at img i)) as [t| | |]; try discriminate Q.
    apply Z.eqb_eq in Q. congruence.
  - apply bitmap_mapped_by_eval. exact Qb.
Defined.

(** ** What a completed traversal has done *)

(** Every iteration of a loop that completes has completed, from a state
    the invariant holds of. *)
Lemma for_loop_Ok_at {St} (I : St -> Prop) (body : Z -> St -> result St) : forall n i s s',
  I s ->
  (forall k t t', i <= k < i + Z.of_nat n -> I t -> body k t = Ok t' -> I t') ->
  for_loop n i body s = Ok s' ->
  forall k, i <= k < i + Z.of_nat n -> exists t t', I t /\ body k t = Ok t'.
Proof.
  induction n as [|n IH]; intros i s s' Hs Hstep H k Hk; [lia|].
  cbn [for_loop] in H. apply bind_Ok_inv in H as (s1 & E1 & H).
  destruct (Z.eq_dec k i) as [->|Hne].
  - exists s, s1. split; assumption.
  - apply (IH (i + 1) s1 s'); [| |exact H|lia].
    + apply (Hstep i s s1); [lia|exact Hs|exact E1].
    + intros j t t' Hj. apply Hstep. lia.
Qed.

Section Traversal.

Variable img : img_t.

(** One entry of a block, as [process_block] handles it. *)
Lemma entry_step_length rec addr j t t' :
  (forall p u u', rec p u = Ok u' -> length u' = length u) ->
  (n <- de_inum img (dirent_at addr j) ;;
   if n =? 0 then Ok t
   else
     is_dot <- strcmp_eq (img_map img) (de_name (dirent_at addr j)) dot ;;
     if is_dot then Ok t
     else
       is_ddot <- strcmp_eq (img_map img) (de_name (dirent_at addr j)) dotdot ;;
       if is_ddot then Ok t
       else
         inodemap <- incr t n ;;
         rec (inode_at img n) inodemap) = Ok t' ->
  length t' = length t.
Proof.
  intros Hrec H.
  apply bind_Ok_inv in H as (n & _ & H). destruct (n =? 0); [apply Ok_inj in H; congruence|].
  apply bind_Ok_inv in H as (d & _ & H). destruct d; [apply Ok_inj in H; congruence|].
  apply bind_Ok_inv in H as (dd & _ & H). destruct dd; [apply Ok_inj in H; congruence|].
  apply bind_Ok_inv in H as (t1 & H1 & H). apply incr_length in H1.
  apply Hrec in H. congruence.
Qed.

Lemma process_block_length rec addr im im' :
  (forall p t t', rec p t = Ok t' -> length t' = length t) ->
  process_block rec img addr im = Ok im' -> length im' = length im.
Proof.
  intros Hrec. unfold process_block. destruct (addr =? 0).
  - intros H. apply Ok_inj in H. congruence.
  - unfold for_range. apply (for_loop_inv (fun t => length t = length im)); [reflexivity|].
    intros j t t' _ Ht. cbv zeta. intros H.
    apply entry_step_length in H; [congruence|exact Hrec].
Qed.

(** [traverse_dirs] leaves the table with the cells it had. *)
Lemma traverse_dirs_length : forall fuel p im im',
  traverse_dirs fuel img p im = Ok im' -> length im' = length im.
Proof.
  induction fuel as [|f IH]; intros p im im' H; [discriminate|].
  cbn [traverse_dirs] in H. apply bind_Ok_inv in H as (t & _ & H).
  destruct (negb (t =? T_DIR)); [apply Ok_inj in H; congruence|].
  apply bind_Ok_inv in H as (im1 & H1 & H).
  assert (L1 : length im1 = length im).
  { revert H1. unfold for_range.
    apply (for_loop_inv (fun t => length t = length im)); [reflexivity|].
    intros i u u' _ Hu Hb. apply bind_Ok_inv in Hb as (a & _ & Hb).
    apply process_block_length in Hb; [congruence|exact IH]. }
  apply bind_Ok_inv in H as (ind & _ & H).
  destruct (negb (ind =? 0)); [|apply Ok_inj in H; congruence].
  revert H. unfold for_range.
  apply (for_loop_inv (fun t => length t = length im)); [exact L1|].
  intros i u u' _ Hu Hb. apply bind_Ok_inv in Hb as (a & _ & Hb).
  apply process_block_length in Hb; [congruence|exact IH].
Qed.

(** A block that has been processed: the table had a cell for every
    entry that is followed, and the call made for it returned. *)
Lemma process_block_Ok_entry rec addr im im' n :
  (forall p t t', rec p t = Ok t' -> length t' = length t) ->
  process_block rec img addr im = Ok im' ->
  addr <> 0 -> dir_entry img addr n ->
  (0 <= n < Z.of_nat (length im)) /\
  exists t t', length t = length im /\ rec (inode_at img n) t = Ok t'.
Proof.
  intros Hrec H Ha (j & Hj & Hn & Hn0 & Hd & Hdd). unfold process_block in H.
  destruct (Z.eqb_spec addr 0) as [|_]; [contradiction|]. unfold for_range in H.
  eapply (for_loop_Ok_at (fun t => length t = length im)) with (k := j) in H;
    [|reflexivity| |unfold DPB in *; lia].
  - destruct H as (t & t' & Ht & Hb). cbv zeta in Hb.
    rewrite Hn in Hb. cbn [bind] in Hb.
    destruct (Z.eqb_spec n 0) as [|_]; [contradiction|].
    rewrite Hd in Hb. cbn [bind] in Hb. rewrite Hdd in Hb. cbn [bind] in Hb.
    apply bind_Ok_inv in Hb as (t1 & H1 & Hb).
    assert (Hr : 0 <= n < Z.of_nat (length t)).
    { destruct (aget_cases t n) as [(x & _ & R)|[_ N]]; [exact R|].
      rewrite incr_out in H1 by exact N. discriminate. }
    split; [rewrite <- Ht; exact Hr|].
    exists t1, t'. split; [|exact Hb]. apply incr_length in H1. congruence.
  - intros k t t' _ Ht Hb. cbv zeta in Hb.
    apply entry_step_length in Hb; [congruence|exact Hrec].
Qed.

(** One level of a traversal that returned. *)
Lemma traverse_dirs_Ok_edge fuel a im im' n :
  traverse_dirs (S fuel) img (inode_at img a) im = Ok im' ->
  dir_edge img a n ->
  (0 <= n < Z.of_nat (length im)) /\
  exists t t', length t = length im /\
    traverse_dirs fuel img (inode_at img n) t = Ok t'.
Proof.
  intros H (Ht & b & (Hb0 & Hb) & He).
  cbn [traverse_dirs] in H. rewrite Ht in H. cbn [bind] in H.
  rewrite Z.eqb_refl in H. cbn [negb] in H.
  apply bind_Ok_inv in H as (im1 & H1 & H).
  assert (Hstep : forall (k : Z) (rd : Z -> result Z) (t t' : list Z),
            length t = length im ->
            (a0 <- rd k ;; process_block (traverse_dirs fuel img) img a0 t) = Ok t' ->
            length t' = length im).
  { intros k rd t t' Hl Hq. apply bind_Ok_inv in Hq as (a0 & _ & Hq).
    apply process_block_length in Hq; [congruence|apply traverse_dirs_length]. }
  assert (L1 : length im1 = length im).
  { revert H1. unfold for_range.
    apply (for_loop_inv (fun t => length t = length im)); [reflexivity|].
    intros i u u' _ Hu Hq. exact (Hstep i (in_addr img (inode_at img a)) u u' Hu Hq). }
  destruct Hb as [(i & Hi & Hb)|(ind & i & Hind & Hnz & Hi & Hb)].
  - unfold for_range in H1.
    eapply (for_loop_Ok_at (fun t => length t = length im)) with (k := i) in H1;
      [|reflexivity| |unfold NDIRECT in *; lia].
    + destruct H1 as (t & t' & Hl & Hq). rewrite Hb in Hq. cbn [bind] in Hq.
      destruct (process_block_Ok_entry _ _ _ _ n (traverse_dirs_length fuel) Hq Hb0 He)
        as (Hr & u & u' & Hu & Hq').
      split; [rewrite <- Hl; exact Hr|]. exists u, u'. split; [congruence|exact Hq'].
    + intros k t t' _ Hl Hq. exact (Hstep k (in_addr img (inode_at img a)) t t' Hl Hq).
  - rewrite Hind in H. cbn [bind] in H.
    destruct (Z.eqb_spec ind 0) as [|_]; [contradiction|]. cbn [negb] in H.
    unfold for_range in H.
    eapply (for_loop_Ok_at (fun t => length t = length im)) with (k := i) in H;
      [|exact L1| |unfold NINDIRECT in *; lia].
    + destruct H as (t & t' & Hl & Hq). rewrite Hb in Hq. cbn [bind] in Hq.
      destruct (process_block_Ok_entry _ _ _ _ n (traverse_dirs_length fuel) Hq Hb0 He)
        as (Hr & u & u' & Hu & Hq').
      split; [rewrite <- Hl; exact Hr|]. exists u, u'. split; [congruence|exact Hq'].
    + intros k t t' _ Hl Hq. exact (Hstep k (ind_slot img ind) t t' Hl Hq).
Qed.

(** Every inode that directory entries lead to from [a] has been visited
    by a call that returned, with less fuel. *)
Lemma traverse_dirs_Ok_reach a n :
  clos_trans Z (dir_edge img) a n ->
  forall fuel im im', traverse_dirs fuel img (inode_at img a) im = Ok im' ->
  (0 <= n < Z.of_nat (length im)) /\
  exists fuel' t t', (fuel' < fuel)%nat /\ length t = length im /\
    traverse_dirs fuel' img (inode_at img n) t = Ok t'.
Proof.
  induction 1 as [a n He|a y n _ IH1 _ IH2]; intros fuel im im' H.
  - destruct fuel as [|f]; [discriminate|].
    destruct (traverse_dirs_Ok_edge f a im im' n H He) as (Hr & t & t' & Hl & Hq).
    split; [exact Hr|]. exists f, t, t'. split; [lia|]. split; assumption.
  - destruct (IH1 fuel im im' H) as (_ & f1 & t1 & t1' & Hf1 & Hl1 & Hq1).
    destruct (IH2 f1 t1 t1' Hq1) as (Hr & f2 & t2 & t2' & Hf2 & Hl2 & Hq2).
    split; [rewrite <- Hl1; exact Hr|]. exists f2, t2, t2'.
    split; [lia|]. split; [congruence|exact Hq2].
Qed.

Lemma cycle_next (R : Z -> Z -> Prop) n :
  clos_trans Z R n n -> exists y, R n y /\ clos_trans Z R y y.
Proof.
  intros H. apply clos_trans_t1n in H.
  inversion H as [y Hy|y z Hy Hyz]; subst.
  - exists n. split; [exact Hy|apply t_step; exact Hy].
  - exists y. split; [exact Hy|]. apply clos_t1n_trans in Hyz.
    eapply t_trans; [exact Hyz|apply t_step; exact Hy].
Qed.

(** A call made for a directory that is on a cycle does not return. *)
Lemma traverse_dirs_on_cycle : forall fuel n im im',
  clos_trans Z (dir_edge img) n n ->
  traverse_dirs fuel img (inode_at img n) im <> Ok im'.
Proof.
  induction fuel as [|f IH]; intros n im im' Hc H; [discriminate|].
  destruct (cycle_next _ n Hc) as (y & He & Hy).
  destruct (traverse_dirs_Ok_edge f n im im' y H He) as (_ & t & t' & _ & Hq).
  exact (IH y t t' Hy Hq).
Qed.

(** [traverse_dirs] prints nothing. *)
Lemma traverse_dirs_no_exit : forall fuel p im e,
  traverse_dirs fuel img p im <> Exit e.
Proof.
  induction fuel as [|f IH]; intros p im e; [discriminate|]. cbn [traverse_dirs].
  assert (Hpb : forall a t, process_block (traverse_dirs f img) img a t <> Exit e).
  { intros a t. unfold process_block. destruct (a =? 0); [discriminate|].
    unfold for_range. apply for_loop_never; [intros x; discriminate|].
    intros j u _. cbv zeta.
    destruct (plain_de_inum img (dirent_at a j)) as [(n & ->)| ->]; [cbn [bind]|discriminate].
    destruct (n =? 0); [discriminate|].
    destruct (plain_strcmp_eq (img_map img) dot (de_name (dirent_at a j)))
      as [(d & ->)| ->]; [cbn [bind]|discriminate].
    destruct d; [discriminate|].
    destruct (plain_strcmp_eq (img_map img) dotdot (de_name (dirent_at a j)))
      as [(dd & ->)| ->]; [cbn [bind]|discriminate].
    destruct dd; [discriminate|].
    destruct (plain_incr u n) as [(u1 & ->)| ->]; [cbn [bind]|discriminate].
    apply IH. }
  destruct (plain_in_type img p) as [(t & ->)| ->]; [cbn [bind]|discriminate].
  destruct (negb (t =? T_DIR)); [discriminate|].
  match goal with |- bind ?m _ <> _ => destruct m as [im1|e1| |] eqn:E1 end;
    cbn [bind]; try discriminate.
  - destruct (plain_in_addr img p NDIRECT) as [(ind & ->)| ->]; [cbn [bind]|discriminate].
    destruct (negb (ind =? 0)); [|discriminate].
    unfold for_range. apply for_loop_never; [intros x; discriminate|].
    intros i u _.
    destruct (plain_ind_slot img ind i) as [(a & ->)| ->]; [cbn [bind]|discriminate].
    apply Hpb.
  - intros Q. apply Ok_inj in Q || injection Q as Q. subst e1. revert E1.
    unfold for_range. apply for_loop_never; [intros x; discriminate|].
    intros i u _.
    destruct (plain_in_addr img p i) as [(a & ->)| ->]; [cbn [bind]|discriminate].
    apply Hpb.
Qed.

End Traversal.

(** A followed entry found in a direct block, by its position. *)
Lemma dir_edge_direct img a i b j n :
  in_type img (inode_at img a) = Ok T_DIR ->
  0 <= i < NDIRECT -> in_addr img (inode_at img a) i = Ok b -> b <> 0 ->
  0 <= j < DPB -> de_inum img (dirent_at b j) = Ok n -> n <> 0 ->
  strcmp_eq (img_map img) (de_name (dirent_at b j)) dot = Ok false ->
  strcmp_eq (img_map img) (de_name (dirent_at b j)) dotdot = Ok false ->
  dir_edge img a n.
Proof.
  intros Ht Hi Hb Hb0 Hj Hn Hn0 Hd Hdd. split; [exact Ht|]. exists b. split.
  - split; [exact Hb0|]. left. exists i. split; assumption.
  - exists j. split; [exact Hj|]. split; [exact Hn|]. split; [exact Hn0|].
    split; assumption.
Qed.

(** X6: no call of [traverse_dirs] made at a directory from which
    directory entries lead to a cycle returns, whatever depth the recursion
    is allowed: it goes on until the depth is used up, unless an increment
    outside the table ends it before.  An image with such a cycle below
    the root is never accepted. *)
Theorem traverse_dirs_cycle_never_returns :
  forall (fuel : nat) (img : img_t) (a n : Z) (im : list Z),
  clos_refl_trans Z (dir_edge img) a n ->
  clos_trans Z (dir_edge img) n n ->
  (traverse_dirs fuel img (inode_at img a) im = Fault \/
   traverse_dirs fuel img (inode_at img a) im = OutOfFuel) /\
  (a = 1 -> forall m, init_img m = Ok img -> main fuel m <> Ok tt).
Proof.
  intros fuel img a n im Hr Hc.
  assert (N : forall im0 im', traverse_dirs fuel img (inode_at img a) im0 <> Ok im').
  { intros im0 im' H. apply clos_rt_rt1n in Hr.
    revert fuel im0 im' H. induction Hr as [x|x y z Hxy _ IH]; intros fuel im0 im' H.
    - exact (traverse_dirs_on_cycle img fuel x im0 im' Hc H).
    - destruct fuel as [|f]; [discriminate|].
      destruct (traverse_dirs_Ok_edge img f x im0 im' y H Hxy) as (_ & t & t' & _ & Hq).
      exact (IH Hc f t t' Hq). }
  split.
  - destruct (traverse_dirs fuel img (inode_at img a) im) as [im'|e| |] eqn:E; auto.
    + destruct (N im im' E).
    + destruct (traverse_dirs_no_exit img fuel (inode_at img a) im e E).
  - intros -> m Hi H. rewrite (main_eq fuel m img Hi) in H.
    apply bind_Ok_tt_inv in H as (_ & _ & H). apply bind_Ok_tt_inv in H as (_ & _ & H).
    apply bind_Ok_tt_inv in H as (_ & _ & H). unfold dir_chk in H.
    apply bind_Ok_tt_inv in H as (im0 & _ & H). apply bind_Ok_tt_inv in H as (im' & H & _).
    exact (N im0 im' H).
Qed.

Lemma traverse_dirs_cycle_never_returns_witness :
  init_img img_cycle_2 = Ok (ex_img img_cycle_2) /\
  dir_edge (ex_img img_cycle_2) 1 2 /\ dir_edge (ex_img img_cycle_2) 2 1 /\
  main_sweep (ex_img img_cycle_2) = Ok tt /\
  (forall fuel, main fuel img_cycle_2 <> Ok tt) /\
  main 40 img_cycle_2 = OutOfFuel.
Proof.
  assert (Hi : init_img img_cycle_2 = Ok (ex_img img_cycle_2)) by (vm_compute; reflexivity).
  assert (E12 : dir_edge (ex_img img_cycle_2) 1 2).
  { apply (dir_edge_direct _ 1 0 5 2 2); try (vm_compute; reflexivity);
      try (vm_compute; intuition discriminate). }
  assert (E21 : dir_edge (ex_img img_cycle_2) 2 1).
  { apply (dir_edge_direct _ 2 0 6 2 1); try (vm_compute; reflexivity);
      try (vm_compute; intuition discriminate). }
  split; [exact Hi|]. split; [exact E12|]. split; [exact E21|].
  split; [vm_compute; reflexivity|]. split; [|vm_compute; reflexivity].
  intros fuel.
  apply (proj2 (traverse_dirs_cycle_never_returns fuel (ex_img img_cycle_2) 1 1 []
                  (rt_refl _ _ 1)
                  (t_trans _ _ 1 2 1 (t_step _ _ _ _ E12) (t_step _ _ _ _ E21)))
           eq_refl img_cycle_2 Hi).
Defined.

(** ** The order of the checks *)

(** A loop that ends abnormally ends in one of its iterations. *)
Lemma for_loop_abnormal_inv {St} (body : Z -> St -> result St) (q : result St) :
  abnormal q ->
  forall n i s, for_loop n i body s = q ->
  exists k t, i <= k < i + Z.of_nat n /\ body k t = q.
Proof.
  intros Hq. induction n as [|n IH]; intros i s H.
  - cbn in H. destruct (Hq s). symmetry. exact H.
  - cbn [for_loop] in H. destruct (body i s) as [s'| | |] eqn:E; cbn [bind] in H.
    + destruct (IH _ _ H) as (k & t & Hk & Hb). exists k, t. split; [lia|exact Hb].
    + exists i, s. split; [lia|congruence].
    + exists i, s. split; [lia|congruence].
    + exists i, s. split; [lia|congruence].
Qed.

Lemma only_dir_chk_sweep img im : only dir_error (dir_chk_sweep img im).
Proof.
  unfold dir_chk_sweep, for_range. apply only_for_loop. intros k s _.
  unfold dir_chk_inode, chk_in_use, chk_in_free, chk_ref_cnt, chk_dir_once, dir_error.
  cbv zeta. only_step.
  { only_step; [only_step|]. destruct (negb _); [|exact I].
    only_step; [only_step|]. destruct (_ =? 0); [cbn; tauto|exact I]. }
  only_step.
  { only_step; [only_step|]. destruct (0 <? _); [|exact I].
    only_step; [only_step|]. destruct (_ =? 0); [cbn; tauto|exact I]. }
  only_step.
  { only_step; [only_step|]. destruct (_ =? T_FILE); [|exact I].
    only_step; [only_step|]. only_step; [only_step|].
    destruct (negb _); [cbn; tauto|exact I]. }
  only_step; [only_step|]. destruct (_ =? T_DIR); [|exact I].
  only_step; [only_step|]. destruct (1 <? _); [cbn; tauto|exact I].
Qed.

Lemma dir_chk_Exit fuel img e : dir_chk fuel img = Exit e -> dir_error e.
Proof.
  unfold dir_chk, dir_chk_seed. intros H.
  destruct (plain_incr (zeros 0 (sb_ninodes (img_sb img))) 0) as [(im0 & E0)|E0];
    rewrite E0 in H; cbn [bind] in H; [|discriminate].
  destruct (plain_incr im0 1) as [(im1 & E1)|E1];
    rewrite E1 in H; cbn [bind] in H; [|discriminate].
  destruct (traverse_dirs fuel img (inode_at img 1) im1) as [im2|e2| |] eqn:E2;
    cbn [bind] in H; try discriminate.
  - pose proof (only_dir_chk_sweep img im2) as O. rewrite H in O. exact O.
  - destruct (traverse_dirs_no_exit img fuel _ _ _ E2).
Qed.

Lemma main_exit_cases (fuel : nat) (m : list byte) (img : img_t) (e : error) :
  init_img m = Ok img ->
  main fuel m = Exit e ->
  (sweep_error e /\ main_sweep img = Exit e) \/
  (e = BitmapMarksUnused /\ main_sweep img = Ok tt /\ bmp_chk img = Exit e) \/
  ((exists k, e = DuplicateBlockUse k) /\
   main_sweep img = Ok tt /\ bmp_chk img = Ok tt /\ addrs_chk img = Exit e) \/
  (dir_error e /\
   main_sweep img = Ok tt /\ bmp_chk img = Ok tt /\ addrs_chk img = Ok tt /\
   dir_chk fuel img = Exit e).
Proof.
  intros Hi H. rewrite (main_eq fuel m img Hi) in H.
  pose proof (only_main_sweep img) as O1.
  destruct (main_sweep img) as [[]|e1| |] eqn:E1; cbn [bind] in H; try discriminate.
  2:{ left. assert (e1 = e) by congruence. subst e1. split; [exact O1|reflexivity]. }
  right. pose proof (only_bmp_chk img) as O2.
  destruct (bmp_chk img) as [[]|e2| |] eqn:E2; cbn [bind] in H; try discriminate.
  2:{ left. assert (e2 = e) by congruence. subst e2. cbn in O2.
      split; [congruence|]. split; reflexivity. }
  right. pose proof (only_addrs_chk img) as O3.
  destruct (addrs_chk img) as [[]|e3| |] eqn:E3; cbn [bind] in H; try discriminate.
  2:{ left. assert (e3 = e) by congruence. subst e3. cbn in O3.
      split; [exact O3|]. repeat split; reflexivity. }
  right. split; [exact (dir_chk_Exit fuel img e H)|]. repeat split; try reflexivity. exact H.
Qed.

(** X7: [main] runs the inode loop, [bmp_chk], [addrs_chk] and [dir_chk] in
    this order and each of them has diagnostics of its own, so the line that
    is printed tells which check ended the run and that every check before
    it passed on the whole image: a duplicate address is reported only for
    an image whose every inode passed the inode loop, a reference-count
    finding only after the address and bitmap checks found nothing. *)
Theorem main_exit_phase : forall (fuel : nat) (m : list byte) (img : img_t) (e : error),
  init_img m = Ok img ->
  main fuel m = Exit e ->
  (sweep_error e /\ main_sweep img = Exit e) \/
  (e = BitmapMarksUnused /\ main_sweep img = Ok tt /\ bmp_chk img = Exit e) \/
  ((exists k, e = DuplicateBlockUse k) /\
   main_sweep img = Ok tt /\ bmp_chk img = Ok tt /\ addrs_chk img = Exit e) \/
  (dir_error e /\
   main_sweep img = Ok tt /\ bmp_chk img = Ok tt /\ addrs_chk img = Ok tt /\
   dir_chk fuel img = Exit e).
Proof. exact main_exit_cases. Qed.

Lemma main_exit_phase_witness :
  main_sweep (ex_img img_shared_direct) = Ok tt /\
  bmp_chk (ex_img img_shared_direct) = Ok tt /\
  addrs_chk (ex_img img_shared_direct) = Exit (DuplicateBlockUse Kdirect).
Proof.
  assert (Hi : init_img img_shared_direct = Ok (ex_img img_shared_direct))
    by (vm_compute; reflexivity).
  assert (Hm : main 2 img_shared_direct = Exit (DuplicateBlockUse Kdirect))
    by (vm_compute; reflexivity).
  destruct (main_exit_phase 2 img_shared_direct _ _ Hi Hm)
    as [[Hs _]|[[Hs _]|[(_ & H1 & H2 & H3)|[Hs _]]]].
  - exfalso. unfold sweep_error in Hs. intuition discriminate.
  - discriminate Hs.
  - split; [exact H1|]. split; [exact H2|exact H3].
  - exfalso. unfold dir_error in Hs. intuition discriminate.
Defined.

(** ** What the inode loop has established when it passes *)

Lemma for_loop_Ok_ix {St} (I : Z -> St -> Prop) (body : Z -> St -> result St) :
  forall n i s s',
  I i s ->
  (forall k t t', i <= k < i + Z.of_nat n -> I k t -> body k t = Ok t' -> I (k + 1) t') ->
  for_loop n i body s = Ok s' ->
  I (i + Z.of_nat n) s' /\
  forall k, i <= k < i + Z.of_nat n -> exists t t', I k t /\ body k t = Ok t'.
Proof.
  induction n as [|n IH]; intros i s s' Hs Hstep H.
  - cbn in H. apply Ok_inj in H. subst s'. split; [|intros; lia].
    replace (i + Z.of_nat 0) with i by lia. exact Hs.
  - cbn [for_loop] in H. apply bind_Ok_inv in H as (s1 & E1 & H).
    assert (H1 : I (i + 1) s1) by (apply (Hstep i s s1); [lia|exact Hs|exact E1]).
    destruct (IH (i + 1) s1 s' H1) as [Hend Hall]; [|exact H|].
    + intros j t t' Hj. apply Hstep. lia.
    + split; [replace (i + Z.of_nat (S n)) with (i + 1 + Z.of_nat n) by lia; exact Hend|].
      intros k Hk. destruct (Z.eq_dec k i) as [->|Hne].
      * exists s, s1. split; assumption.
      * apply Hall. lia.
Qed.

(** The contents of the indirect block, once [check_indirect] has passed. *)
Lemma check_indirect_Ok_contents img ip ind :
  check_indirect img ip = Ok tt ->
  in_addr img ip NDIRECT = Ok ind -> ind <> 0 ->
  0 < ind < sb_size (img_sb img) /\
  forall j, 0 <= j < NINDIRECT ->
    exists v, ind_slot img ind j = Ok v /\ (v = 0 \/ 0 < v < sb_size (img_sb img)).
Proof.
  intros H Hind Hnz.
  assert (Hl : forall j, 0 <= j < NINDIRECT -> exists v, ind_slot img ind j = Ok v).
  { pose proof H as H'. unfold check_indirect in H'. rewrite Hind in H'. cbn [bind] in H'.
    destruct (Z.eqb_spec ind 0) as [|_]; [contradiction|].
    destruct (negb (valid_addr img ind)); [discriminate|].
    apply bind_Ok_inv in H' as (l & Hld & _).
    intros j Hj. apply (ld32s_Ok_inv _ _ _ _ Hld j). unfold NINDIRECT in *. cbn in *. lia. }
  destruct (check_indirect_spec img ip (fun j => val 0 (ind_slot img ind j)) ind Hind)
    as [_ [Hok _]].
  { intros _ j Hj. destruct (Hl j Hj) as (v & ->). reflexivity. }
  destruct (Hok H) as [?|[Hv Hc]]; [contradiction|]. split; [exact Hv|].
  intros j Hj. destruct (Hl j Hj) as (v & Ev). exists v. split; [exact Ev|].
  specialize (Hc j Hj). cbv beta in Hc. rewrite Ev in Hc. exact Hc.
Qed.

Section ChkBmpAddr.

Variables (img : img_t) (ip : Z).
Hypothesis Hsize : 0 <= sb_size (img_sb img).
Hypothesis Hpass : chk_bmp_addr img ip = Ok tt.

Lemma chk_bmp_addr_slots :
  forall k, 0 <= k <= NDIRECT ->
  exists t t', chkd_seen img ip k t /\
    (addr <- in_addr img ip k ;;
     r <- chk_one img addr t ;;
     match r with
     | None => Ok t
     | Some chkd' =>
         if k =? NDIRECT then chk_indirect img (blk_ptr addr) chkd' else Ok chkd'
     end) = Ok t'.
Proof.
  pose proof Hpass as H. unfold chk_bmp_addr in H. cbv zeta in H.
  apply bind_Ok_tt_inv in H as (c0 & H & _). unfold for_range in H.
  apply (for_loop_Ok_ix (chkd_seen img ip)) in H.
  - destruct H as [_ H]. intros k Hk. apply H. unfold NDIRECT in *. cbn. lia.
  - split; [apply chkd_inv_zeros; exact Hsize|]. intros _ b Hb.
    destruct (aget_cases (zeros false (sb_size (img_sb img))) b) as [(x & E & R)|[E _]];
      [|congruence].
    rewrite zeros_length in R by exact Hsize. rewrite aget_zeros in Hb by exact R.
    discriminate.
  - intros k t t' Hk [Ic Is] Hb. split; [eapply chk_bmp_addr_body_inv; eauto|].
    intros Hk1 b Hbt. apply bind_Ok_inv in Hb as (a & Ha & Hb).
    apply bind_Ok_inv in Hb as (r & Hr & Hb).
    destruct (Z.eqb_spec k NDIRECT) as [->|_]; [lia|].
    destruct r as [c|]; apply Ok_inj in Hb; subst t'.
    + destruct (Z.eq_dec a 0) as [->|Hnz]; [discriminate|].
      destruct (chk_one_cases img a t Hnz) as [E|[[_ E]|[(_ & _ & E)|(_ & _ & Hr' & E)]]];
        rewrite E in Hr; try discriminate.
      apply Ok_inj in Hr. injection Hr as <-.
      destruct (Z.eq_dec a b) as [<-|Hne].
      * exists k. split; [lia|exact Ha].
      * rewrite aget_zupd_other in Hbt by lia.
        destruct (Is ltac:(lia) b Hbt) as (j & Hj & Ej). exists j. split; [lia|exact Ej].
    + destruct (Is ltac:(lia) b Hbt) as (j & Hj & Ej). exists j. split; [lia|exact Ej].
Qed.

(** Every non-zero address of a direct slot, and the indirect pointer, has
    its bit set in the bitmap. *)
Lemma chk_bmp_addr_Ok_marked k a :
  0 <= k <= NDIRECT -> in_addr img ip k = Ok a -> a <> 0 ->
  marked_in_bmp img (img_bitmapblks img) a = Ok true.
Proof.
  intros Hk Ha Hnz. destruct (chk_bmp_addr_slots k Hk) as (t & t' & [[_ Ic] _] & Hb).
  rewrite Ha in Hb. cbn [bind] in Hb.
  destruct (chk_one_cases img a t Hnz) as [E|[[Hx E]|[(_ & _ & E)|(_ & Hm & _)]]];
    try (rewrite E in Hb; discriminate).
  - apply Ic. exact Hx.
  - exact Hm.
Qed.

(** So has every non-zero address in the indirect block, unless the
    indirect pointer is also the address of a direct slot: [chkd] is set
    for it then, and the block is not looked into. *)
Lemma chk_bmp_addr_Ok_contents ind j v :
  in_addr img ip NDIRECT = Ok ind -> ind <> 0 ->
  (forall i, 0 <= i < NDIRECT -> in_addr img ip i <> Ok ind) ->
  0 <= j < NINDIRECT -> ind_slot img ind j = Ok v -> v <> 0 ->
  marked_in_bmp img (img_bitmapblks img) v = Ok true.
Proof.
  intros Hind Hnz Hna Hj Hv Hv0.
  destruct (chk_bmp_addr_slots NDIRECT ltac:(unfold NDIRECT; lia))
    as (t & t' & [Ic Is] & Hb).
  rewrite Hind in Hb. cbn [bind] in Hb. rewrite Z.eqb_refl in Hb.
  destruct (chk_one_cases img ind t Hnz) as [E|[[Hx E]|[(_ & _ & E)|(_ & Hm & Hr & E)]]];
    rewrite E in Hb; cbn [bind] in Hb; try discriminate.
  - destruct (Is ltac:(lia) ind Hx) as (i & Hi & Ei). destruct (Hna i Hi Ei).
  - assert (Ic' : chkd_inv img (zupd t ind true)).
    { apply (chk_one_inv img ind t); [exact Ic|exact E]. }
    unfold chk_indirect, for_range in Hb.
    eapply (for_loop_Ok_at (chkd_inv img)) with (k := j) in Hb;
      [|exact Ic'| |unfold NINDIRECT in *; cbn in *; lia].
    + destruct Hb as (u & u' & [_ Iu] & Hq).
      unfold ind_slot in Hv. rewrite Hv in Hq. cbn [bind] in Hq.
      destruct (chk_one_cases img v u Hv0) as [E'|[[Hx E']|[(_ & _ & E')|(_ & Hm' & _)]]];
        try (rewrite E' in Hq; discriminate).
      * apply Iu. exact Hx.
      * exact Hm'.
    + intros i u u' _ Iu Hq. apply bind_Ok_inv in Hq as (a & _ & Hq).
      apply bind_Ok_inv in Hq as (r & Hr' & Hq). destruct r as [c|].
      * apply Ok_inj in Hq. subst u'. eapply chk_one_inv; eauto.
      * apply Ok_inj in Hq. subst u'. exact Iu.
Qed.

End ChkBmpAddr.

Lemma main_sweep_Ok_inode img i :
  main_sweep img = Ok tt -> 0 <= i < sb_ninodes (img_sb img) -> main_inode img i = Ok tt.
Proof.
  intros H Hi. unfold main_sweep, for_range in H.
  destruct (for_loop_unit_inv _ _ _ _ H) as [[_ Hall]|(k & _ & _ & _ & Hab)].
  - apply Hall. lia.
  - destruct (Hab tt). reflexivity.
Qed.

Lemma main_inode_Ok_inv img i t :
  main_inode img i = Ok tt -> in_type img (inode_at img i) = Ok t -> t <> 0 ->
  validate_type img (inode_at img i) = Ok tt /\
  check_direct img (inode_at img i) = Ok tt /\
  check_indirect img (inode_at img i) = Ok tt /\
  (i = 1 -> t = T_DIR) /\
  (t = T_DIR -> validate_dir img (inode_at img i) i = Ok tt) /\
  chk_bmp_addr img (inode_at img i) = Ok tt.
Proof.
  intros H Ht Hnz. rewrite (main_inode_eq img i t Ht Hnz) in H.
  apply bind_Ok_tt_inv in H as ([] & H & Hc). unfold inode_checks in H. cbv zeta in H.
  apply bind_Ok_tt_inv in H as ([] & H1 & H). apply bind_Ok_tt_inv in H as ([] & H2 & H).
  apply bind_Ok_tt_inv in H as ([] & H3 & H). rewrite Ht in H.
  split; [exact H1|]. split; [exact H2|]. split; [exact H3|].
  destruct (Z.eqb_spec i 1) as [->|Hne]; cbn [bind] in H.
  - destruct (Z.eqb_spec t T_DIR) as [->|Hd]; cbn [negb] in H; [|discriminate].
    split; [reflexivity|]. split; [intros _; exact H|exact Hc].
  - split; [intros; contradiction|]. split; [|exact Hc].
    intros ->. rewrite Z.eqb_refl in H. exact H.
Qed.

(** Every address an inode in use holds is the number of a block of the
    image, and its bit is set in the bitmap, unless it is read from an
    indirect block whose address is also in a direct slot. *)
Lemma main_sweep_Ok_refers img i s a :
  0 <= sb_size (img_sb img) ->
  main_sweep img = Ok tt -> refers img i s a ->
  0 < a < sb_size (img_sb img) /\
  ((forall j, s <> Sindirect j) \/ ~ indptr_aliased img i ->
   marked_in_bmp img (img_bitmapblks img) a = Ok true).
Proof.
  intros Hs H (Hi & (t & Ht & Tn) & Ha & Hslot).
  pose proof (main_sweep_Ok_inode img i H Hi) as Hin.
  destruct (main_inode_Ok_inv img i t Hin Ht Tn) as (_ & Hd & Hind & _ & _ & Hc).
  destruct s as [j| |j].
  - destruct Hslot as [Hj Ej].
    destruct (check_direct_Ok_inv img _ Hd j Hj) as (v & Ev & Hv).
    assert (v = a) by congruence. subst v. split; [destruct Hv; [contradiction|assumption]|].
    intros _. apply (chk_bmp_addr_Ok_marked img _ Hs Hc j a); [unfold NDIRECT in *; lia| |];
      assumption.
  - destruct (check_indirect_Ok_contents img _ a Hind Hslot Ha) as [Hv _].
    split; [exact Hv|]. intros _.
    apply (chk_bmp_addr_Ok_marked img _ Hs Hc NDIRECT a); [unfold NDIRECT; lia| |];
      assumption.
  - destruct Hslot as (Hj & ind & Ei & Inz & Ej).
    destruct (check_indirect_Ok_contents img _ ind Hind Ei Inz) as [_ Hall].
    destruct (Hall j Hj) as (v & Ev & Hv). assert (v = a) by congruence. subst v.
    split; [destruct Hv; [contradiction|assumption]|].
    intros [Hn|Hn]; [destruct (Hn j eq_refl)|].
    apply (chk_bmp_addr_Ok_contents img _ Hs Hc ind j a); try assumption.
    intros k Hk Ek. apply Hn. exists ind, k. repeat split; try assumption; lia.
Qed.

(** X8: when the inode loop of [main] passes, every inode in use has one of
    the three types, inode 1, if in use, is a directory, and every non-zero
    address held by an inode in use, in a direct slot, as indirect pointer
    or inside the indirect block, is the number of a block of the image and
    has its bit set in the bitmap.  The last part has one exception: when
    the indirect pointer is also the address of a direct slot of the same
    inode, the bits of the addresses inside the indirect block have not been
    looked at. *)
Theorem main_sweep_sound : forall (m : list byte) (img : img_t),
  init_img m = Ok img ->
  main_sweep img = Ok tt ->
  (forall i t, 0 <= i < sb_ninodes (img_sb img) ->
     in_type img (inode_at img i) = Ok t ->
     (t = 0 \/ t = T_FILE \/ t = T_DIR \/ t = T_DEV) /\ (i = 1 -> t = 0 \/ t = T_DIR)) /\
  (forall i s a, refers img i s a ->
     0 < a < sb_size (img_sb img) /\
     ((forall j, s <> Sindirect j) \/ ~ indptr_aliased img i ->
      marked_in_bmp img (img_bitmapblks img) a = Ok true)).
Proof.
  intros m img Hi H.
  assert (Hs : 0 <= sb_size (img_sb img)).
  { unfold init_img in Hi. cbv zeta in Hi.
    apply bind_Ok_inv in Hi as (size & E1 & Hi). apply bind_Ok_inv in Hi as (nb & E2 & Hi).
    apply bind_Ok_inv in Hi as (ni & E3 & Hi). apply Ok_inj in Hi. subst img. cbn.
    apply ld32_range in E1. lia. }
  split.
  - intros i t Hr Ht. destruct (Z.eq_dec t 0) as [->|Tn]; [split; auto|].
    pose proof (main_sweep_Ok_inode img i H Hr) as Hin.
    destruct (main_inode_Ok_inv img i t Hin Ht Tn) as (Hv & _ & _ & Hroot & _).
    split; [|intros E; right; exact (Hroot E)].
    unfold validate_type in Hv. rewrite Ht in Hv. cbn [bind] in Hv.
    destruct (Z.eqb_spec t T_FILE); [auto|]. destruct (Z.eqb_spec t T_DIR); [auto|].
    destruct (Z.eqb_spec t T_DEV); [auto|]. discriminate.
  - intros i s a Hr. exact (main_sweep_Ok_refers img i s a Hs H Hr).
Qed.

Lemma main_sweep_sound_witness :
  main_sweep (ex_img img_bad_nlink) = Ok tt /\
  refers (ex_img img_bad_nlink) 2 (Sdirect 0) 6 /\
  0 < 6 < sb_size (img_sb (ex_img img_bad_nlink)) /\
  marked_in_bmp (ex_img img_bad_nlink) (img_bitmapblks (ex_img img_bad_nlink)) 6 = Ok true.
Proof.
  assert (Hi : init_img img_bad_nlink = Ok (ex_img img_bad_nlink))
    by (vm_compute; reflexivity).
  assert (Hs : main_sweep (ex_img img_bad_nlink) = Ok tt) by (vm_compute; reflexivity).
  assert (Hr : refers (ex_img img_bad_nlink) 2 (Sdirect 0) 6).
  { apply (refers_direct _ 2 0 6 T_FILE); try (vm_compute; reflexivity);
      try (vm_compute; intuition discriminate). }
  split; [exact Hs|]. split; [exact Hr|].
  destruct (proj2 (main_sweep_sound img_bad_nlink _ Hi Hs) 2 (Sdirect 0) 6 Hr) as [Hv Hm].
  split; [exact Hv|]. apply Hm. left. intros j. discriminate.
Defined.

(** ** The diagnostic of [bmp_chk] *)

Lemma chk_mark_bmp_Exit img bmp a c e :
  chk_mark_bmp img bmp a c = Exit e -> marked_in_bmp img bmp a = Ok false.
Proof.
  unfold chk_mark_bmp, marked_in_bmp.
  destruct (plain_CHK_BIT img bmp a) as [(v & ->)| ->]; cbn [bind]; [|discriminate].
  destruct (Z.eqb_spec v 0) as [->|Hv]; [reflexivity|].
  intros H. pose proof (plain_aset c a true) as [(x & Hx)|Hx]; congruence.
Qed.

(** [bmp_chk] ends the run for an address whose bit is clear. *)
Lemma bmp_chk_inodes_Exit_inv img c e :
  bmp_chk_inodes img c = Exit e ->
  exists i s a, refers img i s a /\ s <> Sindptr /\
    marked_in_bmp img (img_bitmapblks img) a = Ok false.
Proof.
  intros H. unfold bmp_chk_inodes, for_range in H.
  apply for_loop_abnormal_inv in H; [|apply abnormal_Exit].
  destruct H as (i & c1 & Hi & H). cbv zeta in H.
  destruct (plain_in_type img (inode_at img i)) as [(t & Ht)|Ht]; rewrite Ht in H;
    cbn [bind] in H; [|discriminate].
  destruct (Z.eqb_spec t 0) as [|Tn]; [discriminate|].
  assert (Hu : 0 <= i < sb_ninodes (img_sb img)) by lia.
  match type of H with bind ?m _ = _ => destruct m as [c2|e2| |] eqn:E2 end;
    cbn [bind] in H; try discriminate.
  - destruct (plain_in_addr img (inode_at img i) NDIRECT) as [(ind & Ei)|Ei];
      rewrite Ei in H; cbn [bind] in H; [|discriminate].
    destruct (Z.eqb_spec ind 0) as [|Inz]; cbn [negb] in H; [discriminate|].
    unfold for_range in H. apply for_loop_abnormal_inv in H; [|apply abnormal_Exit].
    destruct H as (j & c3 & Hj & H).
    destruct (plain_ind_slot img ind j) as [(a & Ea)|Ea]; rewrite Ea in H;
      cbn [bind] in H; [|discriminate].
    destruct (Z.eqb_spec a 0) as [|Anz]; cbn [negb] in H; [discriminate|].
    exists i, (Sindirect j), a. split; [|split; [discriminate|eapply chk_mark_bmp_Exit; eauto]].
    split; [exact Hu|]. split; [exists t; auto|]. split; [exact Anz|].
    split; [unfold NINDIRECT in *; cbn in *; lia|]. exists ind. auto.
  - unfold for_range in E2. apply for_loop_abnormal_inv in E2; [|apply abnormal_Exit].
    destruct E2 as (j & c3 & Hj & E2).
    destruct (plain_in_addr img (inode_at img i) j) as [(a & Ea)|Ea]; rewrite Ea in E2;
      cbn [bind] in E2; [|discriminate].
    destruct (Z.eqb_spec a 0) as [|Anz]; cbn [negb] in E2; [discriminate|].
    exists i, (Sdirect j), a. split; [|split; [discriminate|eapply chk_mark_bmp_Exit; eauto]].
    split; [exact Hu|]. split; [exists t; auto|]. split; [exact Anz|].
    split; [unfold NDIRECT in *; lia|exact Ea].
Qed.

Lemma result_Z_eq_dec (r r' : result Z) : {r = r'} + {r <> r'}.
Proof. repeat decide equality. Qed.

Lemma bounded_search (P : Z -> Prop) :
  (forall j, {P j} + {~ P j}) ->
  forall n lo, (exists j, lo <= j < lo + Z.of_nat n /\ P j) \/
               ~ (exists j, lo <= j < lo + Z.of_nat n /\ P j).
Proof.
  intros D. induction n as [|n IH]; intros lo.
  - right. intros (j & Hj & _). lia.
  - destruct (D lo) as [Hl|Hl]; [left; exists lo; split; [lia|exact Hl]|].
    destruct (IH (lo + 1)) as [(j & Hj & Pj)|N].
    + left. exists j. split; [lia|exact Pj].
    + right. intros (j & Hj & Pj). destruct (Z.eq_dec j lo) as [->|Hne]; [contradiction|].
      apply N. exists j. split; [lia|exact Pj].
Qed.

Lemma indptr_aliased_dec img i : indptr_aliased img i \/ ~ indptr_aliased img i.
Proof.
  unfold indptr_aliased.
  destruct (in_addr img (inode_at img i) NDIRECT) as [ind| | |] eqn:Ei;
    try (right; intros (x & j & Hx & _); discriminate).
  destruct (Z.eq_dec ind 0) as [->|Inz].
  { right. intros (x & j & Hx & Hnz & _). apply Ok_inj in Hx. congruence. }
  destruct (bounded_search (fun j => in_addr img (inode_at img i) j = Ok ind)
              (fun j => result_Z_eq_dec _ _) (Z.to_nat NDIRECT) 0) as [(j & Hj & Pj)|N].
  - left. exists ind, j. repeat split; try assumption; unfold NDIRECT in *; lia.
  - right. intros (x & j & Hx & _ & Hj & Pj). apply Ok_inj in Hx. subst x.
    apply N. exists j. split; [unfold NDIRECT in *; lia|exact Pj].
Qed.

(** X9: the line "bitmap marks block in use but it is not in use" is
    printed by [bmp_chk] for an address that an inode in use holds and whose
    bit is clear, which is what the inode loop reports as "address used by
    inode but marked free in bitmap".  Since the inode loop runs first, the
    line of [bmp_chk] comes out in one situation only: the address is inside
    an indirect block whose own address is also in a direct slot of the same
    inode, the case in which [chk_bmp_addr] leaves the indirect block
    unread.  A bit that is set for a block that is not in use is never
    reported. *)
Theorem bmp_chk_reports_aliased : forall (fuel : nat) (m : list byte) (img : img_t),
  init_img m = Ok img ->
  main fuel m = Exit BitmapMarksUnused ->
  main_sweep img = Ok tt /\
  exists i j a, refers img i (Sindirect j) a /\ indptr_aliased img i /\
    marked_in_bmp img (img_bitmapblks img) a = Ok false.
Proof.
  intros fuel m img Hi H.
  assert (Hs : 0 <= sb_size (img_sb img)).
  { unfold init_img in Hi. cbv zeta in Hi.
    apply bind_Ok_inv in Hi as (size & E1 & Hi). apply bind_Ok_inv in Hi as (nb & E2 & Hi).
    apply bind_Ok_inv in Hi as (ni & E3 & Hi). apply Ok_inj in Hi. subst img. cbn.
    apply ld32_range in E1. lia. }
  destruct (main_exit_cases fuel m img _ Hi H)
    as [[Hc _]|[(_ & Hsw & Hb)|[((k & Hk) & _)|[Hc _]]]].
  - exfalso. unfold sweep_error in Hc. intuition discriminate.
  - split; [exact Hsw|]. unfold bmp_chk in Hb.
    destruct (bmp_chk_inodes img (zeros false (sb_size (img_sb img)))) as [c|e| |] eqn:E;
      cbn [bind] in Hb; try discriminate.
    + pose proof (only_bmp_chk_unused img c) as O. rewrite Hb in O. destruct O.
    + apply bmp_chk_inodes_Exit_inv in E as (i & s & a & Hr & Hns & Hm).
      destruct (main_sweep_Ok_refers img i s a Hs Hsw Hr) as [_ Hmk].
      destruct s as [j| |j].
      * rewrite Hmk in Hm; [discriminate|]. left. intros j'. discriminate.
      * contradiction.
      * exists i, j, a. split; [exact Hr|]. split; [|exact Hm].
        destruct (indptr_aliased_dec img i) as [Ha|Hna]; [exact Ha|].
        rewrite Hmk in Hm; [discriminate|]. right. exact Hna.
  - discriminate Hk.
  - exfalso. unfold dir_error in Hc. intuition discriminate.
Qed.

Lemma bmp_chk_reports_aliased_witness :
  main 2 img_aliased = Exit BitmapMarksUnused /\
  main_sweep (ex_img img_aliased) = Ok tt /\
  exists i j a, refers (ex_img img_aliased) i (Sindirect j) a /\
    indptr_aliased (ex_img img_aliased) i /\
    marked_in_bmp (ex_img img_aliased) (img_bitmapblks (ex_img img_aliased)) a = Ok false.
Proof.
  assert (Hi : init_img img_aliased = Ok (ex_img img_aliased)) by (vm_compute; reflexivity).
  assert (Hm : main 2 img_aliased = Exit BitmapMarksUnused) by (vm_compute; reflexivity).
  split; [exact Hm|]. exact (bmp_chk_reports_aliased 2 img_aliased _ Hi Hm).
Defined.

(** ** What the later checks have established when they pass *)

(** The inode loop has read every slot that [addrs_chk] reads. *)
Lemma main_sweep_Ok_mapped img : main_sweep img = Ok tt -> addrs_mapped img.
Proof.
  intros H i Hi. pose proof (main_sweep_Ok_inode img i H Hi) as Hin.
  destruct (plain_in_type img (inode_at img i)) as [(t & Ht)|Ht].
  2:{ unfold main_inode in Hin. cbv zeta in Hin. rewrite Ht in Hin. discriminate. }
  exists t. split; [exact Ht|]. intros Tn.
  destruct (main_inode_Ok_inv img i t Hin Ht Tn) as (_ & Hd & Hind & _).
  destruct (check_indirect_Ok_inv img _ Hind) as (ind & Ei & _).
  split.
  - intros j Hj. destruct (Z.eq_dec j NDIRECT) as [->|Hne]; [eauto|].
    destruct (check_direct_Ok_inv img _ Hd j ltac:(lia)) as (v & Ev & _). eauto.
  - intros ind' Ei' Inz j Hj.
    destruct (check_indirect_Ok_contents img _ ind' Hind Ei' Inz) as [_ Hall].
    destruct (Hall j Hj) as (v & Ev & _). eauto.
Qed.

Lemma init_img_sb_range m img :
  init_img m = Ok img ->
  0 <= sb_size (img_sb img) < 4294967296 /\
  0 <= sb_nblocks (img_sb img) < 4294967296 /\
  0 <= sb_ninodes (img_sb img) < 4294967296.
Proof.
  intros Hi. unfold init_img in Hi. cbv zeta in Hi.
  apply bind_Ok_inv in Hi as (size & E1 & Hi). apply bind_Ok_inv in Hi as (nb & E2 & Hi).
  apply bind_Ok_inv in Hi as (ni & E3 & Hi). apply Ok_inj in Hi. subst img. cbn.
  apply ld32_range in E1, E2, E3. lia.
Qed.

(** X11: when [dir_chk] returns, the traversal has returned a table [im]
    with one cell per inode, and every inode [n] from 2 on agrees with its
    cell: an inode in use has a count other than 0, a free inode has no
    positive count, the link count of a file is its count, and the count of
    a directory is not above 1.  Nothing is established for inodes 0 and 1,
    and nothing about the link count of a directory or a device. *)
Theorem dir_chk_accepts : forall (fuel : nat) (img : img_t),
  dir_chk fuel img = Ok tt ->
  exists im,
    bind (dir_chk_seed img) (traverse_dirs fuel img (inode_at img 1)) = Ok im /\
    Z.of_nat (length im) = sb_ninodes (img_sb img) /\
    forall n, 2 <= n < sb_ninodes (img_sb img) ->
      exists t c,
        in_type img (inode_at img n) = Ok t /\ aget im n = Ok c /\
        (t <> 0 -> c <> 0) /\
        (t = 0 -> c <= 0) /\
        (t = T_FILE -> in_nlink img (inode_at img n) = Ok c) /\
        (t = T_DIR -> c <= 1).
Proof.
  intros fuel img H. unfold dir_chk in H.
  apply bind_Ok_tt_inv in H as (im0 & E0 & H). apply bind_Ok_tt_inv in H as (im & E1 & H).
  exists im. split; [rewrite E0; exact E1|].
  assert (L : Z.of_nat (length im) = sb_ninodes (img_sb img)).
  { apply traverse_dirs_length in E1. rewrite E1.
    destruct (Z_lt_dec (sb_ninodes (img_sb img)) 2) as [Hlt|Hge].
    - rewrite dir_chk_seed_small in E0 by exact Hlt. discriminate.
    - unfold dir_chk_seed in E0. apply bind_Ok_inv in E0 as (x & Ex & E0).
      apply incr_length in Ex, E0. rewrite E0, Ex. apply zeros_length. lia. }
  split; [exact L|]. intros n Hn. unfold dir_chk_sweep, for_range in H.
  destruct (for_loop_unit_inv _ _ _ _ H) as [[_ Hall]|(k & _ & _ & _ & Hab)];
    [|destruct (Hab tt); reflexivity].
  specialize (Hall n ltac:(lia)). unfold dir_chk_inode in Hall. cbv zeta in Hall.
  apply bind_Ok_tt_inv in Hall as ([] & H1 & Hall).
  apply bind_Ok_tt_inv in Hall as ([] & H2 & Hall).
  apply bind_Ok_tt_inv in Hall as ([] & H3 & H4).
  unfold chk_in_use in H1. unfold chk_in_free in H2. unfold chk_ref_cnt in H3.
  unfold chk_dir_once in H4.
  destruct (plain_in_type img (inode_at img n)) as [(t & Ht)|Ht];
    rewrite Ht in H1; [|discriminate].
  rewrite Ht in H2, H3, H4. cbn [bind] in H1, H3, H4.
  destruct (aget_in im n ltac:(lia)) as (c & Ec). rewrite Ec in H1, H2, H3, H4.
  cbn [bind] in H1, H2, H3, H4. exists t, c. split; [exact Ht|]. split; [exact Ec|].
  split; [|split; [|split]].
  - intros Tn ->. destruct (Z.eqb_spec t 0); [contradiction|]. cbn in H1. discriminate.
  - intros ->. destruct (Z.ltb_spec 0 c); [|lia]. cbn in H2. discriminate.
  - intros ->. cbn in H3.
    destruct (plain_in_nlink img (inode_at img n)) as [(nl & Hnl)|Hnl];
      rewrite Hnl in H3; [|discriminate]. cbn [bind] in H3.
    destruct (Z.eqb_spec nl c) as [Q|Q]; [congruence|discriminate].
  - intros ->. cbn in H4. destruct (Z.ltb_spec 1 c); [discriminate|lia].
Qed.

Lemma dir_chk_accepts_witness :
  exists im,
    bind (dir_chk_seed (ex_img img_shared_indirect))
         (traverse_dirs 2 (ex_img img_shared_indirect)
            (inode_at (ex_img img_shared_indirect) 1)) = Ok im /\
    Z.of_nat (length im) = 8 /\
    exists t c, in_type (ex_img img_shared_indirect)
                  (inode_at (ex_img img_shared_indirect) 2) = Ok t /\
                aget im 2 = Ok c /\ (t <> 0 -> c <> 0).
Proof.
  assert (H : dir_chk 2 (ex_img img_shared_indirect) = Ok tt) by (vm_compute; reflexivity).
  destruct (dir_chk_accepts 2 _ H) as (im & E & L & Hall).
  exists im. split; [exact E|]. split; [exact L|].
  destruct (Hall 2 ltac:(cbn; lia)) as (t & c & Ht & Hc & H1 & _).
  exists t, c. split; [exact Ht|]. split; [exact Hc|exact H1].
Defined.

(** ** Accesses inside the image and the arrays *)

Lemma safe_Ok {A} (a : A) : safe (Ok a).
Proof. discriminate. Qed.

Lemma safe_Exit {A} e : safe (@Exit A e).
Proof. discriminate. Qed.

Lemma safe_bind {A B} (m : result A) (k : A -> result B) :
  safe m -> (forall a, m = Ok a -> safe (k a)) -> safe (bind m k).
Proof.
  unfold safe. destruct m; cbn; intros Hm Hk; try discriminate; auto.
Qed.

Lemma safe_for_loop {St} (I : St -> Prop) (body : Z -> St -> result St) : forall n i s,
  I s ->
  (forall k t, i <= k < i + Z.of_nat n -> I t ->
     safe (body k t) /\ forall t', body k t = Ok t' -> I t') ->
  safe (for_loop n i body s).
Proof.
  induction n as [|n IH]; intros i s Hs H; [apply safe_Ok|]. cbn [for_loop].
  destruct (H i s ltac:(lia) Hs) as [H1 H2]. apply safe_bind; [exact H1|].
  intros s1 E. apply IH; [exact (H2 s1 E)|]. intros k t Hk. apply H. lia.
Qed.

Lemma safe_for_break {St} (body : Z -> St -> result (bool * St)) : forall n i s,
  (forall k t, i <= k < i + Z.of_nat n -> safe (body k t)) ->
  safe (for_break n i body s).
Proof.
  induction n as [|n IH]; intros i s H; [apply safe_Ok|]. cbn [for_break].
  apply safe_bind; [apply H; lia|]. intros r _. destruct (fst r); [apply safe_Ok|].
  apply IH. intros k t Hk. apply H. lia.
Qed.

Lemma strcmp_eq_in m : forall lit off,
  0 <= off -> off + Z.of_nat (length lit) < Z.of_nat (length m) ->
  exists b, strcmp_eq m off lit = Ok b.
Proof.
  induction lit as [|x r IH]; intros off H0 H1; cbn [strcmp_eq].
  - destruct (ld8_in m off ltac:(lia)) as (c & ->). cbn [bind]. eauto.
  - cbn [length] in H1. destruct (ld8_in m off ltac:(lia)) as (c & ->). cbn [bind].
    destruct (c =? x); [|eauto]. apply IH; lia.
Qed.

Lemma ld32s_in m : forall n off,
  0 <= off -> off + UINT_SZ * Z.of_nat n <= Z.of_nat (length m) ->
  exists l, ld32s m off n = Ok l /\ Z.of_nat (length l) = Z.of_nat n.
Proof.
  induction n as [|n IH]; intros off H0 H1; cbn [ld32s].
  - exists []. split; reflexivity.
  - assert (U : UINT_SZ = 4) by reflexivity.
    destruct (ld32_in m off ltac:(lia) ltac:(lia)) as (v & ->). cbn [bind].
    destruct (IH (off + UINT_SZ)) as (l & -> & Hl); [lia|lia|]. cbn [bind].
    exists (v :: l). split; [reflexivity|]. cbn [length]. lia.
Qed.

Section WellSized.

Variable img : img_t.
Let L := Z.of_nat (length (img_map img)).

(** The image holds the [size] blocks its superblock declares, and fewer
    than 2^32 bytes; the inode table and the bitmap lie inside it. *)
Hypothesis Hsize : 0 <= sb_size (img_sb img).
Hypothesis Hlen : sb_size (img_sb img) * BSIZE <= L.
Hypothesis H4G : L <= 4294967296.
Hypothesis Hinodes : forall i, 0 <= i < sb_ninodes (img_sb img) ->
  0 <= inode_at img i /\ inode_at img i + DINODE_SZ <= L.
Hypothesis Hbitmap : bitmap_mapped img.

Lemma blk_ptr_in a :
  0 < a < sb_size (img_sb img) ->
  blk_ptr a = a * BSIZE /\ 0 <= a * BSIZE /\ a * BSIZE + BSIZE <= L.
Proof.
  intros Ha. unfold blk_ptr, BLK_SZ, BSIZE in *. rewrite u32_small by nia. nia.
Qed.

Lemma in_type_in i :
  0 <= i < sb_ninodes (img_sb img) -> exists t, in_type img (inode_at img i) = Ok t.
Proof.
  intros Hi. destruct (Hinodes i Hi) as [H0 H1]. unfold in_type, DINODE_SZ in *.
  destruct (ld16_in (img_map img) (inode_at img i) H0 ltac:(fold L; lia)) as (v & ->).
  cbn [bind]. eauto.
Qed.

Lemma in_addr_in i j :
  0 <= i < sb_ninodes (img_sb img) -> 0 <= j <= NDIRECT ->
  exists a, in_addr img (inode_at img i) j = Ok a.
Proof.
  intros Hi Hj. destruct (Hinodes i Hi) as [H0 H1].
  unfold in_addr, DINODE_SZ, UINT_SZ, NDIRECT in *.
  apply ld32_in; [lia|fold L; lia].
Qed.

Lemma ind_slot_in a j :
  0 < a < sb_size (img_sb img) -> 0 <= j < NINDIRECT ->
  exists v, ind_slot img a j = Ok v.
Proof.
  intros Ha Hj. destruct (blk_ptr_in a Ha) as (E & H0 & H1). unfold ind_slot.
  rewrite E. unfold UINT_SZ, NINDIRECT, BSIZE in *. cbn in Hj.
  apply ld32_in; [lia|fold L; lia].
Qed.

Lemma safe_validate_type i :
  0 <= i < sb_ninodes (img_sb img) -> safe (validate_type img (inode_at img i)).
Proof.
  intros Hi. unfold validate_type. destruct (in_type_in i Hi) as (t & ->). cbn [bind].
  destruct (_ || _); [apply safe_Ok|apply safe_Exit].
Qed.

Lemma safe_check_direct i :
  0 <= i < sb_ninodes (img_sb img) -> safe (check_direct img (inode_at img i)).
Proof.
  intros Hi. unfold check_direct, for_range.
  apply (safe_for_loop (fun _ => True)); [exact I|]. intros k t Hk _. split; [|auto].
  destruct (in_addr_in i k Hi) as (a & ->); [unfold NDIRECT in *; lia|]. cbn [bind].
  destruct (a =? 0); [apply safe_Ok|]. destruct (negb _); [apply safe_Exit|apply safe_Ok].
Qed.

Lemma safe_check_indirect i :
  0 <= i < sb_ninodes (img_sb img) -> safe (check_indirect img (inode_at img i)).
Proof.
  intros Hi. unfold check_indirect.
  destruct (in_addr_in i NDIRECT Hi) as (a & ->); [unfold NDIRECT; lia|]. cbn [bind].
  destruct (a =? 0); [apply safe_Ok|].
  destruct (valid_addr img a) eqn:Hv; cbn [negb]; [|apply safe_Exit].
  apply valid_addr_iff in Hv. destruct (blk_ptr_in a Hv) as (E & H0 & H1).
  destruct (ld32s_in (img_map img) (Z.to_nat NINDIRECT) (blk_ptr a)) as (l & -> & Hl).
  { lia. }
  { rewrite E. change (UINT_SZ * Z.of_nat (Z.to_nat NINDIRECT)) with BSIZE. exact H1. }
  cbn [bind]. unfold for_range.
  apply (safe_for_loop (fun _ => True)); [exact I|]. intros k t Hk _. split; [|auto].
  destruct (aget_in l k) as (v & ->); [lia|]. cbn [bind].
  destruct (v =? 0); [apply safe_Ok|]. destruct (negb _); [apply safe_Exit|apply safe_Ok].
Qed.

Lemma safe_process_entries a inum fl :
  0 < a < sb_size (img_sb img) -> safe (process_entries img a inum fl).
Proof.
  intros Ha. destruct (blk_ptr_in a Ha) as (E & H0 & H1).
  unfold process_entries, for_range.
  apply (safe_for_loop (fun _ => True)); [exact I|]. intros k t Hk _. split; [|auto].
  cbv zeta. change (Z.of_nat (Z.to_nat (DPB - 0))) with 32 in Hk.
  assert (D0 : 0 <= dirent_at a k /\ dirent_at a k + 16 <= L).
  { unfold dirent_at, DIRENT_SZ. rewrite E. unfold BSIZE in *. lia. }
  assert (Hd : exists n, de_inum img (dirent_at a k) = Ok n).
  { unfold de_inum. apply ld16_in; [lia|fold L; lia]. }
  destruct (strcmp_eq_in (img_map img) dot (de_name (dirent_at a k))) as (d & ->);
    [unfold de_name; lia|unfold de_name; cbn; fold L; lia|]. cbn [bind].
  destruct Hd as (n & Hn). destruct d.
  - rewrite Hn. cbn [bind]. destruct (negb _); [apply safe_Exit|apply safe_Ok].
  - destruct (strcmp_eq_in (img_map img) dotdot (de_name (dirent_at a k))) as (dd & ->);
      [unfold de_name; lia|unfold de_name; cbn; fold L; lia|]. cbn [bind].
    destruct dd; [|apply safe_Ok]. rewrite Hn. cbn [bind].
    destruct (_ || _); [apply safe_Exit|apply safe_Ok].
Qed.

Lemma safe_validate_dir i inum :
  0 <= i < sb_ninodes (img_sb img) ->
  check_direct img (inode_at img i) = Ok tt ->
  safe (validate_dir img (inode_at img i) inum).
Proof.
  intros Hi Hd. unfold validate_dir. apply safe_bind.
  - apply safe_for_break. intros k t Hk.
    change (Z.of_nat (Z.to_nat NDIRECT)) with NDIRECT in Hk.
    destruct (check_direct_Ok_inv img _ Hd k ltac:(lia)) as (a & -> & Ha). cbn [bind].
    destruct (Z.eqb_spec a 0); [apply safe_Ok|].
    apply safe_bind; [|intros; apply safe_Ok].
    apply safe_process_entries. destruct Ha; [contradiction|assumption].
  - intros fl _. destruct (_ || _); [apply safe_Exit|apply safe_Ok].
Qed.

Lemma safe_marked_in_bmp a :
  0 <= a < sb_size (img_sb img) ->
  exists b, marked_in_bmp img (img_bitmapblks img) a = Ok b.
Proof.
  intros Ha. destruct (Hbitmap a Ha) as (b & Hb).
  rewrite (marked_in_bmp_testbit img _ a b Hb). eauto.
Qed.

Lemma safe_chk_one a chkd :
  a = 0 \/ 0 < a < sb_size (img_sb img) ->
  Z.of_nat (length chkd) = sb_size (img_sb img) ->
  safe (chk_one img a chkd) /\
  forall c', chk_one img a chkd = Ok (Some c') ->
    Z.of_nat (length c') = sb_size (img_sb img).
Proof.
  intros Ha Hl. destruct (Z.eq_dec a 0) as [->|Hnz].
  { cbn. split; [discriminate|discriminate]. }
  destruct Ha as [?|Ha]; [contradiction|].
  destruct (chk_one_cases img a chkd Hnz) as [E|[[_ E]|[(_ & _ & E)|(_ & _ & _ & E)]]].
  - exfalso. unfold chk_one in E. destruct (Z.eqb_spec a 0); [contradiction|].
    destruct (aget_in chkd a ltac:(lia)) as (x & Hx). rewrite Hx in E. cbn [bind] in E.
    destruct x; [discriminate|].
    destruct (safe_marked_in_bmp a ltac:(lia)) as (b & Hb). rewrite Hb in E.
    cbn [bind] in E. destruct b; cbn [negb] in E; [|discriminate].
    rewrite aset_in in E by lia. discriminate.
  - rewrite E. split; [discriminate|discriminate].
  - rewrite E. split; [discriminate|discriminate].
  - rewrite E. split; [discriminate|]. intros c' Q. apply Ok_inj in Q.
    injection Q as <-. rewrite zupd_length. exact Hl.
Qed.

Lemma safe_chk_indirect ind chkd :
  0 < ind < sb_size (img_sb img) ->
  (forall j, 0 <= j < NINDIRECT ->
     exists v, ind_slot img ind j = Ok v /\ (v = 0 \/ 0 < v < sb_size (img_sb img))) ->
  Z.of_nat (length chkd) = sb_size (img_sb img) ->
  safe (chk_indirect img (blk_ptr ind) chkd) /\
  forall c', chk_indirect img (blk_ptr ind) chkd = Ok c' ->
    Z.of_nat (length c') = sb_size (img_sb img).
Proof.
  intros Hi Hc Hl.
  assert (Hstep : forall k t, 0 <= k < 0 + Z.of_nat (Z.to_nat (NINDIRECT - 0)) ->
            Z.of_nat (length t) = sb_size (img_sb img) ->
            safe (addr <- ld32 (img_map img) (blk_ptr ind + UINT_SZ * k) ;;
                  r <- chk_one img addr t ;;
                  match r with None => Ok t | Some chkd' => Ok chkd' end) /\
            forall t', (addr <- ld32 (img_map img) (blk_ptr ind + UINT_SZ * k) ;;
                        r <- chk_one img addr t ;;
                        match r with None => Ok t | Some chkd' => Ok chkd' end) = Ok t' ->
                       Z.of_nat (length t') = sb_size (img_sb img)).
  { intros k t Hk Ht. destruct (Hc k) as (v & Ev & Hv); [unfold NINDIRECT in *; cbn in *; lia|].
    unfold ind_slot in Ev. rewrite Ev. cbn [bind].
    destruct (safe_chk_one v t Hv Ht) as [S1 S2]. split.
    - apply safe_bind; [exact S1|]. intros r _. destruct r; apply safe_Ok.
    - intros t' Q. apply bind_Ok_inv in Q as (r & Er & Q). destruct r as [c|].
      + apply Ok_inj in Q. subst t'. apply S2. exact Er.
      + apply Ok_inj in Q. subst t'. exact Ht. }
  unfold chk_indirect, for_range. split.
  - apply (safe_for_loop (fun t => Z.of_nat (length t) = sb_size (img_sb img)));
      [exact Hl|exact Hstep].
  - intros c'. apply (for_loop_inv (fun t => Z.of_nat (length t) = sb_size (img_sb img)));
      [exact Hl|]. intros k t t' Hk Ht Q. exact (proj2 (Hstep k t Hk Ht) t' Q).
Qed.

Lemma safe_chk_bmp_addr i :
  0 <= i < sb_ninodes (img_sb img) ->
  check_direct img (inode_at img i) = Ok tt ->
  check_indirect img (inode_at img i) = Ok tt ->
  safe (chk_bmp_addr img (inode_at img i)).
Proof.
  intros Hi Hd Hind. unfold chk_bmp_addr. cbv zeta.
  apply safe_bind; [|intros; apply safe_Ok]. unfold for_range.
  apply (safe_for_loop (fun t => Z.of_nat (length t) = sb_size (img_sb img)));
    [apply zeros_length; exact Hsize|].
  intros k t Hk Ht. change (Z.of_nat (Z.to_nat (NDIRECT + 1 - 0))) with (NDIRECT + 1) in Hk.
  assert (Ha : exists a, in_addr img (inode_at img i) k = Ok a /\
                         (a = 0 \/ 0 < a < sb_size (img_sb img))).
  { destruct (Z.eq_dec k NDIRECT) as [->|Hne].
    - exact (check_indirect_Ok_inv img _ Hind).
    - apply (check_direct_Ok_inv img _ Hd). lia. }
  destruct Ha as (a & Ea & Ha). rewrite Ea. cbn [bind].
  destruct (safe_chk_one a t Ha Ht) as [S1 S2].
  assert (Hn : forall c, chk_one img a t = Ok (Some c) -> 0 < a < sb_size (img_sb img)).
  { intros c Q. destruct Ha as [->|Ha]; [discriminate|exact Ha]. }
  split.
  - apply safe_bind; [exact S1|]. intros r Er. destruct r as [c|]; [|apply safe_Ok].
    destruct (Z.eqb_spec k NDIRECT) as [->|_]; [|apply safe_Ok].
    apply safe_chk_indirect; [exact (Hn c Er)| |exact (S2 c Er)].
    apply (check_indirect_Ok_contents img _ a Hind Ea). pose proof (Hn c Er). lia.
  - intros t' Q. apply bind_Ok_inv in Q as (r & Er & Q). destruct r as [c|].
    + destruct (Z.eqb_spec k NDIRECT) as [->|_].
      * revert Q. apply safe_chk_indirect; [exact (Hn c Er)| |exact (S2 c Er)].
        apply (check_indirect_Ok_contents img _ a Hind Ea). pose proof (Hn c Er). lia.
      * apply Ok_inj in Q. subst t'. exact (S2 c Er).
    + apply Ok_inj in Q. subst t'. exact Ht.
Qed.

Lemma safe_main_inode i :
  0 <= i < sb_ninodes (img_sb img) -> safe (main_inode img i).
Proof.
  intros Hi. unfold main_inode. cbv zeta. destruct (in_type_in i Hi) as (t & Ht).
  rewrite Ht. cbn [bind]. destruct (t =? 0); [apply safe_Ok|].
  apply safe_bind; [apply safe_validate_type; exact Hi|]. intros [] _.
  apply safe_bind; [apply safe_check_direct; exact Hi|]. intros [] Hd.
  apply safe_bind; [apply safe_check_indirect; exact Hi|]. intros [] Hc.
  apply safe_bind; [|intros [] _; apply safe_chk_bmp_addr; assumption].
  destruct (i =? 1).
  - destruct (negb _); [apply safe_Exit|]. apply safe_validate_dir; assumption.
  - destruct (_ =? T_DIR); [|apply safe_Ok]. apply safe_validate_dir; assumption.
Qed.

Lemma safe_main_sweep : safe (main_sweep img).
Proof.
  unfold main_sweep, for_range. apply (safe_for_loop (fun _ => True)); [exact I|].
  intros k t Hk _. split; [|auto]. apply safe_main_inode. lia.
Qed.

End WellSized.

Section BmpChkSafe.

Variable img : img_t.
Hypothesis Hsize : 0 <= sb_size (img_sb img).
Hypothesis Hbitmap : bitmap_mapped img.
Hypothesis Hsweep : main_sweep img = Ok tt.

Lemma safe_chk_mark_bmp i s a c :
  refers img i s a -> Z.of_nat (length c) = sb_size (img_sb img) ->
  safe (chk_mark_bmp img (img_bitmapblks img) a c) /\
  forall c', chk_mark_bmp img (img_bitmapblks img) a c = Ok c' ->
    Z.of_nat (length c') = sb_size (img_sb img).
Proof.
  intros Hr Hl. destruct (main_sweep_Ok_refers img i s a Hsize Hsweep Hr) as [Ha _].
  split.
  - unfold chk_mark_bmp. destruct (CHK_BIT_mapped img a Hbitmap ltac:(lia)) as (v & ->).
    cbn [bind]. destruct (v =? 0); [apply safe_Exit|]. rewrite aset_in by lia.
    apply safe_Ok.
  - intros c' Q. apply chk_mark_bmp_Ok in Q as [_ ->]. rewrite zupd_length. exact Hl.
Qed.

Lemma safe_bmp_chk_inodes c :
  Z.of_nat (length c) = sb_size (img_sb img) ->
  safe (bmp_chk_inodes img c) /\
  forall c', bmp_chk_inodes img c = Ok c' -> Z.of_nat (length c') = sb_size (img_sb img).
Proof.
  intros Hl. pose proof (main_sweep_Ok_mapped img Hsweep) as Hmap.
  assert (Hstep : forall k t, 0 <= k < 0 + Z.of_nat (Z.to_nat (sb_ninodes (img_sb img) - 0)) ->
            Z.of_nat (length t) = sb_size (img_sb img) ->
            forall r, r = (let ip := inode_at img k in
                           t0 <- in_type img ip ;;
                           if t0 =? 0 then Ok t
                           else
                             chklist <- for_range 0 NDIRECT (fun j chklist =>
                                 a <- in_addr img ip j ;;
                                 if negb (a =? 0)
                                 then chk_mark_bmp img (img_bitmapblks img) a chklist
                                 else Ok chklist) t ;;
                             indaddr <- in_addr img ip NDIRECT ;;
                             if negb (indaddr =? 0) then
                               for_range 0 NINDIRECT (fun j chklist =>
                                 a <- ind_slot img indaddr j ;;
                                 if negb (a =? 0)
                                 then chk_mark_bmp img (img_bitmapblks img) a chklist
                                 else Ok chklist) chklist
                             else Ok chklist) ->
            safe r /\ forall t', r = Ok t' -> Z.of_nat (length t') = sb_size (img_sb img)).
  { intros k t Hk Ht r ->. cbv zeta. assert (Hk' : 0 <= k < sb_ninodes (img_sb img)) by lia.
    destruct (Hmap k Hk') as (t0 & E0 & Hin). rewrite E0. cbn [bind].
    destruct (Z.eqb_spec t0 0) as [|Tn].
    { split; [apply safe_Ok|]. intros t' Q. apply Ok_inj in Q. congruence. }
    destruct (Hin Tn) as [Hd Hi].
    assert (D : forall j u, 0 <= j < 0 + Z.of_nat (Z.to_nat (NDIRECT - 0)) ->
              Z.of_nat (length u) = sb_size (img_sb img) ->
              safe (a <- in_addr img (inode_at img k) j ;;
                    if negb (a =? 0)
                    then chk_mark_bmp img (img_bitmapblks img) a u else Ok u) /\
              forall u', (a <- in_addr img (inode_at img k) j ;;
                          if negb (a =? 0)
                          then chk_mark_bmp img (img_bitmapblks img) a u else Ok u) = Ok u' ->
                         Z.of_nat (length u') = sb_size (img_sb img)).
    { intros j u Hj Hu. change (Z.of_nat (Z.to_nat (NDIRECT - 0))) with NDIRECT in Hj.
      destruct (Hd j ltac:(lia)) as (a & Ea). rewrite Ea. cbn [bind].
      destruct (Z.eqb_spec a 0) as [|Anz]; cbn [negb].
      - split; [apply safe_Ok|]. intros u' Q. apply Ok_inj in Q. congruence.
      - apply (safe_chk_mark_bmp k (Sdirect j) a u); [|exact Hu].
        apply (refers_direct img k j a t0); auto; lia. }
    split.
    - apply safe_bind.
      + unfold for_range.
        apply (safe_for_loop (fun u => Z.of_nat (length u) = sb_size (img_sb img)));
          [exact Ht|exact D].
      + intros c1 E1.
        assert (L1 : Z.of_nat (length c1) = sb_size (img_sb img)).
        { revert E1. unfold for_range.
          apply (for_loop_inv (fun u => Z.of_nat (length u) = sb_size (img_sb img)));
            [exact Ht|]. intros j u u' Hj Hu Q. exact (proj2 (D j u Hj Hu) u' Q). }
        destruct (Hd NDIRECT ltac:(unfold NDIRECT; lia)) as (ind & Ei). rewrite Ei.
        cbn [bind]. destruct (Z.eqb_spec ind 0) as [|Inz]; cbn [negb]; [apply safe_Ok|].
        unfold for_range.
        apply (safe_for_loop (fun u => Z.of_nat (length u) = sb_size (img_sb img)));
          [exact L1|].
        intros j u Hj Hu. change (Z.of_nat (Z.to_nat (NINDIRECT - 0))) with NINDIRECT in Hj.
        destruct (Hi ind Ei Inz j ltac:(lia)) as (a & Ea). rewrite Ea. cbn [bind].
        destruct (Z.eqb_spec a 0) as [|Anz]; cbn [negb].
        * split; [apply safe_Ok|]. intros u' Q. apply Ok_inj in Q. congruence.
        * apply (safe_chk_mark_bmp k (Sindirect j) a u); [|exact Hu].
          split; [exact Hk'|]. split; [exists t0; auto|]. split; [exact Anz|].
          split; [lia|]. exists ind. auto.
    - intros t' Q. apply bind_Ok_inv in Q as (c1 & E1 & Q).
      assert (L1 : Z.of_nat (length c1) = sb_size (img_sb img)).
      { revert E1. unfold for_range.
        apply (for_loop_inv (fun u => Z.of_nat (length u) = sb_size (img_sb img)));
          [exact Ht|]. intros j u u' Hj Hu Q'. exact (proj2 (D j u Hj Hu) u' Q'). }
      apply bind_Ok_inv in Q as (ind & Ei & Q).
      destruct (Z.eqb_spec ind 0) as [|Inz]; cbn [negb] in Q;
        [apply Ok_inj in Q; congruence|].
      revert Q. unfold for_range.
      apply (for_loop_inv (fun u => Z.of_nat (length u) = sb_size (img_sb img)));
        [exact L1|].
      intros j u u' Hj Hu Q'.
      change (Z.of_nat (Z.to_nat (NINDIRECT - 0))) with NINDIRECT in Hj.
      apply bind_Ok_inv in Q' as (a & Ea & Q').
      destruct (Z.eqb_spec a 0) as [|Anz]; cbn [negb] in Q';
        [apply Ok_inj in Q'; congruence|].
      apply (safe_chk_mark_bmp k (Sindirect j) a u) in Q'; [exact Q'| |exact Hu].
      split; [exact Hk'|]. split; [exists t0; auto|]. split; [exact Anz|].
      split; [lia|]. exists ind. auto. }
  unfold bmp_chk_inodes, for_range. split.
  - apply (safe_for_loop (fun u => Z.of_nat (length u) = sb_size (img_sb img)));
      [exact Hl|]. intros k t Hk Ht. exact (Hstep k t Hk Ht _ eq_refl).
  - intros c'. apply (for_loop_inv (fun u => Z.of_nat (length u) = sb_size (img_sb img)));
      [exact Hl|]. intros k t t' Hk Ht Q. exact (proj2 (Hstep k t Hk Ht _ eq_refl) t' Q).
Qed.

Lemma safe_bmp_chk : safe (bmp_chk img).
Proof.
  unfold bmp_chk.
  destruct (safe_bmp_chk_inodes (zeros false (sb_size (img_sb img))))
    as [S1 S2]; [apply zeros_length; exact Hsize|].
  apply safe_bind; [exact S1|]. intros c E.
  rewrite (bmp_chk_unused_Ok img c Hbitmap (S2 c E)). apply safe_Ok.
Qed.

End BmpChkSafe.

(** The inode table and the bitmap of an image that [init_img] lays out
    with [firstblk <= size] lie in the first [size] blocks. *)
Lemma init_img_well_sized m img :
  init_img m = Ok img ->
  img_firstblk img <= sb_size (img_sb img) ->
  sb_size (img_sb img) * BSIZE <= Z.of_nat (length m) ->
  Z.of_nat (length m) <= 4294967296 ->
  (forall i, 0 <= i < sb_ninodes (img_sb img) ->
     0 <= inode_at img i /\ inode_at img i + DINODE_SZ <= Z.of_nat (length (img_map img))) /\
  bitmap_mapped img.
Proof.
  intros Hi Hfb Hlen H4G.
  destruct (init_img_fields m img Hi) as (Hs & Hb & Hn & _ & _ & _ & Eib & Ebm & _ & Em).
  destruct (init_img_counts_exact m img Hi) as (N1 & N2 & N3).
  assert (HI : IPB = 8) by reflexivity. assert (HB : BPB = 4096) by reflexivity.
  assert (HS : BSIZE = 512) by reflexivity. assert (HL : BLK_SZ = 512) by reflexivity.
  rewrite HI in N1. rewrite HB in N2. rewrite HS in Hlen. rewrite HL in Eib, Ebm.
  pose proof (Z.div_mod (sb_ninodes (img_sb img)) 8 ltac:(lia)) as D1.
  pose proof (Z.mod_pos_bound (sb_ninodes (img_sb img)) 8 ltac:(lia)) as M1.
  pose proof (Z.div_mod (sb_size (img_sb img)) 4096 ltac:(lia)) as D2.
  pose proof (Z.mod_pos_bound (sb_size (img_sb img)) 4096 ltac:(lia)) as M2.
  pose proof (Z.div_pos (sb_ninodes (img_sb img)) 8 ltac:(lia) ltac:(lia)) as P1.
  pose proof (Z.div_pos (sb_size (img_sb img)) 4096 ltac:(lia) ltac:(lia)) as P2.
  rewrite u32_small in Ebm by lia.
  split.
  - intros i Hr. rewrite Em. unfold inode_at, DINODE_SZ. rewrite Eib. lia.
  - intros a Ha. rewrite Em. apply ld8_in. rewrite Ebm, Eib.
    pose proof (Z.div_pos a 8 ltac:(lia) ltac:(lia)) as P3.
    pose proof (Z.div_le_upper_bound a 8 (sb_size (img_sb img)) ltac:(lia) ltac:(lia)).
    pose proof (Z.div_lt_upper_bound a 8 (512 * (sb_size (img_sb img) / 4096 + 1))
                  ltac:(lia) ltac:(lia)).
    lia.
Qed.

(** X12: on an image that holds the [size] blocks its superblock declares
    (and less than 4 GiB), with [firstblk <= size], the inode loop of [main]
    reads nothing outside the mapping and indexes [chkd] inside its bounds:
    the addresses that [chk_bmp_addr] and [validate_dir] follow have been
    range-checked by [check_direct] and [check_indirect] before.  When the
    inode loop has passed, the same holds of [bmp_chk] and [chklist]. *)
Theorem inode_loop_and_bmp_chk_safe : forall (m : list byte) (img : img_t),
  init_img m = Ok img ->
  img_firstblk img <= sb_size (img_sb img) ->
  sb_size (img_sb img) * BSIZE <= Z.of_nat (length m) ->
  Z.of_nat (length m) <= 4294967296 ->
  main_sweep img <> Fault /\
  (main_sweep img = Ok tt -> bmp_chk img <> Fault).
Proof.
  intros m img Hi Hfb Hlen H4G.
  destruct (init_img_well_sized m img Hi Hfb Hlen H4G) as [Hin Hbm].
  destruct (init_img_fields m img Hi) as (Hs & _ & _ & _ & _ & _ & _ & _ & _ & Em).
  split.
  - apply (safe_main_sweep img); try assumption; try lia; rewrite Em; assumption.
  - intros Hsw. apply (safe_bmp_chk img); try assumption. lia.
Qed.

Lemma inode_loop_and_bmp_chk_safe_witness :
  main_sweep (ex_img img_aliased) <> Fault /\
  (main_sweep (ex_img img_aliased) = Ok tt -> bmp_chk (ex_img img_aliased) <> Fault).
Proof.
  assert (Hi : init_img img_aliased = Ok (ex_img img_aliased)) by (vm_compute; reflexivity).
  apply (inode_loop_and_bmp_chk_safe img_aliased _ Hi).
  - cbn. lia.
  - vm_compute. discriminate.
  - vm_compute. discriminate.
Defined.

(** ** The functions that [main] does not call *)

(** *** [mark_used_blks] *)

Lemma mark_used_cases ub a fb ub' :
  mark_used ub a fb = Ok ub' ->
  (a = 0 /\ ub' = ub) \/
  (a <> 0 /\ 0 <= u32 (a - fb) < Z.of_nat (length ub) /\ ub' = zupd ub (u32 (a - fb)) 1).
Proof.
  unfold mark_used. destruct (Z.eqb_spec a 0) as [->|Ha]; cbn [negb]; intros H.
  - left. apply Ok_inj in H. auto.
  - right. split; [exact Ha|].
    destruct (aget_cases ub (u32 (a - fb))) as [(x & _ & R)|[_ N]].
    + rewrite aset_in in H by exact R. apply Ok_inj in H. auto.
    + rewrite aset_out in H by exact N. discriminate.
Qed.

Lemma mark_used_length ub a fb ub' : mark_used ub a fb = Ok ub' -> length ub' = length ub.
Proof.
  intros H. destruct (mark_used_cases _ _ _ _ H) as [[_ ->]|(_ & _ & ->)];
    [reflexivity|apply zupd_length].
Qed.

Lemma mark_used_keeps ub a fb ub' idx :
  mark_used ub a fb = Ok ub' -> aget ub idx = Ok 1 -> aget ub' idx = Ok 1.
Proof.
  intros H Hx. destruct (mark_used_cases _ _ _ _ H) as [[_ ->]|(_ & R & ->)]; [exact Hx|].
  destruct (Z.eq_dec (u32 (a - fb)) idx) as [<-|Hne].
  - apply aget_zupd_same. exact R.
  - rewrite aget_zupd_other by lia. exact Hx.
Qed.

Lemma mark_used_sets ub a fb ub' :
  a <> 0 -> mark_used ub a fb = Ok ub' -> aget ub' (u32 (a - fb)) = Ok 1.
Proof.
  intros Ha H. destruct (mark_used_cases _ _ _ _ H) as [[? _]|(_ & R & ->)];
    [contradiction|]. apply aget_zupd_same. exact R.
Qed.

(** A loop that returns leaves what one of its iterations establishes, if
    the iterations keep it. *)
Lemma for_loop_Ok_sets {St} (P : St -> Prop) (body : Z -> St -> result St) k0 :
  forall n i s s',
  (forall k t t', i <= k < i + Z.of_nat n -> body k t = Ok t' -> P t -> P t') ->
  (forall t t', body k0 t = Ok t' -> P t') ->
  i <= k0 < i + Z.of_nat n ->
  for_loop n i body s = Ok s' -> P s'.
Proof.
  induction n as [|n IH]; intros i s s' Hk Hs Hr H; [lia|].
  cbn [for_loop] in H. apply bind_Ok_inv in H as (s1 & E1 & H).
  destruct (Z.eq_dec i k0) as [->|Hne].
  - revert H. apply (for_loop_inv P); [exact (Hs s s1 E1)|].
    intros k t t' Hk' Pt Q. apply (Hk k t t'); [lia|exact Q|exact Pt].
  - apply (IH (i + 1) s1 s'); [|exact Hs|lia|exact H].
    intros k t t' Hk'. apply Hk. lia.
Qed.

Section MarkUsed.

Variable img : img_t.
Let fb := img_firstblk img.

(** The loops of [get_used], over the slots read by [rd]. *)
Lemma mark_loop_keeps (rd : Z -> result Z) idx : forall n j0 u u',
  for_loop n j0 (fun j ub => a <- rd j ;; mark_used ub a fb) u = Ok u' ->
  aget u idx = Ok 1 -> aget u' idx = Ok 1.
Proof.
  intros n j0 u u' H Hx. revert H.
  apply (for_loop_inv (fun t => aget t idx = Ok 1)); [exact Hx|].
  intros k t t' _ Pt Q. apply bind_Ok_inv in Q as (a & _ & Q).
  eapply mark_used_keeps; eauto.
Qed.

Lemma mark_loop_sets (rd : Z -> result Z) j a : forall n j0 u u',
  rd j = Ok a -> a <> 0 -> j0 <= j < j0 + Z.of_nat n ->
  for_loop n j0 (fun j ub => a <- rd j ;; mark_used ub a fb) u = Ok u' ->
  aget u' (u32 (a - fb)) = Ok 1.
Proof.
  intros n j0 u u' Hrd Ha Hj.
  apply (for_loop_Ok_sets (fun t => aget t (u32 (a - fb)) = Ok 1) _ j); [| |exact Hj].
  - intros k t t' _ Q Pt. apply bind_Ok_inv in Q as (b & _ & Q).
    eapply mark_used_keeps; eauto.
  - intros t t' Q. rewrite Hrd in Q. cbn [bind] in Q. eapply mark_used_sets; eauto.
Qed.

Lemma mark_loop_length (rd : Z -> result Z) : forall n j0 u u',
  for_loop n j0 (fun j ub => a <- rd j ;; mark_used ub a fb) u = Ok u' ->
  length u' = length u.
Proof.
  intros n j0 u u'. apply (for_loop_inv (fun t => length t = length u)); [reflexivity|].
  intros k t t' _ Pt Q. apply bind_Ok_inv in Q as (a & _ & Q).
  apply mark_used_length in Q. congruence.
Qed.

(** The cells of [t] are those of [ub], but for cells set to 1 at the
    index of an address that some inode counts. *)
Let marks (ub t : list Z) : Prop :=
  forall idx, aget t idx = aget ub idx \/
    (aget t idx = Ok 1 /\ exists i s a, cref img i s a /\ idx = u32 (a - fb)).

Lemma mark_loop_marks (rd : Z -> result Z) ub i (sl : Z -> slot) : forall n j0 u u',
  (forall j a, j0 <= j < j0 + Z.of_nat n -> rd j = Ok a -> a <> 0 -> cref img i (sl j) a) ->
  for_loop n j0 (fun j ub => a <- rd j ;; mark_used ub a fb) u = Ok u' ->
  marks ub u -> marks ub u'.
Proof.
  intros n j0 u u' Hc H M. revert H. apply (for_loop_inv (marks ub)); [exact M|].
  intros k t t' Hk Mt Q. apply bind_Ok_inv in Q as (a & Ea & Q).
  destruct (mark_used_cases _ _ _ _ Q) as [[_ ->]|(Ha & R & ->)]; [exact Mt|].
  intros idx. destruct (Z.eq_dec (u32 (a - fb)) idx) as [<-|Hne].
  - right. split; [apply aget_zupd_same; exact R|].
    exists i, (sl k), a. split; [apply Hc; assumption|reflexivity].
  - rewrite aget_zupd_other by lia. apply Mt.
Qed.

Lemma get_used_inv i t0 u u' :
  0 <= i < sb_ninodes (img_sb img) ->
  in_type img (inode_at img i) = Ok t0 -> t0 <> 0 ->
  get_used img (inode_at img i) u = Ok u' ->
  length u' = length u /\
  (forall idx, aget u idx = Ok 1 -> aget u' idx = Ok 1) /\
  (forall s a, cref img i s a -> aget u' (u32 (a - fb)) = Ok 1) /\
  (forall ub, marks ub u -> marks ub u').
Proof.
  intros Hi Ht Tn H. unfold get_used in H. fold fb in H.
  apply bind_Ok_inv in H as (u1 & E1 & H). apply bind_Ok_inv in H as (ind & Ei & H).
  unfold for_range in E1.
  assert (Cd : forall j a, 0 <= j < 0 + Z.of_nat (Z.to_nat (NDIRECT - 0)) ->
            in_addr img (inode_at img i) j = Ok a -> a <> 0 -> cref img i (Sdirect j) a).
  { intros j a Hj Ea Ha. change (Z.of_nat (Z.to_nat (NDIRECT - 0))) with NDIRECT in Hj.
    split; [|discriminate]. apply (refers_direct img i j a t0); auto; lia. }
  destruct (Z.eqb_spec ind 0) as [->|Inz]; cbn [negb] in H.
  - apply Ok_inj in H. subst u'. split; [eapply mark_loop_length; eauto|].
    split; [intros idx; eapply mark_loop_keeps; eauto|]. split.
    + intros s a [(_ & _ & Ha & Hs) Hnp]. destruct s as [j| |j]; [|contradiction|].
      * destruct Hs as [Hj Ea].
        apply (mark_loop_sets _ j a _ _ _ _ Ea Ha) in E1; [exact E1|].
        change (Z.of_nat (Z.to_nat (NDIRECT - 0))) with NDIRECT. lia.
      * destruct Hs as (_ & ind' & Ei' & Inz' & _). congruence.
    + intros ub M. exact (mark_loop_marks _ ub i Sdirect _ _ _ _ Cd E1 M).
  - unfold for_range in H.
    assert (Ci : forall j a, 0 <= j < 0 + Z.of_nat (Z.to_nat (NINDIRECT - 0)) ->
              ind_slot img ind j = Ok a -> a <> 0 -> cref img i (Sindirect j) a).
    { intros j a Hj Ea Ha. change (Z.of_nat (Z.to_nat (NINDIRECT - 0))) with NINDIRECT in Hj.
      split; [|discriminate]. split; [exact Hi|]. split; [exists t0; auto|].
      split; [exact Ha|]. split; [lia|]. exists ind. auto. }
    split; [apply mark_loop_length in E1, H; congruence|].
    split; [intros idx Hx; eapply mark_loop_keeps; [exact H|];
            eapply mark_loop_keeps; eauto|]. split.
    + intros s a [(_ & _ & Ha & Hs) Hnp]. destruct s as [j| |j]; [|contradiction|].
      * destruct Hs as [Hj Ea]. eapply mark_loop_keeps; [exact H|].
        apply (mark_loop_sets _ j a _ _ _ _ Ea Ha) in E1; [exact E1|].
        change (Z.of_nat (Z.to_nat (NDIRECT - 0))) with NDIRECT. lia.
      * destruct Hs as (Hj & ind' & Ei' & Inz' & Ea).
        assert (ind' = ind) by congruence. subst ind'.
        apply (mark_loop_sets _ j a _ _ _ _ Ea Ha) in H; [exact H|].
        change (Z.of_nat (Z.to_nat (NINDIRECT - 0))) with NINDIRECT. lia.
    + intros ub M. apply (mark_loop_marks _ ub i Sindirect _ _ _ _ Ci H).
      exact (mark_loop_marks _ ub i Sdirect _ _ _ _ Cd E1 M).
Qed.

Lemma mark_used_blks_inv ub ub' :
  mark_used_blks img ub = Ok ub' ->
  length ub' = length ub /\
  (forall i s a, cref img i s a -> aget ub' (u32 (a - fb)) = Ok 1) /\
  marks ub ub'.
Proof.
  intros H. unfold mark_used_blks, for_range in H.
  assert (Hb : forall k t t',
            0 <= k < 0 + Z.of_nat (Z.to_nat (sb_ninodes (img_sb img) - 0)) ->
            (let ip := inode_at img k in
             t0 <- in_type img ip ;;
             if negb (t0 =? 0) then get_used img ip t else Ok t) = Ok t' ->
            length t' = length t /\
            (forall idx, aget t idx = Ok 1 -> aget t' idx = Ok 1) /\
            (forall s a, cref img k s a -> aget t' (u32 (a - fb)) = Ok 1) /\
            (forall ub0, marks ub0 t -> marks ub0 t')).
  { intros k t t' Hk Q. cbv zeta in Q. apply bind_Ok_inv in Q as (t0 & Et & Q).
    destruct (Z.eqb_spec t0 0) as [->|Tn]; cbn [negb] in Q.
    - apply Ok_inj in Q. subst t'. split; [reflexivity|]. split; [auto|].
      split; [|auto]. intros s a [(_ & (t1 & Et1 & Tn1) & _) _]. congruence.
    - apply (get_used_inv k t0 t t'); try assumption. lia. }
  split; [|split].
  - revert H. apply (for_loop_inv (fun t => length t = length ub)); [reflexivity|].
    intros k t t' Hk Pt Q. destruct (Hb k t t' Hk Q) as (L & _). congruence.
  - intros i s a Hc. revert H.
    apply (for_loop_Ok_sets (fun t => aget t (u32 (a - fb)) = Ok 1) _ i).
    + intros k t t' Hk Q Pt. destruct (Hb k t t' Hk Q) as (_ & K & _). apply K. exact Pt.
    + intros t t' Q. destruct Hc as [Hr Hnp]. pose proof Hr as (Hi & _).
      destruct (Hb i t t' ltac:(lia) Q) as (_ & _ & S & _). apply (S s a). split; assumption.
    + destruct Hc as [(Hi & _) _]. lia.
  - revert H. apply (for_loop_inv (marks ub)); [intros idx; left; reflexivity|].
    intros k t t' Hk Pt Q. destruct (Hb k t t' Hk Q) as (_ & _ & _ & M). apply M. exact Pt.
Qed.

End MarkUsed.

Lemma for_loop_total {St} (I : St -> Prop) (body : Z -> St -> result St) : forall n i s,
  I s ->
  (forall k t, i <= k < i + Z.of_nat n -> I t -> exists t', body k t = Ok t' /\ I t') ->
  exists s', for_loop n i body s = Ok s' /\ I s'.
Proof.
  induction n as [|n IH]; intros i s Hs H; [exists s; split; [reflexivity|exact Hs]|].
  cbn [for_loop]. destruct (H i s ltac:(lia) Hs) as (s1 & -> & H1). cbn [bind].
  apply IH; [exact H1|]. intros k t Hk. apply H. lia.
Qed.

Lemma mark_used_blks_total img ub :
  addrs_mapped img ->
  0 <= img_firstblk img ->
  (forall i s a, cref img i s a ->
     img_firstblk img <= a < img_firstblk img + Z.of_nat (length ub)) ->
  exists ub', mark_used_blks img ub = Ok ub'.
Proof.
  intros Hmap Hfb Hr.
  assert (Hm : forall i s a t, cref img i s a -> length t = length ub ->
            exists t', mark_used t a (img_firstblk img) = Ok t' /\ length t' = length ub).
  { intros i s a t Hc Ht. pose proof (Hr i s a Hc) as R.
    pose proof (refers_range img i s a (proj1 Hc)) as R'.
    unfold mark_used. destruct (Z.eqb_spec a 0); [lia|]. cbn [negb].
    rewrite u32_small by lia. rewrite aset_in by (rewrite Ht; lia).
    eexists. split; [reflexivity|]. rewrite zupd_length. exact Ht. }
  unfold mark_used_blks, for_range.
  destruct (for_loop_total (fun t => length t = length ub)
              (fun i ub0 => let ip := inode_at img i in
                            t <- in_type img ip ;;
                            if negb (t =? 0) then get_used img ip ub0 else Ok ub0)
              (Z.to_nat (sb_ninodes (img_sb img) - 0)) 0 ub eq_refl) as (ub' & E & _);
    [|exists ub'; exact E].
  intros k t Hk Ht. cbv zeta. assert (Hk' : 0 <= k < sb_ninodes (img_sb img)) by lia.
  destruct (Hmap k Hk') as (t0 & E0 & Hin). rewrite E0. cbn [bind].
  destruct (Z.eqb_spec t0 0) as [|Tn]; cbn [negb]; [exists t; split; [reflexivity|exact Ht]|].
  destruct (Hin Tn) as [Hd Hi]. unfold get_used, for_range.
  destruct (for_loop_total (fun u => length u = length ub)
              (fun i ub0 => a <- in_addr img (inode_at img k) i ;;
                            mark_used ub0 a (img_firstblk img))
              (Z.to_nat (NDIRECT - 0)) 0 t Ht) as (u1 & -> & L1).
  { intros j u Hj Hu. change (Z.of_nat (Z.to_nat (NDIRECT - 0))) with NDIRECT in Hj.
    destruct (Hd j ltac:(lia)) as (a & Ea). rewrite Ea. cbn [bind].
    destruct (Z.eq_dec a 0) as [->|Anz]; [exists u; split; [reflexivity|exact Hu]|].
    apply (Hm k (Sdirect j) a u); [|exact Hu]. split; [|discriminate].
    apply (refers_direct img k j a t0); auto; lia. }
  cbn [bind]. destruct (Hd NDIRECT ltac:(unfold NDIRECT; lia)) as (ind & Ei). rewrite Ei.
  cbn [bind]. destruct (Z.eqb_spec ind 0) as [|Inz]; cbn [negb];
    [exists u1; split; [reflexivity|exact L1]|].
  apply (for_loop_total (fun u => length u = length ub)); [exact L1|].
  intros j u Hj Hu. change (Z.of_nat (Z.to_nat (NINDIRECT - 0))) with NINDIRECT in Hj.
  destruct (Hi ind Ei Inz j ltac:(lia)) as (a & Ea). rewrite Ea. cbn [bind].
  destruct (Z.eq_dec a 0) as [->|Anz]; [exists u; split; [reflexivity|exact Hu]|].
  apply (Hm k (Sindirect j) a u); [|exact Hu]. split; [|discriminate].
  split; [exact Hk'|]. split; [exists t0; auto|]. split; [exact Anz|].
  split; [lia|]. exists ind. auto.
Qed.

(** X13: [mark_used_blks] sets to 1 the cell [addr - firstblk] of every
    non-zero address that an inode in use holds in a direct slot or inside
    its indirect block, and changes no other cell; the indirect block
    itself is not marked.  It returns whenever those addresses have a cell;
    there is no test, an address from below [firstblk] is written at an
    index that wrapped around. *)
Theorem mark_used_blks_spec : forall (img : img_t) (ub : list Z),
  (forall ub', mark_used_blks img ub = Ok ub' ->
     length ub' = length ub /\
     (forall i s a, cref img i s a -> aget ub' (u32 (a - img_firstblk img)) = Ok 1) /\
     (forall idx, aget ub' idx = aget ub idx \/
        (aget ub' idx = Ok 1 /\
         exists i s a, cref img i s a /\ idx = u32 (a - img_firstblk img)))) /\
  (addrs_mapped img ->
   0 <= img_firstblk img ->
   (forall i s a, cref img i s a ->
      img_firstblk img <= a < img_firstblk img + Z.of_nat (length ub)) ->
   exists ub', mark_used_blks img ub = Ok ub').
Proof.
  intros img ub. split.
  - intros ub' H. exact (mark_used_blks_inv img ub ub' H).
  - apply mark_used_blks_total.
Qed.

Lemma mark_used_blks_spec_witness :
  mark_used_blks (ex_img img_shared_indirect) (zeros 0 11)
    = Ok [1; 1; 0; 0; 0; 0; 0; 0; 0; 0; 0] /\
  refers (ex_img img_shared_indirect) 3 Sindptr 6 /\
  cref (ex_img img_shared_indirect) 2 (Sdirect 0) 6 /\
  aget [1; 1; 0; 0; 0; 0; 0; 0; 0; 0; 0]
       (u32 (6 - img_firstblk (ex_img img_shared_indirect))) = Ok 1.
Proof.
  assert (E : mark_used_blks (ex_img img_shared_indirect) (zeros 0 11)
              = Ok [1; 1; 0; 0; 0; 0; 0; 0; 0; 0; 0]) by (vm_compute; reflexivity).
  assert (Hc : cref (ex_img img_shared_indirect) 2 (Sdirect 0) 6).
  { split; [|discriminate].
    apply (refers_direct _ 2 0 6 T_FILE); try (vm_compute; reflexivity);
      try (vm_compute; intuition discriminate). }
  split; [exact E|]. split; [|split; [exact Hc|]].
  - split; [cbn; lia|]. split; [exists T_FILE; split; [vm_compute; reflexivity|discriminate]|].
    split; [discriminate|vm_compute; reflexivity].
  - destruct (proj1 (mark_used_blks_spec (ex_img img_shared_indirect) (zeros 0 11)) _ E)
      as (_ & H & _).
    exact (H 2 (Sdirect 0) 6 Hc).
Defined.

(** *** [fill_direct] and [fill_indirect] *)

Lemma u32_add_idem x y : u32 (u32 x + y) = u32 (x + y).
Proof. unfold u32. apply Zplus_mod_idemp_l. Qed.

Lemma u32_range z : 0 <= u32 z < 4294967296.
Proof. unfold u32. apply Z.mod_pos_bound. lia. Qed.

Lemma occurrences_step vs a lo n :
  occurrences vs a lo (S n) = (if vs lo =? a then 1 else 0) + occurrences vs a (lo + 1) n.
Proof.
  unfold occurrences. cbn [zrange filter]. destruct (vs lo =? a); cbn [length]; lia.
Qed.

Lemma uint_cells_zupd c i v :
  uint_cells c -> 0 <= v < 4294967296 -> uint_cells (zupd c i v).
Proof.
  intros Hc Hv idx x Hx.
  destruct (aget_cases c i) as [(y & _ & R)|[_ N]].
  - destruct (Z.eq_dec i idx) as [<-|Hne].
    + rewrite aget_zupd_same in Hx by exact R. apply Ok_inj in Hx. lia.
    + rewrite aget_zupd_other in Hx by lia. eapply Hc; eauto.
  - destruct (Z_lt_dec i 0) as [Hn|Hn].
    + assert (E : zupd c i v = c).
      { clear -Hn. revert i Hn. induction c as [|h r IH]; intros i Hn; cbn; [reflexivity|].
        destruct (Z.eqb_spec i 0); [lia|]. rewrite IH by lia. reflexivity. }
      rewrite E in Hx. eapply Hc; eauto.
    + destruct (Z.eq_dec i idx) as [<-|Hne].
      * rewrite aget_out in Hx by (rewrite zupd_length; exact N). discriminate.
      * rewrite aget_zupd_other in Hx by lia. eapply Hc; eauto.
Qed.

Section Fill.

Variables (img : img_t) (e : fill_error).
Let fb := img_firstblk img.
Let size := sb_size (img_sb img).
Hypothesis Hfb : 0 <= fb.

(** The three cases of the body: a free slot, an address out of the data
    region, an address whose cell is incremented. *)
Lemma fill_one_cases a c :
  0 <= a < 4294967296 -> size - fb <= Z.of_nat (length c) ->
  (a = 0 /\ fill_one img e a c = FOk c) \/
  (a <> 0 /\ ~ fb <= a < size /\ fill_one img e a c = FExit e) \/
  (a <> 0 /\ fb <= a < size /\
   exists x, aget c (a - fb) = Ok x /\
             fill_one img e a c = FOk (zupd c (a - fb) (u32 (x + 1)))).
Proof.
  intros Ha Hl. unfold fill_one. fold fb size.
  destruct (Z.eqb_spec a 0) as [->|Anz]; [left; auto|]. right.
  destruct (Z.ltb_spec a fb) as [H1|H1]; cbn [orb]; [left; repeat split; auto; lia|].
  destruct (Z.leb_spec size a) as [H2|H2]; [left; repeat split; auto; lia|].
  right. split; [exact Anz|]. split; [lia|]. cbv zeta. rewrite u32_small by lia.
  destruct (aget_in c (a - fb) ltac:(lia)) as (x & Ex). exists x. split; [exact Ex|].
  rewrite Ex. cbn [fill_of fill_bind]. rewrite aset_in by lia. reflexivity.
Qed.

(** The loop over the slots read by [rd], whose values are [vs]. *)
Lemma fill_slots (rd : Z -> result Z) (vs : Z -> Z) : forall n j0 c,
  (forall j, j0 <= j < j0 + Z.of_nat n -> rd j = Ok (vs j) /\ 0 <= vs j < 4294967296) ->
  size - fb <= Z.of_nat (length c) ->
  uint_cells c ->
  ((exists j, j0 <= j < j0 + Z.of_nat n /\ vs j <> 0 /\ ~ fb <= vs j < size) /\
   fill_loop n j0 (fun i c0 =>
     fill_bind (fill_of (rd i)) (fun addr => fill_one img e addr c0)) c = FExit e) \/
  ((forall j, j0 <= j < j0 + Z.of_nat n -> vs j = 0 \/ fb <= vs j < size) /\
   exists c',
     fill_loop n j0 (fun i c0 =>
       fill_bind (fill_of (rd i)) (fun addr => fill_one img e addr c0)) c = FOk c' /\
     length c' = length c /\ uint_cells c' /\
     forall a x, a <> 0 -> fb <= a < size -> aget c (a - fb) = Ok x ->
       aget c' (a - fb) = Ok (u32 (x + occurrences vs a j0 n))).
Proof.
  induction n as [|n IH]; intros j0 c Hrd Hl Hu.
  - right. split; [intros; lia|]. exists c. split; [reflexivity|]. split; [reflexivity|].
    split; [exact Hu|]. intros a x _ _ Hx. rewrite Hx. unfold occurrences. cbn.
    rewrite Z.add_0_r. rewrite u32_small by (eapply Hu; eauto). reflexivity.
  - cbn [fill_loop]. destruct (Hrd j0 ltac:(lia)) as [E0 R0]. rewrite E0.
    cbn [fill_of fill_bind].
    assert (Hrd' : forall j, j0 + 1 <= j < j0 + 1 + Z.of_nat n ->
              rd j = Ok (vs j) /\ 0 <= vs j < 4294967296) by (intros j Hj; apply Hrd; lia).
    destruct (fill_one_cases (vs j0) c R0 Hl) as [[Z0 ->]|[(Nz & Nr & ->)|(Nz & Ir & x0 & Ex0 & ->)]];
      cbn [fill_bind].
    + destruct (IH (j0 + 1) c Hrd' Hl Hu) as [[(j & Hj & Hv) ->]|[Hall (c' & -> & L & U & Hc)]].
      * left. split; [|reflexivity]. exists j. split; [lia|exact Hv].
      * right. split.
        { intros j Hj. destruct (Z.eq_dec j j0) as [->|Hne]; [left; exact Z0|].
          apply Hall. lia. }
        exists c'. split; [reflexivity|]. split; [exact L|]. split; [exact U|].
        intros a x Anz Ar Hx. rewrite (Hc a x Anz Ar Hx). rewrite occurrences_step.
        destruct (Z.eqb_spec (vs j0) a); [congruence|]. reflexivity.
    + left. split; [|reflexivity]. exists j0. split; [lia|]. split; assumption.
    + assert (U1 : uint_cells (zupd c (vs j0 - fb) (u32 (x0 + 1))))
        by (apply uint_cells_zupd; [exact Hu|apply u32_range]).
      destruct (IH (j0 + 1) (zupd c (vs j0 - fb) (u32 (x0 + 1))) Hrd'
                  ltac:(rewrite zupd_length; exact Hl) U1)
        as [[(j & Hj & Hv) ->]|[Hall (c' & -> & L & U & Hc)]].
      * left. split; [|reflexivity]. exists j. split; [lia|exact Hv].
      * right. split.
        { intros j Hj. destruct (Z.eq_dec j j0) as [->|Hne]; [right; exact Ir|].
          apply Hall. lia. }
        exists c'. split; [reflexivity|]. split; [rewrite L; apply zupd_length|].
        split; [exact U|].
        intros a x Anz Ar Hx. rewrite occurrences_step.
        destruct (Z.eqb_spec (vs j0) a) as [Q|Q].
        -- subst a. rewrite (Hc (vs j0) (u32 (x0 + 1)) Anz Ar).
           ++ rewrite u32_add_idem. f_equal. f_equal. assert (x = x0) by congruence. lia.
           ++ apply aget_zupd_same. lia.
        -- rewrite (Hc a x Anz Ar); [reflexivity|].
           rewrite aget_zupd_other by lia. exact Hx.
Qed.

End Fill.

Lemma in_addr_range img ip j a : in_addr img ip j = Ok a -> 0 <= a < 4294967296.
Proof. unfold in_addr. apply ld32_range. Qed.

Lemma ind_slot_range img ind j a : ind_slot img ind j = Ok a -> 0 <= a < 4294967296.
Proof. unfold ind_slot. apply ld32_range. Qed.

(** X14: [fill_direct] and [fill_indirect] test every non-zero address
    against [firstblk <= addr < size] before they use [addr - firstblk] as
    an index, so that on an array of [size - firstblk] cells or more they
    never index outside it.  They end the run at the first address outside
    that range, with a diagnostic of their own; otherwise the cell of each
    address of the range has been incremented once for every slot that
    holds the address, and the array has kept its length.  [fill_indirect]
    applies the test to the indirect pointer too, which it does not count. *)
Theorem fill_counts_spec :
  forall (img : img_t) (ip : Z) (counts : list Z) (das ias : Z -> Z) (ind : Z),
  0 <= img_firstblk img ->
  sb_size (img_sb img) - img_firstblk img <= Z.of_nat (length counts) ->
  uint_cells counts ->
  (forall j, 0 <= j < NDIRECT -> in_addr img ip j = Ok (das j)) ->
  in_addr img ip NDIRECT = Ok ind ->
  (ind <> 0 -> forall j, 0 <= j < NINDIRECT -> ind_slot img ind j = Ok (ias j)) ->
  (((exists j, 0 <= j < NDIRECT /\ das j <> 0 /\
               ~ img_firstblk img <= das j < sb_size (img_sb img)) /\
    fill_direct img ip counts = FExit DirectOutOfBounds) \/
   ((forall j, 0 <= j < NDIRECT ->
       das j = 0 \/ img_firstblk img <= das j < sb_size (img_sb img)) /\
    exists c',
      fill_direct img ip counts = FOk c' /\ length c' = length counts /\
      forall a x, a <> 0 -> img_firstblk img <= a < sb_size (img_sb img) ->
        aget counts (a - img_firstblk img) = Ok x ->
        aget c' (a - img_firstblk img)
          = Ok (u32 (x + occurrences das a 0 (Z.to_nat NDIRECT))))) /\
  ((ind = 0 /\ fill_indirect img ip counts = FOk counts) \/
   (ind <> 0 /\
    (~ img_firstblk img <= ind < sb_size (img_sb img) \/
     exists j, 0 <= j < NINDIRECT /\ ias j <> 0 /\
               ~ img_firstblk img <= ias j < sb_size (img_sb img)) /\
    fill_indirect img ip counts = FExit IndirectOutOfBounds) \/
   (ind <> 0 /\ img_firstblk img <= ind < sb_size (img_sb img) /\
    (forall j, 0 <= j < NINDIRECT ->
       ias j = 0 \/ img_firstblk img <= ias j < sb_size (img_sb img)) /\
    exists c',
      fill_indirect img ip counts = FOk c' /\ length c' = length counts /\
      forall a x, a <> 0 -> img_firstblk img <= a < sb_size (img_sb img) ->
        aget counts (a - img_firstblk img) = Ok x ->
        aget c' (a - img_firstblk img)
          = Ok (u32 (x + occurrences ias a 0 (Z.to_nat NINDIRECT))))).
Proof.
  intros img ip counts das ias ind Hfb Hl Hu Hd Hi Hc. split.
  - unfold fill_direct.
    destruct (fill_slots img DirectOutOfBounds Hfb (in_addr img ip) das
                (Z.to_nat NDIRECT) 0 counts) as [[Hex E]|[Hall (c' & E & L & _ & Hv)]];
      try assumption.
    + intros j Hj. change (Z.of_nat (Z.to_nat NDIRECT)) with NDIRECT in Hj.
      split; [apply Hd; lia|]. apply (in_addr_range img ip j). apply Hd. lia.
    + left. split; [|exact E]. destruct Hex as (j & Hj & Hv). exists j.
      split; [exact Hj|exact Hv].
    + right. split; [exact Hall|]. exists c'. split; [exact E|]. split; [exact L|exact Hv].
  - unfold fill_indirect. rewrite Hi. cbn [fill_of fill_bind].
    destruct (Z.eqb_spec ind 0) as [->|Inz]; [left; auto|]. right.
    destruct (Z.ltb_spec ind (img_firstblk img)) as [H1|H1]; cbn [orb].
    { left. split; [exact Inz|]. split; [left; lia|reflexivity]. }
    destruct (Z.leb_spec (sb_size (img_sb img)) ind) as [H2|H2].
    { left. split; [exact Inz|]. split; [left; lia|reflexivity]. }
    destruct (fill_slots img IndirectOutOfBounds Hfb (ind_slot img ind) ias
                (Z.to_nat NINDIRECT) 0 counts) as [[Hex E]|[Hall (c' & E & L & _ & Hv)]];
      try assumption.
    + intros j Hj. change (Z.of_nat (Z.to_nat NINDIRECT)) with NINDIRECT in Hj.
      split; [apply (Hc Inz); lia|]. apply (ind_slot_range img ind j). apply (Hc Inz). lia.
    + left. split; [exact Inz|]. split; [right|exact E].
      destruct Hex as (j & Hj & Hv). exists j. split; [exact Hj|exact Hv].
    + right. split; [exact Inz|]. split; [lia|]. split; [exact Hall|].
      exists c'. split; [exact E|]. split; [exact L|exact Hv].
Qed.

Lemma uint_cells_zeros n : uint_cells (zeros 0 n).
Proof.
  intros idx x Hx. destruct (Z_le_dec n 0) as [Hn|Hn].
  - rewrite zeros_nonpos in Hx by exact Hn. destruct idx; discriminate.
  - destruct (aget_cases (zeros 0 n) idx) as [(y & _ & R)|[E _]]; [|congruence].
    rewrite zeros_length in R by lia. rewrite aget_zeros in Hx by exact R.
    apply Ok_inj in Hx. lia.
Qed.

Lemma fill_counts_spec_witness :
  exists c',
    fill_direct (ex_img img_unmarked_dup) (inode_at (ex_img img_unmarked_dup) 2)
      (zeros 0 11) = FOk c' /\
    aget c' 1 = Ok 2.
Proof.
  set (img := ex_img img_unmarked_dup).
  set (das := fun j => val 0 (in_addr img (inode_at img 2) j)).
  assert (Qd : forallb (fun j => is_Ok (in_addr img (inode_at img 2) j)) (zrange 0 13) = true)
    by (vm_compute; reflexivity).
  assert (Qv : forallb (fun j => (das j =? 0) || (das j =? 6)) (zrange 0 12) = true)
    by (vm_compute; reflexivity).
  assert (Qo : occurrences das 6 0 (Z.to_nat NDIRECT) = 2) by (vm_compute; reflexivity).
  assert (Hd : forall j, 0 <= j < NDIRECT -> in_addr img (inode_at img 2) j = Ok (das j)).
  { intros j Hj. apply is_Ok_val.
    apply (forallb_zrange (fun j => is_Ok (in_addr img (inode_at img 2) j)) 0 13 Qd).
    unfold NDIRECT in Hj. lia. }
  assert (Hi : in_addr img (inode_at img 2) NDIRECT = Ok 0) by (vm_compute; reflexivity).
  assert (F : img_firstblk img = 5) by reflexivity.
  assert (S : sb_size (img_sb img) = 16) by reflexivity.
  clearbody img das.
  destruct (fill_counts_spec img (inode_at img 2) (zeros 0 11) das (fun _ => 0) 0)
    as [[[(j & Hj & Hnz & Hout) _]|[_ (c' & E & _ & Hc)]] _].
  - rewrite F. lia.
  - rewrite F, S. rewrite zeros_length by lia. lia.
  - apply uint_cells_zeros.
  - exact Hd.
  - exact Hi.
  - intros N. destruct (N eq_refl).
  - exfalso. rewrite F, S in Hout.
    pose proof (forallb_zrange _ 0 12 Qv j ltac:(unfold NDIRECT in Hj; lia)) as Q.
    cbv beta in Q. apply orb_true_iff in Q as [Q|Q]; apply Z.eqb_eq in Q; lia.
  - exists c'. split; [exact E|].
    specialize (Hc 6 0 ltac:(lia) ltac:(rewrite F, S; lia)). rewrite F in Hc.
    rewrite Qo in Hc. apply Hc. reflexivity.
Defined.

(** ** The inodes that the traversal counts *)

Section Counted.

Variable img : img_t.

(** The cells of [t] are those of [im], but for inodes that directory
    entries lead to from [a]. *)
Let touched (a : Z) (im t : list Z) : Prop :=
  forall n, aget t n = aget im n \/ clos_trans Z (dir_edge img) a n.

Lemma touched_incr a im t t' n :
  touched a im t -> clos_trans Z (dir_edge img) a n -> incr t n = Ok t' ->
  touched a im t'.
Proof.
  intros Ht Hn H k. destruct (Z.eq_dec n k) as [<-|Hne]; [right; exact Hn|].
  destruct (aget_cases t n) as [(x & Ex & R)|[_ N]].
  - rewrite (incr_in t n x Ex) in H. apply Ok_inj in H. subst t'.
    rewrite aget_zupd_other by lia. apply Ht.
  - rewrite incr_out in H by exact N. discriminate.
Qed.

Lemma touched_trans a y im t t' :
  touched a im t -> clos_trans Z (dir_edge img) a y -> touched y t t' -> touched a im t'.
Proof.
  intros Ht Hy Ht' k. destruct (Ht' k) as [E|R].
  - rewrite E. apply Ht.
  - right. eapply t_trans; eauto.
Qed.

(** A block [b] of the directory [a], processed by calls that touch only
    what they reach. *)
Lemma process_block_touched rec a b im t t' :
  (forall y u u', rec (inode_at img y) u = Ok u' -> touched y u u') ->
  in_type img (inode_at img a) = Ok T_DIR ->
  (b <> 0 -> dir_block img (inode_at img a) b) ->
  touched a im t ->
  process_block rec img b t = Ok t' ->
  touched a im t'.
Proof.
  intros Hrec Ht Hb M H. unfold process_block in H.
  destruct (Z.eqb_spec b 0) as [|Bnz]; [apply Ok_inj in H; subst t'; exact M|].
  revert H. unfold for_range. apply (for_loop_inv (touched a im)); [exact M|].
  intros j u u' Hj Mu Q. cbv zeta in Q. change (Z.of_nat (Z.to_nat (DPB - 0))) with DPB in Hj.
  apply bind_Ok_inv in Q as (n & En & Q).
  destruct (Z.eqb_spec n 0) as [|Nnz]; [apply Ok_inj in Q; subst u'; exact Mu|].
  apply bind_Ok_inv in Q as (d & Ed & Q).
  destruct d; [apply Ok_inj in Q; subst u'; exact Mu|].
  apply bind_Ok_inv in Q as (dd & Edd & Q).
  destruct dd; [apply Ok_inj in Q; subst u'; exact Mu|].
  apply bind_Ok_inv in Q as (u1 & E1 & Q).
  assert (He : clos_trans Z (dir_edge img) a n).
  { apply t_step. split; [exact Ht|]. exists b. split; [exact (Hb Bnz)|].
    exists j. split; [lia|]. split; [exact En|]. split; [exact Nnz|]. split; assumption. }
  apply (touched_trans a n im u1 u'); [|exact He|exact (Hrec n u1 u' Q)].
  exact (touched_incr a im u u1 n Mu He E1).
Qed.

(** [traverse_dirs] changes the count of no inode but those that directory
    entries lead to. *)
Lemma traverse_dirs_touched : forall fuel a im im',
  traverse_dirs fuel img (inode_at img a) im = Ok im' -> touched a im im'.
Proof.
  induction fuel as [|f IH]; intros a im im' H; [discriminate|].
  cbn [traverse_dirs] in H. apply bind_Ok_inv in H as (t & Et & H).
  destruct (Z.eqb_spec t T_DIR) as [->|Tn]; cbn [negb] in H;
    [|apply Ok_inj in H; subst im'; intros n; left; reflexivity].
  apply bind_Ok_inv in H as (im1 & E1 & H).
  assert (M1 : touched a im im1).
  { revert E1. unfold for_range.
    apply (for_loop_inv (touched a im)); [intros n; left; reflexivity|].
    intros i u u' Hi Mu Q. change (Z.of_nat (Z.to_nat (NDIRECT - 0))) with NDIRECT in Hi.
    apply bind_Ok_inv in Q as (b & Eb & Q).
    apply (process_block_touched (traverse_dirs f img) a b im u u'); try assumption.
    intros Bnz. split; [exact Bnz|]. left. exists i. split; [lia|exact Eb]. }
  apply bind_Ok_inv in H as (ind & Ei & H).
  destruct (Z.eqb_spec ind 0) as [|Inz]; cbn [negb] in H;
    [apply Ok_inj in H; subst im'; exact M1|].
  revert H. unfold for_range. apply (for_loop_inv (touched a im)); [exact M1|].
  intros i u u' Hi Mu Q. change (Z.of_nat (Z.to_nat (NINDIRECT - 0))) with NINDIRECT in Hi.
  apply bind_Ok_inv in Q as (b & Eb & Q).
  apply (process_block_touched (traverse_dirs f img) a b im u u'); try assumption.
  intros Bnz. split; [exact Bnz|]. right. exists ind, i.
  split; [exact Ei|]. split; [exact Inz|]. split; [lia|exact Eb].
Qed.

End Counted.

Lemma dir_chk_seed_cells img im0 n :
  dir_chk_seed img = Ok im0 -> 2 <= n < sb_ninodes (img_sb img) -> aget im0 n = Ok 0.
Proof.
  unfold dir_chk_seed. intros H Hn. apply bind_Ok_inv in H as (x & Ex & H).
  destruct (aget_cases (zeros 0 (sb_ninodes (img_sb img))) 0) as [(c0 & E0 & _)|[_ N]];
    [|rewrite incr_out in Ex by exact N; discriminate].
  rewrite (incr_in _ _ _ E0) in Ex. apply Ok_inj in Ex. subst x.
  destruct (aget_cases (zupd (zeros 0 (sb_ninodes (img_sb img))) 0 (wrap_int (c0 + 1))) 1)
    as [(c1 & E1 & _)|[_ N]]; [|rewrite incr_out in H by exact N; discriminate].
  rewrite (incr_in _ _ _ E1) in H. apply Ok_inj in H. subst im0.
  rewrite !aget_zupd_other by lia. apply aget_zeros. lia.
Qed.

(** X15: [traverse_dirs] changes the count of no inode but those that
    directory entries (other than "." and "..") lead to from the inode it
    starts at; since [dir_chk] wants a count other than 0 for every inode in
    use from inode 2 on, an image is accepted only if each of these inodes
    can be reached from the root directory, inode 1, through directory
    entries. *)
Theorem accepted_inodes_reachable :
  forall (fuel : nat) (m : list byte) (img : img_t),
  init_img m = Ok img ->
  main fuel m = Ok tt ->
  forall n t, 2 <= n < sb_ninodes (img_sb img) ->
    in_type img (inode_at img n) = Ok t -> t <> 0 ->
    clos_trans Z (dir_edge img) 1 n.
Proof.
  intros fuel m img Hi H n t Hn Ht Tn. rewrite (main_eq fuel m img Hi) in H.
  apply bind_Ok_tt_inv in H as (_ & _ & H). apply bind_Ok_tt_inv in H as (_ & _ & H).
  apply bind_Ok_tt_inv in H as (_ & _ & H). unfold dir_chk in H.
  apply bind_Ok_tt_inv in H as (im0 & E0 & H). apply bind_Ok_tt_inv in H as (im & E1 & H).
  destruct (traverse_dirs_touched img fuel 1 im0 im E1 n) as [E|R]; [|exact R].
  exfalso. rewrite (dir_chk_seed_cells img im0 n E0 Hn) in E.
  unfold dir_chk_sweep, for_range in H.
  destruct (for_loop_unit_inv _ _ _ _ H) as [[_ Hall]|(k & _ & _ & _ & Hab)];
    [|destruct (Hab tt); reflexivity].
  specialize (Hall n ltac:(lia)). unfold dir_chk_inode in Hall. cbv zeta in Hall.
  apply bind_Ok_tt_inv in Hall as ([] & H1 & _). unfold chk_in_use in H1.
  rewrite Ht in H1. cbn [bind] in H1. destruct (Z.eqb_spec t 0); [contradiction|].
  cbn [negb] in H1. rewrite E in H1. discriminate.
Qed.

Lemma accepted_inodes_reachable_witness :
  main 2 img_shared_indirect = Ok tt /\
  clos_trans Z (dir_edge (ex_img img_shared_indirect)) 1 3.
Proof.
  assert (Hi : init_img img_shared_indirect = Ok (ex_img img_shared_indirect))
    by (vm_compute; reflexivity).
  assert (Hm : main 2 img_shared_indirect = Ok tt) by (vm_compute; reflexivity).
  split; [exact Hm|].
  apply (accepted_inodes_reachable 2 img_shared_indirect _ Hi Hm 3 T_FILE).
  - cbn. lia.
  - vm_compute. reflexivity.
  - discriminate.
Defined.

(** ** [bmp_chk] after the inode loop *)

(** X16: [bmp_chk] looks again at what the inode loop has looked at.  On an
    image that holds the blocks its superblock declares, once the inode loop
    has passed and no inode in use has its indirect pointer among its direct
    addresses, [bmp_chk] returns without a diagnostic whatever the bitmap
    holds. *)
Theorem bmp_chk_redundant : forall (m : list byte) (img : img_t),
  init_img m = Ok img ->
  img_firstblk img <= sb_size (img_sb img) ->
  sb_size (img_sb img) * BSIZE <= Z.of_nat (length m) ->
  Z.of_nat (length m) <= 4294967296 ->
  main_sweep img = Ok tt ->
  (forall i, 0 <= i < sb_ninodes (img_sb img) -> ~ indptr_aliased img i) ->
  bmp_chk img = Ok tt.
Proof.
  intros m img Hi Hfb Hlen H4G Hs Hna.
  destruct (init_img_well_sized m img Hi Hfb Hlen H4G) as [_ Hbm].
  destruct (init_img_sb_range m img Hi) as (Hsz & _).
  pose proof (safe_bmp_chk img ltac:(lia) Hbm Hs) as Sf.
  pose proof (only_bmp_chk img) as On.
  destruct (bmp_chk img) as [[]|e| |] eqn:E; [reflexivity| |destruct (Sf eq_refl)|destruct On].
  exfalso. unfold bmp_chk in E.
  destruct (bmp_chk_inodes img (zeros false (sb_size (img_sb img)))) as [c|e'| |] eqn:E';
    cbn [bind] in E; try discriminate.
  - pose proof (only_bmp_chk_unused img c) as O. rewrite E in O. exact O.
  - apply bmp_chk_inodes_Exit_inv in E' as (i & s & a & Hr & Hns & Hm).
    destruct (main_sweep_Ok_refers img i s a ltac:(lia) Hs Hr) as [_ Hmk].
    rewrite Hmk in Hm; [discriminate|]. right. apply Hna. exact (proj1 Hr).
Qed.

Lemma bmp_chk_redundant_witness : bmp_chk (ex_img img_bad_nlink) = Ok tt.
Proof.
  assert (Hi : init_img img_bad_nlink = Ok (ex_img img_bad_nlink))
    by (vm_compute; reflexivity).
  assert (Hs : main_sweep (ex_img img_bad_nlink) = Ok tt) by (vm_compute; reflexivity).
  assert (Q : forallb (fun i => match in_addr (ex_img img_bad_nlink)
                                        (inode_at (ex_img img_bad_nlink) i) NDIRECT with
                                | Ok ind => ind =? 0
                                | _ => false
                                end) (zrange 0 8) = true) by (vm_compute; reflexivity).
  apply (bmp_chk_redundant img_bad_nlink _ Hi).
  - cbn. lia.
  - vm_compute. discriminate.
  - vm_compute. discriminate.
  - exact Hs.
  - intros i Hr (ind & j & Ei & Inz & _).
    pose proof (forallb_zrange _ 0 8 Q i ltac:(cbn in Hr; lia)) as Qi. cbv beta in Qi.
    rewrite Ei in Qi. apply Z.eqb_eq in Qi. contradiction.
Defined.

(** ** The first finding *)

(** X17: the run ends at the first inode, in the order of the inode table,
    that does not pass the inode loop, and with the outcome of that inode:
    neither the inodes after it nor [bmp_chk], [addrs_chk] and [dir_chk]
    are reached. *)
Theorem main_reports_first_failure :
  forall (fuel : nat) (m : list byte) (img : img_t) (k : Z),
  init_img m = Ok img ->
  0 <= k < sb_ninodes (img_sb img) ->
  (forall i, 0 <= i < k -> main_inode img i = Ok tt) ->
  main_inode img k <> Ok tt ->
  main_sweep img = main_inode img k /\ main fuel m = main_inode img k.
Proof.
  intros fuel m img k Hi Hk Hbefore Hfail.
  assert (Hab : abnormal (main_inode img k)) by (intros []; exact Hfail).
  assert (E : main_sweep img = main_inode img k).
  { unfold main_sweep, for_range.
    apply (for_loop_unit_first (fun i _ => main_inode img i)); [lia| |exact Hab].
    intros i Hi'. apply Hbefore. lia. }
  split; [exact E|]. rewrite (main_eq fuel m img Hi). rewrite E.
  apply bind_abnormal_same. exact Hab.
Qed.

Lemma main_reports_first_failure_witness :
  main_inode (ex_img img_unmarked_dup) 2 = Exit AddressNotInBitmap /\
  main 2 img_unmarked_dup = main_inode (ex_img img_unmarked_dup) 2.
Proof.
  assert (Hi : init_img img_unmarked_dup = Ok (ex_img img_unmarked_dup))
    by (vm_compute; reflexivity).
  assert (E2 : main_inode (ex_img img_unmarked_dup) 2 = Exit AddressNotInBitmap)
    by (vm_compute; reflexivity).
  assert (Q : forallb (fun i => match main_inode (ex_img img_unmarked_dup) i with
                                | Ok _ => true
                                | _ => false
                                end) (zrange 0 2) = true) by (vm_compute; reflexivity).
  split; [exact E2|].
  apply (main_reports_first_failure 2 img_unmarked_dup _ 2 Hi).
  - cbn. lia.
  - intros i Hr. pose proof (forallb_zrange _ 0 2 Q i ltac:(lia)) as Qi. cbv beta in Qi.
    destruct (main_inode (ex_img img_unmarked_dup) i) as [[]| | |]; try discriminate Qi.
    reflexivity.
  - rewrite E2. discriminate.
Defined.

(** ** A run without an access out of bounds *)

Lemma entries_okb_spec img P :
  entries_okb img P = true ->
  forall a n, 0 <= a < sb_ninodes (img_sb img) -> dir_edge img a n -> P n = true.
Proof.
  intros H a n Ha (Ht & b & (Hb0 & Hb) & (j & Hj & Hn & Hn0 & Hd & Hdd)).
  unfold entries_okb in H.
  pose proof (forallb_zrange _ 0 _ H a ltac:(lia)) as Q. cbv beta zeta in Q.
  rewrite Ht in Q. cbn [is_Ok val negb] in Q. rewrite Z.eqb_refl in Q. cbn [negb orb] in Q.
  apply andb_true_iff in Q as [Q1 Q2].
  assert (Hblk : forall r, r = Ok b -> block_okb img P r = true -> P n = true).
  { intros r -> Qb. unfold block_okb in Qb. cbn [is_Ok val negb orb] in Qb.
    destruct (Z.eqb_spec b 0) as [|_]; [contradiction|]. cbn [orb] in Qb.
    pose proof (forallb_zrange _ 0 _ Qb j
                  ltac:(change (Z.of_nat (Z.to_nat DPB)) with DPB; lia)) as Qe.
    unfold entry_okb, followedb in Qe. cbv zeta in Qe. rewrite Hn, Hd, Hdd in Qe.
    cbn [is_Ok val negb andb] in Qe.
    destruct (Z.eqb_spec n 0) as [|_]; [contradiction|]. exact Qe. }
  destruct Hb as [(i & Hi & Eb)|(ind & i & Ei & Inz & Hi & Eb)].
  - apply (Hblk _ Eb). apply (forallb_zrange _ 0 _ Q1 i).
    change (Z.of_nat (Z.to_nat NDIRECT)) with NDIRECT. lia.
  - rewrite Ei in Q2. cbn [val] in Q2. destruct (Z.eqb_spec ind 0) as [|_]; [contradiction|].
    cbn [orb] in Q2. apply (Hblk _ Eb). apply (forallb_zrange _ 0 _ Q2 i).
    change (Z.of_nat (Z.to_nat NINDIRECT)) with NINDIRECT. lia.
Qed.

Section SafeRun.

Variable img : img_t.
Let L := Z.of_nat (length (img_map img)).
Let ninodes := sb_ninodes (img_sb img).

Hypothesis Hsize : 0 <= sb_size (img_sb img).
Hypothesis Hlen : sb_size (img_sb img) * BSIZE <= L.
Hypothesis H4G : L <= 4294967296.
Hypothesis Hinodes : forall i, 0 <= i < ninodes ->
  0 <= inode_at img i /\ inode_at img i + DINODE_SZ <= L.
Hypothesis Hsweep : main_sweep img = Ok tt.
Hypothesis Hent : forall a n, 0 <= a < ninodes -> dir_edge img a n -> n < ninodes.

(** The addresses of a directory in the table, as the inode loop left
    them. *)
Lemma dir_addrs_valid a :
  0 <= a < ninodes -> in_type img (inode_at img a) = Ok T_DIR ->
  (forall i, 0 <= i < NDIRECT ->
     exists b, in_addr img (inode_at img a) i = Ok b /\
               (b = 0 \/ 0 < b < sb_size (img_sb img))) /\
  exists ind, in_addr img (inode_at img a) NDIRECT = Ok ind /\
    (ind = 0 \/
     0 < ind < sb_size (img_sb img) /\
     forall i, 0 <= i < NINDIRECT ->
       exists b, ind_slot img ind i = Ok b /\ (b = 0 \/ 0 < b < sb_size (img_sb img))).
Proof.
  intros Ha Ht. pose proof (main_sweep_Ok_inode img a Hsweep Ha) as Hin.
  destruct (main_inode_Ok_inv img a T_DIR Hin Ht ltac:(discriminate))
    as (_ & Hd & Hi & _).
  split; [exact (check_direct_Ok_inv img _ Hd)|].
  destruct (check_indirect_Ok_inv img _ Hi) as (ind & Ei & Hv). exists ind.
  split; [exact Ei|]. destruct (Z.eq_dec ind 0) as [->|Inz]; [left; reflexivity|]. right.
  exact (check_indirect_Ok_contents img _ ind Hi Ei Inz).
Qed.

Lemma safe_process_block rec a b im :
  (forall n t, 0 <= n < ninodes -> Z.of_nat (length t) = ninodes ->
     safe (rec (inode_at img n) t) /\
     forall t', rec (inode_at img n) t = Ok t' -> length t' = length t) ->
  0 <= a < ninodes -> in_type img (inode_at img a) = Ok T_DIR ->
  (b <> 0 -> dir_block img (inode_at img a) b) ->
  b = 0 \/ 0 < b < sb_size (img_sb img) ->
  Z.of_nat (length im) = ninodes ->
  safe (process_block rec img b im) /\
  forall im', process_block rec img b im = Ok im' -> length im' = length im.
Proof.
  intros Hrec Ha Ht Hb Hv Hl. unfold process_block.
  destruct (Z.eqb_spec b 0) as [|Bnz].
  { split; [apply safe_Ok|]. intros im' Q. apply Ok_inj in Q. congruence. }
  destruct Hv as [?|Hv]; [contradiction|].
  destruct (blk_ptr_in img Hlen H4G b Hv) as (E & H0 & H1).
  assert (Hstep : forall j t, 0 <= j < 0 + Z.of_nat (Z.to_nat (DPB - 0)) ->
            length t = length im ->
            forall r,
            r = (let de := dirent_at b j in
                 n <- de_inum img de ;;
                 if n =? 0 then Ok t
                 else
                   is_dot <- strcmp_eq (img_map img) (de_name de) dot ;;
                   if is_dot then Ok t
                   else
                     is_ddot <- strcmp_eq (img_map img) (de_name de) dotdot ;;
                     if is_ddot then Ok t
                     else inodemap <- incr t n ;; rec (inode_at img n) inodemap) ->
            safe r /\ forall t', r = Ok t' -> length t' = length im).
  { intros j t Hj Ht' r ->. cbv zeta.
    change (Z.of_nat (Z.to_nat (DPB - 0))) with 32 in Hj.
    assert (D0 : 0 <= dirent_at b j /\ dirent_at b j + 16 <= L).
    { unfold dirent_at, DIRENT_SZ. rewrite E. unfold BSIZE in *. lia. }
    assert (Hn0 : exists n, de_inum img (dirent_at b j) = Ok n).
    { unfold de_inum. apply ld16_in; [lia|fold L; lia]. }
    destruct Hn0 as (n & En). rewrite En. cbn [bind].
    destruct (Z.eqb_spec n 0) as [|Nnz].
    { split; [apply safe_Ok|]. intros t' Q. apply Ok_inj in Q. congruence. }
    destruct (strcmp_eq_in (img_map img) dot (de_name (dirent_at b j))) as (d & Ed);
      [unfold de_name; lia|unfold de_name; cbn; fold L; lia|]. rewrite Ed. cbn [bind].
    destruct d.
    { split; [apply safe_Ok|]. intros t' Q. apply Ok_inj in Q. congruence. }
    destruct (strcmp_eq_in (img_map img) dotdot (de_name (dirent_at b j))) as (dd & Edd);
      [unfold de_name; lia|unfold de_name; cbn; fold L; lia|]. rewrite Edd. cbn [bind].
    destruct dd.
    { split; [apply safe_Ok|]. intros t' Q. apply Ok_inj in Q. congruence. }
    assert (He : dir_edge img a n).
    { split; [exact Ht|]. exists b. split; [exact (Hb Bnz)|]. exists j.
      split; [unfold DPB; cbn; lia|]. split; [exact En|]. split; [exact Nnz|].
      split; assumption. }
    pose proof (Hent a n Ha He) as Hn. pose proof (dir_edge_range img a n He) as Hn'.
    destruct (aget_in t n ltac:(rewrite Ht', Hl; lia)) as (c & Ec).
    rewrite (incr_in t n c Ec). cbn [bind].
    destruct (Hrec n (zupd t n (wrap_int (c + 1))) ltac:(lia)
                ltac:(rewrite zupd_length, Ht'; exact Hl)) as [S1 S2].
    split; [exact S1|]. intros t' Q. rewrite (S2 t' Q). rewrite zupd_length. exact Ht'. }
  unfold for_range. split.
  - apply (safe_for_loop (fun t => length t = length im)); [reflexivity|].
    intros j t Hj Ht'. exact (Hstep j t Hj Ht' _ eq_refl).
  - intros im'. apply (for_loop_inv (fun t => length t = length im)); [reflexivity|].
    intros j t t' Hj Ht' Q. exact (proj2 (Hstep j t Hj Ht' _ eq_refl) t' Q).
Qed.

Lemma safe_traverse_dirs : forall fuel a im,
  0 <= a < ninodes -> Z.of_nat (length im) = ninodes ->
  safe (traverse_dirs fuel img (inode_at img a) im).
Proof.
  induction fuel as [|f IH]; intros a im Ha Hl; [discriminate|]. cbn [traverse_dirs].
  destruct (in_type_in img Hinodes a Ha) as (t & Et). rewrite Et. cbn [bind].
  destruct (Z.eqb_spec t T_DIR) as [->|Tn]; cbn [negb]; [|apply safe_Ok].
  destruct (dir_addrs_valid a Ha Et) as [Hd (ind & Ei & Hi)].
  assert (Hrec : forall n t, 0 <= n < ninodes -> Z.of_nat (length t) = ninodes ->
            safe (traverse_dirs f img (inode_at img n) t) /\
            forall t', traverse_dirs f img (inode_at img n) t = Ok t' ->
                       length t' = length t).
  { intros n t Hn Ht. split; [apply IH; assumption|]. apply traverse_dirs_length. }
  assert (Hd' : forall i u, 0 <= i < 0 + Z.of_nat (Z.to_nat (NDIRECT - 0)) ->
            length u = length im ->
            safe (b <- in_addr img (inode_at img a) i ;;
                  process_block (traverse_dirs f img) img b u) /\
            forall u', (b <- in_addr img (inode_at img a) i ;;
                        process_block (traverse_dirs f img) img b u) = Ok u' ->
                       length u' = length im).
  { intros i u Hi' Hu. change (Z.of_nat (Z.to_nat (NDIRECT - 0))) with NDIRECT in Hi'.
    destruct (Hd i ltac:(lia)) as (b & Eb & Hv). rewrite Eb. cbn [bind].
    destruct (safe_process_block (traverse_dirs f img) a b u Hrec Ha Et) as [S1 S2].
    - intros Bnz. split; [exact Bnz|]. left. exists i. split; [lia|exact Eb].
    - exact Hv.
    - rewrite Hu. exact Hl.
    - split; [exact S1|]. intros u' Q. rewrite (S2 u' Q). exact Hu. }
  apply safe_bind.
  - unfold for_range. apply (safe_for_loop (fun u => length u = length im)); [reflexivity|].
    exact Hd'.
  - intros im1 E1.
    assert (L1 : length im1 = length im).
    { revert E1. unfold for_range.
      apply (for_loop_inv (fun u => length u = length im)); [reflexivity|].
      intros i u u' Hi' Hu Q. exact (proj2 (Hd' i u Hi' Hu) u' Q). }
    rewrite Ei. cbn [bind]. destruct (Z.eqb_spec ind 0) as [|Inz]; cbn [negb];
      [apply safe_Ok|].
    destruct Hi as [?|[Hv Hc]]; [contradiction|]. unfold for_range.
    apply (safe_for_loop (fun u => length u = length im)); [exact L1|].
    intros i u Hi' Hu. change (Z.of_nat (Z.to_nat (NINDIRECT - 0))) with NINDIRECT in Hi'.
    destruct (Hc i ltac:(lia)) as (b & Eb & Hvb). rewrite Eb. cbn [bind].
    destruct (safe_process_block (traverse_dirs f img) a b u Hrec Ha Et) as [S1 S2].
    + intros Bnz. split; [exact Bnz|]. right. exists ind, i.
      split; [exact Ei|]. split; [exact Inz|]. split; [lia|exact Eb].
    + exact Hvb.
    + rewrite Hu. exact Hl.
    + split; [exact S1|]. intros u' Q. rewrite (S2 u' Q). exact Hu.
Qed.

Lemma safe_dir_chk_sweep im :
  Z.of_nat (length im) = ninodes -> safe (dir_chk_sweep img im).
Proof.
  intros Hl. unfold dir_chk_sweep, for_range.
  apply (safe_for_loop (fun _ => True)); [exact I|]. intros k t Hk _. split; [|auto].
  assert (Hk' : 0 <= k < ninodes) by (unfold ninodes; lia).
  destruct (in_type_in img Hinodes k Hk') as (t0 & Et).
  destruct (aget_in im k ltac:(lia)) as (c & Ec).
  assert (Hnl : exists nl, in_nlink img (inode_at img k) = Ok nl).
  { destruct (Hinodes k Hk') as [H0 H1]. unfold in_nlink, DINODE_SZ in *.
    destruct (ld16_in (img_map img) (inode_at img k + 6) ltac:(lia) ltac:(fold L; lia))
      as (v & ->). cbn [bind]. eauto. }
  destruct Hnl as (nl & Enl).
  unfold dir_chk_inode, chk_in_use, chk_in_free, chk_ref_cnt, chk_dir_once. cbv zeta.
  rewrite Et, Ec. cbn [bind].
  apply safe_bind.
  { destruct (negb _); [|apply safe_Ok]. destruct (_ =? 0); [apply safe_Exit|apply safe_Ok]. }
  intros [] _. apply safe_bind.
  { destruct (0 <? _); [|apply safe_Ok]. destruct (_ =? 0); [apply safe_Exit|apply safe_Ok]. }
  intros [] _. apply safe_bind.
  { destruct (_ =? T_FILE); [|apply safe_Ok]. rewrite Enl. cbn [bind].
    destruct (negb _); [apply safe_Exit|apply safe_Ok]. }
  intros [] _. destruct (_ =? T_DIR); [|apply safe_Ok].
  destruct (1 <? _); [apply safe_Exit|apply safe_Ok].
Qed.

Lemma safe_dir_chk fuel : 2 <= ninodes -> safe (dir_chk fuel img).
Proof.
  intros Hn. unfold dir_chk.
  destruct (dir_chk_seed img) as [im0| | |] eqn:E0.
  - cbn [bind].
    assert (L0 : Z.of_nat (length im0) = ninodes).
    { unfold dir_chk_seed in E0. apply bind_Ok_inv in E0 as (x & Ex & E0).
      apply incr_length in Ex, E0. rewrite E0, Ex. apply zeros_length.
      unfold ninodes in Hn. lia. }
    apply safe_bind; [apply safe_traverse_dirs; [lia|exact L0]|].
    intros im E1. apply safe_dir_chk_sweep. apply traverse_dirs_length in E1.
    rewrite E1. exact L0.
  - discriminate.
  - exfalso. unfold dir_chk_seed in E0.
    destruct (aget_in (zeros 0 (sb_ninodes (img_sb img))) 0) as (c0 & Ec0);
      [rewrite zeros_length by (unfold ninodes in Hn; lia); unfold ninodes in Hn; lia|].
    rewrite (incr_in _ _ _ Ec0) in E0. cbn [bind] in E0.
    destruct (aget_in (zupd (zeros 0 (sb_ninodes (img_sb img))) 0 (wrap_int (c0 + 1))) 1)
      as (c1 & Ec1);
      [rewrite zupd_length, zeros_length by (unfold ninodes in Hn; lia);
       unfold ninodes in Hn; lia|].
    rewrite (incr_in _ _ _ Ec1) in E0. discriminate.
  - discriminate.
Qed.

End SafeRun.

(** X18: on an image that holds the [size] blocks its superblock declares,
    laid out with [firstblk <= size] and with two inodes or more, whose
    counted addresses all lie in the data region from [firstblk] up to
    [firstblk + nblocks - 1] and whose followed directory entries all name
    inodes of the table, the whole run makes no access outside the mapping
    or outside one of its arrays, whatever verdict it reaches and however
    deep the traversal goes.  The two conditions on addresses and entries
    are the ones that no check of the program tests. *)
Theorem main_safe : forall (fuel : nat) (m : list byte) (img : img_t),
  init_img m = Ok img ->
  img_firstblk img <= sb_size (img_sb img) ->
  sb_size (img_sb img) * BSIZE <= Z.of_nat (length m) ->
  Z.of_nat (length m) <= 4294967296 ->
  2 <= sb_ninodes (img_sb img) ->
  (forall i s a, cref img i s a ->
     img_firstblk img <= a < img_firstblk img + sb_nblocks (img_sb img)) ->
  (forall a n, 0 <= a < sb_ninodes (img_sb img) -> dir_edge img a n ->
     n < sb_ninodes (img_sb img)) ->
  main fuel m <> Fault.
Proof.
  intros fuel m img Hi Hfb Hlen H4G Hn Hc He.
  destruct (init_img_well_sized m img Hi Hfb Hlen H4G) as [Hin Hbm].
  destruct (init_img_fields m img Hi) as (Hs & Hb & _ & _ & _ & _ & _ & _ & _ & Em).
  pose proof (init_img_firstblk_range m img Hi) as Hr.
  rewrite (main_eq fuel m img Hi).
  assert (S1 : safe (main_sweep img)).
  { apply (safe_main_sweep img); try assumption; try lia; rewrite Em; assumption. }
  apply safe_bind; [exact S1|]. intros [] Hsw.
  apply safe_bind; [apply (safe_bmp_chk img); try assumption; lia|]. intros [] _.
  apply safe_bind.
  - destruct (addrs_chk_cases img (main_sweep_Ok_mapped img Hsw)) as [(E & _)|[H|H]].
    + lia.
    + lia.
    + intros i s a Hcr. apply (Hc i s a Hcr).
    + intros i s a Hcr Hlt. pose proof (Hc i s a Hcr). lia.
    + rewrite E. apply safe_Ok.
    + destruct H as (k & -> & _). apply safe_Exit.
    + destruct H as (_ & i & s & a & Hcr & Hlt). pose proof (Hc i s a Hcr). lia.
  - intros [] _. apply (safe_dir_chk img); try assumption; try lia; rewrite Em; assumption.
Qed.

Lemma main_safe_witness :
  main 2 img_bad_nlink = Exit BadLinkCount /\ main 2 img_bad_nlink <> Fault.
Proof.
  split; [vm_compute; reflexivity|].
  assert (Hi : init_img img_bad_nlink = Ok (ex_img img_bad_nlink))
    by (vm_compute; reflexivity).
  set (img := ex_img img_bad_nlink) in *.
  assert (Qa : addrs_okb img (fun a => (5 <=? a) && (a <? 16)) = true)
    by (vm_compute; reflexivity).
  assert (Qe : entries_okb img (fun n => n <? 8) = true) by (vm_compute; reflexivity).
  assert (F : img_firstblk img = 5) by reflexivity.
  assert (S : sb_size (img_sb img) = 16) by reflexivity.
  assert (B : sb_nblocks (img_sb img) = 11) by reflexivity.
  assert (N : sb_ninodes (img_sb img) = 8) by reflexivity.
  assert (Ln : Z.of_nat (length img_bad_nlink) = 8192) by (vm_compute; reflexivity).
  clearbody img.
  apply (main_safe 2 img_bad_nlink img Hi).
  - rewrite F, S. lia.
  - rewrite S, Ln. cbn. lia.
  - rewrite Ln. lia.
  - rewrite N. lia.
  - intros i s a Hc. rewrite F, B.
    pose proof (proj2 (addrs_okb_spec img _ Qa) i s a Hc) as Q. cbv beta in Q.
    apply andb_true_iff in Q as [Q1 Q2]. apply Z.leb_le in Q1. apply Z.ltb_lt in Q2. lia.
  - intros a n Ha Hd. rewrite N.
    pose proof (entries_okb_spec img _ Qe a n Ha Hd) as Q. cbv beta in Q.
    apply Z.ltb_lt in Q. exact Q.
Defined.

(** ** The counts of the traversal *)

Lemma wrap_int_range z : - 2147483648 <= wrap_int z < 2147483648.
Proof.
  unfold wrap_int. pose proof (Z.mod_pos_bound (z + 2147483648) 4294967296 ltac:(lia)). lia.
Qed.

Lemma wrap_int_small z : - 2147483648 <= z < 2147483648 -> wrap_int z = z.
Proof. intros H. unfold wrap_int. rewrite Z.mod_small by lia. lia. Qed.

Lemma wrap_int_add_idem a b : wrap_int (wrap_int a + b) = wrap_int (a + b).
Proof.
  unfold wrap_int. f_equal.
  replace ((a + 2147483648) mod 4294967296 - 2147483648 + b + 2147483648)
    with ((a + 2147483648) mod 4294967296 + b) by lia.
  rewrite Zplus_mod_idemp_l. f_equal. lia.
Qed.

Lemma int_cells_incr t n t' : int_cells t -> incr t n = Ok t' -> int_cells t'.
Proof.
  intros Ht H idx x Hx. destruct (aget_cases t n) as [(c & Ec & R)|[_ N]].
  - rewrite (incr_in t n c Ec) in H. apply Ok_inj in H. subst t'.
    destruct (Z.eq_dec n idx) as [<-|Hne].
    + rewrite aget_zupd_same in Hx by exact R. apply Ok_inj in Hx. subst x.
      apply wrap_int_range.
    + rewrite aget_zupd_other in Hx by lia. eapply Ht; eauto.
  - rewrite incr_out in H by exact N. discriminate.
Qed.

Section Counts.

Variables (img : img_t) (n : Z).

(** The sum of [entries_met] over a list of followed entries. *)
Let met (d : nat) (l : list Z) : Z :=
  fold_right (fun y acc => (if y =? n then 1 else 0) + entries_met d img y n + acc) 0 l.

Lemma met_app d l1 l2 : met d (l1 ++ l2) = met d l1 + met d l2.
Proof.
  unfold met. induction l1 as [|y r IH]; cbn [app fold_right]; [lia|]. rewrite IH. lia.
Qed.

(** What a call does to the cell of [n], for a given depth. *)
Let counts (d : nat) : Prop :=
  forall a t t', traverse_dirs d img (inode_at img a) t = Ok t' ->
    int_cells t ->
    int_cells t' /\
    forall x, aget t n = Ok x -> aget t' n = Ok (wrap_int (x + entries_met d img a n)).

(** The loop over the entries of block [b]. *)
Lemma entries_loop_counts d b : counts d -> forall k j0 t t',
  for_loop k j0 (fun j inodemap =>
    let de := dirent_at b j in
    y <- de_inum img de ;;
    if y =? 0 then Ok inodemap
    else
      is_dot <- strcmp_eq (img_map img) (de_name de) dot ;;
      if is_dot then Ok inodemap
      else
        is_ddot <- strcmp_eq (img_map img) (de_name de) dotdot ;;
        if is_ddot then Ok inodemap
        else
          inodemap <- incr inodemap y ;;
          traverse_dirs d img (inode_at img y) inodemap) t = Ok t' ->
  int_cells t ->
  int_cells t' /\
  forall x, aget t n = Ok x ->
    aget t' n = Ok (wrap_int (x + met d (flat_map (fun j =>
                      if followedb img b j
                      then [val 0 (de_inum img (dirent_at b j))]
                      else []) (zrange j0 k)))).
Proof.
  intros Hd. induction k as [|k IH]; intros j0 t t' H Ht.
  - cbn in H. apply Ok_inj in H. subst t'. split; [exact Ht|]. intros x Hx.
    cbn. rewrite Z.add_0_r. rewrite wrap_int_small by (eapply Ht; eauto). exact Hx.
  - cbn [for_loop] in H. apply bind_Ok_inv in H as (t1 & E1 & H). cbv zeta in E1.
    cbn [zrange flat_map]. rewrite met_app.
    assert (Hskip : followedb img b j0 = false -> t1 = t ->
              int_cells t' /\
              forall x, aget t n = Ok x ->
                aget t' n = Ok (wrap_int (x + (met d (if followedb img b j0
                                                      then [val 0 (de_inum img (dirent_at b j0))]
                                                      else []) +
                                               met d (flat_map (fun j =>
                                                 if followedb img b j
                                                 then [val 0 (de_inum img (dirent_at b j))]
                                                 else []) (zrange (j0 + 1) k)))))).
    { intros F ->. rewrite F. destruct (IH (j0 + 1) t t' H Ht) as [I1 I2].
      split; [exact I1|]. intros x Hx. rewrite (I2 x Hx). cbn. reflexivity. }
    apply bind_Ok_inv in E1 as (y & Ey & E1).
    destruct (Z.eqb_spec y 0) as [Y0|Ynz].
    { apply Ok_inj in E1. apply Hskip; [|congruence].
      unfold followedb. cbv zeta. rewrite Ey. cbn [is_Ok val].
      subst y. reflexivity. }
    apply bind_Ok_inv in E1 as (dt & Edt & E1). destruct dt.
    { apply Ok_inj in E1. apply Hskip; [|congruence].
      unfold followedb. cbv zeta. rewrite Ey, Edt. cbn [is_Ok val negb].
      destruct (negb (y =? 0)); reflexivity. }
    apply bind_Ok_inv in E1 as (ddt & Eddt & E1). destruct ddt.
    { apply Ok_inj in E1. apply Hskip; [|congruence].
      unfold followedb. cbv zeta. rewrite Ey, Edt, Eddt. cbn [is_Ok val negb].
      destruct (negb (y =? 0)); reflexivity. }
    apply bind_Ok_inv in E1 as (t2 & E2 & E1).
    assert (F : followedb img b j0 = true).
    { unfold followedb. cbv zeta. rewrite Ey, Edt, Eddt. cbn [is_Ok val negb andb].
      destruct (Z.eqb_spec y 0); [contradiction|reflexivity]. }
    rewrite F, Ey. cbn [val].
    pose proof (int_cells_incr t y t2 Ht E2) as Ht2.
    destruct (Hd y t2 t1 E1 Ht2) as [Ht1 C1].
    destruct (IH (j0 + 1) t1 t' H Ht1) as [I1 I2]. split; [exact I1|].
    intros x Hx.
    assert (X2 : aget t2 n = Ok (wrap_int (x + (if y =? n then 1 else 0)))).
    { destruct (aget_cases t y) as [(c & Ec & R)|[_ N]];
        [|rewrite incr_out in E2 by exact N; discriminate].
      rewrite (incr_in t y c Ec) in E2. apply Ok_inj in E2. subst t2.
      destruct (Z.eqb_spec y n) as [->|Hne].
      - rewrite aget_zupd_same by exact R. assert (c = x) by congruence. subst c.
        reflexivity.
      - rewrite aget_zupd_other by lia. rewrite Z.add_0_r.
        rewrite wrap_int_small by (eapply Ht; eauto). exact Hx. }
    rewrite (I2 _ (C1 _ X2)). rewrite wrap_int_add_idem, <- Z.add_assoc.
    rewrite wrap_int_add_idem. f_equal. f_equal.
    unfold met. cbn [fold_right]. lia.
Qed.

Lemma process_block_counts d b t t' :
  counts d ->
  process_block (traverse_dirs d img) img b t = Ok t' ->
  int_cells t ->
  int_cells t' /\
  forall x, aget t n = Ok x ->
    aget t' n = Ok (wrap_int (x + met d (followed_in_block img b))).
Proof.
  intros Hd H Ht. unfold process_block in H. unfold followed_in_block.
  destruct (Z.eqb_spec b 0) as [|Bnz].
  - apply Ok_inj in H. subst t'. split; [exact Ht|]. intros x Hx. cbn.
    rewrite Z.add_0_r. rewrite wrap_int_small by (eapply Ht; eauto). exact Hx.
  - unfold for_range in H. change (DPB - 0) with DPB in H.
    exact (entries_loop_counts d b Hd _ 0 t t' H Ht).
Qed.

(** The loops over the blocks, read by [rd]. *)
Lemma blocks_loop_counts d (rd : Z -> result Z) : counts d -> forall k i0 t t',
  for_loop k i0 (fun i inodemap =>
    b <- rd i ;; process_block (traverse_dirs d img) img b inodemap) t = Ok t' ->
  int_cells t ->
  int_cells t' /\
  forall x, aget t n = Ok x ->
    aget t' n = Ok (wrap_int (x + met d (flat_map (fun i =>
                      followed_in_block img (val 0 (rd i))) (zrange i0 k)))).
Proof.
  intros Hd. induction k as [|k IH]; intros i0 t t' H Ht.
  - cbn in H. apply Ok_inj in H. subst t'. split; [exact Ht|]. intros x Hx.
    cbn. rewrite Z.add_0_r. rewrite wrap_int_small by (eapply Ht; eauto). exact Hx.
  - cbn [for_loop] in H. apply bind_Ok_inv in H as (t1 & E1 & H).
    apply bind_Ok_inv in E1 as (b & Eb & E1).
    destruct (process_block_counts d b t t1 Hd E1 Ht) as [Ht1 C1].
    destruct (IH (i0 + 1) t1 t' H Ht1) as [I1 I2]. split; [exact I1|].
    intros x Hx. cbn [zrange flat_map]. rewrite met_app. rewrite Eb. cbn [val].
    rewrite (I2 _ (C1 _ Hx)). rewrite wrap_int_add_idem. f_equal. f_equal. lia.
Qed.

Lemma traverse_dirs_counts : forall d, counts d.
Proof.
  induction d as [|d IH]; intros a t t' H Ht; [discriminate|].
  cbn [traverse_dirs] in H. cbn [entries_met]. fold (met d (followed_entries img a)).
  unfold followed_entries. cbv zeta.
  apply bind_Ok_inv in H as (ty & Ety & H). rewrite Ety.
  destruct (Z.eqb_spec ty T_DIR) as [->|Tn]; cbn [negb] in H.
  2:{ apply Ok_inj in H. subst t'. split; [exact Ht|]. intros x Hx. cbn.
      rewrite Z.add_0_r. rewrite wrap_int_small by (eapply Ht; eauto). exact Hx. }
  apply bind_Ok_inv in H as (t1 & E1 & H). unfold for_range in E1.
  change (NDIRECT - 0) with NDIRECT in E1.
  destruct (blocks_loop_counts d (in_addr img (inode_at img a)) IH _ 0 t t1 E1 Ht)
    as [Ht1 C1].
  apply bind_Ok_inv in H as (ind & Ei & H). rewrite Ei. cbn [val]. rewrite met_app.
  destruct (Z.eqb_spec ind 0) as [|Inz]; cbn [negb] in H.
  - apply Ok_inj in H. subst t'. split; [exact Ht1|]. intros x Hx.
    rewrite (C1 x Hx). f_equal. f_equal. cbn. lia.
  - unfold for_range in H. change (NINDIRECT - 0) with NINDIRECT in H.
    destruct (blocks_loop_counts d (ind_slot img ind) IH _ 0 t1 t' H Ht1) as [Ht' C2].
    split; [exact Ht'|]. intros x Hx. rewrite (C2 _ (C1 x Hx)).
    rewrite wrap_int_add_idem. f_equal. f_equal. lia.
Qed.

End Counts.

Lemma int_cells_zeros n : int_cells (zeros 0 n).
Proof.
  intros idx x Hx. destruct (Z_le_dec n 0) as [Hn|Hn].
  - rewrite zeros_nonpos in Hx by exact Hn. destruct idx; discriminate.
  - destruct (aget_cases (zeros 0 n) idx) as [(y & _ & R)|[E _]]; [|congruence].
    rewrite zeros_length in R by lia. rewrite aget_zeros in Hx by exact R.
    apply Ok_inj in Hx. lia.
Qed.

Lemma int_cells_seed img im0 : dir_chk_seed img = Ok im0 -> int_cells im0.
Proof.
  unfold dir_chk_seed. intros H. apply bind_Ok_inv in H as (x & Ex & H).
  eapply int_cells_incr; [|exact H]. eapply int_cells_incr; [|exact Ex].
  apply int_cells_zeros.
Qed.

(** X19: the count that [traverse_dirs] adds to the cell of inode [n] is the
    number of followed entries for [n] met on the walks from the starting
    inode, each entry counted once for every walk that comes to it (the
    addition is that of [int]).  For an accepted image it follows that the
    link count of every file from inode 2 on is the number of directory
    entries for it met from the root directory. *)
Theorem traverse_dirs_counts_entries : forall (fuel : nat) (img : img_t),
  (forall a im im' n x,
     traverse_dirs fuel img (inode_at img a) im = Ok im' ->
     int_cells im -> aget im n = Ok x ->
     aget im' n = Ok (wrap_int (x + entries_met fuel img a n))) /\
  (forall m n,
     init_img m = Ok img -> main fuel m = Ok tt ->
     2 <= n < sb_ninodes (img_sb img) ->
     in_type img (inode_at img n) = Ok T_FILE ->
     in_nlink img (inode_at img n) = Ok (wrap_int (entries_met fuel img 1 n))).
Proof.
  intros fuel img. split.
  - intros a im im' n x H Hc Hx.
    exact (proj2 (traverse_dirs_counts img n fuel a im im' H Hc) x Hx).
  - intros m n Hi H Hn Ht. rewrite (main_eq fuel m img Hi) in H.
    apply bind_Ok_tt_inv in H as (_ & _ & H). apply bind_Ok_tt_inv in H as (_ & _ & H).
    apply bind_Ok_tt_inv in H as (_ & _ & H). unfold dir_chk in H.
    apply bind_Ok_tt_inv in H as (im0 & E0 & H). apply bind_Ok_tt_inv in H as (im & E1 & H).
    pose proof (proj2 (traverse_dirs_counts img n fuel 1 im0 im E1 (int_cells_seed img im0 E0))
                  0 (dir_chk_seed_cells img im0 n E0 Hn)) as Hc.
    rewrite Z.add_0_l in Hc.
    unfold dir_chk_sweep, for_range in H.
    destruct (for_loop_unit_inv _ _ _ _ H) as [[_ Hall]|(k & _ & _ & _ & Hab)];
      [|destruct (Hab tt); reflexivity].
    specialize (Hall n ltac:(lia)). unfold dir_chk_inode in Hall. cbv zeta in Hall.
    apply bind_Ok_tt_inv in Hall as ([] & _ & Hall).
    apply bind_Ok_tt_inv in Hall as ([] & _ & Hall).
    apply bind_Ok_tt_inv in Hall as ([] & H3 & _). unfold chk_ref_cnt in H3.
    rewrite Ht in H3. cbn [bind] in H3. rewrite Z.eqb_refl in H3.
    destruct (plain_in_nlink img (inode_at img n)) as [(nl & Hnl)|Hnl];
      rewrite Hnl in H3; [|discriminate]. cbn [bind] in H3. rewrite Hc in H3.
    cbn [bind] in H3.
    destruct (Z.eqb_spec nl (wrap_int (entries_met fuel img 1 n))) as [Q|Q];
      [congruence|discriminate].
Qed.

Lemma traverse_dirs_counts_entries_witness :
  main 2 img_shared_indirect = Ok tt /\
  entries_met 2 (ex_img img_shared_indirect) 1 3 = 1 /\
  in_nlink (ex_img img_shared_indirect) (inode_at (ex_img img_shared_indirect) 3) = Ok 1.
Proof.
  assert (Hi : init_img img_shared_indirect = Ok (ex_img img_shared_indirect))
    by (vm_compute; reflexivity).
  assert (Hm : main 2 img_shared_indirect = Ok tt) by (vm_compute; reflexivity).
  assert (He : entries_met 2 (ex_img img_shared_indirect) 1 3 = 1)
    by (vm_compute; reflexivity).
  split; [exact Hm|]. split; [exact He|].
  pose proof (proj2 (traverse_dirs_counts_entries 2 (ex_img img_shared_indirect))
                img_shared_indirect 3 Hi Hm) as H.
  rewrite He in H. apply H.
  - cbn. lia.
  - vm_compute. reflexivity.
Defined.
